(** * LearnCC: table format, internal keys and the sharded LRU cache

    A shallow embedding of the code under [db/dbformat.cc], [db/memtable.cc],
    [table/block_builder.cc], [table/filter_block.cc], [table/format.cc],
    [util/cache.cc] and [util/random.h], followed by the properties checked
    against it.

    Conventions.
    - A [Slice] or [std::string] is a [list byte]; a pointer into it is the
      list with the bytes before the pointer dropped.
    - [uint32_t], [uint64_t] and [size_t] values are integers in [Z]; every
      place where the C++ narrows or may wrap is written with [wrap32] or
      [wrap64].
    - A function returns [option] where the C++ has an [assert] or reads
      memory through an unchecked pointer: [None] stands for the failed
      assertion or the access outside the buffer. *)

From Stdlib Require Import ZArith List Lia Bool.
From Stdlib.Strings Require Import Byte.
From stdpp Require Import base option list gmap strings.

Local Open Scope Z_scope.

(* ===================================================================== *)
(** * Part I: the embedding                                               *)
(* ===================================================================== *)

(** ** Machine integers and bytes *)

Definition wrap32 (v : Z) : Z := v mod 2 ^ 32.
Definition wrap64 (v : Z) : Z := v mod 2 ^ 64.

Definition Z_of_byte (b : byte) : Z := Z.of_N (Byte.to_N b).

Definition byte_of_Z (v : Z) : byte :=
  match Byte.of_N (Z.to_N (v mod 256)) with
  | Some b => b
  | None => x00
  end.

#[global] Instance byte_eq_decision : EqDecision byte := Byte.byte_eq_dec.

(** [Slice(data + n, size - n)] and [Slice(data, n)] *)
Definition slice_from (n : Z) (s : list byte) : list byte := drop (Z.to_nat n) s.
Definition slice_to (n : Z) (s : list byte) : list byte := take (Z.to_nat n) s.
Definition size (s : list byte) : Z := Z.of_nat (length s).

(** ** util/coding *)

Module Coding.

(** Modelled from the spec: [util/coding.h] and [util/coding.cc] are not among
    the sources.  The spec fixes the wire format (section 6: all integers
    little-endian, fixed 4-byte and 8-byte fields, varint32 and varint64
    length fields: seven payload bits per byte, least significant group
    first, the high bit set on every byte but the last). *)
Definition EncodeFixed32 (value : Z) : list byte :=
  [ byte_of_Z (Z.land value 255);
    byte_of_Z (Z.land (Z.shiftr value 8) 255);
    byte_of_Z (Z.land (Z.shiftr value 16) 255);
    byte_of_Z (Z.land (Z.shiftr value 24) 255) ].

Definition PutFixed32 (dst : list byte) (value : Z) : list byte :=
  dst ++ EncodeFixed32 value.

(** Modelled from the spec: see [EncodeFixed32]. *)
Definition EncodeFixed64 (value : Z) : list byte :=
  EncodeFixed32 (Z.land value 4294967295) ++ EncodeFixed32 (Z.shiftr value 32).

Definition PutFixed64 (dst : list byte) (value : Z) : list byte :=
  dst ++ EncodeFixed64 value.

(** Modelled from the spec: see [EncodeFixed32].  The pointer argument is the
    list from that pointer on; fewer than four bytes left is a read outside
    the buffer. *)
Definition DecodeFixed32 (ptr : list byte) : option Z :=
  match ptr with
  | b0 :: b1 :: b2 :: b3 :: _ =>
      Some (Z.lor (Z_of_byte b0)
             (Z.lor (Z.shiftl (Z_of_byte b1) 8)
               (Z.lor (Z.shiftl (Z_of_byte b2) 16)
                      (Z.shiftl (Z_of_byte b3) 24))))
  | _ => None
  end.

(** Modelled from the spec: see [EncodeFixed32]. *)
Definition DecodeFixed64 (ptr : list byte) : option Z :=
  lo ← DecodeFixed32 ptr;
  hi ← DecodeFixed32 (drop 4 ptr);
  Some (Z.lor (Z.shiftl hi 32) lo).

(** Modelled from the spec: see [EncodeFixed32].  [more] is the number of
    continuation bytes still allowed: 4 for a 32-bit value, 9 for a 64-bit
    one. *)
Fixpoint EncodeVarint (more : nat) (v : Z) : list byte :=
  match more with
  | O => [byte_of_Z v]
  | S more' =>
      if v <? 128 then [byte_of_Z v]
      else byte_of_Z (Z.lor (Z.land v 127) 128) :: EncodeVarint more' (Z.shiftr v 7)
  end.

Definition EncodeVarint32 (v : Z) : list byte := EncodeVarint 4 v.
Definition EncodeVarint64 (v : Z) : list byte := EncodeVarint 9 v.

Definition PutVarint32 (dst : list byte) (v : Z) : list byte :=
  dst ++ EncodeVarint32 v.
Definition PutVarint64 (dst : list byte) (v : Z) : list byte :=
  dst ++ EncodeVarint64 v.

(** Modelled from the spec: see [EncodeFixed32].  The decoding loop: [n]
    bytes may still be read, [shift] is the position of the next group and
    [result] the bits gathered so far; [wrap] is the width of the result.
    The answer is the value and the input after the bytes consumed. *)
Fixpoint GetVarintPtr (wrap : Z -> Z) (n : nat) (shift result : Z) (p : list byte)
  : option (Z * list byte) :=
  match n with
  | O => None
  | S n' =>
      match p with
      | [] => None
      | b :: p' =>
          let byte := Z_of_byte b in
          if Z.eqb (Z.land byte 128) 0
          then Some (Z.lor result (wrap (Z.shiftl byte shift)), p')
          else GetVarintPtr wrap n' (shift + 7)
                 (Z.lor result (wrap (Z.shiftl (Z.land byte 127) shift))) p'
      end
  end.

(** [bool GetVarint32(Slice* input, uint32_t* value)]: on success the value
    and the advanced input, on failure the input is left as it was. *)
Definition GetVarint32 (input : list byte) : option (Z * list byte) :=
  GetVarintPtr wrap32 5 0 0 input.
Definition GetVarint64 (input : list byte) : option (Z * list byte) :=
  GetVarintPtr wrap64 10 0 0 input.

End Coding.

(** ** db/dbformat *)

Module DBFormat.
Import Coding.

(** The enumeration [ValueType] and the constant [kValueTypeForSeek] are
    declared in [db/dbformat.h], which is not among the sources: the three
    numbers are taken as a parameter.  A [ValueType] is the integer of its
    enumerator. *)
Record ValueTypes : Type := {
  kTypeDeletion : Z;
  kTypeValue : Z;
  kValueTypeForSeek : Z
}.

(** What the sources say about the numbering: the two enumerators are
    different one-byte values (they are the case labels of one [switch] in
    [MemTable::Get], and [AppendInternalKey] stores either in the low byte of
    the tag), and both pass the assertion [t <= kValueTypeForSeek] of
    [PackSequenceAndType]. *)
Definition consistent (vt : ValueTypes) : Prop :=
  kTypeDeletion vt <> kTypeValue vt /\
  0 <= kTypeDeletion vt < 256 /\ 0 <= kTypeValue vt < 256 /\
  0 <= kValueTypeForSeek vt < 256 /\
  kTypeDeletion vt <= kValueTypeForSeek vt /\
  kTypeValue vt <= kValueTypeForSeek vt.

(** The numbering of leveldb's header, to run the definitions on. *)
Definition leveldb_types : ValueTypes :=
  {| kTypeDeletion := 0; kTypeValue := 1; kValueTypeForSeek := 1 |}.

(** Modelled from the spec: [kMaxSequenceNumber] is defined in
    [db/dbformat.h], which is not among the sources; section 3 gives the
    sequence number 56 bits, with maximum [2^56 - 1]. *)
Definition kMaxSequenceNumber : Z := Z.shiftl 1 56 - 1.

Record ParsedInternalKey : Type := {
  user_key : list byte;
  sequence : Z;         (* SequenceNumber, a uint64_t *)
  type : Z              (* ValueType *)
}.

(** Modelled from the spec: [ExtractUserKey] is defined in [db/dbformat.h],
    which is not among the sources: the internal key without its 8-byte
    suffix (section 3), with the assertion that there are 8 bytes to cut. *)
Definition ExtractUserKey (internal_key : list byte) : option (list byte) :=
  if negb (8 <=? size internal_key) then None (* assert *)
  else Some (slice_to (size internal_key - 8) internal_key).

(** The 8-byte suffix of an internal key and its two fields (section 6: the
    last 8 bytes are [(sequence:56 << 8) | type:8]). *)
Definition tag_of (internal_key : list byte) : option Z :=
  DecodeFixed64 (slice_from (size internal_key - 8) internal_key).
Definition sequence_of (internal_key : list byte) : option Z :=
  num ← tag_of internal_key; Some (Z.shiftr num 8).
Definition type_of (internal_key : list byte) : option Z :=
  num ← tag_of internal_key; Some (Z.land num 255).

Section WithValueTypes.
Variable vt : ValueTypes.

Definition PackSequenceAndType (seq : Z) (t : Z) : option Z :=
    if negb (seq <=? kMaxSequenceNumber) then None (* assert *)
    else if negb (t <=? kValueTypeForSeek vt) then None (* assert *)
    else Some (Z.lor (wrap64 (Z.shiftl seq 8)) t).

Definition AppendInternalKey (result : list byte) (key : ParsedInternalKey)
    : option (list byte) :=
    let result := result ++ user_key key in
    packed ← PackSequenceAndType (sequence key) (type key);
    Some (PutFixed64 result packed).

  (** [LookupKey::LookupKey]: the bytes from [start_] to [end_].  [usize + 8]
      is a [size_t] passed where [EncodeVarint32] takes a [uint32_t]. *)
Definition LookupKey (user_key : list byte) (s : Z) : option (list byte) :=
    let usize := size user_key in
    let dst := EncodeVarint32 (wrap32 (usize + 8)) in
    let dst := dst ++ user_key in
    packed ← PackSequenceAndType s (kValueTypeForSeek vt);
    Some (dst ++ EncodeFixed64 packed).
End WithValueTypes.

Section InternalKeyComparator.
  (** [user_comparator_->Compare]: negative, zero or positive. *)
Variable user_comparator : list byte -> list byte -> Z.

Definition Compare (akey bkey : list byte) : option Z :=
    ua ← ExtractUserKey akey;
    ub ← ExtractUserKey bkey;
    let r := user_comparator ua ub in
    if r =? 0 then
      anum ← DecodeFixed64 (slice_from (size akey - 8) akey);
      bnum ← DecodeFixed64 (slice_from (size bkey - 8) bkey);
      if anum >? bnum then Some (-1)
      else if anum <? bnum then Some 1
      else Some r
    else Some r.
End InternalKeyComparator.

(** A user comparator to run the comparator on: the order of [memcmp] on the
    common prefix, the shorter key first.  (The repository's own comparator
    is not among the sources.) *)
Fixpoint BytewiseCompare (a b : list byte) : Z :=
  match a, b with
  | [], [] => 0
  | [], _ :: _ => -1
  | _ :: _, [] => 1
  | x :: a', y :: b' =>
      if Z_of_byte x <? Z_of_byte y then -1
      else if Z_of_byte y <? Z_of_byte x then 1
      else BytewiseCompare a' b'
  end.

End DBFormat.

(** ** table/block_builder *)

Module BlockBuilder.
Import Coding.

Record Options : Type := {
  block_restart_interval : Z;                       (* int *)
  comparator : list byte -> list byte -> Z          (* comparator->Compare *)
}.

Record t : Type := {
  options_ : Options;
  buffer_ : list byte;        (* std::string *)
  restarts_ : list Z;         (* std::vector<uint32_t> *)
  counter_ : Z;               (* int *)
  finished_ : bool;
  last_key_ : list byte       (* std::string *)
}.

(** [BlockBuilder::BlockBuilder] *)
Definition new (options : Options) : option t :=
  if negb (1 <=? block_restart_interval options) then None (* assert *)
  else Some {| options_ := options; buffer_ := []; restarts_ := [0];
               counter_ := 0; finished_ := false; last_key_ := [] |}.

Definition Reset (b : t) : t :=
  {| options_ := options_ b; buffer_ := []; restarts_ := [0];
     counter_ := 0; finished_ := false; last_key_ := [] |}.

Definition CurrentSizeEstimate (b : t) : Z :=
  wrap64 (size (buffer_ b) + Z.of_nat (length (restarts_ b)) * 4 + 4).

(** The loop [for (i = 0; i < restarts_.size(); i++) PutFixed32(&buffer_, restarts_[i])] *)
Fixpoint put_restarts (buffer : list byte) (restarts : list Z) : list byte :=
  match restarts with
  | [] => buffer
  | r :: restarts' => put_restarts (PutFixed32 buffer r) restarts'
  end.

(** [BlockBuilder::Finish]: the builder afterwards and the slice returned. *)
Definition Finish (b : t) : t * list byte :=
  let buffer := put_restarts (buffer_ b) (restarts_ b) in
  let buffer := PutFixed32 buffer (wrap32 (Z.of_nat (length (restarts_ b)))) in
  ({| options_ := options_ b; buffer_ := buffer; restarts_ := restarts_ b;
      counter_ := counter_ b; finished_ := true; last_key_ := last_key_ b |},
   buffer).

(** The loop
    [while ((shared < min_length) && (last_key_piece[shared] == key[shared])) shared++]
    started at [shared = 0]. *)
Fixpoint shared_prefix (last_key_piece key : list byte) : Z :=
  match last_key_piece, key with
  | x :: last', y :: key' =>
      if Byte.eqb x y then 1 + shared_prefix last' key' else 0
  | _, _ => 0
  end.

(** [BlockBuilder::Add] *)
Definition Add (b : t) (key value : list byte) : option t :=
  let last_key_piece := last_key_ b in
  let interval := block_restart_interval (options_ b) in
  if finished_ b then None (* assert *)
  else if negb (counter_ b <=? interval) then None (* assert *)
  else if negb (bool_decide (buffer_ b = [])
                || (comparator (options_ b) key last_key_piece >? 0)) then None (* assert *)
  else
    let '(shared, restarts, counter) :=
      if counter_ b <? interval
      then (shared_prefix last_key_piece key, restarts_ b, counter_ b)
      else (0, restarts_ b ++ [wrap32 (size (buffer_ b))], 0) in
    let non_shared := size key - shared in
    let buffer := PutVarint32 (buffer_ b) (wrap32 shared) in
    let buffer := PutVarint32 buffer (wrap32 non_shared) in
    let buffer := PutVarint32 buffer (wrap32 (size value)) in
    let buffer := buffer ++ slice_to non_shared (slice_from shared key) in
    let buffer := buffer ++ value in
    let last_key := slice_to shared (last_key_ b) in   (* resize(shared) *)
    let last_key := last_key ++ slice_to non_shared (slice_from shared key) in
    if negb (bool_decide (last_key = key)) then None (* assert *)
    else Some {| options_ := options_ b; buffer_ := buffer; restarts_ := restarts;
                 counter_ := counter + 1; finished_ := false; last_key_ := last_key |}.

(** Feeding a sequence of pairs through [Add], first pair first. *)
Fixpoint AddAll (b : t) (kvs : list (list byte * list byte)) : option t :=
  match kvs with
  | [] => Some b
  | (key, value) :: kvs' => b' ← Add b key value; AddAll b' kvs'
  end.

(** [new], the [Add]s and [Finish]: the finished block. *)
Definition build (options : Options) (kvs : list (list byte * list byte))
  : option (list byte) :=
  b ← new options; b' ← AddAll b kvs; Some (snd (Finish b')).

End BlockBuilder.

(** ** Reading a block back *)

Module Block.
Import Coding.

(** One decoded record: where it starts in the block, its three length
    fields as stored, and the key and value it stands for. *)
Record Entry : Type := {
  e_offset : Z;
  e_shared : Z;
  e_non_shared : Z;
  e_key : list byte;
  e_value : list byte
}.

(** Modelled from the spec: the reader of a block ([table/block.cc]) is not
    among the sources.  The layout is the one of section 6: records
    [shared(varint32) unshared(varint32) valuelen(varint32) key_delta value],
    then the restart offsets (4 bytes each) and their count (4 bytes). *)
Definition NumRestarts (block : list byte) : option Z :=
  if size block <? 4 then None
  else DecodeFixed32 (slice_from (size block - 4) block).

(** Modelled from the spec: see [NumRestarts]; where the restart array
    starts, which is where the records end. *)
Definition restart_offset (block : list byte) : option Z :=
  n ← NumRestarts block;
  let off := size block - (1 + n) * 4 in
  if off <? 0 then None else Some off.

(** Modelled from the spec: see [NumRestarts]; the [index]-th restart offset. *)
Definition GetRestartPoint (block : list byte) (index : Z) : option Z :=
  off ← restart_offset block;
  DecodeFixed32 (slice_from (off + index * 4) block).

(** Modelled from the spec: see [NumRestarts]; the three length fields at
    [p], and the bytes after them. *)
Definition DecodeEntry (p : list byte) : option (Z * Z * Z * list byte) :=
  '(shared, p) ← GetVarint32 p;
  '(non_shared, p) ← GetVarint32 p;
  '(value_length, p) ← GetVarint32 p;
  Some (shared, non_shared, value_length, p).

(** Modelled from the spec: the decoding of section 8, record by record; the
    key of a record is the first [shared] bytes of the key before it followed
    by the [unshared] bytes stored.  [data] is the record area from [offset]
    on, [last_key] the key reconstructed before; a record that does not fit
    or shares more than the previous key has makes the block unreadable.
    Every record takes at least three bytes, so [length data] steps are
    enough. *)
Fixpoint decode_from (fuel : nat) (offset : Z) (last_key : list byte) (data : list byte)
  : option (list Entry) :=
  match data with
  | [] => Some []
  | _ =>
      match fuel with
      | O => None
      | S fuel' =>
          '(shared, non_shared, value_length, p) ← DecodeEntry data;
          if (size last_key <? shared) || (size p <? non_shared + value_length)
          then None
          else
            let key := slice_to shared last_key ++ slice_to non_shared p in
            let value := slice_to value_length (slice_from non_shared p) in
            let p' := slice_from (non_shared + value_length) p in
            rest ← decode_from fuel' (offset + (size data - size p'))
                      key p';
            Some ({| e_offset := offset; e_shared := shared;
                     e_non_shared := non_shared;
                     e_key := key; e_value := value |} :: rest)
      end
  end.

(** Modelled from the spec: see [decode_from]; all records of a finished
    block. *)
Definition decode (block : list byte) : option (list Entry) :=
  off ← restart_offset block;
  let data := slice_to off block in
  decode_from (length data) 0 [] data.

Definition key_value (e : Entry) : list byte * list byte := (e_key e, e_value e).

(** Modelled from the spec: see [NumRestarts]; the restart array of a block. *)
Definition restarts (block : list byte) : option (list Z) :=
  n ← NumRestarts block;
  mapM (fun i => GetRestartPoint block (Z.of_nat i)) (seq 0 (Z.to_nat n)).

End Block.

(** ** table/filter_block *)

Module FilterBlock.
Import Coding.

(** The injected filter policy ([leveldb/filter_policy.h]): [CreateFilter]
    maps the keys and the destination string to the destination string
    afterwards, [KeyMayMatch] is the membership test on a key and a filter. *)
Record FilterPolicy : Type := {
  CreateFilter : list (list byte) -> list byte -> list byte;
  KeyMayMatch : list byte -> list byte -> bool
}.

Definition kFilterBaseLg : Z := 11.
Definition kFilterBase : Z := Z.shiftl 1 kFilterBaseLg.

Module Builder.

Record t : Type := {
  policy_ : FilterPolicy;
  keys_ : list byte;              (* flattened key contents *)
  start_ : list Z;                (* starting index in keys_ of each key *)
  result_ : list byte;            (* filter data computed so far *)
  filter_offsets_ : list Z        (* std::vector<uint32_t> *)
}.

Definition new (policy : FilterPolicy) : t :=
  {| policy_ := policy; keys_ := []; start_ := []; result_ := [];
     filter_offsets_ := [] |}.

Definition AddKey (b : t) (key : list byte) : t :=
  {| policy_ := policy_ b; keys_ := keys_ b ++ key;
     start_ := start_ b ++ [size (keys_ b)]; result_ := result_ b;
     filter_offsets_ := filter_offsets_ b |}.

(** [tmp_keys_[i] = Slice(keys_.data() + start_[i], start_[i+1] - start_[i])] *)
Fixpoint tmp_keys (keys : list byte) (start : list Z) : list (list byte) :=
  match start with
  | s0 :: ((s1 :: _) as start') =>
      slice_to (s1 - s0) (slice_from s0 keys) :: tmp_keys keys start'
  | _ => []
  end.

Definition GenerateFilter (b : t) : t :=
  if bool_decide (start_ b = []) then
    {| policy_ := policy_ b; keys_ := keys_ b; start_ := start_ b;
       result_ := result_ b;
       filter_offsets_ := filter_offsets_ b ++ [wrap32 (size (result_ b))] |}
  else
    let start := start_ b ++ [size (keys_ b)] in
    {| policy_ := policy_ b; keys_ := []; start_ := [];
       result_ := CreateFilter (policy_ b) (tmp_keys (keys_ b) start) (result_ b);
       filter_offsets_ := filter_offsets_ b ++ [wrap32 (size (result_ b))] |}.

(** [StartBlock]: every call of [GenerateFilter] adds one offset, so the loop
    [while (filter_index > filter_offsets_.size())] runs
    [filter_index - filter_offsets_.size()] times. *)
Definition StartBlock (b : t) (block_offset : Z) : option t :=
  let filter_index := block_offset / kFilterBase in
  let have := Z.of_nat (length (filter_offsets_ b)) in
  if negb (have <=? filter_index) then None (* assert *)
  else Some (Nat.iter (Z.to_nat (filter_index - have)) GenerateFilter b).

Definition Finish (b : t) : t * list byte :=
  let b := if bool_decide (start_ b = []) then b else GenerateFilter b in
  let array_offset := wrap32 (size (result_ b)) in
  let result := BlockBuilder.put_restarts (result_ b) (filter_offsets_ b) in
  let result := PutFixed32 result array_offset in
  let result := result ++ [byte_of_Z kFilterBaseLg] in
  ({| policy_ := policy_ b; keys_ := keys_ b; start_ := start_ b;
      result_ := result; filter_offsets_ := filter_offsets_ b |}, result).

End Builder.

Module Reader.

(** [data_] is [None] for the null pointer and the block contents otherwise;
    [offset_] is kept as its distance from [data_]. *)
Record t : Type := {
  policy_ : FilterPolicy;
  data_ : option (list byte);
  offset_ : Z;
  num_ : Z;
  base_lg_ : Z
}.

(** [FilterBlockReader::FilterBlockReader].  The last byte is read as an
    unsigned number; where [char] is signed, a byte of [0x80] or more is
    sign-extended into [base_lg_], and is 64 or more under either reading. *)
Definition new (policy : FilterPolicy) (contents : list byte) : option t :=
  let n := size contents in
  let r0 := {| policy_ := policy; data_ := None; offset_ := 0; num_ := 0;
               base_lg_ := 0 |} in
  if n <? 5 then Some r0
  else
    b ← contents !! Z.to_nat (n - 1);
    let base_lg := Z_of_byte b in
    last_word ← DecodeFixed32 (slice_from (n - 5) contents);
    let r1 := {| policy_ := policy; data_ := None; offset_ := 0; num_ := 0;
                 base_lg_ := base_lg |} in
    if last_word >? n - 5 then Some r1
    else Some {| policy_ := policy; data_ := Some contents; offset_ := last_word;
                 num_ := (n - 5 - last_word) / 4; base_lg_ := base_lg |}.

(** [FilterBlockReader::KeyMayMatch].  A shift by 64 or more is undefined. *)
Definition KeyMayMatch (r : t) (block_offset : Z) (key : list byte) : option bool :=
  if 64 <=? base_lg_ r then None
  else
    let index := Z.shiftr block_offset (base_lg_ r) in
    if index <? num_ r then
      data ← data_ r;
      start ← DecodeFixed32 (slice_from (offset_ r + index * 4) data);
      limit ← DecodeFixed32 (slice_from (offset_ r + index * 4 + 4) data);
      if (start <=? limit) && (limit <=? offset_ r) then
        let filter := slice_to (limit - start) (slice_from start data) in
        Some (FilterBlock.KeyMayMatch (policy_ r) key filter)
      else if start =? limit then
        (* Empty filters do not match any keys *)
        Some false
      else Some true
    else Some true. (* Errors are treated as potential matches *)

End Reader.

End FilterBlock.

(** ** util/status and table/format *)

Module Format.
Import Coding.

Inductive Code : Set :=
  kOk | kNotFound | kCorruption | kNotSupported | kInvalidArgument | kIOError.

(** A [Status] is OK or a code with its message. *)
Inductive Status : Type :=
  | OK
  | NotOK (code : Code) (message : string).

(** [Status::Status(code, msg, msg2)] of [util/status.cc] *)
Definition Status_new (code : Code) (msg msg2 : string) : Status :=
  NotOK code (if bool_decide (msg2 = EmptyString) then msg
              else msg +:+ ": " +:+ msg2).

(** Modelled from the spec: [leveldb/status.h] is not among the sources; the
    named constructor for the Corruption kind and the two tests used here. *)
Definition Corruption (msg : string) : Status := Status_new kCorruption msg EmptyString.

Definition ok (s : Status) : bool :=
  match s with OK => true | NotOK _ _ => false end.

Definition IsCorruption (s : Status) : bool :=
  match s with NotOK kCorruption _ => true | _ => false end.

Record BlockHandle : Type := {
  offset_ : Z;     (* uint64_t *)
  size_ : Z        (* uint64_t *)
}.

(** Modelled from the spec: [table/format.h] is not among the sources.
    Section 6: a handle takes at most 20 bytes, the footer is 48 bytes, the
    block trailer is 1 type byte and 4 checksum bytes. *)
Definition kMaxEncodedLength : Z := 10 + 10.
Definition kEncodedLength : Z := 2 * kMaxEncodedLength + 8.
Definition kBlockTrailerSize : Z := 5.

(** Modelled from the spec: the constructor of [BlockHandle] in
    [table/format.h] leaves both fields at the all-ones value that
    [EncodeTo] asserts against. *)
Definition BlockHandle_new : BlockHandle :=
  {| offset_ := 2 ^ 64 - 1; size_ := 2 ^ 64 - 1 |}.

Definition BlockHandle_EncodeTo (h : BlockHandle) (dst : list byte) : option (list byte) :=
  if bool_decide (offset_ h = 2 ^ 64 - 1) then None (* assert *)
  else if bool_decide (size_ h = 2 ^ 64 - 1) then None (* assert *)
  else Some (PutVarint64 (PutVarint64 dst (offset_ h)) (size_ h)).

(** [BlockHandle::DecodeFrom]: the status, the handle and the input
    afterwards. *)
Definition BlockHandle_DecodeFrom (h : BlockHandle) (input : list byte)
  : Status * BlockHandle * list byte :=
  match GetVarint64 input with
  | Some (offset, input1) =>
      let h1 := {| offset_ := offset; size_ := size_ h |} in
      match GetVarint64 input1 with
      | Some (sz, input2) => (OK, {| offset_ := offset; size_ := sz |}, input2)
      | None => (Corruption "bad block handle", h1, input1)
      end
  | None => (Corruption "bad block handle", h, input)
  end.

Record Footer : Type := {
  metaindex_handle_ : BlockHandle;
  index_handle_ : BlockHandle
}.

(** [dst->resize(n)]: cut, or fill with zero bytes. *)
Definition resize (dst : list byte) (n : Z) : list byte :=
  slice_to n dst ++ replicate (Z.to_nat (n - size dst)) x00.

Section Footer.
  (** [kTableMagicNumber] of [table/format.h], a 64-bit constant. *)
Variable kTableMagicNumber : Z.

Definition Footer_EncodeTo (f : Footer) (dst : list byte) : option (list byte) :=
    let original_size := size dst in
    dst1 ← BlockHandle_EncodeTo (metaindex_handle_ f) dst;
    dst2 ← BlockHandle_EncodeTo (index_handle_ f) dst1;
    let dst3 := resize dst2 (2 * kMaxEncodedLength) in
    let dst4 := PutFixed32 dst3 (Z.land kTableMagicNumber 4294967295) in
    let dst5 := PutFixed32 dst4 (wrap32 (Z.shiftr kTableMagicNumber 32)) in
    if negb (size dst5 =? original_size + kEncodedLength) then None (* assert *)
    else Some dst5.

  (** [Footer::DecodeFrom]: [None] when the magic is read outside the input.
      At the end [input] becomes the slice from [magic_ptr + 8] to the end of
      the input. *)
Definition Footer_DecodeFrom (f : Footer) (input : list byte)
    : option (Status * Footer * list byte) :=
    let magic_ptr := slice_from (kEncodedLength - 8) input in
    magic_lo ← DecodeFixed32 magic_ptr;
    magic_hi ← DecodeFixed32 (slice_from 4 magic_ptr);
    let magic := Z.lor (Z.shiftl magic_hi 32) magic_lo in
    if negb (magic =? kTableMagicNumber) then
      Some (Corruption "not an sstable (bad magic number)", f, input)
    else
      let '(result, metaindex, input1) :=
        BlockHandle_DecodeFrom (metaindex_handle_ f) input in
      let '(result, index, input2) :=
        if ok result then BlockHandle_DecodeFrom (index_handle_ f) input1
        else (result, index_handle_ f, input1) in
      let f' := {| metaindex_handle_ := metaindex; index_handle_ := index |} in
      if ok result then Some (result, f', slice_from 8 magic_ptr)
      else Some (result, f', input2).
End Footer.

(** Modelled from the spec: the [CompressionType] values of
    [leveldb/options.h], which is not among the sources. *)
Definition kNoCompression : Z := 0.
Definition kSnappyCompression : Z := 1.

Record BlockContents : Type := {
  data : list byte;
  cachable : bool;
  heap_allocated : bool
}.

(** What [RandomAccessFile::Read(offset, n, &contents, buf)] gives back: the
    status, the bytes of [contents], and whether [contents] is [buf]. *)
Record ReadResult : Type := {
  r_status : Status;
  r_contents : list byte;
  r_in_scratch : bool
}.

Section ReadBlock.
  (** [crc32c::Value], [crc32c::Unmask], [port::Snappy_GetUncompressedLength]
      and [port::Snappy_Uncompress] are outside the sources. *)
Variable crc32c_Value : list byte -> Z.
Variable crc32c_Unmask : Z -> Z.
Variable Snappy_GetUncompressedLength : list byte -> option Z.
Variable Snappy_Uncompress : list byte -> option (list byte).

Definition empty_contents : BlockContents :=
    {| data := []; cachable := false; heap_allocated := false |}.

  (** The four ways a block that was read can be malformed. *)
Definition truncated (n : Z) (contents : list byte) : Prop :=
    size contents < n + kBlockTrailerSize.

Definition checksum_mismatch (verify_checksums : bool) (n : Z) (contents : list byte)
    : Prop :=
    verify_checksums = true /\
    exists stored, DecodeFixed32 (slice_from (n + 1) contents) = Some stored /\
      crc32c_Value (slice_to (n + 1) contents) <> crc32c_Unmask stored.

Definition bad_block_type (n : Z) (contents : list byte) : Prop :=
    exists type, contents !! Z.to_nat n = Some type /\
      Z_of_byte type <> kNoCompression /\ Z_of_byte type <> kSnappyCompression.

Definition bad_compressed_block (n : Z) (contents : list byte) : Prop :=
    exists type, contents !! Z.to_nat n = Some type /\
      Z_of_byte type = kSnappyCompression /\
      (Snappy_GetUncompressedLength (slice_to n contents) = None \/
       Snappy_Uncompress (slice_to n contents) = None).

  (** [ReadBlock]: [None] when [data] is read outside [contents].  The
      allocation [new char[n + kBlockTrailerSize]] is taken to succeed: a
      size that cannot be allocated leaves the function by [std::bad_alloc],
      which is none of the results below. *)
Definition ReadBlock (file : Z -> Z -> ReadResult) (verify_checksums : bool)
      (handle : BlockHandle) : option (Status * BlockContents) :=
    let result := empty_contents in
    let n := wrap64 (size_ handle) in
    let r := file (offset_ handle) (wrap64 (n + kBlockTrailerSize)) in
    let s := r_status r in
    let contents := r_contents r in
    if negb (ok s) then Some (s, result)
    else if negb (size contents =? wrap64 (n + kBlockTrailerSize)) then
      Some (Corruption "truncated block read", result)
    else
      let data := contents in
      checked ←
        (if verify_checksums then
           stored ← DecodeFixed32 (slice_from (n + 1) data);
           let crc := crc32c_Unmask stored in
           if size data <? n + 1 then None
           else
             let actual := crc32c_Value (slice_to (n + 1) data) in
             Some (actual =? crc)
         else Some true);
      if negb checked then Some (Corruption "block checksum mismatch", result)
      else
        type ← data !! Z.to_nat n;
        if Z_of_byte type =? kNoCompression then
          if negb (r_in_scratch r) then
            Some (OK, {| data := slice_to n data; cachable := false;
                         heap_allocated := false |})
          else
            Some (OK, {| data := slice_to n data; cachable := true;
                         heap_allocated := true |})
        else if Z_of_byte type =? kSnappyCompression then
          match Snappy_GetUncompressedLength (slice_to n data) with
          | None => Some (Corruption "corrupted compressed block contents", result)
          | Some ulength =>
              match Snappy_Uncompress (slice_to n data) with
              | None => Some (Corruption "corrupted compressed block contents", result)
              | Some ubuf =>
                  Some (OK, {| data := slice_to ulength ubuf; cachable := true;
                               heap_allocated := true |})
              end
          end
        else Some (Corruption "bad block type", result).
End ReadBlock.

End Format.

(** ** util/cache *)

Module Cache.

(** An [LRUHandle*] is the number of the allocation: [malloc] hands out the
    next unused number, [free] removes the entry from the heap. *)
Abbreviation ptr := nat.

(** An [LRUHandle].  The links [next_hash], [next] and [prev] are kept as the
    position of the handle in its hash chain and in the LRU list, and
    [key_length] as the length of [key_data].  (The temporary handle of
    [key()], with [next == this], is never built in this file.) *)
Record LRUHandle : Type := {
  value : Z;               (* void* *)
  deleter : Z;             (* void ( * )(const Slice&, void* ) *)
  charge : Z;              (* size_t *)
  key_data : list byte;
  refs : Z;                (* uint32_t *)
  hash : Z                 (* uint32_t *)
}.

Definition set_refs (h : LRUHandle) (r : Z) : LRUHandle :=
  {| value := value h; deleter := deleter h; charge := charge h;
     key_data := key_data h; refs := r; hash := hash h |}.

Abbreviation Heap := (gmap ptr LRUHandle).

Module HandleTable.

(** [list_] is the array of buckets, each bucket the chain of handles linked
    through [next_hash], first handle first. *)
Record t : Type := {
  length_ : Z;             (* uint32_t *)
  elems_ : Z;              (* uint32_t *)
  list_ : list (list ptr)
}.

(** The walk of [FindPointer] along one chain: the position of the first
    handle with this hash and key, or the length of the chain for the
    trailing slot. *)
Fixpoint find_in_chain (heap : Heap) (key : list byte) (hash0 : Z) (chain : list ptr)
  : option nat :=
  match chain with
  | [] => Some O
  | p :: chain' =>
      h ← heap !! p;
      if negb (hash h =? hash0) || negb (bool_decide (key = key_data h))
      then S <$> find_in_chain heap key hash0 chain'
      else Some O
  end.

(** [FindPointer]: the bucket and the position of the slot in its chain. *)
Definition FindPointer (heap : Heap) (t0 : t) (key : list byte) (hash0 : Z)
  : option (nat * nat) :=
  let b := Z.to_nat (Z.land hash0 (length_ t0 - 1)) in
  chain ← list_ t0 !! b;
  pos ← find_in_chain heap key hash0 chain;
  Some (b, pos).

Definition Lookup (heap : Heap) (t0 : t) (key : list byte) (hash0 : Z)
  : option (option ptr) :=
  '(b, pos) ← FindPointer heap t0 key hash0;
  chain ← list_ t0 !! b;
  Some (chain !! pos).

(** The loop [while (new_length < elems_) new_length *= 2] on a [uint32_t]:
    once the product has wrapped to 0 the loop never ends, which [None]
    stands for. *)
Fixpoint grow (fuel : nat) (new_length elems : Z) : option Z :=
  if new_length <? elems then
    match fuel with
    | O => None
    | S fuel' => grow fuel' (wrap32 (new_length * 2)) elems
    end
  else Some new_length.

(** One step of the inner loop of [Resize]: [h] goes to the front of its new
    chain. *)
Definition rehash (heap : Heap) (new_length : Z) (new_list : option (list (list ptr)))
    (h : ptr) : option (list (list ptr)) :=
  new_list ← new_list;
  e ← heap !! h;
  let b := Z.to_nat (Z.land (hash e) (new_length - 1)) in
  chain ← new_list !! b;
  Some (<[b := h :: chain]> new_list).

Definition Resize (heap : Heap) (t0 : t) : option t :=
  new_length ← grow 32 4 (elems_ t0);
  let new_list := replicate (Z.to_nat new_length) [] in
  let old := concat (take (Z.to_nat (length_ t0)) (list_ t0)) in
  new_list ← foldl (rehash heap new_length) (Some new_list) old;
  if negb (elems_ t0 =? wrap32 (Z.of_nat (length old))) then None (* assert *)
  else Some {| length_ := new_length; elems_ := elems_ t0; list_ := new_list |}.

(** [HandleTable::HandleTable] *)
Definition new : option t :=
  Resize ∅ {| length_ := 0; elems_ := 0; list_ := [] |}.

(** [HandleTable::Insert]: the table afterwards and the handle replaced. *)
Definition Insert (heap : Heap) (t0 : t) (h : ptr) : option (t * option ptr) :=
  e ← heap !! h;
  '(b, pos) ← FindPointer heap t0 (key_data e) (hash e);
  chain ← list_ t0 !! b;
  match chain !! pos with
  | Some old =>
      Some ({| length_ := length_ t0; elems_ := elems_ t0;
               list_ := <[b := <[pos := h]> chain]> (list_ t0) |}, Some old)
  | None =>
      let t1 := {| length_ := length_ t0; elems_ := wrap32 (elems_ t0 + 1);
                   list_ := <[b := chain ++ [h]]> (list_ t0) |} in
      if elems_ t1 >? length_ t1 then
        t2 ← Resize heap t1; Some (t2, None)
      else Some (t1, None)
  end.

(** [HandleTable::Remove]: the table afterwards and the handle unlinked. *)
Definition Remove (heap : Heap) (t0 : t) (key : list byte) (hash0 : Z)
  : option (t * option ptr) :=
  '(b, pos) ← FindPointer heap t0 key hash0;
  chain ← list_ t0 !! b;
  match chain !! pos with
  | Some result =>
      Some ({| length_ := length_ t0; elems_ := wrap32 (elems_ t0 - 1);
               list_ := <[b := delete pos chain]> (list_ t0) |}, Some result)
  | None => Some (t0, None)
  end.

End HandleTable.

(** One call of a deleter: the function called and its two arguments;
    [call_entry] records which allocation it was called for. *)
Record Call : Type := {
  call_entry : ptr;
  call_deleter : Z;
  call_key : list byte;
  call_value : Z
}.

Module LRUCache.

(** One shard, together with the memory it works in: [heap] holds the live
    handles, [next_free] is the next allocation, [deleted] the deleter calls
    made so far, oldest first.  [lru_] lists the handles from [lru_.next]
    (the oldest) to [lru_.prev] (the newest). *)
Record t : Type := {
  capacity_ : Z;           (* size_t *)
  usage_ : Z;              (* size_t *)
  lru_ : list ptr;
  table_ : HandleTable.t;
  heap : Heap;
  next_free : ptr;
  deleted : list Call
}.

Definition set_lru (c : t) (l : list ptr) : t :=
  {| capacity_ := capacity_ c; usage_ := usage_ c; lru_ := l;
     table_ := table_ c; heap := heap c; next_free := next_free c;
     deleted := deleted c |}.

Definition set_table (c : t) (tb : HandleTable.t) : t :=
  {| capacity_ := capacity_ c; usage_ := usage_ c; lru_ := lru_ c;
     table_ := tb; heap := heap c; next_free := next_free c;
     deleted := deleted c |}.

Definition set_heap (c : t) (m : Heap) : t :=
  {| capacity_ := capacity_ c; usage_ := usage_ c; lru_ := lru_ c;
     table_ := table_ c; heap := m; next_free := next_free c;
     deleted := deleted c |}.

Definition set_usage (c : t) (u : Z) : t :=
  {| capacity_ := capacity_ c; usage_ := u; lru_ := lru_ c;
     table_ := table_ c; heap := heap c; next_free := next_free c;
     deleted := deleted c |}.

(** [LRUCache::LRUCache] followed by [SetCapacity] *)
Definition new (capacity : Z) : option t :=
  tb ← HandleTable.new;
  Some {| capacity_ := capacity; usage_ := 0; lru_ := []; table_ := tb;
          heap := ∅; next_free := 1%nat; deleted := [] |}.

(** [LRUCache::Unref]: [None] for a handle already freed or a failed
    assertion. *)
Definition Unref (c : t) (e : ptr) : option t :=
  h ← heap c !! e;
  if negb (refs h >? 0) then None (* assert *)
  else
    let h := set_refs h (refs h - 1) in
    if refs h <=? 0 then
      Some {| capacity_ := capacity_ c;
              usage_ := wrap64 (usage_ c - charge h);
              lru_ := lru_ c; table_ := table_ c;
              heap := delete e (heap c);
              next_free := next_free c;
              deleted := deleted c ++
                [{| call_entry := e; call_deleter := deleter h;
                    call_key := key_data h; call_value := value h |}] |}
    else Some (set_heap c (<[e := h]> (heap c))).

(** [LRUCache::LRU_Remove]: unlinking a handle that is not linked writes
    through stale pointers, which [None] stands for. *)
Definition LRU_Remove (c : t) (e : ptr) : option t :=
  if bool_decide (e ∈ lru_ c) then Some (set_lru c (filter (λ x, x ≠ e) (lru_ c)))
  else None.

(** [LRUCache::LRU_Append]: [e] becomes the newest entry. *)
Definition LRU_Append (c : t) (e : ptr) : t := set_lru c (lru_ c ++ [e]).

(** [LRUCache::Lookup]: the shard afterwards and the handle returned. *)
Definition Lookup (c : t) (key : list byte) (hash0 : Z) : option (t * option ptr) :=
  r ← HandleTable.Lookup (heap c) (table_ c) key hash0;
  match r with
  | Some e =>
      h ← heap c !! e;
      let c := set_heap c (<[e := set_refs h (wrap32 (refs h + 1))]> (heap c)) in
      c ← LRU_Remove c e;
      Some (LRU_Append c e, Some e)
  | None => Some (c, None)
  end.

(** [LRUCache::Release] *)
Definition Release (c : t) (handle : ptr) : option t := Unref c handle.

(** One round of the loop at the end of [Insert]. *)
Definition evict_one (c : t) : option t :=
  old ← head (lru_ c);
  c ← LRU_Remove c old;
  h ← heap c !! old;
  '(tb, _) ← HandleTable.Remove (heap c) (table_ c) (key_data h) (hash h);
  Unref (set_table c tb) old.

(** The loop [while (usage_ > capacity_ && lru_.next != &lru_)]; every round
    unlinks one handle, so [length (lru_ c)] rounds are enough. *)
Fixpoint evict (fuel : nat) (c : t) : option t :=
  if (usage_ c >? capacity_ c) && negb (bool_decide (lru_ c = [])) then
    match fuel with
    | O => None
    | S fuel' => c ← evict_one c; evict fuel' c
    end
  else Some c.

(** [LRUCache::Insert] up to the eviction loop: the new handle is allocated,
    appended and put in the table, and a handle it replaces is unlinked and
    unreferenced. *)
Definition Insert_entry (c : t) (key : list byte) (hash0 : Z) (value0 charge0 deleter0 : Z)
  : option (t * ptr) :=
  let e := next_free c in
  let h := {| value := value0; deleter := deleter0; charge := charge0;
              key_data := key; refs := 2; hash := hash0 |} in
  let c := {| capacity_ := capacity_ c; usage_ := usage_ c; lru_ := lru_ c;
              table_ := table_ c; heap := <[e := h]> (heap c);
              next_free := S e; deleted := deleted c |} in
  let c := LRU_Append c e in
  let c := set_usage c (wrap64 (usage_ c + charge0)) in
  '(tb, old) ← HandleTable.Insert (heap c) (table_ c) e;
  let c := set_table c tb in
  c ← match old with
      | Some old => c ← LRU_Remove c old; Unref c old
      | None => Some c
      end;
  Some (c, e).

(** [LRUCache::Insert]: the shard afterwards and the handle returned. *)
Definition Insert (c : t) (key : list byte) (hash0 : Z) (value0 charge0 deleter0 : Z)
  : option (t * ptr) :=
  '(c, e) ← Insert_entry c key hash0 value0 charge0 deleter0;
  c ← evict (length (lru_ c)) c;
  Some (c, e).

(** [LRUCache::Erase] *)
Definition Erase (c : t) (key : list byte) (hash0 : Z) : option t :=
  '(tb, e) ← HandleTable.Remove (heap c) (table_ c) key hash0;
  let c := set_table c tb in
  match e with
  | Some e => c ← LRU_Remove c e; Unref c e
  | None => Some c
  end.

(** [Cache::Value] on a handle of this shard *)
Definition Value (c : t) (handle : ptr) : option Z :=
  h ← heap c !! handle; Some (value h).

End LRUCache.

End Cache.


(** ** The shape of a shard between two operations *)

Module CacheInv.
Import Cache Cache.HandleTable Cache.LRUCache.

(** The handles in the hash table, bucket after bucket. *)
Definition entries (tb : HandleTable.t) : list ptr := concat (list_ tb).

(** The bucket [hash & (length_ - 1)] of a hash. *)
Definition bucket_of (len hash0 : Z) : nat := Z.to_nat (Z.land hash0 (len - 1)).

(** The handle [p] is live and has this hash and key. *)
Definition matches (heap : Heap) (key : list byte) (hash0 : Z) (p : ptr) : Prop :=
  exists h, heap !! p = Some h /\ hash h = hash0 /\ key_data h = key.

(** The hash table is well formed: it has [length_] buckets, every handle is
    live and sits in the bucket of its hash, no handle occurs twice, no two
    handles have the same hash and key, and [elems_] counts the handles (as
    a [uint32_t]). *)
Record table_wf (heap : Heap) (tb : HandleTable.t) : Prop := {
  wf_length : Z.of_nat (length (list_ tb)) = length_ tb /\ 1 <= length_ tb;
  wf_bucket : forall i chain p,
    list_ tb !! i = Some chain -> p ∈ chain ->
    exists h, heap !! p = Some h /\ bucket_of (length_ tb) (hash h) = i;
  wf_nodup : NoDup (entries tb);
  wf_keys : forall p q hp hq,
    p ∈ entries tb -> q ∈ entries tb ->
    heap !! p = Some hp -> heap !! q = Some hq ->
    hash hp = hash hq -> key_data hp = key_data hq -> p = q;
  wf_elems : elems_ tb = wrap32 (Z.of_nat (length (entries tb)))
}.

(** The shard is well formed: the LRU list has no handle twice and holds
    exactly the handles of the table; these are live, each with at least the
    reference of the cache; allocations are numbered below [next_free]; and
    the deleter has run at most once per allocation, never for a live one. *)
Record WF (c : LRUCache.t) : Prop := {
  wf_lru_nodup : NoDup (lru_ c);
  wf_lru_table : forall p, p ∈ entries (table_ c) <-> p ∈ lru_ c;
  wf_table : table_wf (heap c) (table_ c);
  wf_refs : forall p, p ∈ lru_ c -> exists h, heap c !! p = Some h /\ 1 <= refs h;
  wf_alloc : forall p h, heap c !! p = Some h -> (p < next_free c)%nat;
  wf_deleted : forall call, call ∈ deleted c ->
    heap c !! call_entry call = None /\ (call_entry call < next_free c)%nat;
  wf_deleted_nodup : NoDup (map call_entry (deleted c))
}.

(** The call of the deleter of a handle. *)
Definition call_of (e : ptr) (h : LRUHandle) : Call :=
  {| call_entry := e; call_deleter := deleter h; call_key := key_data h;
     call_value := value h |}.

(** The state after [n] rounds of the eviction loop. *)
Fixpoint evict_n (n : nat) (c : LRUCache.t) : option LRUCache.t :=
  match n with
  | O => Some c
  | S n' => c ← evict_one c; evict_n n' c
  end.

(** The calls a client can make on a shard. *)
Inductive Op : Type :=
  | OpInsert (key : list byte) (hash0 value0 charge0 deleter0 : Z)
  | OpLookup (key : list byte) (hash0 : Z)
  | OpRelease (handle : ptr)
  | OpErase (key : list byte) (hash0 : Z).

Definition step (c : LRUCache.t) (op : Op) : option LRUCache.t :=
  match op with
  | OpInsert key hash0 value0 charge0 deleter0 =>
      fst <$> Insert c key hash0 value0 charge0 deleter0
  | OpLookup key hash0 => fst <$> Lookup c key hash0
  | OpRelease handle => Release c handle
  | OpErase key hash0 => Erase c key hash0
  end.

Fixpoint run (c : LRUCache.t) (ops : list Op) : option LRUCache.t :=
  match ops with
  | [] => Some c
  | op :: ops' => c ← step c op; run c ops'
  end.

(** The deleter calls made so far for the allocation [e]. *)
Definition calls_for (e : ptr) (c : LRUCache.t) : list Call :=
  filter (fun call => call_entry call = e) (deleted c).

(** The allocation [e] is linked neither in the list nor in the table of the
    shard: only the callers that hold the handle can reach it. *)
Definition unlinked (e : ptr) (c : LRUCache.t) : Prop :=
  (e ∉ lru_ c) /\ (e ∉ entries (table_ c)) /\ (e < next_free c)%nat.

(** From the shard [c] to the shard [c'] the allocation [e] has stayed
    unlinked and as it was, and no deleter has been called for it. *)
Definition undisturbed (e : ptr) (c c' : LRUCache.t) : Prop :=
  unlinked e c' /\ heap c' !! e = heap c !! e /\ calls_for e c' = calls_for e c.

(** The number of [Release] calls on the handle [e] among [ops]. *)
Fixpoint releases (e : ptr) (ops : list Op) : Z :=
  match ops with
  | [] => 0
  | OpRelease p :: ops' => (if bool_decide (p = e) then 1 else 0) + releases e ops'
  | _ :: ops' => releases e ops'
  end.

End CacheInv.

(** ** The order of the keys fed to a block builder *)

Module BlockOrder.

(** The keys of [kvs] are strictly increasing under [comparator] and the
    first of them is above [last]: every key compares greater than the key
    before it, which is what the assertion of [BlockBuilder::Add] tests. *)
Fixpoint increasing_after (comparator : list byte -> list byte -> Z)
    (last : list byte) (kvs : list (list byte * list byte)) : Prop :=
  match kvs with
  | [] => True
  | (key, _) :: kvs' =>
      comparator key last > 0 /\ increasing_after comparator key kvs'
  end.

Definition increasing (comparator : list byte -> list byte -> Z)
    (kvs : list (list byte * list byte)) : Prop :=
  match kvs with
  | [] => True
  | (key, _) :: kvs' => increasing_after comparator key kvs'
  end.

(** [ceil(n / r)] *)
Definition ceil_div (n r : Z) : Z := (n + r - 1) / r.

(** The counter and the number of restart points of a builder that has been
    given [n] records since it was made: one restart point before any
    record, and one more for every [r] records after the first. *)
Definition restart_state (r n : Z) (b : BlockBuilder.t) : Prop :=
  (n = 0 /\ BlockBuilder.counter_ b = 0 /\
   Z.of_nat (length (BlockBuilder.restarts_ b)) = 1) \/
  (1 <= n /\ BlockBuilder.counter_ b = (n - 1) mod r + 1 /\
   Z.of_nat (length (BlockBuilder.restarts_ b)) = 1 + (n - 1) / r).

End BlockOrder.

(** ** Inputs for the table format *)

Module FormatExamples.
Import Coding Format.

(** The eight magic bytes that [Footer::DecodeFrom] reads, as the number they
    stand for: the low word at offset [kEncodedLength - 8], the high word
    after it. *)
Definition read_magic (input : list byte) : option Z :=
  magic_lo ← DecodeFixed32 (slice_from (kEncodedLength - 8) input);
  magic_hi ← DecodeFixed32 (slice_from (kEncodedLength - 4) input);
  Some (Z.lor (Z.shiftl magic_hi 32) magic_lo).

(** leveldb's magic number, to run the footer on. *)
Definition leveldb_magic : Z := 0xdb4775248b80fb57.

(** The footer of section 8: metaindex handle (100, 50), index handle
    (150, 80). *)
Definition footer_100_50_150_80 : Footer :=
  {| metaindex_handle_ := {| offset_ := 100; size_ := 50 |};
     index_handle_ := {| offset_ := 150; size_ := 80 |} |}.

Definition footer_bytes : list byte :=
  [x64; x32; x96; x01; x50] ++ replicate 35 x00
  ++ [x57; xfb; x80; x8b; x24; x75; x47; xdb].

(** [PosixRandomAccessFile::Read] of [util/env_posix.cc] on an open file with
    the content [file]: [pread] gives the bytes from [offset], at most [n] of
    them, in [scratch].  (For an offset below [2^63]: a larger one becomes a
    negative [off_t], on which [pread] fails.) *)
Definition PosixRandomAccessFile_Read (file : list byte) (offset n : Z) : ReadResult :=
  {| r_status := OK;
     r_contents := slice_to n (slice_from offset file);
     r_in_scratch := true |}.

End FormatExamples.

(** ** Inputs for the filter block *)

Module FilterExamples.
Import FilterBlock.

(** A policy that answers yes to every question: its filters are one byte
    long and its test is constantly true (no false negative is possible). *)
Definition always_match : FilterPolicy :=
  {| CreateFilter := fun _ dst => dst ++ [x01];
     KeyMayMatch := fun _ _ => true |}.

(** The filter block of a table whose first data block starts at offset 2048
    and has no key: one empty filter for bucket 0. *)
Definition one_empty_filter : list byte :=
  [x00; x00; x00; x00; x00; x00; x00; x00; x0b].

End FilterExamples.

(** ** The sentences of the specification that the code does not satisfy as
    they are worded, and the inputs they are run on *)

Module Stated.
Import Coding DBFormat.

(** The ordering property as section 8 words it: for equal user keys
    [Compare(a,b) < 0] exactly when [sequence(a) > sequence(b)]; for unequal
    user keys the sign of [Compare] is the sign of the user comparator. *)
Definition ordering (user_comparator : list byte -> list byte -> Z)
    (a b : list byte) : Prop :=
  forall ua ub r sa sb,
    ExtractUserKey a = Some ua -> ExtractUserKey b = Some ub ->
    Compare user_comparator a b = Some r ->
    sequence_of a = Some sa -> sequence_of b = Some sb ->
    (user_comparator ua ub = 0 -> (r < 0 <-> sa > sb)) /\
    (user_comparator ua ub <> 0 -> Z.sgn r = Z.sgn (user_comparator ua ub)).

(** The user key [k] at sequence 5, once as a value and once as a deletion. *)
Definition key_k_5_value : list byte := [x6b; x01; x05; x00; x00; x00; x00; x00; x00].
Definition key_k_5_deletion : list byte := [x6b; x00; x05; x00; x00; x00; x00; x00; x00].

(** The lookup key as section 4.6 words it: the three fields, with the seek
    type the numerically smallest type. *)
Definition lookup_key (vt : ValueTypes) (u : list byte) (s : Z) : Prop :=
  LookupKey vt u s
  = Some (EncodeVarint32 (wrap32 (size u + 8)) ++ u
          ++ EncodeFixed64 (Z.lor (Z.shiftl s 8) (kValueTypeForSeek vt))) /\
  (forall t, t = kTypeDeletion vt \/ t = kTypeValue vt -> kValueTypeForSeek vt <= t).

(** The round trip as section 8 words it, for one sequence of pairs: the
    finished block decodes to the pairs that were added, and every record at
    a restart offset shares nothing with the key before it. *)
Definition round_trip (options : BlockBuilder.Options)
    (kvs : list (list byte * list byte)) : Prop :=
  BlockOrder.increasing (BlockBuilder.comparator options) kvs ->
  exists block es rs,
    BlockBuilder.build options kvs = Some block /\
    Block.decode block = Some es /\
    map Block.key_value es = kvs /\
    Block.restarts block = Some rs /\
    (forall r e, r ∈ rs -> e ∈ es -> Block.e_offset e = r -> Block.e_shared e = 0).

(** The restart density as section 8 words it: a block of [N] records built
    with restart interval [R] has exactly [ceil(N/R)] restart points, each the
    offset of a record whose shared-prefix field is 0. *)
Definition restart_density (options : BlockBuilder.Options)
    (kvs : list (list byte * list byte)) : Prop :=
  BlockOrder.increasing (BlockBuilder.comparator options) kvs ->
  exists block es rs,
    BlockBuilder.build options kvs = Some block /\
    Block.decode block = Some es /\
    length es = length kvs /\
    Block.restarts block = Some rs /\
    Z.of_nat (length rs)
    = BlockOrder.ceil_div (Z.of_nat (length kvs))
        (BlockBuilder.block_restart_interval options) /\
    (forall r, r ∈ rs ->
       exists e, e ∈ es /\ Block.e_offset e = r /\ Block.e_shared e = 0).

(** Builder options with the default restart interval, and the interval 2 of
    the example of section 8. *)
Definition options_16 : BlockBuilder.Options :=
  {| BlockBuilder.block_restart_interval := 16;
     BlockBuilder.comparator := BytewiseCompare |}.
Definition options_2 : BlockBuilder.Options :=
  {| BlockBuilder.block_restart_interval := 2;
     BlockBuilder.comparator := BytewiseCompare |}.

(** The pairs of the example of section 8: keys [abc], [abd], [abe]. *)
Definition abc_abd_abe : list (list byte * list byte) :=
  [ ([x61; x62; x63], [x31]); ([x61; x62; x64], [x32; x32]);
    ([x61; x62; x65], []) ].

(** A key of [2^32] bytes. *)
Definition huge_key : list byte := replicate (Z.to_nat (2 ^ 32)) x61.

(** The eviction rule as section 8 words it, for one [Insert] on the shard
    [c]: a handle of the list on which a caller holds a reference (it has the
    reference of the cache and one more) and which the insertion does not
    replace stays in the index and in the list. *)
Definition referenced_entries_stay (c : Cache.LRUCache.t) (key : list byte)
    (hash0 value0 charge0 deleter0 : Z) : Prop :=
  forall c' e p h,
    Cache.LRUCache.Insert c key hash0 value0 charge0 deleter0 = Some (c', e) ->
    p ∈ Cache.LRUCache.lru_ c ->
    Cache.LRUCache.heap c !! p = Some h ->
    2 <= Cache.refs h ->
    ~ (Cache.key_data h = key /\ Cache.hash h = hash0) ->
    p ∈ Cache.LRUCache.lru_ c' /\
    p ∈ CacheInv.entries (Cache.LRUCache.table_ c').

(** A shard of capacity 1 after the insertion of the key [k1] with charge 1,
    for which the caller keeps the handle. *)
Definition key_k1 : list byte := [x6b; x31].
Definition key_k2 : list byte := [x6b; x32].
Definition shard_with_k1 : option Cache.LRUCache.t :=
  c ← Cache.LRUCache.new 1;
  fst <$> Cache.LRUCache.Insert c key_k1 17 100 1 7.

End Stated.

(** ** How a table builder drives a filter block builder *)

Module FilterBlockUse.
Import FilterBlock.

(** The two calls made on a [FilterBlockBuilder] before [Finish]. *)
Inductive Call : Type :=
  | CallStartBlock (block_offset : Z)
  | CallAddKey (key : list byte).

Fixpoint feed (b : Builder.t) (calls : list Call) : option Builder.t :=
  match calls with
  | [] => Some b
  | CallStartBlock block_offset :: calls' =>
      b' ← Builder.StartBlock b block_offset; feed b' calls'
  | CallAddKey key :: calls' => feed (Builder.AddKey b key) calls'
  end.

(** The keys added by [calls], each with the offset given to the last
    [StartBlock] before it ([cur] when there was none yet). *)
Fixpoint keys_of (cur : Z) (calls : list Call) : list (Z * list byte) :=
  match calls with
  | [] => []
  | CallStartBlock block_offset :: calls' => keys_of block_offset calls'
  | CallAddKey key :: calls' => (cur, key) :: keys_of cur calls'
  end.

(** The offsets given to [StartBlock] are [uint64_t] values. *)
Fixpoint offsets_ok (calls : list Call) : Prop :=
  match calls with
  | [] => True
  | CallStartBlock block_offset :: calls' =>
      0 <= block_offset < 2 ^ 64 /\ offsets_ok calls'
  | CallAddKey _ :: calls' => offsets_ok calls'
  end.

(** The contract of [leveldb/filter_policy.h] on a policy: [CreateFilter]
    appends a filter to the destination, and [KeyMayMatch] answers true on
    that filter for every key the filter was made from. *)
Definition sound (policy : FilterPolicy) : Prop :=
  forall keys dst, exists f,
    CreateFilter policy keys dst = dst ++ f /\
    forall k, k ∈ keys -> KeyMayMatch policy k f = true.

(** Where each string of a list starts when the strings are laid end to end
    from [base]. *)
Fixpoint offsets_from (base : Z) (fs : list (list byte)) : list Z :=
  match fs with
  | [] => []
  | f :: fs' => base :: offsets_from (base + size f) fs'
  end.

(** What the builder holds when the filters [fs] have been generated and the
    keys [pending] wait for the next one. *)
Definition laid_out (policy : FilterPolicy) (b : Builder.t)
    (fs pending : list (list byte)) : Prop :=
  Builder.policy_ b = policy /\
  Builder.result_ b = concat fs /\
  Builder.filter_offsets_ b = map wrap32 (offsets_from 0 fs) /\
  Builder.keys_ b = concat pending /\
  Builder.start_ b = offsets_from 0 pending.

(** The key [k], added for the filter number [i], waits in [pending] for
    that filter or is matched by it. *)
Definition covered (policy : FilterPolicy) (fs pending : list (list byte))
    (i : nat) (k : list byte) : Prop :=
  (i = length fs /\ k ∈ pending) \/
  exists f, fs !! i = Some f /\ KeyMayMatch policy k f = true.

End FilterBlockUse.

(** ** The restart array of a block builder *)

Module RestartOrder.

(** The offsets [rs] are strictly increasing. *)
Definition ascending (rs : list Z) : Prop :=
  forall (i j : nat) (ri rj : Z),
    rs !! i = Some ri -> rs !! j = Some rj -> (i < j)%nat -> ri < rj.

(** The restart array of a builder: before the first record it is the single
    offset 0; afterwards it starts with 0, is strictly increasing and every
    offset lies inside the records written so far. *)
Definition restarts_in_order (b : BlockBuilder.t) : Prop :=
  (BlockBuilder.buffer_ b = [] /\ BlockBuilder.restarts_ b = [0] /\
   BlockBuilder.counter_ b = 0) \/
  (BlockBuilder.buffer_ b <> [] /\
   head (BlockBuilder.restarts_ b) = Some 0 /\
   ascending (BlockBuilder.restarts_ b) /\
   forall r, r ∈ BlockBuilder.restarts_ b -> 0 <= r < size (BlockBuilder.buffer_ b)).

End RestartOrder.

(** ** db/dbformat: the rest of [InternalKeyComparator] and [InternalFilterPolicy] *)

Module InternalKeyComparator.
Import Coding DBFormat.

(** The user comparator ([leveldb/comparator.h]), an injected interface:
    [Compare] is negative, zero or positive; [FindShortestSeparator] and
    [FindShortSuccessor] map the string they are given to the string it has
    afterwards. *)
Record Comparator : Type := {
  user_Compare : list byte -> list byte -> Z;
  user_FindShortestSeparator : list byte -> list byte -> list byte;
  user_FindShortSuccessor : list byte -> list byte
}.

(** A three-way comparison that orders its arguments: swapping them flips
    the sign, and "not greater" is transitive. *)
Definition total_preorder (cmp : list byte -> list byte -> Z) : Prop :=
  (forall x y, Z.sgn (cmp y x) = - Z.sgn (cmp x y)) /\
  (forall x y z, cmp x y <= 0 -> cmp y z <= 0 -> cmp x z <= 0).

Section WithComparator.
Variable vt : ValueTypes.
Variable user_comparator_ : Comparator.

(** [InternalKeyComparator::FindShortestSeparator]: [start] afterwards. *)
Definition FindShortestSeparator (start limit : list byte) : option (list byte) :=
  user_start ← ExtractUserKey start;
  user_limit ← ExtractUserKey limit;
  let tmp := user_FindShortestSeparator user_comparator_ user_start user_limit in
  if (size tmp <? size user_start)
     && (user_Compare user_comparator_ user_start tmp <? 0) then
    packed ← PackSequenceAndType vt kMaxSequenceNumber (kValueTypeForSeek vt);
    let tmp := PutFixed64 tmp packed in
    c1 ← Compare (user_Compare user_comparator_) start tmp;
    if negb (c1 <? 0) then None (* assert *)
    else
      c2 ← Compare (user_Compare user_comparator_) tmp limit;
      if negb (c2 <? 0) then None (* assert *)
      else Some tmp
  else Some start.

(** [InternalKeyComparator::FindShortSuccessor]: [key] afterwards. *)
Definition FindShortSuccessor (key : list byte) : option (list byte) :=
  user_key ← ExtractUserKey key;
  let tmp := user_FindShortSuccessor user_comparator_ user_key in
  if (size tmp <? size user_key)
     && (user_Compare user_comparator_ user_key tmp <? 0) then
    packed ← PackSequenceAndType vt kMaxSequenceNumber (kValueTypeForSeek vt);
    let tmp := PutFixed64 tmp packed in
    c1 ← Compare (user_Compare user_comparator_) key tmp;
    if negb (c1 <? 0) then None (* assert *)
    else Some tmp
  else Some key.

End WithComparator.

End InternalKeyComparator.

Module InternalFilterPolicy.
Import DBFormat FilterBlock.

(** [InternalFilterPolicy::CreateFilter]: the loop overwrites [keys[i]] with
    its user key, for [i] from 0 to [n - 1] ([keys] is the array of these [n]
    slices), then the user policy is run on the array.  The answer is the
    array and the destination string afterwards. *)
Definition CreateFilter (user_policy_ : FilterPolicy) (keys : list (list byte))
    (dst : list byte) : option (list (list byte) * list byte) :=
  mkey ← mapM ExtractUserKey keys;
  Some (mkey, FilterBlock.CreateFilter user_policy_ mkey dst).

(** [InternalFilterPolicy::KeyMayMatch] *)
Definition KeyMayMatch (user_policy_ : FilterPolicy) (key f : list byte) : option bool :=
  user_key ← ExtractUserKey key;
  Some (FilterBlock.KeyMayMatch user_policy_ user_key f).

End InternalFilterPolicy.

(** ** Inputs for the comparator *)

Module ComparatorExamples.
Import InternalKeyComparator.

(** A user comparator to run the separator code on: the bytewise order, a
    separator that answers [abd] and a successor that answers [b]. *)
Definition toy_comparator : Comparator :=
  {| user_Compare := DBFormat.BytewiseCompare;
     user_FindShortestSeparator := fun _ _ => [x61; x62; x64];
     user_FindShortSuccessor := fun _ => [x62] |}.

(** The internal keys of the user keys [abcd] and [abzz] at sequence 5, as
    values. *)
Definition key_abcd_5 : list byte :=
  [x61; x62; x63; x64; x01; x05; x00; x00; x00; x00; x00; x00].
Definition key_abzz_5 : list byte :=
  [x61; x62; x7a; x7a; x01; x05; x00; x00; x00; x00; x00; x00].

End ComparatorExamples.

(** ** A client of a cache shard *)

Module CacheClient.
Import Cache Cache.LRUCache CacheInv.

(** The number of times the handle [p] occurs among the handles [held]. *)
Fixpoint holds (p : ptr) (held : list ptr) : Z :=
  match held with
  | [] => 0
  | q :: held' => (if bool_decide (q = p) then 1 else 0) + holds p held'
  end.

(** The handles left when [p] is given back once. *)
Fixpoint give_back (p : ptr) (held : list ptr) : list ptr :=
  match held with
  | [] => []
  | q :: held' => if bool_decide (q = p) then held' else q :: give_back p held'
  end.

(** The states of a shard and of its client that can be reached when the
    client keeps to the contract of [leveldb/cache.h]: it holds one handle
    for every [Insert] and every successful [Lookup], and gives a handle to
    [Release] only if it holds it.  (The two bounds keep the 32-bit counters
    of the shard from wrapping.) *)
Inductive reachable : LRUCache.t -> list ptr -> Prop :=
  | reach_new (capacity : Z) (c : LRUCache.t) :
      LRUCache.new capacity = Some c -> reachable c []
  | reach_Insert (c : LRUCache.t) (held : list ptr) (key : list byte)
        (hash0 value0 charge0 deleter0 : Z) (c' : LRUCache.t) (e : ptr) :
      reachable c held ->
      Z.of_nat (length (lru_ c)) < 2 ^ 31 ->
      Insert c key hash0 value0 charge0 deleter0 = Some (c', e) ->
      reachable c' (e :: held)
  | reach_Lookup (c : LRUCache.t) (held : list ptr) (key : list byte) (hash0 : Z)
        (c' : LRUCache.t) (r : option ptr) :
      reachable c held ->
      Z.of_nat (length held) + 2 < 2 ^ 32 ->
      Lookup c key hash0 = Some (c', r) ->
      reachable c' (match r with Some e => e :: held | None => held end)
  | reach_Release (c : LRUCache.t) (held : list ptr) (handle : ptr) (c' : LRUCache.t) :
      reachable c held ->
      handle ∈ held ->
      Release c handle = Some c' ->
      reachable c' (give_back handle held)
  | reach_Erase (c : LRUCache.t) (held : list ptr) (key : list byte) (hash0 : Z)
        (c' : LRUCache.t) :
      reachable c held ->
      Erase c key hash0 = Some c' ->
      reachable c' held.

(** The bookkeeping of a shard against the handles its client holds: the
    reference count of every live entry is one for the cache, if the entry
    is linked, plus one for each handle held; a handle held is live; and
    every allocation made so far is live or has had its deleter called. *)
Record accounted (c : LRUCache.t) (held : list ptr) : Prop := {
  acc_refs : forall p h, heap c !! p = Some h ->
    refs h = (if bool_decide (p ∈ lru_ c) then 1 else 0) + holds p held /\
    1 <= refs h;
  acc_held : forall p, p ∈ held -> is_Some (heap c !! p);
  acc_freed : forall p, (1 <= p < next_free c)%nat ->
    is_Some (heap c !! p) \/ p ∈ map call_entry (deleted c);
  acc_next : (1 <= next_free c)%nat
}.

(** The charges of the live entries, added up. *)
Definition total_charge (m : Heap) : Z :=
  map_fold (fun (_ : ptr) (h : LRUHandle) (acc : Z) => charge h + acc) 0 m.

(** [usage_] is the total charge of the live entries, as a [size_t]. *)
Definition usage_exact (c : LRUCache.t) : Prop :=
  usage_ c = wrap64 (total_charge (heap c)).

End CacheClient.

(** ** The order of use of the entries of a shard *)

Module CacheUse.
Import Cache Cache.LRUCache CacheInv CacheClient.

(** The time of the last use of every entry, after the call number [t] has
    returned the entry [e]. *)
Definition stamp (e : ptr) (t : nat) (last_use : ptr -> nat) : ptr -> nat :=
  fun p => if bool_decide (p = e) then t else last_use p.

(** The states of [reachable], with the calls counted: [t] calls have been
    made, and [last_use p] is the number of the last call that returned the
    entry [p] to the client, that is, the [Insert] that made it or the last
    [Lookup] that found it. *)
Inductive used : LRUCache.t -> list ptr -> nat -> (ptr -> nat) -> Prop :=
  | used_new (capacity : Z) (c : LRUCache.t) :
      LRUCache.new capacity = Some c -> used c [] O (fun _ => O)
  | used_Insert (c : LRUCache.t) (held : list ptr) (t : nat) (last_use : ptr -> nat)
        (key : list byte) (hash0 value0 charge0 deleter0 : Z)
        (c' : LRUCache.t) (e : ptr) :
      used c held t last_use ->
      Z.of_nat (length (lru_ c)) < 2 ^ 31 ->
      Insert c key hash0 value0 charge0 deleter0 = Some (c', e) ->
      used c' (e :: held) (S t) (stamp e (S t) last_use)
  | used_Lookup (c : LRUCache.t) (held : list ptr) (t : nat) (last_use : ptr -> nat)
        (key : list byte) (hash0 : Z) (c' : LRUCache.t) (r : option ptr) :
      used c held t last_use ->
      Z.of_nat (length held) + 2 < 2 ^ 32 ->
      Lookup c key hash0 = Some (c', r) ->
      used c' (match r with Some e => e :: held | None => held end) (S t)
           (match r with Some e => stamp e (S t) last_use | None => last_use end)
  | used_Release (c : LRUCache.t) (held : list ptr) (t : nat) (last_use : ptr -> nat)
        (handle : ptr) (c' : LRUCache.t) :
      used c held t last_use ->
      handle ∈ held ->
      Release c handle = Some c' ->
      used c' (give_back handle held) (S t) last_use
  | used_Erase (c : LRUCache.t) (held : list ptr) (t : nat) (last_use : ptr -> nat)
        (key : list byte) (hash0 : Z) (c' : LRUCache.t) :
      used c held t last_use ->
      Erase c key hash0 = Some c' ->
      used c' held (S t) last_use.

(** The list [l] is in the order of last use, the least recently used entry
    first: every entry was last used before all the entries after it. *)
Fixpoint by_last_use (last_use : ptr -> nat) (l : list ptr) : Prop :=
  match l with
  | [] => True
  | p :: l' =>
      Forall (fun q => (last_use p < last_use q)%nat) l' /\ by_last_use last_use l'
  end.

(** A shard of capacity 2 on which [k1] and [k2] were inserted with charge 1
    and released, and [k1] was then looked up and released again: [k2] is
    the least recently used entry. *)
Definition key_k3 : list byte := [x6b; x33].
Definition shard_k2_k1 : option LRUCache.t :=
  c ← LRUCache.new 2;
  '(c, e1) ← Insert c Stated.key_k1 17 100 1 7;
  c ← Release c e1;
  '(c, e2) ← Insert c Stated.key_k2 18 200 1 7;
  c ← Release c e2;
  '(c, r) ← Lookup c Stated.key_k1 17;
  e ← r;
  Release c e.

End CacheUse.

(** ** util/random.h *)

Module Random.

(** [Random::Random]: the seed kept in [seed_]. *)
Definition new (s : Z) : Z :=
  let seed_ := Z.land s 2147483647 in
  if (seed_ =? 0) || (seed_ =? 2147483647) then 1 else seed_.

(** [Random::Next]: the new [seed_] and the number returned.  [product] is a
    [uint64_t], the sum is narrowed to the [uint32_t] [seed_]. *)
Definition Next (seed_ : Z) : Z * Z :=
  let M := 2147483647 in
  let A := 16807 in
  let product := wrap64 (seed_ * A) in
  let seed_ := wrap32 (wrap64 (Z.shiftr product 31 + Z.land product M)) in
  let seed_ := if seed_ >? M then wrap32 (seed_ - M) else seed_ in
  (seed_, seed_).

(** [Random::Uniform]: [Next() % n], the [int] [n] converted to [uint32_t];
    [None] for the division by zero. *)
Definition Uniform (seed_ : Z) (n : Z) : option (Z * Z) :=
  let '(seed_, r) := Next seed_ in
  let n := wrap32 n in
  if n =? 0 then None else Some (seed_, r mod n).

(** [Random::OneIn] *)
Definition OneIn (seed_ : Z) (n : Z) : option (Z * bool) :=
  let '(seed_, r) := Next seed_ in
  let n := wrap32 n in
  if n =? 0 then None else Some (seed_, r mod n =? 0).

(** [Random::Skewed]: [Uniform(1 << Uniform(max_log + 1))]; [None] where the
    [int] sum overflows or the [int] 1 is shifted by 31 bits or more. *)
Definition Skewed (seed_ : Z) (max_log : Z) : option (Z * Z) :=
  if 2 ^ 31 <=? max_log + 1 then None
  else
    '(seed_, base) ← Uniform seed_ (max_log + 1);
    if 31 <=? base then None
    else Uniform seed_ (Z.shiftl 1 base).

(** The seed after [n] calls of [Next]. *)
Fixpoint seed_after (n : nat) (seed_ : Z) : Z :=
  match n with
  | O => seed_
  | S n' => seed_after n' (fst (Next seed_))
  end.

End Random.

(** ** util/cache: [ShardedLRUCache] *)

Module ShardedLRUCache.
Import Cache.

Definition kNumShardBits : Z := 4.
Definition kNumShards : Z := Z.shiftl 1 kNumShardBits.

Record t : Type := {
  shard_ : list LRUCache.t;
  last_id_ : Z             (* uint64_t *)
}.

(** [ShardedLRUCache::Shard] *)
Definition Shard (hash0 : Z) : Z := Z.shiftr hash0 (32 - kNumShardBits).

(** The capacity the constructor gives to every shard, a [size_t]. *)
Definition per_shard (capacity : Z) : Z :=
  wrap64 (capacity + (kNumShards - 1)) / kNumShards.

(** [ShardedLRUCache::ShardedLRUCache] *)
Definition new (capacity : Z) : option t :=
  shards ← mapM (fun _ : nat => LRUCache.new (per_shard capacity))
                (seq 0 (Z.to_nat kNumShards));
  Some {| shard_ := shards; last_id_ := 0 |}.

End ShardedLRUCache.

(** ** db/memtable *)

Module MemTable.
Import Coding DBFormat.

(** Modelled from the spec: [VarintLength] of [util/coding.cc], which is not
    among the sources, is the length of the varint of section 6 for a
    [uint64_t]: one byte, and one more for every seven bits beyond the first
    seven. *)
Fixpoint VarintLength_from (more : nat) (v : Z) : Z :=
  match more with
  | O => 1
  | S more' => if 128 <=? v then 1 + VarintLength_from more' (Z.shiftr v 7) else 1
  end.
Definition VarintLength (v : Z) : Z := VarintLength_from 9 v.

(** [GetLengthPrefixedSlice]: [data] is the memory from the pointer on.
    [GetVarint32Ptr(p, p + 5, &len)] reads at most five bytes; a slice that
    runs past the memory is [None]. *)
Definition GetLengthPrefixedSlice (data : list byte) : option (list byte) :=
  '(len, p) ← GetVarint32 data;
  if size p <? len then None else Some (slice_to len p).

(** [EncodeKey]: the contents of [*scratch] afterwards. *)
Definition EncodeKey (target : list byte) : list byte :=
  let scratch := [] in
  let scratch := PutVarint32 scratch (wrap32 (size target)) in
  scratch ++ target.

(** [MemTableIterator::key] and [MemTableIterator::value] on the entry the
    iterator stands on. *)
Definition key (entry : list byte) : option (list byte) :=
  GetLengthPrefixedSlice entry.

Definition value (entry : list byte) : option (list byte) :=
  '(len, p) ← GetVarint32 entry;
  if size p <? len then None
  else GetLengthPrefixedSlice (slice_from len p).

Section WithComparator.
Variable vt : ValueTypes.
(** [user_comparator()->Compare]: negative, zero or positive. *)
Variable user_comparator : list byte -> list byte -> Z.

(** [MemTable::KeyComparator::operator()] *)
Definition KeyComparator (aptr bptr : list byte) : option Z :=
  a ← GetLengthPrefixedSlice aptr;
  b ← GetLengthPrefixedSlice bptr;
  Compare user_comparator a b.

(** [MemTable::Add] up to [table_.Insert(buf)]: the entry written to the
    [encoded_len] bytes of [buf].  [None] where the bytes written differ in
    number from the bytes allocated, which is the failed assertion or a
    write past the allocation. *)
Definition Add_entry (s : Z) (type : Z) (key value : list byte) : option (list byte) :=
  let key_size := size key in
  let val_size := size value in
  let internal_key_size := wrap64 (key_size + 8) in
  let encoded_len :=
    wrap64 (VarintLength internal_key_size + internal_key_size
            + VarintLength val_size + val_size) in
  let buf :=
    EncodeVarint32 (wrap32 internal_key_size) ++ key
    ++ EncodeFixed64 (Z.lor (wrap64 (Z.shiftl s 8)) type)
    ++ EncodeVarint32 (wrap32 val_size) ++ value in
  if negb (size buf =? encoded_len) then None
  else Some buf.

(** What [MemTable::Get] returns: [true] with the value, [true] with the
    status [NotFound], or [false]. *)
Inductive GetResult : Type :=
  | Found (value : list byte)
  | Deleted
  | Missing.

(** [MemTable::Get] once the iterator stands on [entry], for the user key
    [user_key] of the lookup key.  [key_length - 8] is a [uint32_t]. *)
Definition Get_entry (entry : list byte) (user_key : list byte) : option GetResult :=
  '(key_length, key_ptr) ← GetVarint32 entry;
  let ulen := wrap32 (key_length - 8) in
  if size key_ptr <? ulen then None
  else if user_comparator (slice_to ulen key_ptr) user_key =? 0 then
    if key_length <? 8 then None
    else
      tag ← DecodeFixed64 (slice_from (key_length - 8) key_ptr);
      let t := Z.land tag 255 in
      if t =? kTypeValue vt then
        v ← GetLengthPrefixedSlice (slice_from key_length key_ptr); Some (Found v)
      else if t =? kTypeDeletion vt then Some Deleted
      else Some Missing
  else Some Missing.

End WithComparator.

End MemTable.
(* ===================================================================== *)
(** * Part II: properties                                                 *)
(* ===================================================================== *)

(** ** Bytes and bit arithmetic *)

Lemma Z_of_byte_range (b : byte) : 0 <= Z_of_byte b < 256.
Proof.
  unfold Z_of_byte. pose proof (Byte.to_N_bounded b). lia.
Qed.

Lemma Z_of_byte_of_Z (v : Z) : Z_of_byte (byte_of_Z v) = v mod 256.
Proof.
  unfold Z_of_byte, byte_of_Z.
  assert (Hr : 0 <= v mod 256 < 256) by (apply Z.mod_pos_bound; lia).
  destruct (Byte.of_N (Z.to_N (v mod 256))) as [b|] eqn:E.
  - apply Byte.to_of_N in E. rewrite E. lia.
  - apply Byte.of_N_None_iff in E. lia.
Qed.

Lemma Z_of_byte_of_Z_small (v : Z) : 0 <= v < 256 -> Z_of_byte (byte_of_Z v) = v.
Proof. intros H. rewrite Z_of_byte_of_Z. apply Z.mod_small, H. Qed.

Lemma byte_of_Z_of_byte (b : byte) : byte_of_Z (Z_of_byte b) = b.
Proof.
  unfold byte_of_Z. rewrite Z.mod_small by apply Z_of_byte_range.
  unfold Z_of_byte. rewrite N2Z.id, Byte.of_to_N. reflexivity.
Qed.

Lemma testbit_small (k a i : Z) : 0 <= a < 2 ^ k -> k <= i -> Z.testbit a i = false.
Proof.
  intros Ha Hi. destruct (Z.eq_dec a 0) as [->|Hne]; [apply Z.bits_0|].
  apply Z.bits_above_log2; [lia|].
  assert (Z.log2 a < k); [|lia].
  apply Z.log2_lt_pow2; lia.
Qed.

(** Two numbers that share no bit are or-ed by adding them. *)
Lemma lor_disjoint (k a b : Z) :
  0 <= k -> 0 <= a < 2 ^ k -> b mod 2 ^ k = 0 -> Z.lor a b = a + b.
Proof.
  intros Hk Ha Hb. symmetry. apply Z.add_nocarry_lor.
  apply Z.bits_inj'. intros i Hi. rewrite Z.land_spec, Z.bits_0.
  destruct (Z.lt_ge_cases i k) as [Hlt|Hge].
  - assert (Hb' : b = b / 2 ^ k * 2 ^ k).
    { pose proof (Z.div_mod b (2 ^ k)). lia. }
    rewrite Hb', Z.mul_pow2_bits_low by lia. apply andb_false_r.
  - rewrite (testbit_small k a i) by lia. reflexivity.
Qed.

Lemma land_255 (v : Z) : Z.land v 255 = v mod 256.
Proof. change 255 with (Z.ones 8). rewrite Z.land_ones by lia. reflexivity. Qed.

Lemma land_127 (v : Z) : Z.land v 127 = v mod 128.
Proof. change 127 with (Z.ones 7). rewrite Z.land_ones by lia. reflexivity. Qed.

Lemma land_128 (v : Z) : Z.land v 128 = 128 * ((v / 128) mod 2).
Proof.
  apply Z.bits_inj'. intros i Hi. rewrite Z.land_spec.
  change 128 with (2 ^ 7). rewrite Z.pow2_bits_eqb by lia.
  rewrite (Z.mul_comm (2 ^ 7)).
  destruct (Z.eqb_spec 7 i) as [<-|Hne].
  - rewrite andb_true_r, Z.mul_pow2_bits by lia.
    replace (7 - 7) with 0 by lia.
    change 2 with (2 ^ 1) at 2. rewrite Z.mod_pow2_bits_low by lia.
    rewrite <- Z.shiftr_div_pow2, Z.shiftr_spec by lia. reflexivity.
  - rewrite andb_false_r. symmetry.
    destruct (Z.lt_ge_cases i 7).
    + apply Z.mul_pow2_bits_low; lia.
    + rewrite Z.mul_pow2_bits by lia.
      apply (testbit_small 1); [|lia].
      change (2 ^ 1) with 2. apply Z.mod_pos_bound. lia.
Qed.

(** ** util/coding: what is written is what is read *)

Section CodingFacts.
Import Coding.

Lemma EncodeFixed32_length (v : Z) : length (EncodeFixed32 v) = 4%nat.
Proof. reflexivity. Qed.

Lemma EncodeFixed64_length (v : Z) : length (EncodeFixed64 v) = 8%nat.
Proof. reflexivity. Qed.

Lemma size_EncodeFixed32 (v : Z) : size (EncodeFixed32 v) = 4.
Proof. reflexivity. Qed.

Lemma DecodeFixed32_EncodeFixed32 (v : Z) (rest : list byte) :
  0 <= v < 2 ^ 32 -> DecodeFixed32 (EncodeFixed32 v ++ rest) = Some v.
Proof.
  intros Hv. unfold EncodeFixed32. cbn [app DecodeFixed32]. f_equal.
  rewrite !land_255, !Z_of_byte_of_Z, !Z.mod_mod by lia.
  rewrite !Z.shiftr_div_pow2, !Z.shiftl_mul_pow2 by lia.
  change (2 ^ 8) with 256. change (2 ^ 16) with 65536. change (2 ^ 24) with 16777216.
  change (2 ^ 32) with 4294967296 in Hv.
  pose proof (Z.mod_pos_bound v 256 ltac:(lia)).
  pose proof (Z.mod_pos_bound (v / 256) 256 ltac:(lia)).
  pose proof (Z.mod_pos_bound (v / 65536) 256 ltac:(lia)).
  pose proof (Z.mod_pos_bound (v / 16777216) 256 ltac:(lia)).
  rewrite (lor_disjoint 24 ((v / 65536) mod 256 * 65536)); cycle 1.
  { lia. } { change (2 ^ 24) with 16777216. lia. }
  { change (2 ^ 24) with 16777216. apply Z.mod_mul. lia. }
  rewrite (lor_disjoint 16 ((v / 256) mod 256 * 256)); cycle 1.
  { lia. } { change (2 ^ 16) with 65536. lia. }
  { change (2 ^ 16) with 65536.
    replace ((v / 65536) mod 256 * 65536 + (v / 16777216) mod 256 * 16777216)
      with (((v / 65536) mod 256 + (v / 16777216) mod 256 * 256) * 65536) by lia.
    apply Z.mod_mul. lia. }
  rewrite (lor_disjoint 8 (v mod 256)); cycle 1.
  { lia. } { change (2 ^ 8) with 256. lia. }
  { change (2 ^ 8) with 256.
    replace ((v / 256) mod 256 * 256 +
             ((v / 65536) mod 256 * 65536 + (v / 16777216) mod 256 * 16777216))
      with (((v / 256) mod 256 + (v / 65536) mod 256 * 256
             + (v / 16777216) mod 256 * 65536) * 256) by lia.
    apply Z.mod_mul. lia. }
  Z.div_mod_to_equations. lia.
Qed.

Lemma DecodeFixed32_range (p : list byte) (v : Z) :
  DecodeFixed32 p = Some v -> 0 <= v < 2 ^ 32.
Proof.
  destruct p as [|b0 [|b1 [|b2 [|b3 p]]]]; cbn; try discriminate.
  intros [= <-].
  pose proof (Z_of_byte_range b0). pose proof (Z_of_byte_range b1).
  pose proof (Z_of_byte_range b2). pose proof (Z_of_byte_range b3).
  rewrite !Z.shiftl_mul_pow2 by lia.
  change (2 ^ 8) with 256. change (2 ^ 16) with 65536. change (2 ^ 24) with 16777216.
  rewrite (lor_disjoint 24 (Z_of_byte b2 * 65536)); cycle 1.
  { lia. } { change (2 ^ 24) with 16777216. lia. }
  { change (2 ^ 24) with 16777216. apply Z.mod_mul. lia. }
  rewrite (lor_disjoint 16 (Z_of_byte b1 * 256)); cycle 1.
  { lia. } { change (2 ^ 16) with 65536. lia. }
  { change (2 ^ 16) with 65536.
    replace (Z_of_byte b2 * 65536 + Z_of_byte b3 * 16777216)
      with ((Z_of_byte b2 + Z_of_byte b3 * 256) * 65536) by lia.
    apply Z.mod_mul. lia. }
  rewrite (lor_disjoint 8 (Z_of_byte b0)); cycle 1.
  { lia. } { change (2 ^ 8) with 256. lia. }
  { change (2 ^ 8) with 256.
    replace (Z_of_byte b1 * 256 + (Z_of_byte b2 * 65536 + Z_of_byte b3 * 16777216))
      with ((Z_of_byte b1 + Z_of_byte b2 * 256 + Z_of_byte b3 * 65536) * 256) by lia.
    apply Z.mod_mul. lia. }
  change (2 ^ 32) with 4294967296. lia.
Qed.

Lemma DecodeFixed32_Some (p : list byte) :
  (4 <= length p)%nat -> is_Some (DecodeFixed32 p).
Proof.
  destruct p as [|b0 [|b1 [|b2 [|b3 p]]]]; cbn; intros; try lia. eauto.
Qed.

Lemma DecodeFixed32_None (p : list byte) :
  (length p < 4)%nat -> DecodeFixed32 p = None.
Proof.
  destruct p as [|b0 [|b1 [|b2 [|b3 p]]]]; cbn; intros; try lia; reflexivity.
Qed.

Lemma DecodeFixed64_EncodeFixed64 (v : Z) (rest : list byte) :
  0 <= v < 2 ^ 64 -> DecodeFixed64 (EncodeFixed64 v ++ rest) = Some v.
Proof.
  intros Hv. unfold DecodeFixed64, EncodeFixed64.
  change 4294967295 with (Z.ones 32). rewrite Z.land_ones by lia.
  rewrite Z.shiftr_div_pow2 by lia.
  change (2 ^ 64) with (2 ^ 32 * 2 ^ 32) in Hv.
  assert (0 <= v mod 2 ^ 32 < 2 ^ 32) by (apply Z.mod_pos_bound; lia).
  assert (0 <= v / 2 ^ 32 < 2 ^ 32).
  { split; [apply Z.div_pos; lia|apply Z.div_lt_upper_bound; lia]. }
  rewrite <- app_assoc, DecodeFixed32_EncodeFixed32 by lia. cbn [mbind option_bind].
  replace (drop 4 (EncodeFixed32 (v mod 2 ^ 32) ++ EncodeFixed32 (v / 2 ^ 32) ++ rest))
    with (EncodeFixed32 (v / 2 ^ 32) ++ rest) by reflexivity.
  rewrite DecodeFixed32_EncodeFixed32 by lia. cbn [mbind option_bind]. f_equal.
  rewrite Z.shiftl_mul_pow2, Z.lor_comm by lia.
  rewrite (lor_disjoint 32); [|lia|lia|apply Z.mod_mul; lia].
  pose proof (Z.div_mod v (2 ^ 32)). lia.
Qed.

End CodingFacts.

Section VarintFacts.
Import Coding.

Variable w : Z.
Variable wrap : Z -> Z.
Hypothesis wrap_small : forall x, 0 <= x < 2 ^ w -> wrap x = x.

Lemma GetVarintPtr_EncodeVarint (more n : nat) :
  forall (v shift result : Z) (rest : list byte),
    (more < n)%nat -> 0 <= shift -> 0 <= v -> v * 2 ^ shift < 2 ^ w ->
    v < 2 ^ (7 * (Z.of_nat more + 1)) ->
    GetVarintPtr wrap n shift result (EncodeVarint more v ++ rest)
    = Some (Z.lor result (Z.shiftl v shift), rest).
Proof.
  revert n. induction more as [|more IH]; intros n v shift result rest Hn Hs Hv Hw Hb.
  - destruct n as [|n]; [lia|]. cbn [EncodeVarint app GetVarintPtr].
    change (2 ^ (7 * (Z.of_nat 0 + 1))) with 128 in Hb.
    rewrite Z_of_byte_of_Z_small by lia.
    rewrite land_128, Z.div_small by lia.
    change (128 * (0 mod 2) =? 0) with true. cbv iota.
    rewrite Z.shiftl_mul_pow2, wrap_small by lia. reflexivity.
  - destruct n as [|n]; [lia|]. cbn [EncodeVarint].
    destruct (Z.ltb_spec v 128) as [Hlt|Hge].
    + cbn [app GetVarintPtr].
      rewrite Z_of_byte_of_Z_small by lia.
      rewrite land_128, Z.div_small by lia.
      change (128 * (0 mod 2) =? 0) with true. cbv iota.
      rewrite Z.shiftl_mul_pow2, wrap_small by lia. reflexivity.
    + cbn [app GetVarintPtr].
      assert (Hlo : 0 <= v mod 128 < 128) by (apply Z.mod_pos_bound; lia).
      assert (Hx : Z.lor (Z.land v 127) 128 = v mod 128 + 128).
      { rewrite land_127. apply (lor_disjoint 7); [lia|exact Hlo|reflexivity]. }
      rewrite Hx, Z_of_byte_of_Z_small by lia.
      rewrite land_128, land_127.
      replace ((v mod 128 + 128) / 128) with 1
        by (apply Z.div_unique with (r := v mod 128); lia).
      replace ((v mod 128 + 128) mod 128) with (v mod 128)
        by (apply Z.mod_unique with (q := 1); lia).
      change (128 * (1 mod 2) =? 0) with false. cbv iota.
      assert (HP : 0 < 2 ^ shift) by (apply Z.pow_pos_nonneg; lia).
      assert (Hdiv : 0 <= v / 128) by (apply Z.div_pos; lia).
      assert (Hvd : v = 128 * (v / 128) + v mod 128) by (apply Z.div_mod; lia).
      assert (Hpow : 2 ^ (shift + 7) = 2 ^ shift * 128).
      { rewrite Z.pow_add_r by lia. reflexivity. }
      assert (Hle : v mod 128 * 2 ^ shift <= v * 2 ^ shift).
      { apply Z.mul_le_mono_nonneg_r; lia. }
      assert (Hle' : v / 128 * (2 ^ shift * 128) <= v * 2 ^ shift).
      { replace (v / 128 * (2 ^ shift * 128)) with (128 * (v / 128) * 2 ^ shift) by lia.
        apply Z.mul_le_mono_nonneg_r; lia. }
      assert (Hlo' : v mod 128 * 2 ^ shift < 2 ^ shift * 128).
      { rewrite (Z.mul_comm (2 ^ shift)). apply Z.mul_lt_mono_pos_r; lia. }
      assert (0 <= v mod 128 * 2 ^ shift) by (apply Z.mul_nonneg_nonneg; lia).
      rewrite Z.shiftl_mul_pow2 by lia.
      rewrite wrap_small by lia.
      rewrite IH.
      * f_equal. f_equal. rewrite <- Z.lor_assoc. f_equal.
        rewrite !Z.shiftl_mul_pow2, Z.shiftr_div_pow2 by lia.
        change (2 ^ 7) with 128. rewrite Hpow.
        rewrite (lor_disjoint (shift + 7)).
        -- rewrite Hvd at 3. lia.
        -- lia.
        -- rewrite Hpow. lia.
        -- rewrite Hpow. apply Z.mod_mul. lia.
      * lia.
      * lia.
      * rewrite Z.shiftr_div_pow2 by lia. exact Hdiv.
      * rewrite Z.shiftr_div_pow2, Hpow by lia. change (2 ^ 7) with 128. lia.
      * rewrite Z.shiftr_div_pow2 by lia. change (2 ^ 7) with 128.
        apply Z.div_lt_upper_bound; [lia|].
        replace (7 * (Z.of_nat (S more) + 1)) with (7 + 7 * (Z.of_nat more + 1)) in Hb by lia.
        rewrite Z.pow_add_r in Hb by lia. exact Hb.
Qed.

End VarintFacts.

Section VarintFacts32.
Import Coding.

Lemma wrap32_small (x : Z) : 0 <= x < 2 ^ 32 -> wrap32 x = x.
Proof. intros H. apply Z.mod_small, H. Qed.

Lemma wrap64_small (x : Z) : 0 <= x < 2 ^ 64 -> wrap64 x = x.
Proof. intros H. apply Z.mod_small, H. Qed.

Lemma GetVarint32_EncodeVarint32 (v : Z) (rest : list byte) :
  0 <= v < 2 ^ 32 -> GetVarint32 (EncodeVarint32 v ++ rest) = Some (v, rest).
Proof.
  intros Hv. unfold GetVarint32, EncodeVarint32.
  assert (Hb : v < 2 ^ (7 * (Z.of_nat 4 + 1))).
  { change (2 ^ (7 * (Z.of_nat 4 + 1))) with (2 ^ 32 * 8). lia. }
  rewrite (GetVarintPtr_EncodeVarint 32 wrap32 wrap32_small) by (exact Hb || lia).
  rewrite Z.shiftl_0_r. reflexivity.
Qed.

Lemma GetVarint64_EncodeVarint64 (v : Z) (rest : list byte) :
  0 <= v < 2 ^ 64 -> GetVarint64 (EncodeVarint64 v ++ rest) = Some (v, rest).
Proof.
  intros Hv. unfold GetVarint64, EncodeVarint64.
  assert (Hb : v < 2 ^ (7 * (Z.of_nat 9 + 1))).
  { change (2 ^ (7 * (Z.of_nat 9 + 1))) with (2 ^ 64 * 64). lia. }
  rewrite (GetVarintPtr_EncodeVarint 64 wrap64 wrap64_small) by (exact Hb || lia).
  rewrite Z.shiftl_0_r. reflexivity.
Qed.

Lemma EncodeVarint_length (more : nat) (v : Z) :
  (1 <= length (EncodeVarint more v) <= S more)%nat.
Proof.
  revert v. induction more as [|more IH]; intros v; cbn [EncodeVarint].
  - cbn. lia.
  - destruct (v <? 128); cbn [length]; [lia|]. specialize (IH (Z.shiftr v 7)). lia.
Qed.

End VarintFacts32.

(** ** db/dbformat: the order of internal keys *)

Section ComparatorFacts.
Import Coding DBFormat.

Lemma DecodeFixed64_Some (p : list byte) :
  (8 <= length p)%nat -> exists v, DecodeFixed64 p = Some v /\ 0 <= v < 2 ^ 64.
Proof.
  intros Hp. unfold DecodeFixed64.
  destruct (DecodeFixed32_Some p ltac:(lia)) as [lo Hlo].
  destruct (DecodeFixed32_Some (drop 4 p)) as [hi Hhi].
  { rewrite length_drop. lia. }
  rewrite Hlo, Hhi. cbn [mbind option_bind]. eexists; split; [reflexivity|].
  apply DecodeFixed32_range in Hlo, Hhi.
  rewrite Z.shiftl_mul_pow2, Z.lor_comm by lia.
  rewrite (lor_disjoint 32); [|lia|lia|apply Z.mod_mul; lia].
  change (2 ^ 64) with (2 ^ 32 * 2 ^ 32). nia.
Qed.

Lemma tag_of_Some (a : list byte) :
  8 <= size a -> exists t, tag_of a = Some t /\ 0 <= t < 2 ^ 64.
Proof.
  intros Ha. unfold tag_of. apply DecodeFixed64_Some.
  unfold slice_from, size in *. rewrite length_drop. lia.
Qed.

(** Comparing two tags is comparing (sequence, type) pairs, sequence first. *)
Lemma tag_order (t1 t2 : Z) :
  0 <= t1 -> 0 <= t2 ->
  (t1 > t2 <->
   Z.shiftr t1 8 > Z.shiftr t2 8 \/
   (Z.shiftr t1 8 = Z.shiftr t2 8 /\ Z.land t1 255 > Z.land t2 255)).
Proof.
  intros H1 H2. rewrite !Z.shiftr_div_pow2, !land_255 by lia.
  change (2 ^ 8) with 256. Z.div_mod_to_equations. lia.
Qed.

Variable user_comparator : list byte -> list byte -> Z.

(** C1 (as amended).  On internal keys [a] and [b] the comparator answers,
    and: when the user keys are equal under the user comparator, the answer
    is negative exactly when the 8-byte tag of [a] is the larger one, that
    is when [sequence(a) > sequence(b)], or the sequences are equal and
    [type(a) > type(b)]; when the user keys are unequal, the answer is the
    answer of the user comparator, so it has its sign. *)
Theorem Compare_order (a b : list byte) :
  8 <= size a -> 8 <= size b ->
  exists ua ub r sa sb ta tb,
    ExtractUserKey a = Some ua /\ ExtractUserKey b = Some ub /\
    Compare user_comparator a b = Some r /\
    sequence_of a = Some sa /\ sequence_of b = Some sb /\
    type_of a = Some ta /\ type_of b = Some tb /\
    (user_comparator ua ub = 0 ->
       (r < 0 <-> sa > sb \/ (sa = sb /\ ta > tb))) /\
    (user_comparator ua ub <> 0 ->
       r = user_comparator ua ub /\ Z.sgn r = Z.sgn (user_comparator ua ub)).
Proof.
  intros Ha Hb.
  destruct (tag_of_Some a Ha) as (na & Hna & Hra).
  destruct (tag_of_Some b Hb) as (nb & Hnb & Hrb).
  unfold Compare, ExtractUserKey, sequence_of, type_of.
  rewrite Hna, Hnb. unfold tag_of in Hna, Hnb.
  destruct (Z.leb_spec 8 (size a)) as [_|?]; [|lia].
  destruct (Z.leb_spec 8 (size b)) as [_|?]; [|lia].
  cbn [negb mbind option_bind].
  set (ua := slice_to (size a - 8) a). set (ub := slice_to (size b - 8) b).
  rewrite Hna, Hnb. cbn [mbind option_bind].
  pose proof (tag_order na nb ltac:(lia) ltac:(lia)) as Hord.
  destruct (Z.eqb_spec (user_comparator ua ub) 0) as [Heq|Hne].
  - destruct (Z.gtb_spec na nb) as [Hgt|Hle].
    + exists ua, ub, (-1). do 4 eexists. repeat (split; [reflexivity|]).
      split; [|intros; contradiction].
      intros _. split; [intros _; apply Hord; lia|lia].
    + destruct (Z.ltb_spec na nb) as [Hlt|Hge].
      * exists ua, ub, 1. do 4 eexists. repeat (split; [reflexivity|]).
        split; [|intros; contradiction].
        intros _. split; [lia|]. intros H. apply Hord in H. lia.
      * exists ua, ub, (user_comparator ua ub). do 4 eexists.
        repeat (split; [reflexivity|]).
        split; [|intros; contradiction].
        intros _. rewrite Heq. split; [lia|]. intros H. apply Hord in H. lia.
  - exists ua, ub, (user_comparator ua ub). do 4 eexists.
    repeat (split; [reflexivity|]).
    split; [intros; contradiction|]. intros _. split; reflexivity.
Qed.

End ComparatorFacts.

Lemma Compare_order_witness :
  8 <= size Stated.key_k_5_value /\ 8 <= size Stated.key_k_5_deletion /\
  exists ua ub r sa sb ta tb,
    DBFormat.ExtractUserKey Stated.key_k_5_value = Some ua /\
    DBFormat.ExtractUserKey Stated.key_k_5_deletion = Some ub /\
    DBFormat.Compare DBFormat.BytewiseCompare Stated.key_k_5_value Stated.key_k_5_deletion
      = Some r /\
    DBFormat.sequence_of Stated.key_k_5_value = Some sa /\
    DBFormat.sequence_of Stated.key_k_5_deletion = Some sb /\
    DBFormat.type_of Stated.key_k_5_value = Some ta /\
    DBFormat.type_of Stated.key_k_5_deletion = Some tb /\
    (DBFormat.BytewiseCompare ua ub = 0 ->
       (r < 0 <-> sa > sb \/ (sa = sb /\ ta > tb))) /\
    (DBFormat.BytewiseCompare ua ub <> 0 ->
       r = DBFormat.BytewiseCompare ua ub /\
       Z.sgn r = Z.sgn (DBFormat.BytewiseCompare ua ub)).
Proof.
  split; [vm_compute; discriminate|]. split; [vm_compute; discriminate|].
  apply (Compare_order DBFormat.BytewiseCompare); vm_compute; discriminate.
Defined.

(** C1 (as worded, refuted).  The two internal keys for user key [k] at
    sequence 5, a value and a deletion, have equal user keys and equal
    sequence numbers, and the comparator puts the value first: the answer is
    negative although [sequence(a) > sequence(b)] is false. *)
Lemma ordering_fails_on_equal_sequence :
  ~ Stated.ordering DBFormat.BytewiseCompare
      Stated.key_k_5_value Stated.key_k_5_deletion.
Proof.
  intros H.
  destruct (H [x6b] [x6b] (-1) 5 5) as [H0 _]; try reflexivity.
  specialize (H0 eq_refl). lia.
Qed.

(** ** db/dbformat: the lookup key *)

Section LookupKeyFacts.
Import Coding DBFormat.

Lemma PackSequenceAndType_Some (vt : ValueTypes) (s t : Z) :
  0 <= s <= kMaxSequenceNumber -> t <= kValueTypeForSeek vt ->
  PackSequenceAndType vt s t = Some (Z.lor (Z.shiftl s 8) t).
Proof.
  intros Hs Ht. unfold PackSequenceAndType.
  destruct (Z.leb_spec s kMaxSequenceNumber); [|lia].
  destruct (Z.leb_spec t (kValueTypeForSeek vt)); [|lia].
  cbn [negb]. rewrite wrap64_small; [reflexivity|].
  rewrite Z.shiftl_mul_pow2 by lia.
  change kMaxSequenceNumber with (2 ^ 56 - 1) in Hs.
  change (2 ^ 64) with (2 ^ 56 * 2 ^ 8). lia.
Qed.

(** What the two assertions of [PackSequenceAndType] let through. *)
Lemma PackSequenceAndType_inv (vt : ValueTypes) (s t tag : Z) :
  PackSequenceAndType vt s t = Some tag ->
  s <= kMaxSequenceNumber /\ t <= kValueTypeForSeek vt.
Proof.
  unfold PackSequenceAndType.
  destruct (Z.leb_spec s kMaxSequenceNumber); cbn [negb]; [|discriminate].
  destruct (Z.leb_spec t (kValueTypeForSeek vt)); cbn [negb]; [|discriminate].
  intros _. split; assumption.
Qed.

(** C6 (as amended).  For every numbering of the types, every user key [u]
    and every sequence number [s] up to [kMaxSequenceNumber], the lookup key
    is the varint32 of [len(u) + 8] (as the 32-bit value it is passed as),
    the bytes of [u], and the fixed 8-byte tag [(s << 8) | type] with [type]
    the seek type; and the seek type is numerically the largest type value:
    [PackSequenceAndType] packs it, and every type that it packs, with
    whatever sequence number, is at most the seek type. *)
Theorem LookupKey_bytes (vt : ValueTypes) (u : list byte) (s : Z) :
  0 <= s <= kMaxSequenceNumber ->
  LookupKey vt u s
  = Some (EncodeVarint32 (wrap32 (size u + 8)) ++ u
          ++ EncodeFixed64 (Z.lor (Z.shiftl s 8) (kValueTypeForSeek vt))) /\
  PackSequenceAndType vt s (kValueTypeForSeek vt)
  = Some (Z.lor (Z.shiftl s 8) (kValueTypeForSeek vt)) /\
  (forall s' t tag, PackSequenceAndType vt s' t = Some tag -> t <= kValueTypeForSeek vt).
Proof.
  intros Hs.
  assert (Hp : PackSequenceAndType vt s (kValueTypeForSeek vt)
               = Some (Z.lor (Z.shiftl s 8) (kValueTypeForSeek vt)))
    by (apply PackSequenceAndType_Some; lia).
  split; [|split].
  - unfold LookupKey. rewrite Hp. cbn [mbind option_bind].
    rewrite <- app_assoc. reflexivity.
  - exact Hp.
  - intros s' t tag H. exact (proj2 (PackSequenceAndType_inv vt s' t tag H)).
Qed.

(** C6 (as worded, refuted).  Under no numbering in which the two
    enumerators differ (they are the labels of one [switch]) and both pass
    the assertion of [PackSequenceAndType] is the seek type the smallest
    type value: the assertion puts both at or below the seek type, so one of
    them is strictly below it.  With leveldb's numbering the seek type is 1
    and a deletion is 0. *)
Lemma lookup_key_seek_type_not_smallest :
  (forall vt u s,
     kTypeDeletion vt <> kTypeValue vt ->
     is_Some (PackSequenceAndType vt s (kTypeDeletion vt)) ->
     is_Some (PackSequenceAndType vt s (kTypeValue vt)) ->
     ~ Stated.lookup_key vt u s) /\
  ~ Stated.lookup_key leveldb_types [x6b] 5.
Proof.
  assert (H : forall vt u s,
     kTypeDeletion vt <> kTypeValue vt ->
     is_Some (PackSequenceAndType vt s (kTypeDeletion vt)) ->
     is_Some (PackSequenceAndType vt s (kTypeValue vt)) ->
     ~ Stated.lookup_key vt u s).
  { intros vt u s Hne [x Hd] [y Hv] [_ H].
    apply PackSequenceAndType_inv in Hd as [_ Hd].
    apply PackSequenceAndType_inv in Hv as [_ Hv].
    pose proof (H _ (or_introl eq_refl)). pose proof (H _ (or_intror eq_refl)). lia. }
  split; [exact H|].
  apply H; [cbn; lia|eexists; vm_compute; reflexivity|eexists; vm_compute; reflexivity].
Qed.

End LookupKeyFacts.

Lemma leveldb_types_consistent : DBFormat.consistent DBFormat.leveldb_types.
Proof. unfold DBFormat.consistent. cbn. lia. Qed.

Lemma LookupKey_bytes_witness :
  DBFormat.LookupKey DBFormat.leveldb_types [x6b] 5
  = Some ([x09] ++ [x6b] ++ [x01; x05; x00; x00; x00; x00; x00; x00]) /\
  DBFormat.PackSequenceAndType DBFormat.leveldb_types 5 1 = Some 1281 /\
  (forall s' t tag,
     DBFormat.PackSequenceAndType DBFormat.leveldb_types s' t = Some tag -> t <= 1).
Proof.
  apply (LookupKey_bytes DBFormat.leveldb_types [x6b] 5).
  vm_compute. split; discriminate.
Defined.

(** ** table/format: the footer *)

Section FooterFacts.
Import Coding Format FormatExamples.

Variable kTableMagicNumber : Z.

Lemma read_magic_Some (input : list byte) :
  48 <= size input -> is_Some (read_magic input).
Proof.
  intros H. unfold read_magic, size, slice_from in *.
  destruct (DecodeFixed32_Some (drop (Z.to_nat (kEncodedLength - 8)) input)) as [lo Hlo].
  { rewrite length_drop. change (Z.to_nat (kEncodedLength - 8)) with 40%nat. lia. }
  destruct (DecodeFixed32_Some (drop (Z.to_nat (kEncodedLength - 4)) input)) as [hi Hhi].
  { rewrite length_drop. change (Z.to_nat (kEncodedLength - 4)) with 44%nat. lia. }
  rewrite Hlo, Hhi. cbn. eauto.
Qed.

Lemma read_magic_None (input : list byte) :
  size input < 48 -> read_magic input = None.
Proof.
  intros H. unfold read_magic, size, slice_from in *.
  rewrite (DecodeFixed32_None (drop (Z.to_nat (kEncodedLength - 4)) input)).
  - destruct (DecodeFixed32 _); reflexivity.
  - rewrite length_drop. change (Z.to_nat (kEncodedLength - 4)) with 44%nat. lia.
Qed.

(** [Footer::DecodeFrom] in terms of the magic it reads. *)
Lemma Footer_DecodeFrom_unfold (f : Footer) (input : list byte) :
  Footer_DecodeFrom kTableMagicNumber f input =
  match read_magic input with
  | None => None
  | Some magic =>
      if negb (magic =? kTableMagicNumber) then
        Some (Corruption "not an sstable (bad magic number)", f, input)
      else
        let '(r1, metaindex, input1) :=
          BlockHandle_DecodeFrom (metaindex_handle_ f) input in
        if ok r1 then
          let '(r2, index, input2) :=
            BlockHandle_DecodeFrom (index_handle_ f) input1 in
          let f' := {| metaindex_handle_ := metaindex; index_handle_ := index |} in
          if ok r2 then Some (r2, f', slice_from kEncodedLength input)
          else Some (r2, f', input2)
        else
          Some (r1, {| metaindex_handle_ := metaindex;
                       index_handle_ := index_handle_ f |}, input1)
  end.
Proof.
  unfold Footer_DecodeFrom, read_magic.
  replace (slice_from 4 (slice_from (kEncodedLength - 8) input))
    with (slice_from (kEncodedLength - 4) input)
    by (unfold slice_from; rewrite drop_drop; reflexivity).
  destruct (DecodeFixed32 (slice_from (kEncodedLength - 8) input)) as [lo|];
    [|reflexivity].
  destruct (DecodeFixed32 (slice_from (kEncodedLength - 4) input)) as [hi|];
    [|reflexivity].
  cbn [mbind option_bind].
  destruct (negb (Z.lor (Z.shiftl hi 32) lo =? kTableMagicNumber)); [reflexivity|].
  destruct (BlockHandle_DecodeFrom (metaindex_handle_ f) input) as [[r1 m] input1].
  destruct (ok r1) eqn:Hok1.
  - destruct (BlockHandle_DecodeFrom (index_handle_ f) input1) as [[r2 ix] input2].
    destruct (ok r2) eqn:Hok2; [|reflexivity].
    unfold slice_from. rewrite drop_drop. reflexivity.
  - rewrite Hok1. reflexivity.
Qed.

Lemma BlockHandle_DecodeFrom_status (h : BlockHandle) (input : list byte) :
  let '(r, _, _) := BlockHandle_DecodeFrom h input in
  r = OK \/ r = Corruption "bad block handle".
Proof.
  unfold BlockHandle_DecodeFrom.
  destruct (GetVarint64 input) as [[off input1]|]; [|right; reflexivity].
  destruct (GetVarint64 input1) as [[sz input2]|]; [left|right]; reflexivity.
Qed.

(** C7.  On an input that covers the 48-byte footer region, [DecodeFrom]
    reads the magic from the last 8 bytes of the region.  If it is not the
    expected constant the answer is a Corruption error, and neither handle
    has been parsed: the footer and the input are as before.  If it is, the
    metaindex handle is decoded from the input and, when that succeeds, the
    index handle from where the first decoding stopped; the answer is the
    first failure of the two, or OK with the input advanced past the
    footer. *)
Theorem Footer_DecodeFrom_magic_first (f : Footer) (input : list byte) :
  48 <= size input ->
  exists magic, read_magic input = Some magic /\
    (magic <> kTableMagicNumber ->
       exists s, Footer_DecodeFrom kTableMagicNumber f input = Some (s, f, input) /\
                 IsCorruption s = true) /\
    (magic = kTableMagicNumber ->
       forall r1 metaindex input1,
         BlockHandle_DecodeFrom (metaindex_handle_ f) input = (r1, metaindex, input1) ->
         (ok r1 = false ->
            Footer_DecodeFrom kTableMagicNumber f input
            = Some (r1, {| metaindex_handle_ := metaindex;
                           index_handle_ := index_handle_ f |}, input1) /\
            IsCorruption r1 = true) /\
         (ok r1 = true ->
            forall r2 index input2,
              BlockHandle_DecodeFrom (index_handle_ f) input1 = (r2, index, input2) ->
              (ok r2 = false ->
                 Footer_DecodeFrom kTableMagicNumber f input
                 = Some (r2, {| metaindex_handle_ := metaindex;
                                index_handle_ := index |}, input2) /\
                 IsCorruption r2 = true) /\
              (ok r2 = true ->
                 Footer_DecodeFrom kTableMagicNumber f input
                 = Some (OK, {| metaindex_handle_ := metaindex;
                                index_handle_ := index |},
                         slice_from kEncodedLength input)))).
Proof.
  intros Hsize. destruct (read_magic_Some input Hsize) as [magic Hmagic].
  exists magic. split; [exact Hmagic|]. rewrite Footer_DecodeFrom_unfold, Hmagic.
  split.
  - intros Hne. destruct (Z.eqb_spec magic kTableMagicNumber); [contradiction|].
    cbn [negb]. eexists. split; reflexivity.
  - intros Heq. destruct (Z.eqb_spec magic kTableMagicNumber); [|contradiction].
    cbn [negb]. intros r1 metaindex input1 H1. rewrite H1.
    pose proof (BlockHandle_DecodeFrom_status (metaindex_handle_ f) input) as S1.
    rewrite H1 in S1. split.
    + intros Hok. rewrite Hok. split; [reflexivity|].
      destruct S1 as [-> | ->]; [discriminate|reflexivity].
    + intros Hok. rewrite Hok. intros r2 index input2 H2. rewrite H2.
      pose proof (BlockHandle_DecodeFrom_status (index_handle_ f) input1) as S2.
      rewrite H2 in S2. split.
      * intros Hok2. rewrite Hok2. split; [reflexivity|].
        destruct S2 as [-> | ->]; [discriminate|reflexivity].
      * intros Hok2. rewrite Hok2. destruct S2 as [-> | ->]; [reflexivity|discriminate].
Qed.

(** C10.  [Footer::DecodeFrom] reads the magic at offset [kEncodedLength - 8]
    whatever the length of the input; the read stays inside the input exactly
    when the input has the 48 bytes of the footer region. *)
Theorem Footer_DecodeFrom_in_bounds (f : Footer) (input : list byte) :
  Footer_DecodeFrom kTableMagicNumber f input = None <-> size input < 48.
Proof.
  rewrite Footer_DecodeFrom_unfold. split.
  - intros H. destruct (Z.lt_ge_cases (size input) 48) as [|Hge]; [assumption|].
    destruct (read_magic_Some input Hge) as [magic Hmagic]. rewrite Hmagic in H.
    destruct (negb (magic =? kTableMagicNumber)); [discriminate|].
    destruct (BlockHandle_DecodeFrom (metaindex_handle_ f) input) as [[r1 m] input1].
    destruct (ok r1); [|discriminate].
    destruct (BlockHandle_DecodeFrom (index_handle_ f) input1) as [[r2 ix] input2].
    destruct (ok r2); discriminate.
  - intros H. rewrite read_magic_None by exact H. reflexivity.
Qed.

End FooterFacts.

Lemma Footer_DecodeFrom_magic_first_witness :
  48 <= size FormatExamples.footer_bytes /\
  Format.Footer_DecodeFrom FormatExamples.leveldb_magic
    {| Format.metaindex_handle_ := Format.BlockHandle_new;
       Format.index_handle_ := Format.BlockHandle_new |}
    FormatExamples.footer_bytes
  = Some (Format.OK, FormatExamples.footer_100_50_150_80, []).
Proof.
  split; [vm_compute; discriminate|].
  destruct (Footer_DecodeFrom_magic_first FormatExamples.leveldb_magic
              {| Format.metaindex_handle_ := Format.BlockHandle_new;
                 Format.index_handle_ := Format.BlockHandle_new |}
              FormatExamples.footer_bytes) as (magic & Hm & _ & Hok).
  { vm_compute. discriminate. }
  assert (magic = FormatExamples.leveldb_magic) as ->.
  { vm_compute in Hm. injection Hm as <-. reflexivity. }
  destruct (Hok eq_refl Format.OK {| Format.offset_ := 100; Format.size_ := 50 |}
              (drop 2 FormatExamples.footer_bytes) eq_refl) as [_ H1].
  destruct (H1 eq_refl Format.OK {| Format.offset_ := 150; Format.size_ := 80 |}
              (drop 5 FormatExamples.footer_bytes) eq_refl) as [_ H2].
  exact (H2 eq_refl).
Defined.

(** The footer of section 8 is the 48 bytes [footer_bytes]. *)
Example Footer_EncodeTo_example :
  Format.Footer_EncodeTo FormatExamples.leveldb_magic
    FormatExamples.footer_100_50_150_80 []
  = Some FormatExamples.footer_bytes.
Proof. vm_compute. reflexivity. Qed.

(** ** table/format: reading a block *)

Section ReadBlockFacts.
Import Coding Format FormatExamples.

Variable crc32c_Value : list byte -> Z.
Variable crc32c_Unmask : Z -> Z.
Variable Snappy_GetUncompressedLength : list byte -> option Z.
Variable Snappy_Uncompress : list byte -> option (list byte).

Local Abbreviation ReadBlock :=
  (Format.ReadBlock crc32c_Value crc32c_Unmask
     Snappy_GetUncompressedLength Snappy_Uncompress).
Local Abbreviation checksum_mismatch :=
  (Format.checksum_mismatch crc32c_Value crc32c_Unmask).
Local Abbreviation bad_compressed_block :=
  (Format.bad_compressed_block Snappy_GetUncompressedLength Snappy_Uncompress).

(** When the read succeeds, gives no more than was asked for, and
    [handle.size + 5] fits a [size_t], [ReadBlock] answers, with a Corruption
    error in exactly the four cases, and in the good no-compression case with
    the first [handle.size] bytes as they were read. *)
Lemma ReadBlock_corruption_cases (file : Z -> Z -> ReadResult) (verify_checksums : bool)
    (handle : BlockHandle) :
  let n := size_ handle in
  let r := file (offset_ handle) (n + kBlockTrailerSize) in
  0 <= n -> n + kBlockTrailerSize < 2 ^ 64 ->
  ok (r_status r) = true ->
  size (r_contents r) <= n + kBlockTrailerSize ->
  exists s contents,
    ReadBlock file verify_checksums handle = Some (s, contents) /\
    (IsCorruption s = true <->
       truncated n (r_contents r) \/
       checksum_mismatch verify_checksums n (r_contents r) \/
       bad_block_type n (r_contents r) \/
       bad_compressed_block n (r_contents r)) /\
    (IsCorruption s = false -> s = OK) /\
    (IsCorruption s = false ->
     r_contents r !! Z.to_nat n = Some (byte_of_Z kNoCompression) ->
     data contents = slice_to n (r_contents r)).
Proof.
  cbv zeta. set (n := size_ handle).
  set (r := file (offset_ handle) (n + kBlockTrailerSize)).
  intros Hn Hfit Hok Hle. unfold Format.ReadBlock.
  fold n. unfold truncated, kBlockTrailerSize in *.
  rewrite (wrap64_small n) by lia.
  rewrite (wrap64_small (n + 5)) by lia.
  fold r. rewrite Hok. cbn [negb].
  set (c := r_contents r) in *.
  destruct (Z.eqb_spec (size c) (n + 5)) as [Hsz|Hsz]; cbn [negb].
  2:{ eexists _, _. split; [reflexivity|]. split; [|split; discriminate].
      split; [intros _; left; lia|reflexivity]. }
  assert (Hlen : length c = Z.to_nat (n + 5)) by (unfold size in Hsz; lia).
  destruct (DecodeFixed32_Some (slice_from (n + 1) c)) as [stored Hstored].
  { unfold slice_from. rewrite length_drop. lia. }
  destruct (lookup_lt_is_Some_2 c (Z.to_nat n) ltac:(lia)) as [type Htype].
  assert (Hchk : forall b : bool,
    (b = false <-> checksum_mismatch verify_checksums n c) ->
    (if verify_checksums
     then stored ← DecodeFixed32 (slice_from (n + 1) c);
          (if size c <? n + 1 then None
           else Some (crc32c_Value (slice_to (n + 1) c) =? crc32c_Unmask stored))
     else Some true) = Some b ->
    exists s contents,
      (if negb b then Some (Corruption "block checksum mismatch", empty_contents)
       else
         type ← c !! Z.to_nat n;
         (if Z_of_byte type =? kNoCompression
          then if negb (r_in_scratch r)
               then Some (OK, {| data := slice_to n c; cachable := false;
                                 heap_allocated := false |})
               else Some (OK, {| data := slice_to n c; cachable := true;
                                 heap_allocated := true |})
          else if Z_of_byte type =? kSnappyCompression
               then match Snappy_GetUncompressedLength (slice_to n c) with
                    | Some ulength =>
                        match Snappy_Uncompress (slice_to n c) with
                        | Some ubuf =>
                            Some (OK, {| data := slice_to ulength ubuf;
                                         cachable := true; heap_allocated := true |})
                        | None =>
                            Some (Corruption "corrupted compressed block contents",
                                  empty_contents)
                        end
                    | None =>
                        Some (Corruption "corrupted compressed block contents",
                              empty_contents)
                    end
               else Some (Corruption "bad block type", empty_contents)))
      = Some (s, contents) /\
      (IsCorruption s = true <->
         size c < n + 5 \/ checksum_mismatch verify_checksums n c \/
         bad_block_type n c \/ bad_compressed_block n c) /\
      (IsCorruption s = false -> s = OK) /\
      (IsCorruption s = false ->
       c !! Z.to_nat n = Some (byte_of_Z kNoCompression) ->
       data contents = slice_to n c)).
  { intros b Hb _. destruct b; cbn [negb].
    2:{ eexists _, _. split; [reflexivity|]. split; [|split; discriminate].
        split; [intros _; right; left; apply Hb; reflexivity|reflexivity]. }
    assert (Hnm : ~ checksum_mismatch verify_checksums n c).
    { intros H. apply Hb in H. discriminate. }
    rewrite Htype. cbn [mbind option_bind].
    destruct (Z.eqb_spec (Z_of_byte type) kNoCompression) as [H0|H0].
    { assert (Hgood : forall s bc, s = OK -> data bc = slice_to n c ->
        (IsCorruption s = true <->
           size c < n + 5 \/ checksum_mismatch verify_checksums n c \/
           bad_block_type n c \/ bad_compressed_block n c) /\
        (IsCorruption s = false -> s = OK) /\
        (IsCorruption s = false ->
         Some type = Some (byte_of_Z kNoCompression) ->
         data bc = slice_to n c)).
      { intros s bc -> Hd. split; [|split; [reflexivity|intros _ _; exact Hd]].
        split; [discriminate|].
        intros [H|[H|[H|H]]]; [lia|contradiction| |].
        - destruct H as (t' & Ht' & Hn0 & _). rewrite Htype in Ht'.
          injection Ht' as <-. contradiction.
        - destruct H as (t' & Ht' & Hs & _). rewrite Htype in Ht'.
          injection Ht' as <-. unfold kNoCompression, kSnappyCompression in *. lia. }
      destruct (negb (r_in_scratch r)); eexists _, _;
        (split; [reflexivity|apply Hgood; reflexivity]). }
    assert (Hnot0 : Some type <> Some (byte_of_Z kNoCompression)).
    { intros [= ->]. apply H0. reflexivity. }
    destruct (Z.eqb_spec (Z_of_byte type) kSnappyCompression) as [H1|H1].
    { destruct (Snappy_GetUncompressedLength (slice_to n c)) as [ulength|] eqn:HL.
      2:{ eexists _, _. split; [reflexivity|]. split; [|split; discriminate].
          split; [intros _|reflexivity]. right; right; right.
          exists type. split; [assumption|]. split; [assumption|]. left. exact HL. }
      destruct (Snappy_Uncompress (slice_to n c)) as [ubuf|] eqn:HU.
      2:{ eexists _, _. split; [reflexivity|]. split; [|split; discriminate].
          split; [intros _|reflexivity]. right; right; right.
          exists type. split; [assumption|]. split; [assumption|]. right. exact HU. }
      eexists _, _. split; [reflexivity|].
      split; [|split; [reflexivity|intros _ H; contradiction]].
      split; [discriminate|].
      intros [H|[H|[H|H]]]; [lia|contradiction| |].
      - destruct H as (t' & Ht' & _ & Hn1). rewrite Htype in Ht'.
        injection Ht' as <-. contradiction.
      - destruct H as (t' & Ht' & _ & [H'|H']); congruence. }
    eexists _, _. split; [reflexivity|]. split; [|split; discriminate].
    split; [intros _|reflexivity]. right; right; left.
    exists type. repeat split; assumption. }
  destruct verify_checksums.
  - rewrite Hstored. cbn [mbind option_bind].
    destruct (Z.ltb_spec (size c) (n + 1)); [lia|].
    cbn [mbind option_bind].
    eapply Hchk; [|rewrite Hstored; cbn [mbind option_bind];
                   destruct (Z.ltb_spec (size c) (n + 1)); [lia|reflexivity]].
    unfold checksum_mismatch. rewrite Hstored.
    destruct (Z.eqb_spec (crc32c_Value (slice_to (n + 1) c)) (crc32c_Unmask stored)).
    + split; [discriminate|]. intros (_ & st & [= <-] & Hneq). contradiction.
    + split; [|reflexivity]. intros _. split; [reflexivity|]. eauto.
  - cbn [mbind option_bind]. eapply (Hchk true); [|reflexivity].
    split; [discriminate|]. intros [Hv _]. discriminate.
Qed.

(** When the read fails, [ReadBlock] hands its status on. *)
Lemma ReadBlock_read_error (file : Z -> Z -> ReadResult) (verify_checksums : bool)
    (handle : BlockHandle) :
  let r := file (offset_ handle) (wrap64 (wrap64 (size_ handle) + kBlockTrailerSize)) in
  ok (r_status r) = false ->
  ReadBlock file verify_checksums handle = Some (r_status r, empty_contents).
Proof.
  intros r Hok. unfold Format.ReadBlock. fold r. rewrite Hok. reflexivity.
Qed.

(** C8 (the code at the failing input).  For a handle whose size is
    [2^64 - 5] the sum [n + kBlockTrailerSize] wraps to 0: the file is asked
    for no bytes and gives none, the length test passes, and the type byte
    (with checksums on, the stored checksum) is read outside the contents,
    where the claim has a Corruption error for a read shorter than
    [handle.size + 5]. *)
Theorem ReadBlock_size_overflow (file : list byte) (verify_checksums : bool) :
  let handle := {| offset_ := 0; size_ := 2 ^ 64 - 5 |} in
  let r := PosixRandomAccessFile_Read file (offset_ handle)
             (wrap64 (size_ handle + kBlockTrailerSize)) in
  ok (r_status r) = true /\
  size (r_contents r) < size_ handle + kBlockTrailerSize /\
  ReadBlock (PosixRandomAccessFile_Read file) verify_checksums handle = None.
Proof.
  cbv zeta. split; [reflexivity|]. split; [vm_compute; reflexivity|].
  unfold Format.ReadBlock.
  cbn [size_ offset_ ok r_status r_contents PosixRandomAccessFile_Read negb].
  replace (wrap64 (wrap64 (2 ^ 64 - 5) + kBlockTrailerSize)) with 0
    by (vm_compute; reflexivity).
  replace (wrap64 (2 ^ 64 - 5)) with (2 ^ 64 - 5) by (vm_compute; reflexivity).
  assert (Hnil : slice_to 0 (slice_from 0 file) = []) by reflexivity.
  change (take (Z.to_nat 0) (slice_from 0 file)) with (slice_to 0 (slice_from 0 file)).
  rewrite !Hnil. change (negb (size [] =? 0)) with false. cbv iota.
  destruct verify_checksums.
  - unfold slice_from. rewrite drop_nil. reflexivity.
  - cbn [mbind option_bind negb]. rewrite lookup_nil. reflexivity.
Qed.

End ReadBlockFacts.

(** ** table/filter_block: the reader *)

Section FilterFacts.
Import Coding FilterBlock FilterExamples.

(** What [KeyMayMatch] does on a bucket inside the offset table, in terms of
    the two offsets it reads. *)
Lemma KeyMayMatch_in_range (r : Reader.t) (contents : list byte)
    (block_offset : Z) (key : list byte) (start limit : Z) :
  let index := Z.shiftr block_offset (Reader.base_lg_ r) in
  Reader.base_lg_ r < 64 -> index < Reader.num_ r ->
  Reader.data_ r = Some contents ->
  DecodeFixed32 (slice_from (Reader.offset_ r + index * 4) contents) = Some start ->
  DecodeFixed32 (slice_from (Reader.offset_ r + index * 4 + 4) contents) = Some limit ->
  Reader.KeyMayMatch r block_offset key
  = Some (if (start <=? limit) && (limit <=? Reader.offset_ r)
          then KeyMayMatch (Reader.policy_ r) key
                 (slice_to (limit - start) (slice_from start contents))
          else if start =? limit then false else true).
Proof.
  cbv zeta. intros Hlg Hidx Hdata Hstart Hlimit. unfold Reader.KeyMayMatch.
  destruct (Z.leb_spec 64 (Reader.base_lg_ r)); [lia|].
  destruct (Z.ltb_spec (Z.shiftr block_offset (Reader.base_lg_ r)) (Reader.num_ r));
    [|lia].
  rewrite Hdata. cbn [mbind option_bind]. rewrite Hstart, Hlimit.
  cbn [mbind option_bind].
  destruct ((start <=? limit) && (limit <=? Reader.offset_ r)); [reflexivity|].
  destruct (start =? limit); reflexivity.
Qed.

(** An empty filter inside the filter data ([start = limit], not beyond the
    total length) is handed to the policy: the answer is the policy's answer
    on the empty slice. *)
Lemma KeyMayMatch_empty_filter (r : Reader.t) (contents : list byte)
    (block_offset : Z) (key : list byte) (start : Z) :
  let index := Z.shiftr block_offset (Reader.base_lg_ r) in
  Reader.base_lg_ r < 64 -> index < Reader.num_ r ->
  Reader.data_ r = Some contents ->
  DecodeFixed32 (slice_from (Reader.offset_ r + index * 4) contents) = Some start ->
  DecodeFixed32 (slice_from (Reader.offset_ r + index * 4 + 4) contents) = Some start ->
  start <= Reader.offset_ r ->
  Reader.KeyMayMatch r block_offset key
  = Some (KeyMayMatch (Reader.policy_ r) key []).
Proof.
  cbv zeta. intros Hlg Hidx Hdata Hstart Hlimit Hle.
  rewrite (KeyMayMatch_in_range r contents block_offset key start start) by assumption.
  destruct (Z.leb_spec start start); [|lia].
  destruct (Z.leb_spec start (Reader.offset_ r)); [|lia].
  cbn [andb]. unfold slice_to. rewrite Z.sub_diag. reflexivity.
Qed.

(** A bucket outside the offset table is a possible match. *)
Lemma KeyMayMatch_out_of_range (r : Reader.t) (block_offset : Z) (key : list byte) :
  Reader.base_lg_ r < 64 ->
  Reader.num_ r <= Z.shiftr block_offset (Reader.base_lg_ r) ->
  Reader.KeyMayMatch r block_offset key = Some true.
Proof.
  intros Hlg Hidx. unfold Reader.KeyMayMatch.
  destruct (Z.leb_spec 64 (Reader.base_lg_ r)); [lia|].
  destruct (Z.ltb_spec (Z.shiftr block_offset (Reader.base_lg_ r)) (Reader.num_ r));
    [lia|reflexivity].
Qed.

(** C2 (the code at the failing input).  A builder that is told of a block
    at offset 2048 before any key was added writes one empty filter for
    bucket 0.  The reader of that block finds [start = limit = 0] for bucket
    0, a range inside the filter data, and answers with the policy's answer
    on the empty filter: for a policy that says yes, [KeyMayMatch] is true
    where the claim has a definitive false without consulting the policy. *)
Theorem KeyMayMatch_empty_filter_asks_policy (key : list byte) :
  (b ← Builder.StartBlock (Builder.new always_match) 2048;
   Some (snd (Builder.Finish b))) = Some one_empty_filter /\
  exists r, Reader.new always_match one_empty_filter = Some r /\
    Reader.data_ r = Some one_empty_filter /\
    Reader.num_ r = 1 /\ Reader.base_lg_ r = 11 /\
    DecodeFixed32 (slice_from (Reader.offset_ r + 0 * 4) one_empty_filter) = Some 0 /\
    DecodeFixed32 (slice_from (Reader.offset_ r + 0 * 4 + 4) one_empty_filter) = Some 0 /\
    Reader.KeyMayMatch r 0 key = Some true.
Proof.
  split; [vm_compute; reflexivity|].
  eexists. split; [vm_compute; reflexivity|].
  repeat split; reflexivity.
Qed.

End FilterFacts.

(** ** Slices *)

Lemma size_nonneg (s : list byte) : 0 <= size s.
Proof. unfold size. lia. Qed.

Lemma size_app (a b : list byte) : size (a ++ b) = size a + size b.
Proof. unfold size. rewrite length_app. lia. Qed.

Lemma slice_to_app (n : Z) (a b : list byte) :
  size a = n -> slice_to n (a ++ b) = a.
Proof.
  intros <-. unfold slice_to, size. rewrite Nat2Z.id. apply take_app_length.
Qed.

Lemma slice_from_app (n : Z) (a b : list byte) :
  size a = n -> slice_from n (a ++ b) = b.
Proof.
  intros <-. unfold slice_from, size. rewrite Nat2Z.id. apply drop_app_length.
Qed.

Lemma slice_to_from (n : Z) (a : list byte) : slice_to n a ++ slice_from n a = a.
Proof. apply take_drop. Qed.

Lemma slice_to_all (n : Z) (a : list byte) : size a <= n -> slice_to n a = a.
Proof. intros H. unfold slice_to, size in *. apply take_ge. lia. Qed.

Lemma size_slice_from (n : Z) (a : list byte) :
  0 <= n <= size a -> size (slice_from n a) = size a - n.
Proof. intros H. unfold slice_from, size in *. rewrite length_drop. lia. Qed.

Lemma size_slice_to (n : Z) (a : list byte) :
  0 <= n <= size a -> size (slice_to n a) = n.
Proof. intros H. unfold slice_to, size in *. rewrite length_take. lia. Qed.

(** ** table/block_builder: one record *)

Section BlockBuilderFacts.
Import Coding BlockBuilder Block BlockOrder.

Lemma shared_prefix_bounds (a b : list byte) :
  0 <= shared_prefix a b /\ shared_prefix a b <= size a /\ shared_prefix a b <= size b.
Proof.
  revert b. induction a as [|x a IH]; intros [|y b]; cbn [shared_prefix];
    unfold size in *; cbn [length]; try lia.
  destruct (Byte.eqb x y); [|lia]. specialize (IH b). lia.
Qed.

Lemma shared_prefix_take (a b : list byte) :
  slice_to (shared_prefix a b) a = slice_to (shared_prefix a b) b.
Proof.
  revert b. induction a as [|x a IH]; intros [|y b]; cbn [shared_prefix];
    try reflexivity.
  destruct (Byte.eqb x y) eqn:E; [|reflexivity].
  apply Byte.byte_dec_bl in E. subst y.
  pose proof (shared_prefix_bounds a b) as [H0 _]. unfold slice_to in *.
  replace (Z.to_nat (1 + shared_prefix a b)) with (S (Z.to_nat (shared_prefix a b))) by lia.
  cbn [take]. f_equal. apply IH.
Qed.

(** The bytes [Add] appends for a record that shares [shared] bytes. *)
Lemma Add_Some (b : t) (key value : list byte) :
  finished_ b = false ->
  counter_ b <= block_restart_interval (options_ b) ->
  buffer_ b = [] \/ comparator (options_ b) key (last_key_ b) > 0 ->
  let restart := negb (counter_ b <? block_restart_interval (options_ b)) in
  let shared := if restart then 0 else shared_prefix (last_key_ b) key in
  Add b key value =
  Some {| options_ := options_ b;
          buffer_ := buffer_ b
                     ++ EncodeVarint32 (wrap32 shared)
                     ++ EncodeVarint32 (wrap32 (size key - shared))
                     ++ EncodeVarint32 (wrap32 (size value))
                     ++ slice_from shared key ++ value;
          restarts_ := if restart then restarts_ b ++ [wrap32 (size (buffer_ b))]
                       else restarts_ b;
          counter_ := (if restart then 0 else counter_ b) + 1;
          finished_ := false;
          last_key_ := key |} /\
  0 <= shared <= size (last_key_ b) /\ shared <= size key /\
  slice_to shared (last_key_ b) = slice_to shared key.
Proof.
  intros Hfin Hcnt Hord. cbv zeta. unfold Add. rewrite Hfin.
  destruct (Z.leb_spec (counter_ b) (block_restart_interval (options_ b))); [|lia].
  cbn [negb].
  assert (Hc : bool_decide (buffer_ b = [])
               || (comparator (options_ b) key (last_key_ b) >? 0) = true).
  { destruct Hord as [->|Hgt].
    - reflexivity.
    - apply orb_true_iff. right. apply Z.gtb_lt. lia. }
  rewrite Hc. cbn [negb].
  set (restart := negb (counter_ b <? block_restart_interval (options_ b))).
  assert (Hsh : forall shared, 0 <= shared <= size key ->
            slice_to (size key - shared) (slice_from shared key) = slice_from shared key).
  { intros shared Hs. apply slice_to_all. rewrite size_slice_from by lia. lia. }
  destruct (counter_ b <? block_restart_interval (options_ b)) eqn:E; subst restart;
    cbn [negb].
  - pose proof (shared_prefix_bounds (last_key_ b) key) as (H0 & H1 & H2).
    rewrite Hsh by lia. rewrite shared_prefix_take, slice_to_from.
    rewrite bool_decide_eq_true_2 by reflexivity. cbn [negb].
    unfold PutVarint32. rewrite <- !app_assoc.
    split; [reflexivity|]. split; [lia|]. split; [lia|]. reflexivity.
  - pose proof (size_nonneg key). pose proof (size_nonneg (last_key_ b)).
    rewrite Hsh by lia.
    change (slice_to 0 (last_key_ b)) with (@nil byte).
    change (slice_from 0 key) with key. cbn [app].
    rewrite bool_decide_eq_true_2 by reflexivity. cbn [negb].
    unfold PutVarint32. rewrite <- !app_assoc.
    split; [reflexivity|]. split; [lia|]. split; [lia|]. reflexivity.
Qed.

(** Reading back one record written by [Add]. *)
Lemma decode_from_record (fuel : nat) (offset shared : Z)
    (last key value rest : list byte) :
  0 <= shared <= size last -> shared <= size key ->
  slice_to shared last = slice_to shared key ->
  size key < 2 ^ 32 -> size value < 2 ^ 32 ->
  let record := EncodeVarint32 (wrap32 shared)
                ++ EncodeVarint32 (wrap32 (size key - shared))
                ++ EncodeVarint32 (wrap32 (size value))
                ++ slice_from shared key ++ value in
  decode_from (S fuel) offset last (record ++ rest)
  = (es ← decode_from fuel (offset + size record) key rest;
     Some ({| e_offset := offset; e_shared := shared;
              e_non_shared := size key - shared;
              e_key := key; e_value := value |} :: es)).
Proof.
  intros Hs Hk Hpre Hkb Hvb. cbv zeta.
  pose proof (size_nonneg value).
  rewrite !wrap32_small by lia.
  rewrite <- !app_assoc.
  assert (Hne : exists x l, EncodeVarint32 shared
                  ++ EncodeVarint32 (size key - shared)
                  ++ EncodeVarint32 (size value)
                  ++ slice_from shared key ++ value ++ rest = x :: l).
  { pose proof (EncodeVarint_length 4 shared) as HL. unfold EncodeVarint32.
    destruct (EncodeVarint 4 shared) as [|x l]; [cbn in HL; lia|]. eauto. }
  destruct Hne as (x & l & Hne).
  cbn [decode_from]. rewrite Hne. rewrite <- Hne. clear x l Hne.
  unfold DecodeEntry.
  rewrite GetVarint32_EncodeVarint32 by lia. cbn [mbind option_bind].
  rewrite GetVarint32_EncodeVarint32 by lia. cbn [mbind option_bind].
  rewrite GetVarint32_EncodeVarint32 by lia. cbn [mbind option_bind].
  set (delta := slice_from shared key).
  assert (Hd : size delta = size key - shared).
  { subst delta. apply size_slice_from. lia. }
  destruct (Z.ltb_spec (size last) shared) as [?|_]; [lia|].
  destruct (Z.ltb_spec (size (delta ++ value ++ rest))
              (size key - shared + size value)) as [Hlt|_].
  { rewrite !size_app in Hlt. pose proof (size_nonneg rest). lia. }
  cbn [orb].
  rewrite (slice_to_app (size key - shared) delta) by exact Hd.
  rewrite (slice_from_app (size key - shared) delta) by exact Hd.
  rewrite (slice_to_app (size value) value) by reflexivity.
  rewrite (app_assoc delta value rest).
  rewrite (slice_from_app (size key - shared + size value) (delta ++ value))
    by (rewrite size_app; lia).
  rewrite Hpre. subst delta. rewrite slice_to_from.
  replace (offset +
     (size (EncodeVarint32 shared ++ EncodeVarint32 (size key - shared)
            ++ EncodeVarint32 (size value)
            ++ (slice_from shared key ++ value) ++ rest) - size rest))
    with (offset +
     size (EncodeVarint32 shared ++ EncodeVarint32 (size key - shared)
           ++ EncodeVarint32 (size value) ++ slice_from shared key ++ value)).
  - reflexivity.
  - rewrite !size_app. lia.
Qed.


(** What a successful [Add] has done. *)
Lemma Add_inv (b b' : t) (key value : list byte) :
  Add b key value = Some b' ->
  let restart := negb (counter_ b <? block_restart_interval (options_ b)) in
  let shared := if restart then 0 else shared_prefix (last_key_ b) key in
  finished_ b = false /\
  counter_ b <= block_restart_interval (options_ b) /\
  b' = {| options_ := options_ b;
          buffer_ := buffer_ b
                     ++ EncodeVarint32 (wrap32 shared)
                     ++ EncodeVarint32 (wrap32 (size key - shared))
                     ++ EncodeVarint32 (wrap32 (size value))
                     ++ slice_from shared key ++ value;
          restarts_ := if restart then restarts_ b ++ [wrap32 (size (buffer_ b))]
                       else restarts_ b;
          counter_ := (if restart then 0 else counter_ b) + 1;
          finished_ := false;
          last_key_ := key |} /\
  0 <= shared <= size (last_key_ b) /\ shared <= size key /\
  slice_to shared (last_key_ b) = slice_to shared key.
Proof.
  intros HAdd. cbv zeta.
  assert (Hpre : finished_ b = false /\
                 counter_ b <= block_restart_interval (options_ b) /\
                 (buffer_ b = [] \/ comparator (options_ b) key (last_key_ b) > 0)).
  { unfold Add in HAdd. destruct (finished_ b); [discriminate|].
    destruct (Z.leb_spec (counter_ b) (block_restart_interval (options_ b)));
      [|discriminate].
    cbn [negb] in HAdd.
    destruct (bool_decide (buffer_ b = [])
              || (comparator (options_ b) key (last_key_ b) >? 0)) eqn:E;
      [|discriminate].
    split; [reflexivity|]. split; [assumption|].
    apply orb_true_iff in E. destruct E as [E|E].
    - left. apply bool_decide_eq_true_1 in E. exact E.
    - right. apply Z.gtb_lt in E. lia. }
  destruct Hpre as (Hfin & Hcnt & Hord).
  destruct (Add_Some b key value Hfin Hcnt Hord) as (HS & H1 & H2 & H3).
  rewrite HS in HAdd. injection HAdd as <-.
  repeat split; assumption || lia.
Qed.

Lemma wrap32_range (v : Z) : 0 <= wrap32 v < 2 ^ 32.
Proof. unfold wrap32. apply Z.mod_pos_bound. lia. Qed.

(** The records appended by a run of [Add]s are read back as the pairs that
    were added, as long as the buffer stays below [2^32] bytes; every restart
    offset recorded on the way is the offset of a record that shares
    nothing. *)
Lemma AddAll_decode (kvs : list (list byte * list byte)) :
  forall b bf,
    AddAll b kvs = Some bf ->
    size (buffer_ bf) < 2 ^ 32 ->
    size (last_key_ b) <= size (buffer_ b) ->
    exists enc es rs,
      buffer_ bf = buffer_ b ++ enc /\
      (forall fuel, (length enc <= fuel)%nat ->
         decode_from fuel (size (buffer_ b)) (last_key_ b) enc = Some es) /\
      map key_value es = kvs /\
      restarts_ bf = restarts_ b ++ rs /\
      (forall r, r ∈ rs -> exists e, e ∈ es /\ e_offset e = r /\ e_shared e = 0) /\
      Forall (fun r => 0 <= r < 2 ^ 32) rs /\
      (length rs <= length kvs)%nat /\
      (3 * length kvs <= length enc)%nat /\
      (forall e0, head es = Some e0 ->
         e_offset e0 = size (buffer_ b) /\ (last_key_ b = [] -> e_shared e0 = 0)).
Proof.
  induction kvs as [|[key value] kvs IH]; intros b bf HAll Hbound Hlast.
  - cbn in HAll. injection HAll as <-. exists [], [], [].
    rewrite !app_nil_r.
    split; [reflexivity|].
    split; [intros [|fuel] _; reflexivity|].
    split; [reflexivity|].
    split; [reflexivity|].
    split; [intros r Hr; inversion Hr|].
    split; [constructor|].
    split; [cbn; lia|].
    split; [cbn; lia|].
    intros e0 He0. discriminate He0.
  - cbn [AddAll] in HAll.
    destruct (Add b key value) as [b1|] eqn:HAdd; [|discriminate].
    cbn [mbind option_bind] in HAll.
    apply Add_inv in HAdd. cbv zeta in HAdd.
    set (restart := negb (counter_ b <? block_restart_interval (options_ b))) in *.
    set (shared := if restart then 0 else shared_prefix (last_key_ b) key) in *.
    destruct HAdd as (Hfin & Hcnt & Hb1 & Hs & Hsk & Hpre).
    set (record := EncodeVarint32 (wrap32 shared)
                   ++ EncodeVarint32 (wrap32 (size key - shared))
                   ++ EncodeVarint32 (wrap32 (size value))
                   ++ slice_from shared key ++ value) in *.
    assert (Hbuf1 : buffer_ b1 = buffer_ b ++ record) by (rewrite Hb1; reflexivity).
    assert (Hlk1 : last_key_ b1 = key) by (rewrite Hb1; reflexivity).
    assert (Hrec : size record >= 3 + (size key - shared) + size value).
    { subst record. rewrite !size_app, size_slice_from by lia.
      pose proof (EncodeVarint_length 4 (wrap32 shared)).
      pose proof (EncodeVarint_length 4 (wrap32 (size key - shared))).
      pose proof (EncodeVarint_length 4 (wrap32 (size value))).
      unfold EncodeVarint32, size in *. lia. }
    pose proof (size_nonneg value) as Hv0.
    pose proof (size_nonneg (buffer_ b)) as Hb0.
    assert (Hrecn : (3 <= length record)%nat) by (unfold size in *; lia).
    destruct (IH b1 bf HAll Hbound) as (enc & es & rs & Hbf & Hdec & Hmap & Hrs & Hpt
                                        & Hrng & Hlen & Hlen3 & Hhd).
    { rewrite Hlk1, Hbuf1, size_app. lia. }
    assert (Hsz : size (buffer_ b) + size record + size enc < 2 ^ 32).
    { rewrite Hbf, Hbuf1, !size_app in Hbound. lia. }
    pose proof (size_nonneg enc) as He0.
    set (e := {| e_offset := size (buffer_ b); e_shared := shared;
                 e_non_shared := size key - shared;
                 e_key := key; e_value := value |}).
    exists (record ++ enc), (e :: es),
      ((if restart then [wrap32 (size (buffer_ b))] else []) ++ rs).
    split; [rewrite Hbf, Hbuf1, <- app_assoc; reflexivity|].
    split.
    { intros fuel Hfuel. rewrite length_app in Hfuel.
      destruct fuel as [|fuel]; [lia|]. unfold record.
      rewrite (decode_from_record fuel (size (buffer_ b)) shared (last_key_ b)
                 key value enc) by (exact Hpre || lia).
      fold record. rewrite Hbuf1, Hlk1, size_app in Hdec.
      rewrite Hdec by lia. reflexivity. }
    split; [cbn [map]; rewrite Hmap; reflexivity|].
    split.
    { rewrite Hrs, Hb1. cbn [restarts_]. destruct restart.
      - rewrite <- app_assoc. reflexivity.
      - reflexivity. }
    split.
    { intros r Hr. apply elem_of_app in Hr. destruct Hr as [Hr|Hr].
      - destruct restart eqn:Er; [|inversion Hr].
        apply list_elem_of_singleton in Hr. subst r.
        exists e. split; [left|]. split; [|reflexivity].
        cbn [e_offset e]. symmetry. apply wrap32_small. lia.
      - destruct (Hpt r Hr) as (e' & He' & Ho & Hsh).
        exists e'. split; [right; exact He'|]. split; assumption. }
    split.
    { apply Forall_app. split; [|exact Hrng].
      destruct restart; constructor; [apply wrap32_range|constructor]. }
    split.
    { rewrite length_app. cbn [length]. destruct restart; cbn [length]; lia. }
    split.
    { rewrite length_app. cbn [length]. lia. }
    intros e0 [= <-]. split; [reflexivity|].
    intros Hnil. cbn [e_shared e]. subst shared. destruct restart; [reflexivity|].
    rewrite Hnil. reflexivity.
Qed.

(** ** table/block_builder: counting the restart points *)

Lemma Add_count (b b' : t) (key value : list byte) (n : Z) :
  let r := block_restart_interval (options_ b) in
  1 <= r -> 0 <= n ->
  Add b key value = Some b' ->
  restart_state r n b ->
  restart_state r (n + 1) b' /\ options_ b' = options_ b.
Proof.
  cbv zeta. intros Hr Hn HAdd Hst. apply Add_inv in HAdd. cbv zeta in HAdd.
  destruct HAdd as (_ & Hcnt & -> & _). cbn [options_]. split; [|reflexivity].
  set (r := block_restart_interval (options_ b)) in *.
  unfold restart_state. cbn [counter_ restarts_]. right.
  replace (n + 1 - 1) with n by lia.
  destruct Hst as [(-> & Hc & Hl)|(Hn1 & Hc & Hl)].
  - rewrite Hc. destruct (Z.ltb_spec 0 r); [|lia]. cbn [negb].
    rewrite Z.mod_0_l, Z.div_0_l by lia. lia.
  - destruct (Z.ltb_spec (counter_ b) r) as [Hlt|Hge]; cbn [negb].
    + split; [lia|]. rewrite Hl, Hc in *.
      assert (n mod r = (n - 1) mod r + 1 /\ n / r = (n - 1) / r).
      { pose proof (Z.mod_pos_bound (n - 1) r ltac:(lia)).
        pose proof (Z.div_mod (n - 1) r ltac:(lia)).
        assert (Hq : n = r * ((n - 1) / r) + ((n - 1) mod r + 1)) by lia.
        split.
        - symmetry. apply Z.mod_unique with (q := (n - 1) / r); [lia|exact Hq].
        - symmetry. apply Z.div_unique with (r := (n - 1) mod r + 1); [lia|exact Hq]. }
      lia.
    + split; [lia|]. rewrite length_app. cbn [length].
      assert (n mod r = 0 /\ n / r = (n - 1) / r + 1).
      { pose proof (Z.mod_pos_bound (n - 1) r ltac:(lia)).
        pose proof (Z.div_mod (n - 1) r ltac:(lia)).
        assert (Hq : n = r * ((n - 1) / r + 1) + 0) by lia.
        split.
        - symmetry. apply Z.mod_unique with (q := (n - 1) / r + 1); [lia|exact Hq].
        - symmetry. apply Z.div_unique with (r := 0); [lia|exact Hq]. }
      lia.
Qed.

Lemma AddAll_count (kvs : list (list byte * list byte)) :
  forall (b bf : t) (n : Z),
    1 <= block_restart_interval (options_ b) -> 0 <= n ->
    AddAll b kvs = Some bf ->
    restart_state (block_restart_interval (options_ b)) n b ->
    restart_state (block_restart_interval (options_ b))
      (n + Z.of_nat (length kvs)) bf /\
    options_ bf = options_ b.
Proof.
  induction kvs as [|[key value] kvs IH]; intros b bf n Hr Hn HAll Hst.
  - cbn in HAll. injection HAll as <-. cbn [length]. rewrite Z.add_0_r.
    split; [exact Hst|reflexivity].
  - cbn [AddAll] in HAll.
    destruct (Add b key value) as [b1|] eqn:HAdd; [|discriminate].
    cbn [mbind option_bind] in HAll.
    destruct (Add_count b b1 key value n Hr Hn HAdd Hst) as [Hst1 Hopt].
    destruct (IH b1 bf (n + 1)) as [Hstf Hoptf].
    + rewrite Hopt. exact Hr.
    + lia.
    + exact HAll.
    + rewrite Hopt. exact Hst1.
    + rewrite Hopt in Hstf. split; [|congruence].
      replace (n + Z.of_nat (length ((key, value) :: kvs)))
        with (n + 1 + Z.of_nat (length kvs)) by (cbn [length]; lia).
      exact Hstf.
Qed.

(** ** table/block_builder: increasing keys are accepted *)

Lemma AddAll_total (kvs : list (list byte * list byte)) :
  forall b : t,
    1 <= block_restart_interval (options_ b) ->
    finished_ b = false ->
    counter_ b <= block_restart_interval (options_ b) ->
    increasing_after (comparator (options_ b)) (last_key_ b) kvs ->
    is_Some (AddAll b kvs).
Proof.
  induction kvs as [|[key value] kvs IH]; intros b Hr Hfin Hcnt Hinc.
  - cbn. eauto.
  - cbn [AddAll]. destruct Hinc as [Hgt Hinc].
    destruct (Add_Some b key value Hfin Hcnt (or_intror Hgt)) as (HS & _).
    rewrite HS. cbn [mbind option_bind]. apply IH; cbn [options_ finished_ counter_ last_key_].
    + exact Hr.
    + reflexivity.
    + destruct (Z.ltb_spec (counter_ b) (block_restart_interval (options_ b)));
        cbn [negb]; lia.
    + exact Hinc.
Qed.

Lemma build_total (options : Options) (kvs : list (list byte * list byte)) :
  1 <= block_restart_interval options ->
  increasing (comparator options) kvs ->
  exists b bf, new options = Some b /\ AddAll b kvs = Some bf /\
    build options kvs = Some (snd (Finish bf)).
Proof.
  intros Hr Hinc. unfold build, new.
  destruct (Z.leb_spec 1 (block_restart_interval options)); [|lia]. cbn [negb].
  set (b := {| options_ := options; buffer_ := []; restarts_ := [0];
               counter_ := 0; finished_ := false; last_key_ := [] |}).
  assert (His : is_Some (AddAll b kvs)).
  { destruct kvs as [|[key value] kvs]; [cbn; eauto|].
    cbn [AddAll].
    assert (Hc0 : counter_ b <= block_restart_interval (options_ b)).
    { unfold b. cbn [counter_ options_]. lia. }
    destruct (Add_Some b key value eq_refl Hc0 (or_introl eq_refl)) as (HS & _).
    rewrite HS. cbn [mbind option_bind].
    apply AddAll_total; cbn [options_ finished_ counter_ last_key_].
    - exact Hr.
    - reflexivity.
    - unfold b. cbn [counter_ options_].
      destruct (Z.ltb_spec 0 (block_restart_interval options)); cbn [negb]; lia.
    - exact Hinc. }
  destruct His as [bf Hbf]. exists b, bf.
  split; [reflexivity|]. split; [exact Hbf|].
  cbn [mbind option_bind]. fold b. rewrite Hbf. reflexivity.
Qed.

(** ** table/block_builder: the trailer written by [Finish] *)

Lemma put_restarts_app (buffer : list byte) (rs : list Z) :
  put_restarts buffer rs = buffer ++ concat (map EncodeFixed32 rs).
Proof.
  revert buffer. induction rs as [|r rs IH]; intros buffer; cbn [put_restarts map concat].
  - rewrite app_nil_r. reflexivity.
  - rewrite IH. unfold PutFixed32. rewrite <- app_assoc. reflexivity.
Qed.

Lemma size_restart_array (rs : list Z) :
  size (concat (map EncodeFixed32 rs)) = 4 * Z.of_nat (length rs).
Proof.
  induction rs as [|r rs IH]; [reflexivity|].
  cbn [map concat length]. rewrite size_app, IH. unfold size.
  rewrite EncodeFixed32_length. lia.
Qed.

Lemma Finish_bytes (b : t) :
  snd (Finish b)
  = buffer_ b ++ concat (map EncodeFixed32 (restarts_ b))
    ++ EncodeFixed32 (wrap32 (Z.of_nat (length (restarts_ b)))).
Proof.
  unfold Finish. cbn [snd]. unfold PutFixed32. rewrite put_restarts_app.
  rewrite <- app_assoc. reflexivity.
Qed.

Section Trailer.
Variable buffer : list byte.
Variable rs : list Z.
Hypothesis rs_range : Forall (fun r => 0 <= r < 2 ^ 32) rs.
Hypothesis rs_count : Z.of_nat (length rs) < 2 ^ 32.

Let block : list byte :=
  buffer ++ concat (map EncodeFixed32 rs) ++ EncodeFixed32 (Z.of_nat (length rs)).

Lemma trailer_size :
  size block = size buffer + 4 * Z.of_nat (length rs) + 4.
Proof.
  unfold block. rewrite !size_app, size_restart_array. unfold size.
  rewrite EncodeFixed32_length. lia.
Qed.

Lemma trailer_NumRestarts : NumRestarts block = Some (Z.of_nat (length rs)).
Proof.
  unfold NumRestarts. pose proof trailer_size as Hsz.
  pose proof (size_nonneg buffer).
  destruct (Z.ltb_spec (size block) 4); [lia|].
  unfold block at 2. rewrite app_assoc.
  rewrite slice_from_app.
  - rewrite <- (app_nil_r (EncodeFixed32 _)).
    apply DecodeFixed32_EncodeFixed32. lia.
  - rewrite size_app, size_restart_array. lia.
Qed.

Lemma trailer_restart_offset : restart_offset block = Some (size buffer).
Proof.
  unfold restart_offset. rewrite trailer_NumRestarts. cbn [mbind option_bind].
  pose proof trailer_size. pose proof (size_nonneg buffer).
  destruct (Z.ltb_spec (size block - (1 + Z.of_nat (length rs)) * 4) 0); [lia|].
  f_equal. lia.
Qed.

Lemma trailer_GetRestartPoint (i : nat) (r : Z) :
  rs !! i = Some r -> GetRestartPoint block (Z.of_nat i) = Some r.
Proof.
  intros Hi. unfold GetRestartPoint. rewrite trailer_restart_offset.
  cbn [mbind option_bind].
  destruct (list_elem_of_split_length rs i r Hi) as (l1 & l2 & Hrs & Hlen).
  unfold block. rewrite Hrs at 1. rewrite map_app, concat_app. cbn [map concat].
  rewrite <- !app_assoc, (app_assoc buffer).
  rewrite slice_from_app.
  - apply DecodeFixed32_EncodeFixed32.
    rewrite Forall_forall in rs_range. apply rs_range.
    eapply list_elem_of_lookup_2. exact Hi.
  - rewrite size_app, size_restart_array. lia.
Qed.

Lemma trailer_restarts : restarts block = Some rs.
Proof.
  unfold restarts. rewrite trailer_NumRestarts. cbn [mbind option_bind].
  rewrite Nat2Z.id. apply mapM_Some.
  apply Forall2_same_length_lookup. split; [rewrite length_seq; reflexivity|].
  intros i x r Hx Hr. apply lookup_seq in Hx. destruct Hx as [-> _].
  apply trailer_GetRestartPoint. exact Hr.
Qed.

Lemma trailer_decode :
  decode block = decode_from (length buffer) 0 [] buffer.
Proof.
  unfold decode. rewrite trailer_restart_offset. cbn [mbind option_bind].
  unfold block. rewrite slice_to_app by reflexivity. reflexivity.
Qed.

End Trailer.

(** ** Reading a block back: the offsets of the records *)

Lemma GetVarintPtr_shorter (wrap : Z -> Z) (n : nat) :
  forall (shift result : Z) (p p' : list byte) (v : Z),
    GetVarintPtr wrap n shift result p = Some (v, p') ->
    (length p' < length p)%nat.
Proof.
  induction n as [|n IH]; intros shift result p p' v H; [discriminate|].
  destruct p as [|x p]; [discriminate|]. cbn [GetVarintPtr] in H.
  destruct (Z.land (Z_of_byte x) 128 =? 0).
  - injection H as _ <-. cbn [length]. lia.
  - apply IH in H. cbn [length]. lia.
Qed.

Lemma DecodeEntry_shorter (p p' : list byte) (a b c : Z) :
  DecodeEntry p = Some (a, b, c, p') -> (length p' < length p)%nat.
Proof.
  unfold DecodeEntry, GetVarint32. intros H.
  destruct (GetVarintPtr wrap32 5 0 0 p) as [[a' p1]|] eqn:E1; [|discriminate].
  cbn [mbind option_bind] in H.
  destruct (GetVarintPtr wrap32 5 0 0 p1) as [[b' p2]|] eqn:E2; [|discriminate].
  cbn [mbind option_bind] in H.
  destruct (GetVarintPtr wrap32 5 0 0 p2) as [[c' p3]|] eqn:E3; [|discriminate].
  cbn [mbind option_bind] in H. injection H as <- <- <- <-.
  apply GetVarintPtr_shorter in E1, E2, E3. lia.
Qed.

(** The records of a block start at increasing offsets: an offset names one
    record. *)
Lemma decode_from_offsets (fuel : nat) :
  forall (offset : Z) (last data : list byte) (es : list Entry),
    decode_from fuel offset last data = Some es ->
    Forall (fun e => offset <= e_offset e) es /\
    (forall e e', e ∈ es -> e' ∈ es -> e_offset e = e_offset e' -> e = e').
Proof.
  induction fuel as [|fuel IH]; intros offset last data es H.
  - destruct data; [|discriminate]. injection H as <-.
    split; [constructor|]. intros e e' He. inversion He.
  - destruct data as [|x data].
    { injection H as <-. split; [constructor|]. intros e e' He. inversion He. }
    cbn [decode_from] in H.
    destruct (DecodeEntry (x :: data)) as [[[[sh ns] vl] p]|] eqn:E; [|discriminate].
    cbn [mbind option_bind] in H.
    destruct ((size last <? sh) || (size p <? ns + vl)); [discriminate|].
    destruct (decode_from fuel _ _ _) as [rest|] eqn:Erest; [|discriminate].
    cbn [mbind option_bind] in H. injection H as <-.
    apply DecodeEntry_shorter in E.
    apply IH in Erest. destruct Erest as [Hlow Huniq].
    assert (Hgt : offset < offset + (size (x :: data) - size (slice_from (ns + vl) p))).
    { unfold size, slice_from. rewrite length_drop. lia. }
    split.
    + constructor; [cbn; lia|].
      eapply Forall_impl; [exact Hlow|]. cbn beta. intros e He. lia.
    + rewrite Forall_forall in Hlow.
      intros e e' He He' Ho.
      apply elem_of_cons in He, He'.
      destruct He as [->|He], He' as [->|He'].
      * reflexivity.
      * apply Hlow in He'. cbn [e_offset] in Ho. lia.
      * apply Hlow in He. cbn [e_offset] in Ho. lia.
      * apply Huniq; assumption.
Qed.

(** ** table/block_builder: the finished block *)

(** What [new], a run of [Add]s on increasing keys and [Finish] produce, and
    how it reads back when the block is shorter than [2^32] bytes. *)
Lemma build_decode (options : Options) (kvs : list (list byte * list byte)) :
  1 <= block_restart_interval options ->
  increasing (comparator options) kvs ->
  exists block,
    build options kvs = Some block /\
    (size block < 2 ^ 32 ->
     exists es rs,
       decode block = Some es /\
       map key_value es = kvs /\
       restarts block = Some rs /\
       restart_state (block_restart_interval options) (Z.of_nat (length kvs))
         {| options_ := options; buffer_ := []; restarts_ := rs;
            counter_ := if bool_decide (kvs = []) then 0
                        else (Z.of_nat (length kvs) - 1)
                               mod block_restart_interval options + 1;
            finished_ := false; last_key_ := [] |} /\
       (kvs <> [] ->
        forall r, r ∈ rs -> exists e, e ∈ es /\ e_offset e = r /\ e_shared e = 0) /\
       (forall e e', e ∈ es -> e' ∈ es -> e_offset e = e_offset e' -> e = e')).
Proof.
  intros Hr Hinc.
  destruct (build_total options kvs Hr Hinc) as (b & bf & Hnew & HAll & Hbuild).
  exists (snd (Finish bf)). split; [exact Hbuild|]. intros Hsize.
  assert (Hb : b = {| options_ := options; buffer_ := []; restarts_ := [0];
                      counter_ := 0; finished_ := false; last_key_ := [] |}).
  { unfold new in Hnew. destruct (negb _); [discriminate|]. injection Hnew as <-.
    reflexivity. }
  rewrite Finish_bytes in Hsize |- *.
  assert (Hsz : size (buffer_ bf) + 4 * Z.of_nat (length (restarts_ bf)) + 4 < 2 ^ 32).
  { rewrite !size_app, size_restart_array, size_EncodeFixed32 in Hsize. lia. }
  pose proof (size_nonneg (buffer_ bf)) as Hb0.
  rewrite wrap32_small by lia.
  destruct (AddAll_decode kvs b bf HAll ltac:(lia) ltac:(rewrite Hb; cbn; lia))
    as (enc & es & rs & Hbf & Hdec & Hmap & Hrs & Hpt & Hrng & Hlen & Hlen3 & Hhd).
  rewrite Hb in Hbf, Hdec, Hrs, Hhd. cbn [buffer_ last_key_ restarts_ app] in *.
  change (size []) with 0 in *.
  assert (Hrange : Forall (fun r => 0 <= r < 2 ^ 32) (restarts_ bf)).
  { rewrite Hrs. constructor; [lia|exact Hrng]. }
  exists es, (restarts_ bf).
  rewrite trailer_decode by (exact Hrange || lia).
  rewrite trailer_restarts by (exact Hrange || lia).
  rewrite Hbf at 1 2. rewrite Hdec by lia.
  split; [reflexivity|]. split; [exact Hmap|]. split; [reflexivity|].
  split.
  { destruct (AddAll_count kvs b bf 0) as [Hst _].
    - rewrite Hb. exact Hr.
    - lia.
    - exact HAll.
    - left. rewrite Hb. cbn. repeat split; reflexivity.
    - rewrite Hb in Hst. cbn [options_] in Hst. rewrite Z.add_0_l in Hst.
      unfold restart_state in *. cbn [counter_ restarts_].
      destruct Hst as [(H0 & Hc & Hl)|(H1 & Hc & Hl)].
      + left. destruct kvs; [|cbn in H0; lia].
        rewrite bool_decide_eq_true_2 by reflexivity. repeat split; assumption.
      + right. destruct kvs; [cbn in H1; lia|].
        rewrite bool_decide_eq_false_2 by discriminate.
        repeat split; assumption. }
  split.
  { intros Hne r Hr0. rewrite Hrs in Hr0. apply elem_of_cons in Hr0.
    destruct Hr0 as [->|Hr0]; [|apply Hpt; exact Hr0].
    destruct es as [|e0 es'].
    - destruct kvs; [contradiction|discriminate].
    - destruct (Hhd e0 eq_refl) as [Ho Hs]. exists e0.
      split; [left|]. split; [exact Ho|]. apply Hs. reflexivity. }
  destruct (decode_from_offsets _ _ _ _ _ (Hdec (length enc) ltac:(lia))) as [_ Hu].
  exact Hu.
Qed.

(** C4 (as amended).  For every restart interval of at least 1 and every
    sequence of pairs with strictly increasing keys, [Add] accepts the pairs
    and [Finish] returns a block; when that block is shorter than [2^32]
    bytes (so that every length and offset fits its 32-bit field), decoding
    it record by record, each key rebuilt from the first [shared] bytes of
    the key before and the bytes stored, gives the pairs that were added, in
    order, and every record at a restart offset has [shared = 0]. *)
Theorem block_round_trip (options : Options) (kvs : list (list byte * list byte)) :
  1 <= block_restart_interval options ->
  increasing (comparator options) kvs ->
  exists block,
    build options kvs = Some block /\
    (size block < 2 ^ 32 ->
     exists es rs,
       decode block = Some es /\
       map key_value es = kvs /\
       restarts block = Some rs /\
       (forall r e, r ∈ rs -> e ∈ es -> e_offset e = r -> e_shared e = 0)).
Proof.
  intros Hr Hinc.
  destruct (build_decode options kvs Hr Hinc) as (block & Hbuild & H).
  exists block. split; [exact Hbuild|]. intros Hsize.
  destruct (H Hsize) as (es & rs & Hdec & Hmap & Hrs & _ & Hpt & Huniq).
  exists es, rs. repeat (split; [assumption|]).
  intros r e Hr0 He Ho.
  assert (Hne : kvs <> []).
  { intros ->. destruct es; [inversion He|discriminate]. }
  destruct (Hpt Hne r Hr0) as (e' & He' & Ho' & Hs').
  rewrite (Huniq e e' He He') by congruence. exact Hs'.
Qed.

(** C5 (as amended).  For every restart interval [R] of at least 1 and every
    number [N] of records added in increasing order, [Finish] returns a
    block; when it is shorter than [2^32] bytes it holds the [N] records and
    [ceil(N/R)] restart points if [N >= 1], one restart point if [N = 0]; and
    if [N >= 1] every restart point is the offset of a record whose
    shared-prefix field is 0. *)
Theorem restart_points (options : Options) (kvs : list (list byte * list byte)) :
  1 <= block_restart_interval options ->
  increasing (comparator options) kvs ->
  exists block,
    build options kvs = Some block /\
    (size block < 2 ^ 32 ->
     exists es rs,
       decode block = Some es /\
       length es = length kvs /\
       restarts block = Some rs /\
       Z.of_nat (length rs)
       = (if bool_decide (kvs = []) then 1
          else ceil_div (Z.of_nat (length kvs)) (block_restart_interval options)) /\
       (kvs <> [] ->
        forall r, r ∈ rs -> exists e, e ∈ es /\ e_offset e = r /\ e_shared e = 0)).
Proof.
  intros Hr Hinc.
  destruct (build_decode options kvs Hr Hinc) as (block & Hbuild & H).
  exists block. split; [exact Hbuild|]. intros Hsize.
  destruct (H Hsize) as (es & rs & Hdec & Hmap & Hrs & Hst & Hpt & _).
  exists es, rs. split; [assumption|].
  split; [rewrite <- Hmap, length_map; reflexivity|].
  split; [assumption|]. split; [|assumption].
  unfold restart_state in Hst. cbn [counter_ restarts_] in Hst.
  destruct Hst as [(H0 & _ & Hl)|(H1 & _ & Hl)].
  - destruct kvs; [|cbn in H0; lia].
    rewrite bool_decide_eq_true_2 by reflexivity. exact Hl.
  - destruct kvs as [|kv kvs]; [cbn in H1; lia|].
    rewrite bool_decide_eq_false_2 by discriminate.
    rewrite Hl. unfold ceil_div.
    set (n := Z.of_nat (length (kv :: kvs))) in *.
    set (r := block_restart_interval options) in *.
    replace (n + r - 1) with (n - 1 + 1 * r) by lia.
    rewrite Z.div_add by lia. lia.
Qed.

End BlockBuilderFacts.

Lemma block_round_trip_witness :
  1 <= BlockBuilder.block_restart_interval Stated.options_2 /\
  BlockOrder.increasing (BlockBuilder.comparator Stated.options_2) Stated.abc_abd_abe /\
  exists block,
    BlockBuilder.build Stated.options_2 Stated.abc_abd_abe = Some block /\
    (size block < 2 ^ 32 ->
     exists es rs,
       Block.decode block = Some es /\
       map Block.key_value es = Stated.abc_abd_abe /\
       Block.restarts block = Some rs /\
       (forall r e, r ∈ rs -> e ∈ es -> Block.e_offset e = r -> Block.e_shared e = 0)).
Proof.
  split; [vm_compute; discriminate|].
  split; [vm_compute; repeat split; reflexivity|].
  apply (block_round_trip Stated.options_2 Stated.abc_abd_abe).
  - vm_compute. discriminate.
  - vm_compute. repeat split; reflexivity.
Defined.

Lemma restart_points_witness :
  1 <= BlockBuilder.block_restart_interval Stated.options_2 /\
  BlockOrder.increasing (BlockBuilder.comparator Stated.options_2) Stated.abc_abd_abe /\
  exists block,
    BlockBuilder.build Stated.options_2 Stated.abc_abd_abe = Some block /\
    (size block < 2 ^ 32 ->
     exists es rs,
       Block.decode block = Some es /\
       length es = length Stated.abc_abd_abe /\
       Block.restarts block = Some rs /\
       Z.of_nat (length rs)
       = (if bool_decide (Stated.abc_abd_abe = []) then 1
          else BlockOrder.ceil_div (Z.of_nat (length Stated.abc_abd_abe))
                 (BlockBuilder.block_restart_interval Stated.options_2)) /\
       (Stated.abc_abd_abe <> [] ->
        forall r, r ∈ rs ->
          exists e, e ∈ es /\ Block.e_offset e = r /\ Block.e_shared e = 0)).
Proof.
  split; [vm_compute; discriminate|].
  split; [vm_compute; repeat split; reflexivity|].
  apply (restart_points Stated.options_2 Stated.abc_abd_abe).
  - vm_compute. discriminate.
  - vm_compute. repeat split; reflexivity.
Defined.

(** The example of section 8: keys [abc], [abd], [abe] with restart interval
    2 give the shared lengths 0, 2, 0 and the two restart points 0 and 13. *)
Example build_abc_abd_abe :
  (block ← BlockBuilder.build Stated.options_2 Stated.abc_abd_abe;
   es ← Block.decode block;
   rs ← Block.restarts block;
   Some (map Block.e_shared es, map Block.e_offset es, rs))
  = Some ([0; 2; 0], [0; 7; 13], [0; 13]).
Proof. vm_compute. reflexivity. Qed.

(** C5 (as worded, refuted).  A builder that is finished before any record
    was added returns a block with one restart point, the offset 0 recorded
    by the constructor, where [ceil(0/16)] is 0. *)
Lemma restart_density_fails_on_empty_block :
  ~ Stated.restart_density Stated.options_16 [].
Proof.
  intros H. destruct (H I) as (block & es & rs & Hb & _ & _ & Hr & Hc & _).
  vm_compute in Hb. injection Hb as <-.
  vm_compute in Hr. injection Hr as <-.
  vm_compute in Hc. discriminate Hc.
Qed.

Section HugeKey.
Import Coding BlockBuilder Block BlockOrder.

(** A key of exactly [2^32] bytes is written with the length field 0: the
    block reads back with an empty first key. *)
Lemma round_trip_fails_for_key (key : list byte) :
  size key = 2 ^ 32 -> ~ Stated.round_trip Stated.options_16 [(key, [])].
Proof.
  intros Hk H. destruct (H I) as (block & es & rs & Hb & Hd & Hm & _).
  unfold build, new in Hb. cbn [negb Z.leb block_restart_interval Stated.options_16
                                  Z.compare Pos.compare Pos.compare_cont
                                  mbind option_bind AddAll] in Hb.
  set (b0 := {| options_ := Stated.options_16; buffer_ := []; restarts_ := [0];
                counter_ := 0; finished_ := false; last_key_ := [] |}) in Hb.
  destruct (Add_Some b0 key [] eq_refl ltac:(unfold b0; cbn; lia) (or_introl eq_refl))
    as (HS & _).
  rewrite HS in Hb. cbn [mbind option_bind] in Hb.
  apply (f_equal (from_option id [])) in Hb. cbn [from_option id] in Hb.
  subst block. rewrite Finish_bytes in Hd.
  cbn [buffer_ restarts_ b0 counter_ options_ block_restart_interval Stated.options_16
       Z.ltb Z.compare negb last_key_ shared_prefix app length] in Hd.
  rewrite Z.sub_0_r, Hk in Hd.
  change (wrap32 0) with 0 in Hd. change (wrap32 (2 ^ 32)) with 0 in Hd.
  change (wrap32 (size [])) with 0 in Hd. change (wrap32 (Z.of_nat 1)) with 1 in Hd.
  change (slice_from 0 key) with key in Hd. rewrite app_nil_r in Hd.
  change 1 with (Z.of_nat (length [0])) in Hd.
  rewrite (trailer_decode _ [0]) in Hd
    by (repeat constructor; cbn; lia).
  assert (Hrec :
    EncodeVarint32 0 ++ EncodeVarint32 0 ++ EncodeVarint32 0 ++ key
    = (EncodeVarint32 (wrap32 0) ++ EncodeVarint32 (wrap32 (size [] - 0))
       ++ EncodeVarint32 (wrap32 (size [])) ++ slice_from 0 [] ++ []) ++ key)
    by reflexivity.
  rewrite Hrec in Hd.
  replace (length ((EncodeVarint32 (wrap32 0) ++ EncodeVarint32 (wrap32 (size [] - 0))
             ++ EncodeVarint32 (wrap32 (size [])) ++ slice_from 0 [] ++ []) ++ key))
    with (S (2 + length key)) in Hd by reflexivity.
  rewrite (decode_from_record (2 + length key) 0 0 [] [] [] key) in Hd;
    [|change (size []) with 0; lia|change (size []) with 0; lia
     |reflexivity|reflexivity|reflexivity].
  destruct (decode_from _ _ _ key) as [es'|]; [|discriminate].
  cbn [mbind option_bind] in Hd. injection Hd as <-.
  cbn [map key_value e_key e_value] in Hm.
  injection Hm as Hkey _. rewrite <- Hkey in Hk. vm_compute in Hk. discriminate Hk.
Qed.

End HugeKey.

(** C4 (as worded, refuted).  For the single pair whose key is [2^32] bytes
    long, the block written by [Add] and [Finish] does not decode to that
    pair: the unshared length is stored as a 32-bit value, which is 0. *)
Lemma round_trip_fails_on_huge_key :
  ~ Stated.round_trip Stated.options_16 [(Stated.huge_key, [])].
Proof.
  apply round_trip_fails_for_key.
  unfold Stated.huge_key, size. rewrite length_replicate, Z2Nat.id; [reflexivity|].
  apply Z.pow_nonneg. lia.
Qed.
(** ** util/cache: the hash table *)

Section TableFacts.
Import Cache Cache.HandleTable CacheInv.

Lemma land_le (x y : Z) : 0 <= y -> 0 <= Z.land x y <= y.
Proof.
  intros Hy. split; [apply Z.land_nonneg; right; exact Hy|].
  assert (H : Z.ldiff y x + Z.land x y = y).
  { rewrite Z.add_nocarry_lor.
    - rewrite (Z.land_comm x y). apply Z.lor_ldiff_and.
    - apply Z.bits_inj'. intros i Hi.
      rewrite !Z.land_spec, Z.ldiff_spec, Z.bits_0.
      destruct (Z.testbit y i), (Z.testbit x i); reflexivity. }
  assert (0 <= Z.ldiff y x) by (apply Z.ldiff_nonneg; left; exact Hy).
  lia.
Qed.

Lemma bucket_of_lt (len hash0 : Z) :
  1 <= len -> (Z.of_nat (bucket_of len hash0) < len).
Proof.
  intros Hlen. unfold bucket_of.
  pose proof (land_le hash0 (len - 1) ltac:(lia)). lia.
Qed.

(** The walk along one chain stops at the first handle that matches. *)
Lemma find_in_chain_spec (heap : Heap) (key : list byte) (hash0 : Z) (chain : list ptr) :
  (forall p, p ∈ chain -> is_Some (heap !! p)) ->
  exists pos, find_in_chain heap key hash0 chain = Some pos /\
    (pos <= length chain)%nat /\
    (forall p, chain !! pos = Some p -> matches heap key hash0 p) /\
    (forall i p, (i < pos)%nat -> chain !! i = Some p -> ~ matches heap key hash0 p).
Proof.
  induction chain as [|p chain IH]; intros Hlive.
  - exists O. cbn. split; [reflexivity|]. split; [lia|].
    split; [intros p Hp; discriminate|]. intros i p Hi. lia.
  - cbn [find_in_chain].
    destruct (Hlive p ltac:(left)) as [h Hh]. rewrite Hh. cbn [mbind option_bind].
    destruct (IH ltac:(intros q Hq; apply Hlive; right; exact Hq))
      as (pos & Hpos & Hle & Hat & Hbefore).
    destruct (Z.eqb_spec (hash h) hash0) as [Hhash|Hhash]; cbn [negb orb].
    + destruct (bool_decide (key = key_data h)) eqn:Hkey; cbn [negb].
      * apply bool_decide_eq_true_1 in Hkey. exists O.
        split; [reflexivity|]. split; [cbn; lia|]. split.
        -- intros q [= <-]. exists h. repeat split; try assumption. congruence.
        -- intros i q Hi. lia.
      * apply bool_decide_eq_false_1 in Hkey. rewrite Hpos. exists (S pos).
        split; [reflexivity|]. split; [cbn; lia|]. split.
        -- intros q Hq. apply Hat. exact Hq.
        -- intros [|i] q Hi Hq.
           ++ injection Hq as <-. intros (h' & Hh' & _ & Hk). congruence.
           ++ apply (Hbefore i q); [lia|exact Hq].
    + rewrite Hpos. exists (S pos).
      split; [reflexivity|]. split; [cbn; lia|]. split.
      * intros q Hq. apply Hat. exact Hq.
      * intros [|i] q Hi Hq.
        -- injection Hq as <-. intros (h' & Hh' & Hk & _). congruence.
        -- apply (Hbefore i q); [lia|exact Hq].
Qed.

Lemma elem_of_concat (ls : list (list ptr)) (p : ptr) :
  p ∈ concat ls <-> exists l, p ∈ l /\ l ∈ ls.
Proof.
  induction ls as [|l ls IH]; cbn [concat].
  - split; [intros H; inversion H|intros (l & _ & H); inversion H].
  - rewrite elem_of_app, IH. split.
    + intros [H|(l' & Hp & Hl)].
      * exists l. split; [exact H|left].
      * exists l'. split; [exact Hp|right; exact Hl].
    + intros (l' & Hp & Hl). apply elem_of_cons in Hl. destruct Hl as [->|Hl].
      * left. exact Hp.
      * right. eauto.
Qed.

Lemma elem_of_entries (tb : HandleTable.t) (p : ptr) :
  p ∈ entries tb <-> exists i chain, list_ tb !! i = Some chain /\ p ∈ chain.
Proof.
  unfold entries. rewrite elem_of_concat. split.
  - intros (chain & Hp & Hc). apply list_elem_of_lookup in Hc. destruct Hc as [i Hi].
    eauto.
  - intros (i & chain & Hi & Hp). exists chain. split; [exact Hp|].
    eapply list_elem_of_lookup_2. exact Hi.
Qed.

Lemma table_live (heap : Heap) (tb : HandleTable.t) (p : ptr) :
  table_wf heap tb -> p ∈ entries tb -> is_Some (heap !! p).
Proof.
  intros Hwf Hp. apply elem_of_entries in Hp. destruct Hp as (i & chain & Hi & Hp).
  destruct (wf_bucket _ _ Hwf i chain p Hi Hp) as (h & Hh & _). eauto.
Qed.

(** [FindPointer] on a well-formed table: the bucket of the hash, and in its
    chain the position of the one handle with this hash and key, or the end
    of the chain when the table has none. *)
Lemma FindPointer_spec (heap : Heap) (tb : HandleTable.t) (key : list byte) (hash0 : Z) :
  table_wf heap tb ->
  exists chain pos,
    FindPointer heap tb key hash0 = Some (bucket_of (length_ tb) hash0, pos) /\
    list_ tb !! bucket_of (length_ tb) hash0 = Some chain /\
    (pos <= length chain)%nat /\
    (forall p, chain !! pos = Some p -> p ∈ entries tb /\ matches heap key hash0 p) /\
    (chain !! pos = None ->
     forall p, p ∈ entries tb -> ~ matches heap key hash0 p).
Proof.
  intros Hwf. destruct (wf_length _ _ Hwf) as [Hlen Hpos].
  pose proof (bucket_of_lt (length_ tb) hash0 Hpos) as Hb.
  destruct (lookup_lt_is_Some_2 (list_ tb) (bucket_of (length_ tb) hash0) ltac:(lia))
    as [chain Hchain].
  destruct (find_in_chain_spec heap key hash0 chain) as (pos & Hfind & Hle & Hat & Hbefore).
  { intros p Hp. destruct (wf_bucket _ _ Hwf _ _ _ Hchain Hp) as (h & Hh & _). eauto. }
  exists chain, pos. unfold FindPointer. fold (bucket_of (length_ tb) hash0).
  rewrite Hchain. cbn [mbind option_bind]. rewrite Hfind. cbn [mbind option_bind].
  split; [reflexivity|]. split; [reflexivity|]. split; [exact Hle|]. split.
  - intros p Hp. split; [|apply Hat; exact Hp].
    apply elem_of_entries. exists (bucket_of (length_ tb) hash0), chain.
    split; [exact Hchain|]. eapply list_elem_of_lookup_2. exact Hp.
  - intros Hnone p Hp (h & Hh & Hhash & Hkey).
    apply elem_of_entries in Hp. destruct Hp as (i & chain' & Hi & Hp).
    destruct (wf_bucket _ _ Hwf _ _ _ Hi Hp) as (h' & Hh' & Hbk).
    rewrite Hh in Hh'. injection Hh' as <-. rewrite Hhash in Hbk. subst i.
    rewrite Hchain in Hi. injection Hi as <-.
    apply list_elem_of_lookup in Hp. destruct Hp as [j Hj].
    assert (j < pos)%nat.
    { apply lookup_ge_None in Hnone. apply lookup_lt_Some in Hj. lia. }
    apply (Hbefore j p); [assumption|exact Hj|]. exists h. repeat split; assumption.
Qed.

End TableFacts.

Section TableUpdate.
Import Cache Cache.HandleTable CacheInv.

(** Replacing the chain of one bucket. *)
Lemma entries_bucket_perm (ls : list (list ptr)) (b : nat) (chain chain' : list ptr) :
  ls !! b = Some chain ->
  exists X, concat ls ≡ₚ chain ++ X /\ concat (<[b:=chain']> ls) ≡ₚ chain' ++ X.
Proof.
  intros Hb. exists (concat (take b ls) ++ concat (drop (S b) ls)). split.
  - rewrite <- (take_drop_middle ls b chain Hb) at 1.
    rewrite concat_app. cbn [concat].
    rewrite (Permutation_app_comm (concat (take b ls))), <- app_assoc.
    apply Permutation_app; [reflexivity|]. apply Permutation_app_comm.
  - rewrite insert_take_drop by (eapply lookup_lt_Some; exact Hb).
    rewrite concat_app. cbn [concat].
    rewrite (Permutation_app_comm (concat (take b ls))), <- app_assoc.
    apply Permutation_app; [reflexivity|]. apply Permutation_app_comm.
Qed.

Lemma wrap32_succ (n : Z) : wrap32 (wrap32 n + 1) = wrap32 (n + 1).
Proof. unfold wrap32. rewrite Zplus_mod_idemp_l. reflexivity. Qed.

Lemma wrap32_pred (n : Z) : wrap32 (wrap32 n - 1) = wrap32 (n - 1).
Proof. unfold wrap32. rewrite Zminus_mod_idemp_l. reflexivity. Qed.

(** A table whose one bucket was rewritten is well formed again when the new
    chain holds live handles of that bucket and the handles of the table are
    still distinct, with distinct keys, and counted. *)
Lemma table_wf_update (heap : Heap) (tb : HandleTable.t) (b : nat)
    (chain chain' : list ptr) (elems : Z) :
  table_wf heap tb ->
  list_ tb !! b = Some chain ->
  let tb' := {| length_ := length_ tb; elems_ := elems;
                list_ := <[b:=chain']> (list_ tb) |} in
  (forall p, p ∈ chain' -> p ∈ chain \/
     exists h, heap !! p = Some h /\ bucket_of (length_ tb) (hash h) = b) ->
  NoDup (entries tb') ->
  (forall p q hp hq,
     p ∈ entries tb' -> q ∈ entries tb' ->
     heap !! p = Some hp -> heap !! q = Some hq ->
     hash hp = hash hq -> key_data hp = key_data hq -> p = q) ->
  elems = wrap32 (Z.of_nat (length (entries tb'))) ->
  table_wf heap tb'.
Proof.
  intros Hwf Hb tb' Hchain Hnd Hkeys Helems. constructor.
  - cbn [list_ length_ tb']. rewrite length_insert. apply (wf_length _ _ Hwf).
  - cbn [list_ length_ tb']. intros i c p Hi Hp.
    destruct (decide (i = b)) as [->|Hne].
    + rewrite list_lookup_insert_eq in Hi by (eapply lookup_lt_Some; exact Hb).
      injection Hi as <-. destruct (Hchain p Hp) as [Hold|Hnew]; [|exact Hnew].
      apply (wf_bucket _ _ Hwf b chain p Hb Hold).
    + rewrite list_lookup_insert_ne in Hi by congruence.
      apply (wf_bucket _ _ Hwf i c p Hi Hp).
  - exact Hnd.
  - exact Hkeys.
  - exact Helems.
Qed.

(** [HandleTable::Lookup] on a well-formed table. *)
Lemma Lookup_spec (heap : Heap) (tb : HandleTable.t) (key : list byte) (hash0 : Z) :
  table_wf heap tb ->
  exists r, Lookup heap tb key hash0 = Some r /\
    match r with
    | Some p => p ∈ entries tb /\ matches heap key hash0 p
    | None => forall p, p ∈ entries tb -> ~ matches heap key hash0 p
    end.
Proof.
  intros Hwf.
  destruct (FindPointer_spec heap tb key hash0 Hwf)
    as (chain & pos & HF & Hchain & Hle & Hat & Hnone).
  unfold Lookup. rewrite HF. cbn [mbind option_bind]. rewrite Hchain.
  cbn [mbind option_bind]. eexists. split; [reflexivity|].
  destruct (chain !! pos) as [p|] eqn:E.
  - apply Hat. reflexivity.
  - apply Hnone. reflexivity.
Qed.

(** [HandleTable::Remove] on a well-formed table: the handle with this hash
    and key, if there is one, leaves the table. *)
Lemma Remove_spec (heap : Heap) (tb : HandleTable.t) (key : list byte) (hash0 : Z) :
  table_wf heap tb ->
  exists tb' r, Remove heap tb key hash0 = Some (tb', r) /\
    table_wf heap tb' /\
    match r with
    | Some p => matches heap key hash0 p /\ entries tb ≡ₚ p :: entries tb'
    | None => tb' = tb /\ forall p, p ∈ entries tb -> ~ matches heap key hash0 p
    end.
Proof.
  intros Hwf.
  destruct (FindPointer_spec heap tb key hash0 Hwf)
    as (chain & pos & HF & Hchain & Hle & Hat & Hnone).
  unfold Remove. rewrite HF. cbn [mbind option_bind]. rewrite Hchain.
  cbn [mbind option_bind].
  destruct (chain !! pos) as [p|] eqn:E.
  2:{ eexists _, _. split; [reflexivity|]. split; [exact Hwf|].
      split; [reflexivity|]. apply Hnone. reflexivity. }
  destruct (Hat p eq_refl) as [Hp Hm].
  eexists _, _. split; [reflexivity|].
  set (b := bucket_of (length_ tb) hash0) in *.
  destruct (entries_bucket_perm (list_ tb) b chain (delete pos chain) Hchain)
    as (X & HX & HX').
  assert (Hperm : entries tb ≡ₚ
            p :: concat (<[b:=delete pos chain]> (list_ tb))).
  { unfold entries. rewrite HX, HX'.
    rewrite (delete_Permutation chain pos p E) at 1. reflexivity. }
  pose proof (wf_nodup _ _ Hwf) as Hnd. rewrite Hperm in Hnd.
  apply NoDup_cons in Hnd. destruct Hnd as [Hnotin Hnd].
  split; [|split; [exact Hm|exact Hperm]].
  apply table_wf_update with (chain := chain); try assumption.
  - intros q Hq. left.
    rewrite (delete_Permutation chain pos p E). right. exact Hq.
  - intros q1 q2 h1 h2 H1 H2. apply (wf_keys _ _ Hwf).
    + rewrite Hperm. right. exact H1.
    + rewrite Hperm. right. exact H2.
  - cbn [entries list_]. rewrite (wf_elems _ _ Hwf), wrap32_pred.
    f_equal. rewrite Hperm. cbn [length]. unfold entries. cbn [list_]. lia.
Qed.

End TableUpdate.

Section TableResize.
Import Cache Cache.HandleTable CacheInv.

Lemma grow_Some (elems : Z) (fuel : nat) :
  forall k : Z,
    2 <= k <= 31 -> (31 - k < Z.of_nat fuel) -> elems <= 2 ^ 31 ->
    exists n, grow fuel (2 ^ k) elems = Some n /\ 4 <= n <= 2 ^ 31 /\ elems <= n.
Proof.
  induction fuel as [|fuel IH]; intros k Hk Hfuel Helems.
  - lia.
  - assert (Hmono : 2 ^ 2 <= 2 ^ k <= 2 ^ 31).
    { split; apply Z.pow_le_mono_r; lia. }
    change (2 ^ 2) with 4 in Hmono.
    cbn [grow]. destruct (Z.ltb_spec (2 ^ k) elems) as [Hlt|Hge].
    + assert (k < 31).
      { destruct (Z.eq_dec k 31) as [->|]; [lia|lia]. }
      replace (wrap32 (2 ^ k * 2)) with (2 ^ (k + 1)).
      * apply IH; lia.
      * rewrite Z.pow_add_r by lia. change (2 ^ 1) with 2.
        symmetry. apply wrap32_small.
        assert (2 ^ k <= 2 ^ 30) by (apply Z.pow_le_mono_r; lia).
        change (2 ^ 30) with 1073741824 in *. change (2 ^ 32) with 4294967296. lia.
    + exists (2 ^ k). split; [reflexivity|]. lia.
Qed.

Lemma rehash_fold (heap : Heap) (new_length : Z) (old : list ptr) :
  1 <= new_length ->
  (forall p, p ∈ old -> is_Some (heap !! p)) ->
  forall acc : list (list ptr),
    Z.of_nat (length acc) = new_length ->
    (forall i chain p, acc !! i = Some chain -> p ∈ chain ->
       exists h, heap !! p = Some h /\ bucket_of new_length (hash h) = i) ->
    exists acc',
      foldl (rehash heap new_length) (Some acc) old = Some acc' /\
      Z.of_nat (length acc') = new_length /\
      concat acc' ≡ₚ old ++ concat acc /\
      (forall i chain p, acc' !! i = Some chain -> p ∈ chain ->
         exists h, heap !! p = Some h /\ bucket_of new_length (hash h) = i).
Proof.
  intros Hlen. induction old as [|p old IH]; intros Hlive acc Hacc Hplace.
  - exists acc. cbn. repeat split; try assumption. reflexivity.
  - cbn [foldl]. destruct (Hlive p ltac:(left)) as [h Hh].
    unfold rehash at 2. cbn [mbind option_bind]. rewrite Hh. cbn [mbind option_bind].
    fold (bucket_of new_length (hash h)).
    pose proof (bucket_of_lt new_length (hash h) Hlen) as Hb.
    destruct (lookup_lt_is_Some_2 acc (bucket_of new_length (hash h)) ltac:(lia))
      as [chain Hchain].
    rewrite Hchain. cbn [mbind option_bind].
    destruct (IH ltac:(intros q Hq; apply Hlive; right; exact Hq)
                (<[bucket_of new_length (hash h) := p :: chain]> acc))
      as (acc' & Hfold & Hlen' & Hperm & Hplace').
    + rewrite length_insert. exact Hacc.
    + intros i c q Hi Hq.
      destruct (decide (i = bucket_of new_length (hash h))) as [->|Hne].
      * rewrite list_lookup_insert_eq in Hi by (eapply lookup_lt_Some; exact Hchain).
        injection Hi as <-. apply elem_of_cons in Hq. destruct Hq as [->|Hq].
        -- exists h. split; [exact Hh|reflexivity].
        -- apply (Hplace _ chain q Hchain Hq).
      * rewrite list_lookup_insert_ne in Hi by congruence.
        apply (Hplace i c q Hi Hq).
    + exists acc'. split; [exact Hfold|]. split; [exact Hlen'|]. split; [|exact Hplace'].
      rewrite Hperm.
      destruct (entries_bucket_perm acc (bucket_of new_length (hash h)) chain
                  (p :: chain) Hchain) as (X & HX & HX').
      rewrite HX', HX. cbn [app].
      rewrite <- Permutation_middle. reflexivity.
Qed.

Lemma concat_replicate_nil (m : nat) : concat (replicate m (@nil ptr)) = [].
Proof. induction m as [|m IH]; [reflexivity|exact IH]. Qed.

(** [HandleTable::Resize]: the handles are the same, each in the bucket of
    its hash in the new array. *)
Lemma Resize_spec (heap : Heap) (tb : HandleTable.t) :
  Z.of_nat (length (list_ tb)) = length_ tb ->
  (forall p, p ∈ entries tb -> is_Some (heap !! p)) ->
  NoDup (entries tb) ->
  (forall p q hp hq,
     p ∈ entries tb -> q ∈ entries tb ->
     heap !! p = Some hp -> heap !! q = Some hq ->
     hash hp = hash hq -> key_data hp = key_data hq -> p = q) ->
  elems_ tb = wrap32 (Z.of_nat (length (entries tb))) ->
  elems_ tb <= 2 ^ 31 ->
  exists tb', Resize heap tb = Some tb' /\ table_wf heap tb' /\
    entries tb' ≡ₚ entries tb.
Proof.
  intros Hlen Hlive Hnd Hkeys Helems Hbound. unfold Resize.
  destruct (grow_Some (elems_ tb) 32 2 ltac:(lia) ltac:(lia) Hbound)
    as (n & Hgrow & Hn & _).
  change (2 ^ 2) with 4 in Hgrow. rewrite Hgrow. cbn [mbind option_bind].
  rewrite take_ge by lia. fold (entries tb).
  destruct (rehash_fold heap n (entries tb) ltac:(lia) Hlive
              (replicate (Z.to_nat n) []))
    as (acc' & Hfold & Hlen' & Hperm & Hplace).
  { rewrite length_replicate. lia. }
  { intros i chain p Hi Hp. apply lookup_replicate in Hi. destruct Hi as [-> _].
    inversion Hp. }
  rewrite Hfold. cbn [mbind option_bind].
  rewrite Helems, Z.eqb_refl. cbn [negb].
  rewrite concat_replicate_nil, app_nil_r in Hperm.
  eexists. split; [reflexivity|]. split; [|exact Hperm].
  constructor; cbn [list_ length_ elems_].
  - split; [exact Hlen'|lia].
  - exact Hplace.
  - unfold entries. cbn [list_]. rewrite Hperm. exact Hnd.
  - unfold entries at 1 2. cbn [list_]. intros p q hp hq Hp Hq.
    rewrite Hperm in Hp, Hq. apply Hkeys; assumption.
  - unfold entries at 2. cbn [list_]. rewrite Hperm. reflexivity.
Qed.

(** [HandleTable::Insert] of a live handle that is not in the table: it
    takes the place of the handle with its hash and key, or is added. *)
Lemma Insert_spec (heap : Heap) (tb : HandleTable.t) (e : ptr) (he : LRUHandle) :
  table_wf heap tb -> heap !! e = Some he -> e ∉ entries tb ->
  Z.of_nat (length (entries tb)) < 2 ^ 31 ->
  exists tb' old, Insert heap tb e = Some (tb', old) /\
    table_wf heap tb' /\
    match old with
    | Some o =>
        matches heap (key_data he) (hash he) o /\
        exists Y, entries tb ≡ₚ o :: Y /\ entries tb' ≡ₚ e :: Y
    | None =>
        (forall p, p ∈ entries tb -> ~ matches heap (key_data he) (hash he) p) /\
        entries tb' ≡ₚ e :: entries tb
    end.
Proof.
  intros Hwf He Hfresh Hsmall.
  destruct (FindPointer_spec heap tb (key_data he) (hash he) Hwf)
    as (chain & pos & HF & Hchain & Hle & Hat & Hnone).
  unfold Insert. rewrite He. cbn [mbind option_bind]. rewrite HF.
  cbn [mbind option_bind]. rewrite Hchain. cbn [mbind option_bind].
  set (b := bucket_of (length_ tb) (hash he)) in *.
  assert (Hebucket : exists h, heap !! e = Some h /\ bucket_of (length_ tb) (hash h) = b).
  { exists he. split; [exact He|reflexivity]. }
  destruct (chain !! pos) as [o|] eqn:E.
  - destruct (Hat o eq_refl) as [Ho Hm].
    destruct (entries_bucket_perm (list_ tb) b chain (<[pos:=e]> chain) Hchain)
      as (X & HX & HX').
    assert (Hins : <[pos:=e]> chain ≡ₚ e :: delete pos chain).
    { rewrite insert_take_drop by (eapply lookup_lt_Some; exact E).
      rewrite delete_take_drop. rewrite <- Permutation_middle. reflexivity. }
    assert (HP : entries tb ≡ₚ o :: (delete pos chain ++ X)).
    { unfold entries. rewrite HX. rewrite (delete_Permutation chain pos o E) at 1.
      reflexivity. }
    assert (HP' : concat (<[b:=<[pos:=e]> chain]> (list_ tb))
                  ≡ₚ e :: (delete pos chain ++ X)).
    { rewrite HX', Hins. reflexivity. }
    pose proof (wf_nodup _ _ Hwf) as Hnd. rewrite HP in Hnd.
    apply NoDup_cons in Hnd. destruct Hnd as [Honot Hnd].
    eexists _, _. split; [reflexivity|]. split.
    2:{ split; [exact Hm|]. exists (delete pos chain ++ X). split; [exact HP|exact HP']. }
    apply table_wf_update with (chain := chain); try assumption.
    + intros q Hq. rewrite Hins in Hq. apply elem_of_cons in Hq.
      destruct Hq as [->|Hq]; [right; exact Hebucket|left].
      rewrite (delete_Permutation chain pos o E). right. exact Hq.
    + unfold entries. cbn [list_]. rewrite HP'. apply NoDup_cons. split; [|exact Hnd].
      intros Hin. apply Hfresh. rewrite HP. right. exact Hin.
    + unfold entries at 1 2. cbn [list_]. intros p q hp hq Hp Hq Hhp Hhq Hh Hk.
      rewrite HP' in Hp, Hq. apply elem_of_cons in Hp, Hq.
      destruct Hm as (ho & Hho & Hoh & Hok).
      assert (Hother : forall x hx, x ∈ delete pos chain ++ X -> heap !! x = Some hx ->
                hash hx = hash he -> key_data hx = key_data he -> False).
      { intros x hx Hx Hhx Hxh Hxk. apply Honot.
        replace o with x; [exact Hx|].
        apply (wf_keys _ _ Hwf x o hx ho); try assumption; try congruence.
        rewrite HP. right. exact Hx. }
      destruct Hp as [->|Hp], Hq as [->|Hq].
      * reflexivity.
      * exfalso. rewrite He in Hhp. injection Hhp as <-.
        apply (Hother q hq Hq Hhq); congruence.
      * exfalso. rewrite He in Hhq. injection Hhq as <-.
        apply (Hother p hp Hp Hhp); congruence.
      * apply (wf_keys _ _ Hwf p q hp hq); try assumption.
        -- rewrite HP. right. exact Hp.
        -- rewrite HP. right. exact Hq.
    + unfold entries. cbn [list_]. rewrite (wf_elems _ _ Hwf). f_equal.
      rewrite HP', HP. reflexivity.
  - destruct (entries_bucket_perm (list_ tb) b chain (chain ++ [e]) Hchain)
      as (X & HX & HX').
    assert (HP' : concat (<[b:=chain ++ [e]]> (list_ tb)) ≡ₚ e :: entries tb).
    { unfold entries. rewrite HX', HX, <- app_assoc. cbn [app].
      rewrite <- Permutation_middle. rewrite (Permutation_app_comm chain). reflexivity. }
    set (t1 := {| length_ := length_ tb; elems_ := wrap32 (elems_ tb + 1);
                  list_ := <[b:=chain ++ [e]]> (list_ tb) |}).
    assert (Hwf1 : table_wf heap t1).
    { apply table_wf_update with (chain := chain); try assumption.
      - intros q Hq. apply elem_of_app in Hq. destruct Hq as [Hq|Hq]; [left; exact Hq|].
        apply list_elem_of_singleton in Hq. subst q. right. exact Hebucket.
      - unfold entries. cbn [list_]. rewrite HP'. apply NoDup_cons.
        split; [exact Hfresh|apply (wf_nodup _ _ Hwf)].
      - unfold entries at 1 2. cbn [list_]. intros p q hp hq Hp Hq Hhp Hhq Hh Hk.
        rewrite HP' in Hp, Hq. apply elem_of_cons in Hp, Hq.
        destruct Hp as [->|Hp], Hq as [->|Hq].
        + reflexivity.
        + exfalso. rewrite He in Hhp. injection Hhp as <-.
          apply (Hnone eq_refl q Hq). exists hq. repeat split; congruence.
        + exfalso. rewrite He in Hhq. injection Hhq as <-.
          apply (Hnone eq_refl p Hp). exists hp. repeat split; congruence.
        + apply (wf_keys _ _ Hwf p q hp hq); assumption.
      - unfold entries. cbn [list_]. rewrite (wf_elems _ _ Hwf), wrap32_succ.
        f_equal. rewrite HP'. cbn [length]. unfold entries. lia. }
    fold t1.
    destruct (elems_ t1 >? length_ t1).
    + destruct (Resize_spec heap t1) as (t2 & HR & Hwf2 & HP2).
      * apply (wf_length _ _ Hwf1).
      * intros p Hp. eapply table_live; [exact Hwf1|exact Hp].
      * apply (wf_nodup _ _ Hwf1).
      * apply (wf_keys _ _ Hwf1).
      * apply (wf_elems _ _ Hwf1).
      * rewrite (wf_elems _ _ Hwf1). unfold entries at 1. cbn [list_ t1].
        rewrite HP'. cbn [length]. rewrite wrap32_small.
        -- lia.
        -- change (2 ^ 32) with (2 * 2 ^ 31). lia.
      * rewrite HR. cbn [mbind option_bind]. eexists _, _.
        split; [reflexivity|]. split; [exact Hwf2|].
        split; [apply Hnone; reflexivity|]. rewrite HP2. exact HP'.
    + eexists _, _. split; [reflexivity|]. split; [exact Hwf1|].
      split; [apply Hnone; reflexivity|]. exact HP'.
Qed.

(** A well-formed table stays well formed when the heap changes in a way
    that keeps its handles live with their hash and key. *)
Lemma table_wf_heap (heap heap' : Heap) (tb : HandleTable.t) :
  table_wf heap tb ->
  (forall p h, p ∈ entries tb -> heap !! p = Some h ->
     exists h', heap' !! p = Some h' /\ hash h' = hash h /\ key_data h' = key_data h) ->
  table_wf heap' tb.
Proof.
  intros Hwf Hsame. constructor.
  - apply (wf_length _ _ Hwf).
  - intros i chain p Hi Hp.
    destruct (wf_bucket _ _ Hwf i chain p Hi Hp) as (h & Hh & Hb).
    destruct (Hsame p h) as (h' & Hh' & Hhash & _); [|exact Hh|].
    + apply elem_of_entries. eauto.
    + exists h'. split; [exact Hh'|]. rewrite Hhash. exact Hb.
  - apply (wf_nodup _ _ Hwf).
  - intros p q hp hq Hp Hq Hhp Hhq Hh Hk.
    destruct (table_live heap tb p Hwf Hp) as [hp0 Hhp0].
    destruct (table_live heap tb q Hwf Hq) as [hq0 Hhq0].
    destruct (Hsame p hp0 Hp Hhp0) as (hp' & Hp' & Hph & Hpk).
    destruct (Hsame q hq0 Hq Hhq0) as (hq' & Hq' & Hqh & Hqk).
    rewrite Hhp in Hp'. injection Hp' as <-.
    rewrite Hhq in Hq'. injection Hq' as <-.
    apply (wf_keys _ _ Hwf p q hp0 hq0); try assumption; congruence.
  - apply (wf_elems _ _ Hwf).
Qed.

Lemma new_table_wf :
  exists tb, HandleTable.new = Some tb /\ table_wf ∅ tb /\ entries tb = [].
Proof.
  eexists. split; [vm_compute; reflexivity|]. split.
  - constructor.
    + cbn. lia.
    + intros i chain p Hi Hp. cbn [list_] in Hi.
      destruct i as [|[|[|[|i]]]]; cbn in Hi; try discriminate;
        injection Hi as <-; inversion Hp.
    + cbn. constructor.
    + intros p q hp hq Hp. cbn in Hp. inversion Hp.
    + reflexivity.
  - reflexivity.
Qed.

End TableResize.

(** ** util/cache: one shard *)

Section ShardFacts.
Import Cache Cache.LRUCache CacheInv.

(** [Unref] on a live handle: the last reference frees it and calls its
    deleter, any other reference is counted down. *)
Lemma Unref_spec (c : LRUCache.t) (e : ptr) (h : LRUHandle) :
  heap c !! e = Some h -> 1 <= refs h ->
  Unref c e =
  Some (if refs h =? 1 then
          {| capacity_ := capacity_ c; usage_ := wrap64 (usage_ c - charge h);
             lru_ := lru_ c; table_ := table_ c; heap := delete e (heap c);
             next_free := next_free c;
             deleted := deleted c ++ [call_of e h] |}
        else set_heap c (<[e := set_refs h (refs h - 1)]> (heap c))).
Proof.
  intros He Hr. unfold Unref. rewrite He. cbn [mbind option_bind].
  destruct (Z.gtb_spec (refs h) 0); [|lia]. cbn [negb set_refs refs].
  destruct (Z.eqb_spec (refs h) 1) as [H1|H1].
  - destruct (Z.leb_spec (refs h - 1) 0); [|lia]. reflexivity.
  - destruct (Z.leb_spec (refs h - 1) 0); [lia|]. reflexivity.
Qed.

(** Dropping a reference keeps the shard well formed, provided a handle that
    is still linked has another reference left. *)
Lemma Unref_WF (c : LRUCache.t) (e : ptr) (h : LRUHandle) :
  WF c -> heap c !! e = Some h -> 1 <= refs h ->
  (e ∈ lru_ c -> 2 <= refs h) ->
  exists c', Unref c e = Some c' /\ WF c'.
Proof.
  intros Hwf He Hr Hlinked. rewrite (Unref_spec c e h He Hr).
  eexists. split; [reflexivity|].
  assert (Hlog : forall call, call ∈ deleted c -> call_entry call <> e).
  { intros call Hc Heq. destruct (wf_deleted _ Hwf call Hc) as [Hn _].
    rewrite Heq, He in Hn. discriminate. }
  destruct (Z.eqb_spec (refs h) 1) as [H1|H1].
  - assert (Hnot : e ∉ lru_ c) by (intros Hin; apply Hlinked in Hin; lia).
    constructor; cbn [lru_ table_ heap next_free deleted].
    + apply (wf_lru_nodup _ Hwf).
    + apply (wf_lru_table _ Hwf).
    + apply (table_wf_heap (heap c)); [apply (wf_table _ Hwf)|].
      intros p hp Hp Hhp. exists hp. split; [|split; reflexivity].
      rewrite lookup_delete_ne; [exact Hhp|]. intros ->.
      apply Hnot. apply (wf_lru_table _ Hwf). exact Hp.
    + intros p Hp. destruct (wf_refs _ Hwf p Hp) as (hp & Hhp & Hrp).
      exists hp. split; [|exact Hrp].
      rewrite lookup_delete_ne; [exact Hhp|]. intros ->. contradiction.
    + intros p hp Hp. apply lookup_delete_Some in Hp. destruct Hp as [_ Hp].
      apply (wf_alloc _ Hwf p hp Hp).
    + intros call Hc. apply elem_of_app in Hc. destruct Hc as [Hc|Hc].
      * destruct (wf_deleted _ Hwf call Hc) as [Hn Hlt]. split; [|exact Hlt].
        apply lookup_delete_None. right. exact Hn.
      * apply list_elem_of_singleton in Hc. subst call. cbn [call_entry call_of].
        split; [apply lookup_delete_eq|]. apply (wf_alloc _ Hwf e h He).
    + rewrite map_app. cbn [map call_entry call_of]. apply NoDup_app.
      split; [apply (wf_deleted_nodup _ Hwf)|]. split; [|apply NoDup_singleton].
      intros x Hx Hx'. apply list_elem_of_singleton in Hx'. subst x.
      apply list_elem_of_fmap in Hx. destruct Hx as (call & Heq & Hc).
      apply (Hlog call Hc). symmetry. exact Heq.
  - constructor; cbn [set_heap lru_ table_ heap next_free deleted].
    + apply (wf_lru_nodup _ Hwf).
    + apply (wf_lru_table _ Hwf).
    + apply (table_wf_heap (heap c)); [apply (wf_table _ Hwf)|].
      intros p hp Hp Hhp. destruct (decide (p = e)) as [->|Hne].
      * rewrite He in Hhp. injection Hhp as <-. eexists.
        split; [apply lookup_insert_eq|]. split; reflexivity.
      * exists hp. split; [|split; reflexivity].
        rewrite lookup_insert_ne by congruence. exact Hhp.
    + intros p Hp. destruct (wf_refs _ Hwf p Hp) as (hp & Hhp & Hrp).
      destruct (decide (p = e)) as [->|Hne].
      * eexists. split; [apply lookup_insert_eq|]. cbn [set_refs refs]. lia.
      * exists hp. split; [|exact Hrp].
        rewrite lookup_insert_ne by congruence. exact Hhp.
    + intros p hp Hp. destruct (decide (p = e)) as [->|Hne].
      * apply (wf_alloc _ Hwf e h He).
      * rewrite lookup_insert_ne in Hp by congruence. apply (wf_alloc _ Hwf p hp Hp).
    + intros call Hc. destruct (wf_deleted _ Hwf call Hc) as [Hn Hlt].
      split; [|exact Hlt].
      rewrite lookup_insert_ne; [exact Hn|]. intros Heq. apply (Hlog call Hc).
      symmetry. exact Heq.
    + apply (wf_deleted_nodup _ Hwf).
Qed.

(** Unlinking a handle of a well-formed shard from the table and the list
    leaves a well-formed shard that no longer links it. *)
Lemma unlink_WF (c : LRUCache.t) (e : ptr) (h : LRUHandle) :
  WF c -> e ∈ lru_ c -> heap c !! e = Some h ->
  exists tb',
    HandleTable.Remove (heap c) (table_ c) (key_data h) (hash h) = Some (tb', Some e) /\
    WF (set_table (set_lru c (filter (fun x => x <> e) (lru_ c))) tb') /\
    (e ∉ filter (fun x => x <> e) (lru_ c)) /\
    entries (table_ c) ≡ₚ e :: entries tb'.
Proof.
  intros Hwf Hin He.
  destruct (Remove_spec (heap c) (table_ c) (key_data h) (hash h) (wf_table _ Hwf))
    as (tb' & r & HR & Hwf' & Hr).
  assert (Hme : matches (heap c) (key_data h) (hash h) e).
  { exists h. repeat split. exact He. }
  assert (Hent : e ∈ entries (table_ c)) by (apply (wf_lru_table _ Hwf); exact Hin).
  destruct r as [p|].
  2:{ destruct Hr as [_ Hr]. exfalso. apply (Hr e Hent Hme). }
  destruct Hr as [Hmp Hperm].
  assert (p = e).
  { destruct Hmp as (hp & Hhp & Hph & Hpk).
    apply (wf_keys _ _ (wf_table _ Hwf) p e hp h); try assumption; try congruence.
    rewrite Hperm. left. }
  subst p. exists tb'. split; [exact HR|].
  pose proof (wf_nodup _ _ (wf_table _ Hwf)) as Hnd. rewrite Hperm in Hnd.
  apply NoDup_cons in Hnd. destruct Hnd as [Hnot Hnd].
  assert (Hnotin : e ∉ filter (fun x => x <> e) (lru_ c)).
  { intros Hf. apply list_elem_of_filter in Hf. destruct Hf as [Hf _]. congruence. }
  split; [|split; [exact Hnotin|exact Hperm]].
  constructor; cbn [set_table set_lru lru_ table_ heap next_free deleted].
  - apply NoDup_filter. apply (wf_lru_nodup _ Hwf).
  - intros p. rewrite list_elem_of_filter, <- (wf_lru_table _ Hwf p), Hperm.
    rewrite elem_of_cons. split.
    + intros Hp. split; [|right; exact Hp]. intros ->. contradiction.
    + intros [Hne [->|Hp]]; [contradiction|exact Hp].
  - exact Hwf'.
  - intros p Hp. apply list_elem_of_filter in Hp. destruct Hp as [_ Hp].
    apply (wf_refs _ Hwf p Hp).
  - apply (wf_alloc _ Hwf).
  - apply (wf_deleted _ Hwf).
  - apply (wf_deleted_nodup _ Hwf).
Qed.

Lemma LRU_Remove_Some (c : LRUCache.t) (e : ptr) :
  e ∈ lru_ c -> LRU_Remove c e = Some (set_lru c (filter (fun x => x <> e) (lru_ c))).
Proof.
  intros Hin. unfold LRU_Remove. rewrite bool_decide_eq_true_2 by exact Hin. reflexivity.
Qed.

Lemma filter_head (p : ptr) (rest : list ptr) :
  NoDup (p :: rest) -> filter (fun x => x <> p) (p :: rest) = rest.
Proof.
  intros Hnd. apply NoDup_cons in Hnd. destruct Hnd as [Hnot _].
  rewrite filter_cons_False by (intros H; apply H; reflexivity).
  induction rest as [|q rest IH]; [reflexivity|].
  rewrite filter_cons_True.
  - f_equal. apply IH. intros Hin. apply Hnot. right. exact Hin.
  - intros ->. apply Hnot. left.
Qed.

(** One round of the eviction loop on a well-formed shard: the oldest handle
    leaves the list and the table and loses the reference of the cache. *)
Lemma evict_one_spec (c : LRUCache.t) (old : ptr) (rest : list ptr) :
  WF c -> lru_ c = old :: rest ->
  exists h tb' c',
    heap c !! old = Some h /\ 1 <= refs h /\
    evict_one c = Some c' /\ WF c' /\
    lru_ c' = rest /\ table_ c' = tb' /\
    entries (table_ c) ≡ₚ old :: entries tb' /\
    capacity_ c' = capacity_ c /\ next_free c' = next_free c /\
    (if refs h =? 1
     then heap c' = delete old (heap c) /\
          deleted c' = deleted c ++ [call_of old h] /\
          usage_ c' = wrap64 (usage_ c - charge h)
     else heap c' = <[old := set_refs h (refs h - 1)]> (heap c) /\
          deleted c' = deleted c /\ usage_ c' = usage_ c).
Proof.
  intros Hwf Hlru.
  assert (Hin : old ∈ lru_ c) by (rewrite Hlru; left).
  destruct (wf_refs _ Hwf old Hin) as (h & Hh & Hr).
  destruct (unlink_WF c old h Hwf Hin Hh) as (tb' & HR & Hwf1 & Hnot & Hperm).
  assert (Hrest : filter (fun x => x <> old) (lru_ c) = rest).
  { rewrite Hlru. apply filter_head. rewrite <- Hlru. apply (wf_lru_nodup _ Hwf). }
  rewrite Hrest in Hwf1, Hnot.
  set (c1 := set_table (set_lru c rest) tb') in *.
  destruct (Unref_WF c1 old h Hwf1 Hh Hr) as (c' & HU & Hwf').
  { intros Hin'. contradiction. }
  exists h, tb', c'. split; [exact Hh|]. split; [exact Hr|].
  assert (Hev : evict_one c = Some c').
  { unfold evict_one. rewrite Hlru. cbn [head mbind option_bind].
    rewrite (LRU_Remove_Some c old Hin), Hrest. cbn [mbind option_bind].
    cbn [set_lru heap table_]. rewrite Hh. cbn [mbind option_bind]. rewrite HR.
    cbn [mbind option_bind]. exact HU. }
  split; [exact Hev|]. split; [exact Hwf'|].
  rewrite (Unref_spec c1 old h Hh Hr) in HU. injection HU as <-.
  destruct (Z.eqb_spec (refs h) 1); cbn; repeat split; try reflexivity; assumption.
Qed.


(** The calls of the deleter made for the handles of [l], in the order of
    [l], when each of them loses one reference in the heap [m]. *)
Lemma omap_ext_in {A B : Type} (f g : A -> option B) (l : list A) :
  (forall x, x ∈ l -> f x = g x) -> omap f l = omap g l.
Proof.
  induction l as [|x l IH]; intros H; [reflexivity|]. cbn [omap list_omap].
  rewrite (H x) by left. rewrite IH; [reflexivity|].
  intros y Hy. apply H. right. exact Hy.
Qed.

Lemma elem_of_take_in {A : Type} (n : nat) (l : list A) (x : A) :
  x ∈ take n l -> x ∈ l.
Proof.
  intros H. rewrite <- (take_drop n l). apply elem_of_app. left. exact H.
Qed.

Lemma elem_of_drop_in {A : Type} (n : nat) (l : list A) (x : A) :
  x ∈ drop n l -> x ∈ l.
Proof.
  intros H. rewrite <- (take_drop n l). apply elem_of_app. right. exact H.
Qed.

(** The eviction loop on a well-formed shard stops, after some number [n] of
    rounds: the [n] oldest handles have left the list and the table, oldest
    first, each round was entered above capacity, and at the end the usage is
    within capacity or the list is empty. *)
Lemma evict_spec (fuel : nat) :
  forall c : LRUCache.t,
    WF c -> (length (lru_ c) <= fuel)%nat ->
    exists n c',
      evict fuel c = Some c' /\ evict_n n c = Some c' /\ WF c' /\
      (n <= length (lru_ c))%nat /\
      lru_ c' = drop n (lru_ c) /\
      (usage_ c' <= capacity_ c' \/ lru_ c' = []) /\
      (forall m cm, (m < n)%nat -> evict_n m c = Some cm ->
         usage_ cm > capacity_ cm /\ lru_ cm <> []) /\
      (forall p h, p ∈ take n (lru_ c) -> heap c !! p = Some h ->
         heap c' !! p = if refs h =? 1 then None
                        else Some (set_refs h (refs h - 1))) /\
      (forall p, p ∉ take n (lru_ c) -> heap c' !! p = heap c !! p) /\
      deleted c' = deleted c ++
        omap (fun p => h ← heap c !! p;
                       if refs h =? 1 then Some (call_of p h) else None)
             (take n (lru_ c)) /\
      capacity_ c' = capacity_ c /\ next_free c' = next_free c.
Proof.
  induction fuel as [|fuel IH]; intros c Hwf Hfuel.
  - assert (Hnil : lru_ c = []) by (destruct (lru_ c); [reflexivity|cbn in Hfuel; lia]).
    exists O, c. cbn [evict evict_n drop take].
    rewrite (bool_decide_eq_true_2 _ Hnil). rewrite andb_false_r.
    split; [reflexivity|]. split; [reflexivity|]. split; [exact Hwf|].
    split; [lia|]. split; [reflexivity|]. split; [right; exact Hnil|].
    split; [intros m cm Hm; lia|]. split; [intros p h Hp; inversion Hp|].
    split; [reflexivity|]. cbn. rewrite app_nil_r. repeat split; reflexivity.
  - cbn [evict].
    destruct ((usage_ c >? capacity_ c) && negb (bool_decide (lru_ c = []))) eqn:Hcond.
    2:{ exists O, c. cbn [evict_n drop take].
        split; [reflexivity|]. split; [reflexivity|]. split; [exact Hwf|].
        split; [lia|]. split; [reflexivity|]. split.
        { apply andb_false_iff in Hcond. destruct Hcond as [Hc|Hc].
          - left. destruct (Z.gtb_spec (usage_ c) (capacity_ c)); [discriminate|lia].
          - right. apply negb_false_iff, bool_decide_eq_true_1 in Hc. exact Hc. }
        split; [intros m cm Hm; lia|]. split; [intros p h Hp; inversion Hp|].
        split; [reflexivity|]. cbn. rewrite app_nil_r. repeat split; reflexivity. }
    apply andb_true_iff in Hcond. destruct Hcond as [Hover Hne].
    apply negb_true_iff, bool_decide_eq_false_1 in Hne.
    destruct (lru_ c) as [|old rest] eqn:Hlru; [contradiction|].
    destruct (evict_one_spec c old rest Hwf Hlru)
      as (h & tb' & c1 & Hh & Hr & Hev & Hwf1 & Hlru1 & Htb & Hperm & Hcap & Hnext & Hfate).
    rewrite Hev. cbn [mbind option_bind].
    destruct (IH c1 Hwf1) as (n & c' & HE & HEn & Hwf' & Hn & Hdrop & Hstop & Hmin
                              & Hevicted & Hkept & Hdel & Hcap' & Hnext').
    { rewrite Hlru1. cbn [length] in Hfuel. lia. }
    rewrite Hlru1 in *.
    pose proof (wf_lru_nodup _ Hwf) as Hnd. rewrite Hlru in Hnd.
    apply NoDup_cons in Hnd. destruct Hnd as [Hold_rest Hnd_rest].
    assert (Hold_take : old ∉ take n rest).
    { intros Hin. apply Hold_rest. eapply elem_of_take_in. exact Hin. }
    assert (Hother : forall p, p ∈ take n rest -> heap c1 !! p = heap c !! p).
    { intros p Hp. assert (p <> old) by (intros ->; contradiction).
      destruct (refs h =? 1).
      - destruct Hfate as (-> & _). apply lookup_delete_ne. congruence.
      - destruct Hfate as (-> & _). apply lookup_insert_ne. congruence. }
    exists (S n), c'. cbn [evict_n drop take length].
    split; [exact HE|]. split; [rewrite Hev; exact HEn|]. split; [exact Hwf'|].
    split; [lia|]. split; [exact Hdrop|]. split; [exact Hstop|]. split.
    { intros [|m] cm Hm Hcm.
      - cbn in Hcm. injection Hcm as <-. split.
        + destruct (Z.gtb_spec (usage_ c) (capacity_ c)); [lia|discriminate].
        + rewrite Hlru. discriminate.
      - cbn [evict_n] in Hcm. rewrite Hev in Hcm. cbn [mbind option_bind] in Hcm.
        apply (Hmin m cm); [lia|exact Hcm]. }
    split.
    { intros p hp Hp Hhp. apply elem_of_cons in Hp. destruct Hp as [->|Hp].
      - rewrite Hh in Hhp. injection Hhp as <-. rewrite (Hkept old Hold_take).
        destruct (refs h =? 1).
        + destruct Hfate as (-> & _). apply lookup_delete_eq.
        + destruct Hfate as (-> & _). apply lookup_insert_eq.
      - apply Hevicted; [exact Hp|]. rewrite (Hother p Hp). exact Hhp. }
    split.
    { intros p Hp. rewrite not_elem_of_cons in Hp. destruct Hp as [Hne' Hp].
      rewrite (Hkept p Hp). destruct (refs h =? 1).
      - destruct Hfate as (-> & _). apply lookup_delete_ne. congruence.
      - destruct Hfate as (-> & _). apply lookup_insert_ne. congruence. }
    split.
    { rewrite Hdel. cbn [omap list_omap]. rewrite Hh. cbn [mbind option_bind].
      rewrite (omap_ext_in _ (fun p => h0 ← heap c !! p;
                 if refs h0 =? 1 then Some (call_of p h0) else None) (take n rest)).
      - destruct (refs h =? 1).
        + destruct Hfate as (_ & -> & _). rewrite <- app_assoc. reflexivity.
        + destruct Hfate as (_ & -> & _). reflexivity.
      - intros p Hp. rewrite (Hother p Hp). reflexivity. }
    split; congruence.
Qed.

End ShardFacts.

Section InsertFacts.
Import Cache Cache.LRUCache CacheInv.

Lemma WF_length (c : LRUCache.t) :
  WF c -> length (entries (table_ c)) = length (lru_ c).
Proof.
  intros Hwf. apply Permutation_length. apply NoDup_Permutation.
  - apply (wf_nodup _ _ (wf_table _ Hwf)).
  - apply (wf_lru_nodup _ Hwf).
  - apply (wf_lru_table _ Hwf).
Qed.

Lemma WF_fresh (c : LRUCache.t) : WF c -> heap c !! next_free c = None.
Proof.
  intros Hwf. destruct (heap c !! next_free c) as [h|] eqn:E; [|reflexivity].
  apply (wf_alloc _ Hwf) in E. lia.
Qed.

(** [Insert] up to the eviction loop, on a well-formed shard: the new handle
    is the next allocation, it has the two references of the cache and the
    caller and is the newest in the list; a handle with the same hash and key
    is unlinked and loses the reference of the cache. *)
Lemma Insert_entry_spec (c : LRUCache.t) (key : list byte)
    (hash0 value0 charge0 deleter0 : Z) :
  WF c -> Z.of_nat (length (lru_ c)) < 2 ^ 31 ->
  let e := next_free c in
  let he := {| value := value0; deleter := deleter0; charge := charge0;
               key_data := key; refs := 2; hash := hash0 |} in
  exists c1 old,
    Insert_entry c key hash0 value0 charge0 deleter0 = Some (c1, e) /\
    WF c1 /\
    capacity_ c1 = capacity_ c /\ next_free c1 = S e /\
    heap c1 !! e = Some he /\
    match old with
    | None =>
        (forall p, p ∈ lru_ c -> ~ matches (heap c) key hash0 p) /\
        lru_ c1 = lru_ c ++ [e] /\
        heap c1 = <[e := he]> (heap c) /\
        deleted c1 = deleted c /\
        usage_ c1 = wrap64 (usage_ c + charge0)
    | Some o =>
        exists ho, heap c !! o = Some ho /\ hash ho = hash0 /\ key_data ho = key /\
          o ∈ lru_ c /\ 1 <= refs ho /\
          lru_ c1 = filter (fun x => x <> o) (lru_ c) ++ [e] /\
          (o ∉ entries (table_ c1)) /\
          if refs ho =? 1
          then heap c1 = delete o (<[e := he]> (heap c)) /\
               deleted c1 = deleted c ++ [call_of o ho] /\
               usage_ c1 = wrap64 (wrap64 (usage_ c + charge0) - charge ho)
          else heap c1 = <[o := set_refs ho (refs ho - 1)]> (<[e := he]> (heap c)) /\
               deleted c1 = deleted c /\
               usage_ c1 = wrap64 (usage_ c + charge0)
    end.
Proof.
  intros Hwf Hsmall e he.
  pose proof (WF_fresh c Hwf) as Hfresh. fold e in Hfresh.
  set (heap_a := <[e := he]> (heap c)).
  assert (Hlive_a : forall p h, p <> e -> heap c !! p = Some h -> heap_a !! p = Some h).
  { intros p h Hne Hp. unfold heap_a. rewrite lookup_insert_ne by congruence. exact Hp. }
  assert (Hne_e : forall p, p ∈ lru_ c -> p <> e).
  { intros p Hp ->. destruct (wf_refs _ Hwf e Hp) as (h & Hh & _). congruence. }
  assert (Hwf_a : table_wf heap_a (table_ c)).
  { apply (table_wf_heap (heap c)); [apply (wf_table _ Hwf)|].
    intros p h Hp Hh. exists h. split; [|split; reflexivity].
    apply Hlive_a; [|exact Hh]. apply Hne_e. apply (wf_lru_table _ Hwf). exact Hp. }
  assert (Hnot_e : e ∉ entries (table_ c)).
  { intros Hin. apply (wf_lru_table _ Hwf) in Hin. apply (Hne_e e Hin). reflexivity. }
  destruct (Insert_spec heap_a (table_ c) e he Hwf_a) as (tb' & old & HI & Hwf' & Hold).
  { unfold heap_a. apply lookup_insert_eq. }
  { exact Hnot_e. }
  { rewrite (WF_length c Hwf). exact Hsmall. }
  (* the shard once the new handle is linked and [L] is the rest of the list *)
  assert (HWF : forall L u,
    NoDup L -> (forall p, p ∈ L -> p ∈ lru_ c) ->
    (forall p, p ∈ entries tb' <-> p = e \/ p ∈ L) ->
    WF {| capacity_ := capacity_ c; usage_ := u; lru_ := L ++ [e]; table_ := tb';
          heap := heap_a; next_free := S e; deleted := deleted c |}).
  { intros L u HndL HsubL Hent. constructor; cbn [lru_ table_ heap next_free deleted].
    - apply NoDup_app. split; [exact HndL|]. split; [|apply NoDup_singleton].
      intros p Hp Hp'. apply list_elem_of_singleton in Hp'. subst p.
      apply (Hne_e e (HsubL e Hp)). reflexivity.
    - intros p. rewrite Hent, elem_of_app, list_elem_of_singleton. tauto.
    - exact Hwf'.
    - intros p Hp. apply elem_of_app in Hp. destruct Hp as [Hp|Hp].
      + destruct (wf_refs _ Hwf p (HsubL p Hp)) as (h & Hh & Hr).
        exists h. split; [|exact Hr]. apply Hlive_a; [|exact Hh].
        apply Hne_e. apply HsubL. exact Hp.
      + apply list_elem_of_singleton in Hp. subst p. exists he.
        split; [apply lookup_insert_eq|]. cbn. lia.
    - intros p h Hp. destruct (decide (p = e)) as [->|Hne]; [lia|].
      unfold heap_a in Hp. rewrite lookup_insert_ne in Hp by congruence.
      apply (wf_alloc _ Hwf) in Hp. fold e in Hp. lia.
    - intros call Hc. destruct (wf_deleted _ Hwf call Hc) as [Hn Hlt]. fold e in Hlt.
      split; [|lia]. unfold heap_a. rewrite lookup_insert_ne by lia. exact Hn.
    - apply (wf_deleted_nodup _ Hwf). }
  unfold Insert_entry. fold e. fold he.
  cbn [LRU_Append set_lru set_usage set_table lru_ table_ heap usage_ capacity_
       next_free deleted].
  fold heap_a. rewrite HI. cbn [mbind option_bind].
  destruct old as [o|].
  - destruct Hold as [(ho & Hho & Hoh & Hok) (Y & HY & HY')].
    assert (Hoin : o ∈ entries (table_ c)) by (rewrite HY; left).
    assert (Holru : o ∈ lru_ c) by (apply (wf_lru_table _ Hwf); exact Hoin).
    assert (Hoe : o <> e) by (apply Hne_e; exact Holru).
    unfold heap_a in Hho. rewrite lookup_insert_ne in Hho by congruence.
    destruct (wf_refs _ Hwf o Holru) as (ho' & Hho' & Hro).
    rewrite Hho in Hho'. injection Hho' as <-.
    pose proof (wf_nodup _ _ (wf_table _ Hwf)) as HndE. rewrite HY in HndE.
    apply NoDup_cons in HndE. destruct HndE as [HoY HndY].
    set (L := filter (fun x => x <> o) (lru_ c)).
    assert (Hfil : filter (fun x => x <> o) (lru_ c ++ [e]) = L ++ [e]).
    { rewrite filter_app. unfold L. f_equal.
      apply filter_singleton_True; [exact []|congruence]. }
    unfold LRU_Remove, LRU_Append, set_lru, set_usage, set_table.
    cbn [lru_ table_ heap usage_ capacity_ next_free deleted].
    rewrite bool_decide_eq_true_2 by (apply elem_of_app; left; exact Holru).
    cbn [mbind option_bind]. rewrite Hfil.
    match goal with
    | |- context [Unref ?c0 o] => set (c_c := c0)
    end.
    assert (Hwf_c : WF c_c).
    { apply HWF.
      - apply NoDup_filter. apply (wf_lru_nodup _ Hwf).
      - intros p Hp. apply list_elem_of_filter in Hp. apply Hp.
      - intros p. rewrite HY', elem_of_cons. unfold L.
        rewrite list_elem_of_filter, <- (wf_lru_table _ Hwf p), HY, elem_of_cons.
        split.
        + intros [->|Hp]; [left; reflexivity|right].
          split; [|right; exact Hp]. intros ->. contradiction.
        + intros [->|[Hne [->|Hp]]]; [left; reflexivity|contradiction|right; exact Hp]. }
    assert (Hho_c : heap c_c !! o = Some ho).
    { unfold c_c. cbn [heap]. apply Hlive_a; assumption. }
    assert (Hnot_c : o ∉ lru_ c_c).
    { unfold c_c. cbn [lru_]. intros Hin. apply elem_of_app in Hin.
      destruct Hin as [Hin|Hin].
      - apply list_elem_of_filter in Hin. destruct Hin as [Hin _]. congruence.
      - apply list_elem_of_singleton in Hin. congruence. }
    destruct (Unref_WF c_c o ho Hwf_c Hho_c Hro ltac:(intros; contradiction))
      as (c1 & HU & Hwf1).
    rewrite HU. cbn [mbind option_bind].
    rewrite (Unref_spec c_c o ho Hho_c Hro) in HU. injection HU as <-.
    eexists _, (Some o). split; [reflexivity|]. split; [exact Hwf1|].
    assert (Ho_tb : o ∉ entries tb').
    { rewrite HY'. intros Hin. apply elem_of_cons in Hin.
      destruct Hin as [->|Hin]; [congruence|contradiction]. }
    destruct (Z.eqb_spec (refs ho) 1) as [H1|H1]; unfold c_c;
      cbn [set_heap capacity_ next_free heap lru_ table_ deleted usage_].
    + split; [reflexivity|]. split; [reflexivity|].
      split; [rewrite lookup_delete_ne by congruence; apply lookup_insert_eq|].
      exists ho. do 5 (split; [assumption|]). split; [reflexivity|].
      split; [exact Ho_tb|].
      destruct (Z.eqb_spec (refs ho) 1); [|contradiction].
      split; [reflexivity|]. split; reflexivity.
    + split; [reflexivity|]. split; [reflexivity|].
      split; [rewrite lookup_insert_ne by congruence; apply lookup_insert_eq|].
      exists ho. do 5 (split; [assumption|]). split; [reflexivity|].
      split; [exact Ho_tb|].
      destruct (Z.eqb_spec (refs ho) 1); [contradiction|].
      split; [reflexivity|]. split; reflexivity.
  - destruct Hold as [Hnone HP].
    unfold LRU_Append, set_lru, set_usage, set_table.
    cbn [lru_ table_ heap usage_ capacity_ next_free deleted].
    eexists _, None. split; [reflexivity|]. split.
    { apply HWF.
      - apply (wf_lru_nodup _ Hwf).
      - intros p Hp. exact Hp.
      - intros p. rewrite HP, elem_of_cons, (wf_lru_table _ Hwf p). tauto. }
    cbn [capacity_ next_free heap lru_ deleted usage_].
    split; [reflexivity|]. split; [reflexivity|].
    split; [apply lookup_insert_eq|].
    split; [|repeat split; reflexivity].
    intros p Hp (h & Hh & Hhash & Hkey).
    apply (Hnone p); [apply (wf_lru_table _ Hwf); exact Hp|].
    exists h. split; [|split; assumption].
    apply Hlive_a; [apply Hne_e; exact Hp|exact Hh].
Qed.

End InsertFacts.

(** ** util/cache: insertion and eviction *)

Section EvictionFacts.
Import Cache Cache.LRUCache CacheInv.

Lemma new_WF (capacity : Z) :
  exists c, LRUCache.new capacity = Some c /\ WF c /\ lru_ c = [] /\
    capacity_ c = capacity.
Proof.
  destruct new_table_wf as (tb & Htb & Hwf & Hent).
  unfold LRUCache.new. rewrite Htb. cbn [mbind option_bind].
  eexists. split; [reflexivity|]. split; [|split; reflexivity].
  constructor; cbn [lru_ table_ heap next_free deleted].
  - constructor.
  - intros p. rewrite Hent. reflexivity.
  - exact Hwf.
  - intros p Hp. inversion Hp.
  - intros p h Hp. rewrite lookup_empty in Hp. discriminate.
  - intros call Hc. inversion Hc.
  - constructor.
Qed.

(** [Insert] on a well-formed shard (with fewer than [2^31] entries): after
    the new handle is linked, the loop unlinks the [n] first handles of the
    list, first to last, for the [n] at which the usage is within the
    capacity or the list is empty, and every round is entered with the usage
    above the capacity.  It does so whether or not a caller holds a
    reference: each of the [n] handles leaves the index and the list and
    loses the reference of the cache; one that had only that reference is
    freed and its deleter called, in this order; one with a caller's
    reference stays allocated, unchanged but for the count.  The other
    handles are untouched and stay linked in their order. *)
Lemma Insert_evicts_oldest_first (c : LRUCache.t) (key : list byte)
    (hash0 value0 charge0 deleter0 : Z) :
  WF c -> Z.of_nat (length (lru_ c)) < 2 ^ 31 ->
  exists c1 c' n,
    Insert_entry c key hash0 value0 charge0 deleter0 = Some (c1, next_free c) /\
    Insert c key hash0 value0 charge0 deleter0 = Some (c', next_free c) /\
    WF c1 /\ WF c' /\
    evict_n n c1 = Some c' /\
    (forall m cm, (m < n)%nat -> evict_n m c1 = Some cm ->
       usage_ cm > capacity_ cm /\ lru_ cm <> []) /\
    (usage_ c' <= capacity_ c' \/ lru_ c' = []) /\
    lru_ c' = drop n (lru_ c1) /\
    (forall p, p ∈ entries (table_ c') <-> p ∈ drop n (lru_ c1)) /\
    (forall p h, p ∈ take n (lru_ c1) -> heap c1 !! p = Some h ->
       heap c' !! p = if refs h =? 1 then None
                      else Some (set_refs h (refs h - 1))) /\
    (forall p, p ∉ take n (lru_ c1) -> heap c' !! p = heap c1 !! p) /\
    deleted c' = deleted c1 ++
      omap (fun p => h ← heap c1 !! p;
                     if refs h =? 1 then Some (call_of p h) else None)
           (take n (lru_ c1)).
Proof.
  intros Hwf Hsmall.
  destruct (Insert_entry_spec c key hash0 value0 charge0 deleter0 Hwf Hsmall)
    as (c1 & old & HI & Hwf1 & _).
  destruct (evict_spec (length (lru_ c1)) c1 Hwf1 ltac:(lia))
    as (n & c' & HE & HEn & Hwf' & Hn & Hdrop & Hstop & Hmin & Hev & Hkept & Hdel & _).
  exists c1, c', n. split; [exact HI|]. split.
  { unfold Insert. rewrite HI. cbn [mbind option_bind]. rewrite HE. reflexivity. }
  split; [exact Hwf1|]. split; [exact Hwf'|]. split; [exact HEn|].
  split; [exact Hmin|]. split; [exact Hstop|]. split; [exact Hdrop|].
  split; [intros p; rewrite <- Hdrop; apply (wf_lru_table _ Hwf')|].
  split; [exact Hev|]. split; [exact Hkept|exact Hdel].
Qed.

(** [Insert] keeps a shard well formed. *)
Lemma Insert_WF (c : LRUCache.t) (key : list byte) (hash0 value0 charge0 deleter0 : Z) :
  WF c -> Z.of_nat (length (lru_ c)) < 2 ^ 31 ->
  exists c', Insert c key hash0 value0 charge0 deleter0 = Some (c', next_free c) /\
    WF c' /\ (length (lru_ c') <= S (length (lru_ c)))%nat.
Proof.
  intros Hwf Hsmall.
  destruct (Insert_entry_spec c key hash0 value0 charge0 deleter0 Hwf Hsmall)
    as (c1 & old & HI & Hwf1 & _ & _ & _ & Hold).
  destruct (evict_spec (length (lru_ c1)) c1 Hwf1 ltac:(lia))
    as (n & c' & HE & _ & Hwf' & _ & Hdrop & _).
  exists c'. split.
  { unfold Insert. rewrite HI. cbn [mbind option_bind]. rewrite HE. reflexivity. }
  split; [exact Hwf'|]. rewrite Hdrop, length_drop.
  assert (length (lru_ c1) <= S (length (lru_ c)))%nat; [|lia].
  destruct old as [o|].
  - destruct Hold as (ho & _ & _ & _ & _ & _ & -> & _).
    rewrite length_app. cbn [length].
    pose proof (length_filter (fun x => x <> o) (lru_ c)). lia.
  - destruct Hold as (_ & -> & _). rewrite length_app. cbn [length]. lia.
Qed.

End EvictionFacts.

Lemma shard_with_k1_WF :
  exists c, Stated.shard_with_k1 = Some c /\ CacheInv.WF c /\
    Z.of_nat (length (Cache.LRUCache.lru_ c)) < 2 ^ 31.
Proof.
  destruct (new_WF 1) as (c0 & Hnew & Hwf0 & Hlru0 & _).
  destruct (Insert_WF c0 Stated.key_k1 17 100 1 7 Hwf0) as (c & HI & Hwf & Hlen).
  { rewrite Hlru0. cbn. lia. }
  exists c. unfold Stated.shard_with_k1. rewrite Hnew. cbn [mbind option_bind].
  rewrite HI. split; [reflexivity|]. split; [exact Hwf|].
  rewrite Hlru0 in Hlen. cbn [length] in Hlen.
  assert (2 <= 2 ^ 31) by (apply (Z.pow_le_mono_r 2 1 31); lia). lia.
Qed.

(** C3 (as worded, refuted).  In a shard of capacity 1 that holds [k1] with
    charge 1, the caller still holding the handle, the insertion of [k2] with
    charge 1 unlinks the handle of [k1] from the list and from the index:
    a handle with an outstanding reference is evicted. *)
Lemma referenced_entry_is_evicted :
  ~ (forall c, Stated.shard_with_k1 = Some c ->
       Stated.referenced_entries_stay c Stated.key_k2 18 200 1 7).
Proof.
  intros H.
  assert (Hc : exists c c' e h,
    Stated.shard_with_k1 = Some c /\
    Cache.LRUCache.Insert c Stated.key_k2 18 200 1 7 = Some (c', e) /\
    Cache.LRUCache.lru_ c = [1%nat] /\
    Cache.LRUCache.heap c !! 1%nat = Some h /\
    Cache.refs h = 2 /\ Cache.key_data h = Stated.key_k1 /\
    Cache.LRUCache.lru_ c' = []).
  { eexists _, _, _, _. split; [vm_compute; reflexivity|].
    split; [vm_compute; reflexivity|].
    split; [reflexivity|]. split; [vm_compute; reflexivity|].
    split; [reflexivity|]. split; reflexivity. }
  destruct Hc as (c & c' & e & h & Hc & HI & Hlru & Hh & Hr & Hk & Hlru').
  destruct (H c Hc c' e 1%nat h HI) as [Hin _].
  - rewrite Hlru. left.
  - exact Hh.
  - lia.
  - rewrite Hk. intros [Hkk _]. discriminate Hkk.
  - rewrite Hlru' in Hin. inversion Hin.
Qed.

(** ** util/cache: a handle the shard has unlinked *)

Section UnlinkedFacts.
Import Cache Cache.LRUCache CacheInv.

Lemma elem_of_bucket_insert (ls : list (list ptr)) (b : nat) (chain chain' : list ptr) (q : ptr) :
  ls !! b = Some chain -> q ∈ concat (<[b := chain']> ls) ->
  q ∈ chain' \/ q ∈ concat ls.
Proof.
  intros Hb Hq.
  destruct (entries_bucket_perm ls b chain chain' Hb) as (X & HX & HX').
  rewrite HX' in Hq. apply elem_of_app in Hq as [Hq|Hq]; [left; exact Hq|].
  right. rewrite HX. apply elem_of_app. right. exact Hq.
Qed.

Lemma elem_of_bucket (ls : list (list ptr)) (b : nat) (chain : list ptr) (q : ptr) :
  ls !! b = Some chain -> q ∈ chain -> q ∈ concat ls.
Proof.
  intros Hb Hq. apply elem_of_concat. exists chain. split; [exact Hq|].
  eapply list_elem_of_lookup_2. exact Hb.
Qed.

Lemma table_Lookup_in (m : Heap) (tb : HandleTable.t) (key : list byte) (hash0 : Z) (p : ptr) :
  HandleTable.Lookup m tb key hash0 = Some (Some p) -> p ∈ entries tb.
Proof.
  unfold HandleTable.Lookup. intros H.
  destruct (HandleTable.FindPointer m tb key hash0) as [[b pos]|]; [|discriminate].
  cbn in H. destruct (HandleTable.list_ tb !! b) as [chain|] eqn:Hb; [|discriminate].
  cbn in H. injection H as H.
  eapply elem_of_bucket; [exact Hb|]. eapply list_elem_of_lookup_2. exact H.
Qed.

Lemma table_Remove_sub (m : Heap) (tb tb' : HandleTable.t) (key : list byte) (hash0 : Z)
    (r : option ptr) :
  HandleTable.Remove m tb key hash0 = Some (tb', r) ->
  (forall q, q ∈ entries tb' -> q ∈ entries tb) /\
  (forall p, r = Some p -> p ∈ entries tb).
Proof.
  unfold HandleTable.Remove. intros H.
  destruct (HandleTable.FindPointer m tb key hash0) as [[b pos]|]; [|discriminate].
  cbn in H. destruct (HandleTable.list_ tb !! b) as [chain|] eqn:Hb; [|discriminate].
  cbn in H. destruct (chain !! pos) as [p|] eqn:Hp.
  - injection H as <- <-. split.
    + intros q Hq. unfold entries in *. cbn [HandleTable.list_] in Hq.
      apply (elem_of_bucket_insert _ _ chain) in Hq as [Hq|Hq]; [|exact Hq|exact Hb].
      eapply elem_of_bucket; [exact Hb|].
      rewrite delete_take_drop in Hq. apply elem_of_app in Hq as [Hq|Hq].
      * eapply elem_of_take_in. exact Hq.
      * eapply elem_of_drop_in. exact Hq.
    + intros p' [= <-]. eapply elem_of_bucket; [exact Hb|].
      eapply list_elem_of_lookup_2. exact Hp.
  - injection H as <- <-. split; [intros q Hq; exact Hq|intros p [=]].
Qed.

Lemma rehash_fold_sub (m : Heap) (new_length : Z) (old : list ptr) :
  forall acc acc' : list (list ptr),
    foldl (HandleTable.rehash m new_length) (Some acc) old = Some acc' ->
    forall q, q ∈ concat acc' -> q ∈ old \/ q ∈ concat acc.
Proof.
  induction old as [|p old IH]; intros acc acc' H q Hq.
  - cbn in H. injection H as <-. right. exact Hq.
  - cbn [foldl] in H.
    destruct (HandleTable.rehash m new_length (Some acc) p) as [acc1|] eqn:Hr.
    + destruct (IH acc1 acc' H q Hq) as [Hin|Hin].
      * left. right. exact Hin.
      * unfold HandleTable.rehash in Hr. cbn [mbind option_bind] in Hr.
        destruct (m !! p) as [hp|]; [|discriminate]. cbn [mbind option_bind] in Hr.
        destruct (acc !! Z.to_nat (Z.land (hash hp) (new_length - 1))) as [chain|] eqn:Hb;
          [|discriminate].
        cbn [mbind option_bind] in Hr. injection Hr as <-.
        apply (elem_of_bucket_insert _ _ chain) in Hin as [Hin|Hin]; [| |exact Hb].
        -- apply elem_of_cons in Hin as [->|Hin]; [left; left|].
           right. eapply elem_of_bucket; [exact Hb|exact Hin].
        -- right. exact Hin.
    + exfalso. clear -H. induction old as [|x old IH]; [discriminate|].
      apply IH. exact H.
Qed.

Lemma table_Resize_sub (m : Heap) (tb tb' : HandleTable.t) :
  HandleTable.Resize m tb = Some tb' ->
  forall q, q ∈ entries tb' -> q ∈ entries tb.
Proof.
  unfold HandleTable.Resize. intros H q Hq.
  destruct (HandleTable.grow 32 4 (HandleTable.elems_ tb)) as [nl|]; [|discriminate].
  cbn [mbind option_bind] in H.
  destruct (foldl _ _ _) as [acc'|] eqn:Hf; [|discriminate].
  cbn [mbind option_bind] in H.
  destruct (negb _); [discriminate|]. injection H as <-.
  unfold entries in Hq. cbn [HandleTable.list_] in Hq.
  destruct (rehash_fold_sub _ _ _ _ _ Hf q Hq) as [Hin|Hin].
  - unfold entries. apply elem_of_concat in Hin as (l & Hql & Hl).
    apply elem_of_concat. exists l. split; [exact Hql|].
    eapply elem_of_take_in. exact Hl.
  - rewrite concat_replicate_nil in Hin. inversion Hin.
Qed.

Lemma table_Insert_sub (m : Heap) (tb tb' : HandleTable.t) (h : ptr) (old : option ptr) :
  HandleTable.Insert m tb h = Some (tb', old) ->
  (forall q, q ∈ entries tb' -> q = h \/ q ∈ entries tb) /\
  (forall p, old = Some p -> p ∈ entries tb).
Proof.
  unfold HandleTable.Insert. intros H.
  destruct (m !! h) as [he|]; [|discriminate]. cbn [mbind option_bind] in H.
  destruct (HandleTable.FindPointer m tb (key_data he) (hash he)) as [[b pos]|];
    [|discriminate].
  cbn [mbind option_bind] in H. destruct (HandleTable.list_ tb !! b) as [chain|] eqn:Hb; [|discriminate].
  cbn [mbind option_bind] in H. destruct (chain !! pos) as [o|] eqn:Hp.
  - injection H as <- <-. split.
    + intros q Hq. unfold entries in *. cbn [HandleTable.list_] in Hq.
      apply (elem_of_bucket_insert _ _ chain) in Hq as [Hq|Hq]; [|right; exact Hq|exact Hb].
      rewrite insert_take_drop in Hq by (eapply lookup_lt_Some; exact Hp).
      apply elem_of_app in Hq as [Hq|Hq].
      * right. eapply elem_of_bucket; [exact Hb|]. eapply elem_of_take_in. exact Hq.
      * apply elem_of_cons in Hq as [->|Hq]; [left; reflexivity|].
        right. eapply elem_of_bucket; [exact Hb|]. eapply elem_of_drop_in. exact Hq.
    + intros p [= <-]. eapply elem_of_bucket; [exact Hb|].
      eapply list_elem_of_lookup_2. exact Hp.
  - assert (Hsub : forall q,
      q ∈ concat (<[b := chain ++ [h]]> (HandleTable.list_ tb)) ->
      q = h \/ q ∈ entries tb).
    { intros q Hq.
      apply (elem_of_bucket_insert _ _ chain) in Hq as [Hq|Hq]; [|right; exact Hq|exact Hb].
      apply elem_of_app in Hq as [Hq|Hq].
      - right. eapply elem_of_bucket; [exact Hb|exact Hq].
      - apply list_elem_of_singleton in Hq. left. exact Hq. }
    destruct (_ >? _).
    + destruct (HandleTable.Resize m _) as [t2|] eqn:Hr; [|discriminate].
      cbn [mbind option_bind] in H. injection H as <- <-. split; [|intros p [=]].
      intros q Hq. apply Hsub. exact (table_Resize_sub _ _ _ Hr q Hq).
    + injection H as <- <-. split; [|intros p [=]]. exact Hsub.
Qed.

(** What a call that does not name [e] leaves of an unlinked [e]. *)
Lemma Unref_frame (c c' : LRUCache.t) (p e : ptr) :
  p <> e -> Unref c p = Some c' ->
  lru_ c' = lru_ c /\ table_ c' = table_ c /\ next_free c' = next_free c /\
  heap c' !! e = heap c !! e /\ calls_for e c' = calls_for e c.
Proof.
  intros Hne H. unfold Unref in H.
  destruct (heap c !! p) as [h|]; [|discriminate]. cbn [mbind option_bind] in H.
  destruct (negb _); [discriminate|].
  destruct (_ <=? _); injection H as <-; cbn.
  - split; [reflexivity|]. split; [reflexivity|]. split; [reflexivity|].
    split; [apply lookup_delete_ne; exact Hne|].
    unfold calls_for. cbn [deleted]. rewrite filter_app.
    rewrite filter_cons_False by (cbn; exact Hne).
    rewrite filter_nil. apply app_nil_r.
  - split; [reflexivity|]. split; [reflexivity|]. split; [reflexivity|].
    split; [apply lookup_insert_ne; exact Hne|reflexivity].
Qed.

Lemma LRU_Remove_inv (c c' : LRUCache.t) (p : ptr) :
  LRU_Remove c p = Some c' ->
  p ∈ lru_ c /\ c' = set_lru c (filter (fun x => x <> p) (lru_ c)).
Proof.
  unfold LRU_Remove. intros H.
  destruct (bool_decide (p ∈ lru_ c)) eqn:Hin; [|discriminate].
  apply bool_decide_eq_true in Hin. injection H as <-. split; [exact Hin|reflexivity].
Qed.

Lemma not_in_filter (l : list ptr) (p e : ptr) :
  e ∉ l -> e ∉ filter (fun x => x <> p) l.
Proof. intros Hn Hin. apply list_elem_of_filter in Hin as [_ Hin]. exact (Hn Hin). Qed.

Lemma undisturbed_refl (e : ptr) (c : LRUCache.t) : unlinked e c -> undisturbed e c c.
Proof. intros H. split; [exact H|split; reflexivity]. Qed.

Lemma undisturbed_trans (e : ptr) (c1 c2 c3 : LRUCache.t) :
  undisturbed e c1 c2 -> undisturbed e c2 c3 -> undisturbed e c1 c3.
Proof.
  intros (_ & Hh1 & Hc1) (Hu & Hh2 & Hc2).
  split; [exact Hu|]. split; congruence.
Qed.

(** Unlinking a handle of the list and dropping the reference of the cache,
    as [Erase], the replacement in [Insert] and the eviction loop do. *)
Lemma unlink_frame (c c2 : LRUCache.t) (l : list ptr) (tb : HandleTable.t) (p e : ptr) :
  unlinked e c -> p <> e ->
  (forall q, q ∈ l -> q ∈ lru_ c) ->
  (forall q, q ∈ entries tb -> q ∈ entries (table_ c)) ->
  Unref (set_table (set_lru c l) tb) p = Some c2 ->
  undisturbed e c c2.
Proof.
  intros (Hl & Ht & Hn) Hne Hsubl Hsub HU.
  destruct (Unref_frame _ _ _ _ Hne HU) as (Hl2 & Ht2 & Hn2 & Hh2 & Hc2).
  unfold undisturbed, unlinked. rewrite Hl2, Ht2, Hn2, Hh2, Hc2. cbn.
  split; [|split; reflexivity].
  split; [intros Hin; exact (Hl (Hsubl _ Hin))|]. split; [|exact Hn].
  intros Hin. exact (Ht (Hsub _ Hin)).
Qed.

Lemma filter_sub (l : list ptr) (p q : ptr) : q ∈ filter (fun x => x <> p) l -> q ∈ l.
Proof. intros Hin. apply list_elem_of_filter in Hin as [_ Hin]. exact Hin. Qed.

Lemma Erase_frame (c c' : LRUCache.t) (key : list byte) (hash0 : Z) (e : ptr) :
  unlinked e c -> Erase c key hash0 = Some c' -> undisturbed e c c'.
Proof.
  intros Hu H. unfold Erase in H.
  destruct (HandleTable.Remove (heap c) (table_ c) key hash0) as [[tb r]|] eqn:HR;
    [|discriminate].
  cbn [mbind option_bind] in H.
  destruct (table_Remove_sub _ _ _ _ _ _ HR) as [Hsub Hr].
  destruct r as [p|].
  - destruct (LRU_Remove (set_table c tb) p) as [c1|] eqn:HL; [|discriminate].
    cbn [mbind option_bind] in H.
    apply LRU_Remove_inv in HL as [_ ->].
    apply (unlink_frame c c' (filter (fun x => x <> p) (lru_ c)) tb p e Hu).
    + intros ->. destruct Hu as (_ & Ht & _). apply Ht. apply Hr. reflexivity.
    + intros q. apply filter_sub.
    + exact Hsub.
    + exact H.
  - injection H as <-. destruct Hu as (Hl & Ht & Hn).
    split; [|split; reflexivity]. split; [exact Hl|]. split; [|exact Hn].
    intros Hin. exact (Ht (Hsub _ Hin)).
Qed.

Lemma evict_one_frame (c c' : LRUCache.t) (e : ptr) :
  unlinked e c -> evict_one c = Some c' -> undisturbed e c c'.
Proof.
  intros Hu H. unfold evict_one in H.
  destruct (lru_ c) as [|old rest] eqn:Hlru; [discriminate|].
  cbn [head mbind option_bind] in H.
  destruct (LRU_Remove c old) as [c1|] eqn:HL; [|discriminate].
  cbn [mbind option_bind] in H.
  apply LRU_Remove_inv in HL as [Hin ->].
  cbn [heap table_ set_lru] in H.
  destruct (heap c !! old) as [h|]; [|discriminate].
  cbn [mbind option_bind] in H.
  destruct (HandleTable.Remove (heap c) (table_ c) (key_data h) (hash h))
    as [[tb r]|] eqn:HR; [|discriminate].
  cbn [mbind option_bind] in H.
  destruct (table_Remove_sub _ _ _ _ _ _ HR) as [Hsub _].
  apply (unlink_frame c c' (filter (fun x => x <> old) (lru_ c)) tb old e Hu).
  - intros ->. destruct Hu as (Hl & _). exact (Hl Hin).
  - intros q. apply filter_sub.
  - exact Hsub.
  - exact H.
Qed.

Lemma evict_frame (e : ptr) (fuel : nat) :
  forall c c', unlinked e c -> evict fuel c = Some c' -> undisturbed e c c'.
Proof.
  induction fuel as [|fuel IH]; intros c c' Hu H; cbn [evict] in H.
  - destruct (_ && _); [discriminate|]. injection H as <-.
    apply undisturbed_refl. exact Hu.
  - destruct (_ && _).
    + destruct (evict_one c) as [c1|] eqn:H1; [|discriminate].
      cbn [mbind option_bind] in H.
      pose proof (evict_one_frame _ _ _ Hu H1) as Hf1.
      eapply undisturbed_trans; [exact Hf1|].
      apply IH; [exact (proj1 Hf1)|exact H].
    + injection H as <-. apply undisturbed_refl. exact Hu.
Qed.

Lemma Lookup_frame (c c' : LRUCache.t) (key : list byte) (hash0 : Z) (r : option ptr)
    (e : ptr) :
  unlinked e c -> Lookup c key hash0 = Some (c', r) -> undisturbed e c c'.
Proof.
  intros Hu H. unfold Lookup in H.
  destruct (HandleTable.Lookup (heap c) (table_ c) key hash0) as [[p|]|] eqn:HL;
    [| |discriminate]; cbn [mbind option_bind] in H.
  - apply table_Lookup_in in HL.
    destruct (heap c !! p) as [h|]; [|discriminate]. cbn [mbind option_bind] in H.
    destruct (LRU_Remove _ p) as [c1|] eqn:HR; [|discriminate].
    cbn [mbind option_bind] in H. injection H as <- <-.
    apply LRU_Remove_inv in HR as [_ ->].
    destruct Hu as (Hl & Ht & Hn).
    assert (Hne : p <> e) by (intros ->; exact (Ht HL)).
    unfold undisturbed, unlinked, calls_for, LRU_Append, set_lru, set_heap. cbn.
    split; [|split; [apply lookup_insert_ne; exact Hne|reflexivity]].
    split; [|split; [exact Ht|exact Hn]].
    intros Hin. apply elem_of_app in Hin as [Hin|Hin].
    + exact (Hl (filter_sub _ _ _ Hin)).
    + apply list_elem_of_singleton in Hin. exact (Hne (eq_sym Hin)).
  - injection H as <- <-. apply undisturbed_refl. exact Hu.
Qed.

Lemma Insert_entry_frame (c c' : LRUCache.t) (key : list byte)
    (hash0 value0 charge0 deleter0 : Z) (r e : ptr) :
  unlinked e c -> Insert_entry c key hash0 value0 charge0 deleter0 = Some (c', r) ->
  undisturbed e c c'.
Proof.
  intros Hu H. unfold Insert_entry in H.
  destruct Hu as (Hl & Ht & Hn).
  assert (Hne : next_free c <> e) by lia.
  unfold LRU_Append, set_usage, set_lru in H. cbn [heap table_ lru_ usage_ capacity_ next_free deleted] in H.
  destruct (HandleTable.Insert _ (table_ c) (next_free c)) as [[tb old]|] eqn:HI;
    [|discriminate].
  cbn [mbind option_bind] in H.
  destruct (table_Insert_sub _ _ _ _ _ HI) as [Hsub Hold].
  assert (Ht' : e ∉ entries tb).
  { intros Hin. destruct (Hsub _ Hin) as [->|Hin']; [exact (Hne eq_refl)|exact (Ht Hin')]. }
  assert (Hl' : e ∉ lru_ c ++ [next_free c]).
  { intros Hin. apply elem_of_app in Hin as [Hin|Hin]; [exact (Hl Hin)|].
    apply list_elem_of_singleton in Hin. exact (Hne (eq_sym Hin)). }
  destruct old as [o|].
  - destruct (LRU_Remove _ o) as [c1|] eqn:HR; [|discriminate].
    cbn [mbind option_bind] in H.
    destruct (Unref c1 o) as [c2|] eqn:HU; [|discriminate].
    cbn [mbind option_bind] in H. injection H as <- <-.
    apply LRU_Remove_inv in HR as [_ ->].
    assert (Hoe : o <> e) by (intros ->; apply Ht; apply Hold; reflexivity).
    destruct (Unref_frame _ _ _ _ Hoe HU) as (Hl2 & Ht2 & Hn2 & Hh2 & Hc2).
    unfold undisturbed, unlinked. rewrite Hl2, Ht2, Hn2, Hh2, Hc2.
    unfold calls_for, set_table, set_lru. cbn.
    split; [|split; [apply lookup_insert_ne; exact Hne|reflexivity]].
    split; [apply not_in_filter; exact Hl'|]. split; [exact Ht'|lia].
  - cbn [mbind option_bind] in H. injection H as <- <-.
    unfold undisturbed, unlinked, calls_for, set_table. cbn.
    split; [|split; [apply lookup_insert_ne; exact Hne|reflexivity]].
    split; [exact Hl'|]. split; [exact Ht'|lia].
Qed.

Lemma Insert_frame (c c' : LRUCache.t) (key : list byte)
    (hash0 value0 charge0 deleter0 : Z) (r e : ptr) :
  unlinked e c -> Insert c key hash0 value0 charge0 deleter0 = Some (c', r) ->
  undisturbed e c c'.
Proof.
  intros Hu H. unfold Insert in H.
  destruct (Insert_entry c key hash0 value0 charge0 deleter0) as [[c1 r1]|] eqn:HI;
    [|discriminate].
  cbn [mbind option_bind] in H.
  destruct (evict _ c1) as [c2|] eqn:HE; [|discriminate].
  cbn [mbind option_bind] in H. injection H as <- <-.
  pose proof (Insert_entry_frame _ _ _ _ _ _ _ _ _ Hu HI) as Hf1.
  eapply undisturbed_trans; [exact Hf1|].
  eapply evict_frame; [exact (proj1 Hf1)|exact HE].
Qed.

(** Every call but a [Release] of the handle [e] itself leaves an unlinked
    [e] as it is. *)
Lemma step_frame (c c' : LRUCache.t) (op : Op) (e : ptr) :
  unlinked e c -> op <> OpRelease e -> step c op = Some c' -> undisturbed e c c'.
Proof.
  intros Hu Hop H. destruct op as [key h0 v0 ch0 d0|key h0|p|key h0]; cbn [step] in H.
  - destruct (Insert c key h0 v0 ch0 d0) as [[c1 r]|] eqn:HI; [|discriminate].
    cbn in H. injection H as <-. exact (Insert_frame _ _ _ _ _ _ _ _ _ Hu HI).
  - destruct (Lookup c key h0) as [[c1 r]|] eqn:HL; [|discriminate].
    cbn in H. injection H as <-. exact (Lookup_frame _ _ _ _ _ _ Hu HL).
  - assert (Hne : p <> e) by (intros ->; exact (Hop eq_refl)).
    unfold Release in H.
    destruct (Unref_frame _ _ _ _ Hne H) as (Hl2 & Ht2 & Hn2 & Hh2 & Hc2).
    unfold undisturbed, unlinked. rewrite Hl2, Ht2, Hn2, Hh2, Hc2.
    split; [exact Hu|split; reflexivity].
  - exact (Erase_frame _ _ _ _ _ Hu H).
Qed.

(** Once the handle is freed nothing names it again: no later call touches
    the allocation, and a [Release] of it is an error. *)
Lemma run_freed (e : ptr) (ops : list Op) :
  forall c c2, unlinked e c -> heap c !! e = None -> run c ops = Some c2 ->
    releases e ops = 0 /\ heap c2 !! e = None /\ calls_for e c2 = calls_for e c.
Proof.
  induction ops as [|op ops IH]; intros c c2 Hu Hh H.
  - cbn in H. injection H as <-. split; [reflexivity|]. split; [exact Hh|reflexivity].
  - cbn [run] in H. destruct (step c op) as [c1|] eqn:Hs; [|discriminate].
    cbn [mbind option_bind] in H.
    assert (Hop : op <> OpRelease e).
    { intros ->. cbn in Hs. unfold Release, Unref in Hs. rewrite Hh in Hs. discriminate. }
    destruct (step_frame _ _ _ _ Hu Hop Hs) as (Hu1 & Hh1 & Hc1).
    destruct (IH c1 c2 Hu1 ltac:(congruence) H) as (Hr & Hh2 & Hc2).
    split; [|split; [exact Hh2|congruence]].
    destruct op as [? ? ? ? ?|? ?|p|? ?]; cbn [releases]; try exact Hr.
    rewrite bool_decide_eq_false_2; [lia|]. intros ->. exact (Hop eq_refl).
Qed.

(** An unlinked handle with [refs h] references: every [Release] of it takes
    one reference, no other call touches it, and the [Release] that takes the
    last reference frees it and calls its deleter. *)
Lemma run_unlinked (e : ptr) (ops : list Op) :
  forall c c2 h, unlinked e c -> heap c !! e = Some h -> 1 <= refs h ->
    run c ops = Some c2 ->
    0 <= releases e ops <= refs h /\
    (releases e ops < refs h ->
       unlinked e c2 /\
       heap c2 !! e = Some (set_refs h (refs h - releases e ops)) /\
       calls_for e c2 = calls_for e c) /\
    (releases e ops = refs h ->
       heap c2 !! e = None /\ calls_for e c2 = calls_for e c ++ [call_of e h]).
Proof.
  induction ops as [|op ops IH]; intros c c2 h Hu Hh Hrefs H.
  - cbn in H. injection H as <-. cbn [releases]. split; [lia|]. split; [|lia].
    intros _. split; [exact Hu|]. split; [|reflexivity].
    rewrite Hh. rewrite Z.sub_0_r. destruct h; reflexivity.
  - cbn [run] in H. destruct (step c op) as [c1|] eqn:Hs; [|discriminate].
    cbn [mbind option_bind] in H.
    assert (Hdec : op = OpRelease e \/ op <> OpRelease e).
    { destruct op as [? ? ? ? ?|? ?|p|? ?]; try (right; discriminate).
      destruct (decide (p = e)) as [->|Hpe]; [left; reflexivity|].
      right. intros [= Heq]. exact (Hpe Heq). }
    destruct Hdec as [->|Hop].
    + cbn [step] in Hs. unfold Release in Hs.
      rewrite (Unref_spec c e h Hh Hrefs) in Hs. injection Hs as Hs.
      cbn [releases]. rewrite bool_decide_eq_true_2 by reflexivity.
      destruct (Z.eqb_spec (refs h) 1) as [H1|H1].
      * assert (Hu1 : unlinked e c1) by (subst c1; exact Hu).
        assert (Hh1 : heap c1 !! e = None) by (subst c1; cbn; apply lookup_delete_eq).
        assert (Hc1 : calls_for e c1 = calls_for e c ++ [call_of e h]).
        { subst c1. unfold calls_for. cbn [deleted].
          rewrite filter_app. rewrite filter_cons_True by reflexivity.
          rewrite filter_nil. reflexivity. }
        destruct (run_freed e ops c1 c2 Hu1 Hh1 H) as (Hr & Hh2 & Hc2).
        rewrite Hr. split; [lia|]. split; [lia|]. intros _.
        split; [exact Hh2|]. rewrite Hc2. exact Hc1.
      * assert (Hu1 : unlinked e c1) by (subst c1; exact Hu).
        assert (Hh1 : heap c1 !! e = Some (set_refs h (refs h - 1)))
          by (subst c1; cbn; apply lookup_insert_eq).
        assert (Hc1 : calls_for e c1 = calls_for e c) by (subst c1; reflexivity).
        destruct (IH c1 c2 (set_refs h (refs h - 1)) Hu1 Hh1 ltac:(cbn; lia) H)
          as (Hr & Hlt & Heq).
        cbn [refs set_refs] in Hr, Hlt, Heq. rewrite Hc1 in Hlt, Heq.
        split; [lia|]. split.
        -- intros Hlt'. destruct Hlt as (Hu2 & Hh2 & Hc2); [lia|].
           split; [exact Hu2|]. split; [|exact Hc2].
           rewrite Hh2. unfold set_refs. cbn. f_equal. f_equal. lia.
        -- intros Heq'. destruct Heq as (Hh2 & Hc2); [lia|].
           split; [exact Hh2|]. exact Hc2.
    + destruct (step_frame _ _ _ _ Hu Hop Hs) as (Hu1 & Hh1 & Hc1).
      rewrite <- Hh1 in Hh.
      destruct (IH c1 c2 h Hu1 Hh Hrefs H) as (Hr & Hlt & Heq).
      assert (Hrel : releases e (op :: ops) = releases e ops).
      { destruct op as [? ? ? ? ?|? ?|p|? ?]; cbn [releases]; try reflexivity.
        rewrite bool_decide_eq_false_2; [lia|]. intros ->. exact (Hop eq_refl). }
      rewrite Hrel. rewrite <- Hc1. split; [exact Hr|]. split; [exact Hlt|exact Heq].
Qed.

Lemma live_not_deleted (c : LRUCache.t) (e : ptr) (h : LRUHandle) :
  WF c -> heap c !! e = Some h -> calls_for e c = [].
Proof.
  intros Hwf Hh. unfold calls_for.
  assert (Hall : forall call, call ∈ deleted c -> call_entry call <> e).
  { intros call Hin Heq. destruct (wf_deleted _ Hwf call Hin) as [Hnone _].
    rewrite Heq, Hh in Hnone. discriminate. }
  induction (deleted c) as [|call l IH]; [reflexivity|].
  rewrite filter_cons_False by (apply Hall; left).
  apply IH. intros call' Hin. apply Hall. right. exact Hin.
Qed.

(** [Erase] of the key of a handle that a caller holds. *)
Lemma Erase_referenced (c : LRUCache.t) (e : ptr) (h : LRUHandle) :
  WF c -> e ∈ lru_ c -> heap c !! e = Some h -> 2 <= refs h ->
  exists c1, Erase c (key_data h) (hash h) = Some c1 /\
    unlinked e c1 /\ heap c1 !! e = Some (set_refs h (refs h - 1)) /\
    calls_for e c1 = calls_for e c.
Proof.
  intros Hwf Hin Hh Hrefs.
  destruct (unlink_WF c e h Hwf Hin Hh) as (tb' & HR & _ & Hnot & Hperm).
  unfold Erase. rewrite HR. cbn [mbind option_bind].
  rewrite (LRU_Remove_Some (set_table c tb') e) by exact Hin.
  cbn [mbind option_bind].
  rewrite (Unref_spec _ e h) by (cbn; (exact Hh || lia)).
  destruct (Z.eqb_spec (refs h) 1) as [H1|H1]; [lia|].
  eexists. split; [reflexivity|]. unfold unlinked, calls_for. cbn.
  split; [|split; [apply lookup_insert_eq|reflexivity]].
  split; [exact Hnot|]. split; [|exact (wf_alloc _ Hwf e h Hh)].
  pose proof (wf_nodup _ _ (wf_table _ Hwf)) as Hnd.
  rewrite Hperm in Hnd. apply NoDup_cons in Hnd as [Hn _]. exact Hn.
Qed.

(** [Insert] of the key of a handle that a caller holds. *)
Lemma Insert_referenced (c : LRUCache.t) (e : ptr) (h : LRUHandle)
    (value0 charge0 deleter0 : Z) :
  WF c -> Z.of_nat (length (lru_ c)) < 2 ^ 31 ->
  e ∈ lru_ c -> heap c !! e = Some h -> 2 <= refs h ->
  exists c1 r, Insert c (key_data h) (hash h) value0 charge0 deleter0 = Some (c1, r) /\
    unlinked e c1 /\ heap c1 !! e = Some (set_refs h (refs h - 1)) /\
    calls_for e c1 = calls_for e c.
Proof.
  intros Hwf Hsmall Hin Hh Hrefs.
  destruct (Insert_entry_spec c (key_data h) (hash h) value0 charge0 deleter0 Hwf Hsmall)
    as (c1 & old & HI & Hwf1 & _ & Hnext & _ & Hold).
  assert (Hlt : (e < next_free c)%nat) by exact (wf_alloc _ Hwf e h Hh).
  assert (H1 : unlinked e c1 /\ heap c1 !! e = Some (set_refs h (refs h - 1)) /\
               calls_for e c1 = calls_for e c).
  { destruct old as [o|].
    - destruct Hold as (ho & Hho & Hhash & Hkey & Hino & _ & Hlru & Hnot & Hrest).
      assert (o = e).
      { apply (wf_keys _ _ (wf_table _ Hwf) o e ho h); try assumption.
        - apply (wf_lru_table _ Hwf). exact Hino.
        - apply (wf_lru_table _ Hwf). exact Hin. }
      subst o. rewrite Hh in Hho. injection Hho as <-.
      destruct (Z.eqb_spec (refs h) 1) as [H1|H1]; [lia|].
      destruct Hrest as (Hheap & Hdel & _).
      unfold unlinked, calls_for. rewrite Hlru, Hheap, Hdel, Hnext.
      split; [|split; [apply lookup_insert_eq|reflexivity]].
      split; [|split; [exact Hnot|lia]].
      intros Hin'. apply elem_of_app in Hin' as [Hin'|Hin'].
      + apply list_elem_of_filter in Hin' as [Hne _]. exact (Hne eq_refl).
      + apply list_elem_of_singleton in Hin'. lia.
    - destruct Hold as (Hno & _). exfalso. apply (Hno e Hin).
      exists h. split; [exact Hh|split; reflexivity]. }
  destruct H1 as (Hu1 & Hh1 & Hc1).
  destruct (evict_spec (length (lru_ c1)) c1 Hwf1 ltac:(lia)) as (n & c' & HE & _).
  exists c', (next_free c). split.
  { unfold Insert. rewrite HI. cbn [mbind option_bind]. rewrite HE. reflexivity. }
  destruct (evict_frame e _ c1 c' Hu1 HE) as (Hu2 & Hh2 & Hc2).
  split; [exact Hu2|]. split; congruence.
Qed.

End UnlinkedFacts.

(** C9.  Let a caller hold a handle on the entry [e] of a well-formed
    shard: [e] has the reference of the cache and at least one more.  An
    [Erase] of its key, or an [Insert] that replaces its key (in a shard of
    fewer than [2^31] entries, where the table can grow), returns and
    leaves [e] allocated, with the reference of the cache dropped and no
    deleter call.  Through whatever calls follow, as long as the callers have
    released fewer handles on [e] than they hold, [e] stays allocated, its
    value is the one that was inserted, the deleter has not been called for
    it, and a [Release] of it returns; the [Release] that gives back the last
    handle frees [e] and calls the deleter of [e] on its key and value; and
    from then on that is the only call of a deleter ever made for [e]. *)
Theorem erased_entry_lives_until_Release (c : Cache.LRUCache.t) (e : Cache.ptr)
    (h : Cache.LRUHandle) (op : CacheInv.Op) :
  CacheInv.WF c ->
  e ∈ Cache.LRUCache.lru_ c -> Cache.LRUCache.heap c !! e = Some h ->
  2 <= Cache.refs h ->
  (op = CacheInv.OpErase (Cache.key_data h) (Cache.hash h) \/
   exists value0 charge0 deleter0,
     op = CacheInv.OpInsert (Cache.key_data h) (Cache.hash h) value0 charge0 deleter0 /\
     Z.of_nat (length (Cache.LRUCache.lru_ c)) < 2 ^ 31) ->
  exists c1, CacheInv.step c op = Some c1 /\
    Cache.LRUCache.Value c1 e = Some (Cache.value h) /\
    CacheInv.calls_for e c1 = [] /\
    forall ops c2, CacheInv.run c1 ops = Some c2 ->
      let r := CacheInv.releases e ops in
      0 <= r <= Cache.refs h - 1 /\
      (r < Cache.refs h - 1 ->
         Cache.LRUCache.heap c2 !! e = Some (Cache.set_refs h (Cache.refs h - 1 - r)) /\
         Cache.LRUCache.Value c2 e = Some (Cache.value h) /\
         CacheInv.calls_for e c2 = [] /\
         exists c3, Cache.LRUCache.Release c2 e = Some c3 /\
           (r + 1 = Cache.refs h - 1 ->
              Cache.LRUCache.heap c3 !! e = None /\
              Cache.LRUCache.deleted c3
              = Cache.LRUCache.deleted c2 ++ [CacheInv.call_of e h])) /\
      (r = Cache.refs h - 1 ->
         Cache.LRUCache.heap c2 !! e = None /\
         CacheInv.calls_for e c2 = [CacheInv.call_of e h]).
Proof.
  intros Hwf Hin Hh Hrefs Hop.
  assert (H1 : exists c1, CacheInv.step c op = Some c1 /\
    CacheInv.unlinked e c1 /\
    Cache.LRUCache.heap c1 !! e = Some (Cache.set_refs h (Cache.refs h - 1)) /\
    CacheInv.calls_for e c1 = CacheInv.calls_for e c).
  { destruct Hop as [->|(v & ch & d & -> & Hsmall)].
    - exact (Erase_referenced c e h Hwf Hin Hh Hrefs).
    - destruct (Insert_referenced c e h v ch d Hwf Hsmall Hin Hh Hrefs)
        as (c1 & r & HI & Hrest).
      exists c1. split; [|exact Hrest]. cbn [CacheInv.step]. rewrite HI. reflexivity. }
  destruct H1 as (c1 & Hs & Hu1 & Hh1 & Hc1).
  rewrite (live_not_deleted c e h Hwf Hh) in Hc1.
  exists c1. split; [exact Hs|].
  split; [unfold Cache.LRUCache.Value; rewrite Hh1; reflexivity|].
  split; [exact Hc1|].
  intros ops c2 Hrun r.
  destruct (run_unlinked e ops c1 c2 _ Hu1 Hh1 ltac:(cbn; lia) Hrun) as (Hr & Hlt & Heq).
  fold r in Hr, Hlt, Heq. cbn [Cache.refs Cache.set_refs] in Hr, Hlt, Heq.
  rewrite Hc1 in Hlt, Heq.
  split; [exact Hr|]. split.
  - intros Hlt'. destruct (Hlt Hlt') as (Hu2 & Hh2 & Hc2).
    assert (Hh2' : Cache.LRUCache.heap c2 !! e
                   = Some (Cache.set_refs h (Cache.refs h - 1 - r))).
    { rewrite Hh2. reflexivity. }
    split; [exact Hh2'|].
    split; [unfold Cache.LRUCache.Value; rewrite Hh2'; reflexivity|].
    split; [exact Hc2|].
    unfold Cache.LRUCache.Release.
    rewrite (Unref_spec c2 e _ Hh2') by (cbn; lia).
    eexists. split; [reflexivity|].
    intros Hlast. cbn [Cache.refs Cache.set_refs].
    destruct (Z.eqb_spec (Cache.refs h - 1 - r) 1) as [_|Hne]; [|lia].
    cbn. split; [apply lookup_delete_eq|reflexivity].
  - intros Heq'. destruct (Heq Heq') as (Hh2 & Hc2).
    split; [exact Hh2|exact Hc2].
Qed.

Lemma erased_entry_lives_until_Release_witness :
  exists c h, Stated.shard_with_k1 = Some c /\ CacheInv.WF c /\
    1%nat ∈ Cache.LRUCache.lru_ c /\
    Cache.LRUCache.heap c !! 1%nat = Some h /\ 2 <= Cache.refs h /\
    Cache.key_data h = Stated.key_k1 /\ Cache.hash h = 17 /\
    exists c1, CacheInv.step c (CacheInv.OpErase Stated.key_k1 17) = Some c1 /\
      Cache.LRUCache.Value c1 1%nat = Some (Cache.value h) /\
      CacheInv.calls_for 1%nat c1 = [] /\
      forall ops c2, CacheInv.run c1 ops = Some c2 ->
        let r := CacheInv.releases 1%nat ops in
        0 <= r <= Cache.refs h - 1 /\
        (r < Cache.refs h - 1 ->
           Cache.LRUCache.heap c2 !! 1%nat
           = Some (Cache.set_refs h (Cache.refs h - 1 - r)) /\
           Cache.LRUCache.Value c2 1%nat = Some (Cache.value h) /\
           CacheInv.calls_for 1%nat c2 = [] /\
           exists c3, Cache.LRUCache.Release c2 1%nat = Some c3 /\
             (r + 1 = Cache.refs h - 1 ->
                Cache.LRUCache.heap c3 !! 1%nat = None /\
                Cache.LRUCache.deleted c3
                = Cache.LRUCache.deleted c2 ++ [CacheInv.call_of 1%nat h])) /\
        (r = Cache.refs h - 1 ->
           Cache.LRUCache.heap c2 !! 1%nat = None /\
           CacheInv.calls_for 1%nat c2 = [CacheInv.call_of 1%nat h]).
Proof.
  destruct shard_with_k1_WF as (c & Hc & Hwf & _).
  assert (Hc' := Hc). vm_compute in Hc'. injection Hc' as Hc'.
  assert (Hin : 1%nat ∈ Cache.LRUCache.lru_ c) by (rewrite <- Hc'; left).
  set (h := {| Cache.value := 100; Cache.deleter := 7; Cache.charge := 1;
               Cache.key_data := Stated.key_k1; Cache.refs := 2;
               Cache.hash := 17 |}).
  assert (Hh : Cache.LRUCache.heap c !! 1%nat = Some h)
    by (rewrite <- Hc'; vm_compute; reflexivity).
  exists c, h. split; [exact Hc|]. split; [exact Hwf|].
  split; [exact Hin|]. split; [exact Hh|]. split; [cbn; lia|].
  split; [reflexivity|]. split; [reflexivity|].
  apply (erased_entry_lives_until_Release c 1%nat h
           (CacheInv.OpErase Stated.key_k1 17) Hwf Hin Hh).
  - cbn. lia.
  - left. reflexivity.
Defined.

(** The shard of capacity 1 that holds [k1], run: after [Erase] of [k1] and
    an [Insert] of [k2] the value of the handle is still read and no deleter
    has been called for it; the [Release] of the handle then calls the
    deleter 7 on [k1] and the value 100, once. *)
Example erase_insert_release_runs :
  exists c c2 c3,
    Stated.shard_with_k1 = Some c /\
    CacheInv.run c [CacheInv.OpErase Stated.key_k1 17;
                    CacheInv.OpInsert Stated.key_k2 18 200 1 7] = Some c2 /\
    Cache.LRUCache.Value c2 1%nat = Some 100 /\
    CacheInv.calls_for 1%nat c2 = [] /\
    CacheInv.run c2 [CacheInv.OpRelease 1%nat] = Some c3 /\
    Cache.LRUCache.Value c3 1%nat = None /\
    CacheInv.calls_for 1%nat c3
    = [ {| Cache.call_entry := 1%nat; Cache.call_deleter := 7;
           Cache.call_key := Stated.key_k1; Cache.call_value := 100 |} ].
Proof.
  eexists _, _, _.
  split; [vm_compute; reflexivity|].
  split; [vm_compute; reflexivity|].
  split; [vm_compute; reflexivity|].
  split; [vm_compute; reflexivity|].
  split; [vm_compute; reflexivity|].
  split; vm_compute; reflexivity.
Qed.

(** ** table/format: handles and footers, written and read back *)

Section HandleFacts.
Import Coding Format.

Lemma continuation_byte (v : Z) :
  Z.land (Z_of_byte (byte_of_Z (Z.lor (Z.land v 127) 128))) 128 <> 0.
Proof.
  rewrite land_127.
  assert (Hm : 0 <= v mod 128 < 128) by (apply Z.mod_pos_bound; lia).
  rewrite (lor_disjoint 7) by (try reflexivity; cbn; lia).
  rewrite Z_of_byte_of_Z_small by lia.
  rewrite land_128.
  replace ((v mod 128 + 128) / 128) with 1 by (apply Z.div_unique with (v mod 128); lia).
  intros H. vm_compute in H. discriminate H.
Qed.

(** A varint that is cut short does not decode: every byte but the last has
    the continuation bit. *)
Lemma GetVarintPtr_truncated (wrap : Z -> Z) (more : nat) :
  forall (v : Z) (k n : nat) (shift result : Z),
    (k < length (EncodeVarint more v))%nat ->
    GetVarintPtr wrap n shift result (take k (EncodeVarint more v)) = None.
Proof.
  induction more as [|more IH]; intros v k n shift result Hk.
  - cbn in Hk. assert (k = 0%nat) by lia. subst k. destruct n; reflexivity.
  - cbn [EncodeVarint] in *. destruct (v <? 128).
    + cbn in Hk. assert (k = 0%nat) by lia. subst k. destruct n; reflexivity.
    + destruct k as [|k]; [destruct n; reflexivity|].
      cbn [length] in Hk. cbn [take]. destruct n as [|n]; [reflexivity|].
      cbn [GetVarintPtr].
      destruct (Z.eqb_spec
                  (Z.land (Z_of_byte (byte_of_Z (Z.lor (Z.land v 127) 128))) 128) 0)
        as [Hz|_]; [exfalso; exact (continuation_byte v Hz)|].
      apply IH. lia.
Qed.

Lemma take_app_short {A : Type} (k : nat) (l1 l2 : list A) :
  (k <= length l1)%nat -> take k (l1 ++ l2) = take k l1.
Proof. intros H. rewrite take_app. replace (k - length l1)%nat with 0%nat by lia.
  rewrite take_0. apply app_nil_r. Qed.

Lemma take_app_long {A : Type} (k : nat) (l1 l2 : list A) :
  (length l1 <= k)%nat -> take k (l1 ++ l2) = l1 ++ take (k - length l1) l2.
Proof. intros H. rewrite take_app. rewrite take_ge by lia. reflexivity. Qed.


Lemma size_EncodeVarint64 (v : Z) : 1 <= size (EncodeVarint64 v) <= 10.
Proof.
  unfold size, EncodeVarint64. pose proof (EncodeVarint_length 9 v). lia.
Qed.

Lemma BlockHandle_EncodeTo_Some (h : BlockHandle) (dst : list byte) :
  offset_ h <> 2 ^ 64 - 1 -> size_ h <> 2 ^ 64 - 1 ->
  BlockHandle_EncodeTo h dst
  = Some (dst ++ EncodeVarint64 (offset_ h) ++ EncodeVarint64 (size_ h)).
Proof.
  intros Ho Hs. unfold BlockHandle_EncodeTo.
  rewrite (bool_decide_eq_false_2 _ Ho), (bool_decide_eq_false_2 _ Hs).
  unfold PutVarint64. rewrite <- app_assoc. reflexivity.
Qed.

Lemma BlockHandle_DecodeFrom_encoded (h h0 : BlockHandle) (rest : list byte) :
  0 <= offset_ h < 2 ^ 64 -> 0 <= size_ h < 2 ^ 64 ->
  BlockHandle_DecodeFrom h0
    ((EncodeVarint64 (offset_ h) ++ EncodeVarint64 (size_ h)) ++ rest)
  = (OK, h, rest).
Proof.
  intros Ho Hs. unfold BlockHandle_DecodeFrom.
  rewrite <- !app_assoc.
  rewrite (GetVarint64_EncodeVarint64 _ _ Ho).
  rewrite (GetVarint64_EncodeVarint64 _ _ Hs).
  destruct h; reflexivity.
Qed.

(** X1.  A handle whose two fields are set is written by [EncodeTo] as at
    most 20 bytes appended to the destination, and [DecodeFrom] reads the
    same handle back from them, whatever handle it is called on, leaving the
    input at the first byte after the encoding. *)
Theorem BlockHandle_round_trip (h h0 : BlockHandle) (dst rest : list byte) :
  0 <= offset_ h < 2 ^ 64 - 1 -> 0 <= size_ h < 2 ^ 64 - 1 ->
  exists enc,
    BlockHandle_EncodeTo h dst = Some (dst ++ enc) /\
    2 <= size enc <= kMaxEncodedLength /\
    BlockHandle_DecodeFrom h0 (enc ++ rest) = (OK, h, rest).
Proof.
  intros Ho Hs.
  exists (EncodeVarint64 (offset_ h) ++ EncodeVarint64 (size_ h)).
  split; [apply BlockHandle_EncodeTo_Some; lia|]. split.
  - rewrite size_app.
    pose proof (size_EncodeVarint64 (offset_ h)).
    pose proof (size_EncodeVarint64 (size_ h)).
    unfold kMaxEncodedLength. lia.
  - apply BlockHandle_DecodeFrom_encoded; lia.
Qed.

(** X2.  Every proper prefix of an encoded handle is refused: [DecodeFrom]
    answers with the Corruption status "bad block handle". *)
Theorem BlockHandle_DecodeFrom_truncated (h h0 : BlockHandle) (enc : list byte) (k : Z) :
  0 <= offset_ h < 2 ^ 64 -> 0 <= size_ h < 2 ^ 64 ->
  BlockHandle_EncodeTo h [] = Some enc ->
  0 <= k < size enc ->
  exists h1 input1,
    BlockHandle_DecodeFrom h0 (slice_to k enc)
    = (Corruption "bad block handle", h1, input1).
Proof.
  intros Ho Hs Henc Hk.
  unfold BlockHandle_EncodeTo in Henc.
  destruct (bool_decide _); [discriminate|].
  destruct (bool_decide _); [discriminate|].
  injection Henc as <-. unfold PutVarint64 in *. cbn [app] in *.
  unfold slice_to, BlockHandle_DecodeFrom, GetVarint64, size in *.
  rewrite length_app in Hk.
  destruct (Nat.lt_ge_cases (Z.to_nat k) (length (EncodeVarint64 (offset_ h))))
    as [Hlt|Hge].
  - rewrite take_app_short by lia.
    unfold EncodeVarint64 in *.
    rewrite GetVarintPtr_truncated by exact Hlt. eauto.
  - rewrite take_app_long by exact Hge.
    fold (GetVarint64 (EncodeVarint64 (offset_ h) ++
            take (Z.to_nat k - length (EncodeVarint64 (offset_ h)))
                 (EncodeVarint64 (size_ h)))).
    rewrite (GetVarint64_EncodeVarint64 _ _ Ho).
    unfold GetVarint64, EncodeVarint64 in *.
    rewrite GetVarintPtr_truncated by lia. eauto.
Qed.

End HandleFacts.

Lemma BlockHandle_round_trip_witness :
  exists enc,
    Format.BlockHandle_EncodeTo {| Format.offset_ := 100; Format.size_ := 50 |} []
    = Some ([] ++ enc) /\
    2 <= size enc <= Format.kMaxEncodedLength /\
    Format.BlockHandle_DecodeFrom Format.BlockHandle_new (enc ++ [x00])
    = (Format.OK, {| Format.offset_ := 100; Format.size_ := 50 |}, [x00]).
Proof.
  apply (BlockHandle_round_trip
           {| Format.offset_ := 100; Format.size_ := 50 |} Format.BlockHandle_new
           [] [x00]); cbn; (split; [lia|reflexivity]).
Defined.

Lemma BlockHandle_DecodeFrom_truncated_witness :
  exists h1 input1,
    Format.BlockHandle_DecodeFrom Format.BlockHandle_new
      (slice_to 2 [x96; x01; x50])
    = (Format.Corruption "bad block handle", h1, input1).
Proof.
  apply (BlockHandle_DecodeFrom_truncated
           {| Format.offset_ := 150; Format.size_ := 80 |} Format.BlockHandle_new
           [x96; x01; x50] 2).
  - cbn. split; [lia|reflexivity].
  - cbn. split; [lia|reflexivity].
  - reflexivity.
  - unfold size. cbn [length]. lia.
Defined.

Section FooterRoundTrip.
Import Coding Format FormatExamples.

Variable kTableMagicNumber : Z.

Lemma size_resize (dst : list byte) (n : Z) : 0 <= n -> size (resize dst n) = n.
Proof.
  intros Hn. unfold resize, slice_to, size.
  rewrite length_app, length_take, length_replicate. lia.
Qed.

Lemma resize_short (dst : list byte) (n : Z) :
  size dst <= n -> resize dst n = dst ++ replicate (Z.to_nat (n - size dst)) x00.
Proof.
  intros Hn. unfold resize, slice_to, size in *. rewrite take_ge by lia. reflexivity.
Qed.

Lemma split_64 (m : Z) :
  0 <= m ->
  Z.lor (Z.shiftl (Z.shiftr m 32) 32) (Z.land m 4294967295) = m.
Proof.
  intros Hm. apply Z.bits_inj'. intros i Hi.
  rewrite Z.lor_spec.
  change 4294967295 with (Z.ones 32). rewrite Z.land_spec.
  destruct (Z.lt_ge_cases i 32) as [Hlt|Hge].
  - rewrite Z.shiftl_spec_low by lia. rewrite Z.ones_spec_low by lia.
    cbn. apply andb_true_r.
  - rewrite Z.shiftl_spec by lia. rewrite Z.shiftr_spec by lia.
    rewrite Z.ones_spec_high by lia. rewrite andb_false_r, orb_false_r.
    f_equal. lia.
Qed.

Lemma magic_words (m : Z) :
  0 <= m < 2 ^ 64 ->
  0 <= Z.land m 4294967295 < 2 ^ 32 /\ 0 <= Z.shiftr m 32 < 2 ^ 32.
Proof.
  intros Hm. split.
  - change 4294967295 with (Z.ones 32). rewrite Z.land_ones by lia.
    apply Z.mod_pos_bound. lia.
  - rewrite Z.shiftr_div_pow2 by lia. split.
    + apply Z.div_pos; lia.
    + apply Z.div_lt_upper_bound; [lia|].
      change (2 ^ 32 * 2 ^ 32) with (2 ^ 64). lia.
Qed.

Lemma BlockHandle_EncodeTo_inv (h : BlockHandle) (dst enc : list byte) :
  BlockHandle_EncodeTo h dst = Some enc ->
  offset_ h <> 2 ^ 64 - 1 /\ size_ h <> 2 ^ 64 - 1.
Proof.
  unfold BlockHandle_EncodeTo. intros H.
  destruct (bool_decide (offset_ h = _)) eqn:E1; [discriminate|].
  destruct (bool_decide (size_ h = _)) eqn:E2; [discriminate|].
  apply bool_decide_eq_false in E1, E2. tauto.
Qed.

Lemma Footer_EncodeTo_bytes (f : Footer) :
  offset_ (metaindex_handle_ f) <> 2 ^ 64 - 1 ->
  size_ (metaindex_handle_ f) <> 2 ^ 64 - 1 ->
  offset_ (index_handle_ f) <> 2 ^ 64 - 1 ->
  size_ (index_handle_ f) <> 2 ^ 64 - 1 ->
  let handles :=
    (EncodeVarint64 (offset_ (metaindex_handle_ f))
     ++ EncodeVarint64 (size_ (metaindex_handle_ f)))
    ++ (EncodeVarint64 (offset_ (index_handle_ f))
        ++ EncodeVarint64 (size_ (index_handle_ f))) in
  Footer_EncodeTo kTableMagicNumber f []
  = Some (handles
          ++ replicate (Z.to_nat (2 * kMaxEncodedLength - size handles)) x00
          ++ EncodeFixed32 (Z.land kTableMagicNumber 4294967295)
          ++ EncodeFixed32 (wrap32 (Z.shiftr kTableMagicNumber 32))) /\
  size handles <= 2 * kMaxEncodedLength.
Proof.
  intros H1 H2 H3 H4 handles.
  assert (Hsz : size handles <= 2 * kMaxEncodedLength).
  { unfold handles. rewrite !size_app.
    pose proof (size_EncodeVarint64 (offset_ (metaindex_handle_ f))).
    pose proof (size_EncodeVarint64 (size_ (metaindex_handle_ f))).
    pose proof (size_EncodeVarint64 (offset_ (index_handle_ f))).
    pose proof (size_EncodeVarint64 (size_ (index_handle_ f))).
    unfold kMaxEncodedLength. lia. }
  split; [|exact Hsz].
  unfold Footer_EncodeTo.
  rewrite (BlockHandle_EncodeTo_Some _ _ H1 H2). cbn [mbind option_bind app].
  rewrite (BlockHandle_EncodeTo_Some _ _ H3 H4). cbn [mbind option_bind].
  fold handles.
  unfold PutFixed32. rewrite !size_app, size_resize by (unfold kMaxEncodedLength; lia).
  rewrite !size_EncodeFixed32.
  replace (2 * kMaxEncodedLength + 4 + 4 =? size [] + kEncodedLength) with true
    by (symmetry; apply Z.eqb_eq; reflexivity).
  cbn [negb]. rewrite (resize_short _ _ Hsz). rewrite <- !app_assoc. reflexivity.
Qed.

(** X3.  [Footer::EncodeTo] passes its closing assertion exactly when it is
    given an empty destination string and a footer whose four handle fields
    are set: the padding is a [resize] to 40 bytes, not to 40 bytes more. *)
Theorem Footer_EncodeTo_wants_empty_string (f : Footer) (dst : list byte) :
  is_Some (Footer_EncodeTo kTableMagicNumber f dst) <->
  dst = [] /\
  offset_ (metaindex_handle_ f) <> 2 ^ 64 - 1 /\
  size_ (metaindex_handle_ f) <> 2 ^ 64 - 1 /\
  offset_ (index_handle_ f) <> 2 ^ 64 - 1 /\
  size_ (index_handle_ f) <> 2 ^ 64 - 1.
Proof.
  split.
  - intros [enc Henc]. unfold Footer_EncodeTo in Henc.
    destruct (BlockHandle_EncodeTo (metaindex_handle_ f) dst) as [dst1|] eqn:E1;
      [|discriminate].
    cbn [mbind option_bind] in Henc.
    destruct (BlockHandle_EncodeTo (index_handle_ f) dst1) as [dst2|] eqn:E2;
      [|discriminate].
    cbn [mbind option_bind] in Henc.
    apply BlockHandle_EncodeTo_inv in E1 as [E1 E1'].
    apply BlockHandle_EncodeTo_inv in E2 as [E2 E2'].
    split; [|tauto].
    unfold PutFixed32 in Henc.
    rewrite !size_app, size_resize in Henc by (unfold kMaxEncodedLength; lia).
    rewrite !size_EncodeFixed32 in Henc.
    destruct (Z.eqb_spec (2 * kMaxEncodedLength + 4 + 4) (size dst + kEncodedLength))
      as [Heq|Hne]; [|discriminate].
    unfold kEncodedLength, size in Heq. destruct dst; [reflexivity|].
    cbn [length] in Heq. lia.
  - intros (-> & H1 & H2 & H3 & H4).
    destruct (Footer_EncodeTo_bytes f H1 H2 H3 H4) as [-> _]. eexists. reflexivity.
Qed.

(** X4.  A footer written by [EncodeTo] is 48 bytes long, and [DecodeFrom]
    reads the same two handles back from it with an OK status, whatever
    footer it is called on, leaving the input at the first byte after the
    footer. *)
Theorem Footer_round_trip (f f0 : Footer) (rest : list byte) :
  0 <= kTableMagicNumber < 2 ^ 64 ->
  0 <= offset_ (metaindex_handle_ f) < 2 ^ 64 - 1 ->
  0 <= size_ (metaindex_handle_ f) < 2 ^ 64 - 1 ->
  0 <= offset_ (index_handle_ f) < 2 ^ 64 - 1 ->
  0 <= size_ (index_handle_ f) < 2 ^ 64 - 1 ->
  exists enc,
    Footer_EncodeTo kTableMagicNumber f [] = Some enc /\
    size enc = kEncodedLength /\
    Footer_DecodeFrom kTableMagicNumber f0 (enc ++ rest) = Some (OK, f, rest).
Proof.
  intros Hm H1 H2 H3 H4.
  destruct (Footer_EncodeTo_bytes f) as [Henc Hsz]; try lia.
  cbv zeta in Henc, Hsz.
  set (meta := EncodeVarint64 (offset_ (metaindex_handle_ f))
               ++ EncodeVarint64 (size_ (metaindex_handle_ f))) in *.
  set (index := EncodeVarint64 (offset_ (index_handle_ f))
                ++ EncodeVarint64 (size_ (index_handle_ f))) in *.
  set (pad := replicate (Z.to_nat (2 * kMaxEncodedLength - size (meta ++ index))) x00) in *.
  destruct (magic_words _ Hm) as [Hlo Hhi].
  rewrite (wrap32_small _ Hhi) in Henc.
  set (lo := Z.land kTableMagicNumber 4294967295) in *.
  set (hi := Z.shiftr kTableMagicNumber 32) in *.
  eexists. split; [exact Henc|].
  assert (Hbody : size ((meta ++ index) ++ pad) = 40).
  { rewrite size_app. unfold pad, size at 2. rewrite length_replicate.
    unfold kMaxEncodedLength in *. lia. }
  split.
  { rewrite app_assoc, (size_app (_ ++ pad)), Hbody, size_app, !size_EncodeFixed32.
    reflexivity. }
  rewrite Footer_DecodeFrom_unfold.
  assert (Hmagic : read_magic (((meta ++ index) ++ pad ++ EncodeFixed32 lo
                                ++ EncodeFixed32 hi) ++ rest)
                   = Some kTableMagicNumber).
  { unfold read_magic, slice_from. unfold size in Hbody.
    assert (D1 : drop (Z.to_nat (kEncodedLength - 8))
                   (((meta ++ index) ++ pad ++ EncodeFixed32 lo ++ EncodeFixed32 hi)
                    ++ rest)
                 = EncodeFixed32 lo ++ EncodeFixed32 hi ++ rest).
    { replace (((meta ++ index) ++ pad ++ EncodeFixed32 lo ++ EncodeFixed32 hi) ++ rest)
        with (((meta ++ index) ++ pad) ++ EncodeFixed32 lo ++ EncodeFixed32 hi ++ rest)
        by (rewrite <- !app_assoc; reflexivity).
      apply drop_app_length'. unfold kEncodedLength, kMaxEncodedLength. lia. }
    assert (D2 : drop (Z.to_nat (kEncodedLength - 4))
                   (((meta ++ index) ++ pad ++ EncodeFixed32 lo ++ EncodeFixed32 hi)
                    ++ rest)
                 = EncodeFixed32 hi ++ rest).
    { replace (((meta ++ index) ++ pad ++ EncodeFixed32 lo ++ EncodeFixed32 hi) ++ rest)
        with ((((meta ++ index) ++ pad) ++ EncodeFixed32 lo) ++ EncodeFixed32 hi ++ rest)
        by (rewrite <- !app_assoc; reflexivity).
      apply drop_app_length'. rewrite length_app, EncodeFixed32_length.
      unfold kEncodedLength, kMaxEncodedLength. lia. }
    rewrite D1, D2.
    rewrite (DecodeFixed32_EncodeFixed32 _ _ Hlo). cbn [mbind option_bind].
    rewrite (DecodeFixed32_EncodeFixed32 _ _ Hhi). cbn [mbind option_bind].
    f_equal. apply split_64. lia. }
  rewrite Hmagic. rewrite Z.eqb_refl. cbn [negb].
  replace (((meta ++ index) ++ pad ++ EncodeFixed32 lo ++ EncodeFixed32 hi) ++ rest)
    with (meta ++ (index ++ pad ++ EncodeFixed32 lo ++ EncodeFixed32 hi ++ rest))
    by (rewrite <- !app_assoc; reflexivity).
  unfold meta at 1.
  rewrite BlockHandle_DecodeFrom_encoded by lia. cbn [ok].
  replace (index ++ pad ++ EncodeFixed32 lo ++ EncodeFixed32 hi ++ rest)
    with (index ++ (pad ++ EncodeFixed32 lo ++ EncodeFixed32 hi ++ rest))
    by reflexivity.
  unfold index at 1.
  rewrite BlockHandle_DecodeFrom_encoded by lia. cbn [ok].
  f_equal. f_equal; [destruct f; reflexivity|].
  unfold slice_from.
  replace (meta ++ index ++ pad ++ EncodeFixed32 lo ++ EncodeFixed32 hi ++ rest)
    with ((((meta ++ index) ++ pad) ++ EncodeFixed32 lo ++ EncodeFixed32 hi) ++ rest)
    by (rewrite <- !app_assoc; reflexivity).
  apply drop_app_length'.
  unfold size in Hbody. clear Henc Hmagic. subst pad meta index.
  rewrite !length_app in Hbody.
  rewrite !length_app, !EncodeFixed32_length.
  unfold kEncodedLength, kMaxEncodedLength in *. lia.
Qed.

End FooterRoundTrip.

Lemma Footer_round_trip_witness :
  exists enc,
    Format.Footer_EncodeTo FormatExamples.leveldb_magic
      FormatExamples.footer_100_50_150_80 [] = Some enc /\
    size enc = Format.kEncodedLength /\
    Format.Footer_DecodeFrom FormatExamples.leveldb_magic
      {| Format.metaindex_handle_ := Format.BlockHandle_new;
         Format.index_handle_ := Format.BlockHandle_new |} (enc ++ [x01; x02])
    = Some (Format.OK, FormatExamples.footer_100_50_150_80, [x01; x02]).
Proof.
  apply (Footer_round_trip FormatExamples.leveldb_magic
           FormatExamples.footer_100_50_150_80
           {| Format.metaindex_handle_ := Format.BlockHandle_new;
              Format.index_handle_ := Format.BlockHandle_new |} [x01; x02]);
    vm_compute; (split; [discriminate|reflexivity]).
Defined.

(** ** table/format: who owns the bytes that [ReadBlock] returns *)

Section ReadBlockOwnership.
Import Coding Format FormatExamples.

Variable crc32c_Value : list byte -> Z.
Variable crc32c_Unmask : Z -> Z.
Variable Snappy_GetUncompressedLength : list byte -> option Z.
Variable Snappy_Uncompress : list byte -> option (list byte).

(** X5.  Whatever [ReadBlock] returns, a status that is not OK comes with
    the empty contents (no data, not cachable, not heap allocated); with an
    OK status the block is cachable exactly when its bytes are heap
    allocated, and the one case where they are not is an uncompressed block
    that the file handed out from its own memory instead of the scratch
    buffer. *)
Theorem ReadBlock_ownership (file : Z -> Z -> ReadResult) (verify_checksums : bool)
    (handle : BlockHandle) (s : Status) (c : BlockContents) :
  Format.ReadBlock crc32c_Value crc32c_Unmask Snappy_GetUncompressedLength
    Snappy_Uncompress file verify_checksums handle = Some (s, c) ->
  let n := wrap64 (size_ handle) in
  let r := file (offset_ handle) (wrap64 (n + kBlockTrailerSize)) in
  (ok s = false -> c = empty_contents) /\
  (ok s = true ->
     s = OK /\ heap_allocated c = cachable c /\
     (cachable c = false <->
        r_in_scratch r = false /\
        r_contents r !! Z.to_nat n = Some (byte_of_Z kNoCompression))).
Proof.
  intros H n r. unfold Format.ReadBlock in H. fold n in H. fold r in H.
  destruct (negb (ok (r_status r))) eqn:Hok.
  { injection H as <- <-. apply negb_true_iff in Hok.
    split; [reflexivity|]. intros Hs. congruence. }
  destruct (negb (size (r_contents r) =? wrap64 (n + kBlockTrailerSize))).
  { injection H as <- <-. split; [reflexivity|discriminate]. }
  destruct (if verify_checksums then _ else _) as [checked|]; [|discriminate].
  cbn [mbind option_bind] in H.
  destruct (negb checked).
  { injection H as <- <-. split; [reflexivity|discriminate]. }
  destruct (r_contents r !! Z.to_nat n) as [type|] eqn:Htype; [|discriminate].
  cbn [mbind option_bind] in H.
  destruct (Z.eqb_spec (Z_of_byte type) kNoCompression) as [Hno|Hno].
  { assert (Hb : type = byte_of_Z kNoCompression)
      by (rewrite <- Hno; symmetry; apply byte_of_Z_of_byte).
    destruct (r_in_scratch r); injection H as <- <-; cbn;
      (split; [discriminate|]); intros _;
      (split; [reflexivity|]); (split; [reflexivity|]).
    - split; [discriminate|]. intros [Hf _]. discriminate Hf.
    - split; [intros _|reflexivity]. split; [reflexivity|]. rewrite Hb. reflexivity. }
  assert (Hty : Some type <> Some (byte_of_Z kNoCompression)).
  { intros [= ->]. apply Hno. apply Z_of_byte_of_Z_small. unfold kNoCompression. lia. }
  destruct (Z_of_byte type =? kSnappyCompression).
  - destruct (Snappy_GetUncompressedLength _).
    + destruct (Snappy_Uncompress _).
      * injection H as <- <-. cbn. split; [discriminate|]. intros _.
        split; [reflexivity|]. split; [reflexivity|].
        split; [discriminate|]. intros [_ Hf]. exfalso. exact (Hty Hf).
      * injection H as <- <-. split; [reflexivity|discriminate].
    + injection H as <- <-. split; [reflexivity|discriminate].
  - injection H as <- <-. split; [reflexivity|discriminate].
Qed.

End ReadBlockOwnership.

Lemma ReadBlock_ownership_witness :
  let file := FormatExamples.PosixRandomAccessFile_Read
                [x61; x62; x00; x01; x02; x03; x04] in
  let handle := {| Format.offset_ := 0; Format.size_ := 2 |} in
  let c := {| Format.data := [x61; x62]; Format.cachable := true;
              Format.heap_allocated := true |} in
  let r := file 0 (wrap64 (wrap64 2 + Format.kBlockTrailerSize)) in
  (Format.ok Format.OK = false -> c = Format.empty_contents) /\
  (Format.ok Format.OK = true ->
     Format.OK = Format.OK /\ Format.heap_allocated c = Format.cachable c /\
     (Format.cachable c = false <->
        Format.r_in_scratch r = false /\
        Format.r_contents r !! Z.to_nat (wrap64 2)
        = Some (byte_of_Z Format.kNoCompression))).
Proof.
  exact (ReadBlock_ownership (fun _ => 0) (fun x => x) (fun _ => None) (fun _ => None)
           (FormatExamples.PosixRandomAccessFile_Read
              [x61; x62; x00; x01; x02; x03; x04])
           false {| Format.offset_ := 0; Format.size_ := 2 |} Format.OK
           {| Format.data := [x61; x62]; Format.cachable := true;
              Format.heap_allocated := true |} eq_refl).
Defined.

(** ** table/filter_block: the reader stays inside the block *)

Section FilterReaderFacts.
Import Coding FilterBlock.

Lemma lookup_last_byte (contents : list byte) :
  1 <= size contents -> is_Some (contents !! Z.to_nat (size contents - 1)).
Proof. intros H. apply lookup_lt_is_Some. unfold size in *. lia. Qed.

Lemma DecodeFixed32_slice (contents : list byte) (off : Z) :
  0 <= off -> off + 4 <= size contents ->
  is_Some (DecodeFixed32 (slice_from off contents)).
Proof.
  intros H0 H4. apply DecodeFixed32_Some. unfold slice_from, size in *.
  rewrite length_drop. lia.
Qed.

(** X6.  [FilterBlockReader] can be built on any byte string, and a reader
    whose shift count [base_lg_] is below 64 answers every query without
    reading outside the block: both offsets it decodes lie inside the offset
    array. *)
Theorem FilterBlockReader_stays_in_bounds (policy : FilterPolicy) (contents : list byte) :
  exists r, Reader.new policy contents = Some r /\
    Reader.policy_ r = policy /\
    (Reader.base_lg_ r < 64 ->
     forall block_offset key, 0 <= block_offset ->
       is_Some (Reader.KeyMayMatch r block_offset key)).
Proof.
  unfold Reader.new.
  destruct (Z.ltb_spec (size contents) 5) as [Hn|Hn].
  { eexists. split; [reflexivity|]. split; [reflexivity|].
    intros _ block_offset key Ho. unfold Reader.KeyMayMatch. cbn.
    assert (0 <= Z.shiftr block_offset 0) by (apply Z.shiftr_nonneg; lia).
    destruct (Z.ltb_spec (Z.shiftr block_offset 0) 0); [lia|]. eexists; reflexivity. }
  destruct (lookup_last_byte contents ltac:(lia)) as [b Hb]. rewrite Hb.
  cbn [mbind option_bind].
  destruct (DecodeFixed32_slice contents (size contents - 5) ltac:(lia) ltac:(lia))
    as [last_word Hw].
  rewrite Hw. cbn [mbind option_bind].
  pose proof (DecodeFixed32_range _ _ Hw) as Hrange.
  destruct (Z.gtb_spec last_word (size contents - 5)) as [Hgt|Hle].
  { eexists. split; [reflexivity|]. split; [reflexivity|].
    intros Hlg block_offset key Ho. unfold Reader.KeyMayMatch.
    cbn [Reader.base_lg_ Reader.num_] in *.
    destruct (Z.leb_spec 64 (Z_of_byte b)); [lia|].
    assert (0 <= Z.shiftr block_offset (Z_of_byte b)) by (apply Z.shiftr_nonneg; lia).
    destruct (Z.ltb_spec (Z.shiftr block_offset (Z_of_byte b)) 0); [lia|].
    eexists; reflexivity. }
  eexists. split; [reflexivity|]. split; [reflexivity|].
  intros Hlg block_offset key Ho. unfold Reader.KeyMayMatch.
  cbn [Reader.base_lg_ Reader.num_ Reader.data_ Reader.offset_ Reader.policy_] in *.
  destruct (Z.leb_spec 64 (Z_of_byte b)); [lia|].
  set (index := Z.shiftr block_offset (Z_of_byte b)).
  assert (Hi : 0 <= index) by (apply Z.shiftr_nonneg; lia).
  destruct (Z.ltb_spec index ((size contents - 5 - last_word) / 4)) as [Hlt|Hge];
    [|eexists; reflexivity].
  assert (Hnum : 4 * ((size contents - 5 - last_word) / 4) <= size contents - 5 - last_word)
    by (apply Z.mul_div_le; lia).
  cbn [mbind option_bind].
  destruct (DecodeFixed32_slice contents (last_word + index * 4) ltac:(lia) ltac:(lia))
    as [start ->].
  destruct (DecodeFixed32_slice contents (last_word + index * 4 + 4) ltac:(lia) ltac:(lia))
    as [limit ->].
  cbn [mbind option_bind].
  destruct (_ && _); [eexists; reflexivity|].
  destruct (start =? limit); eexists; reflexivity.
Qed.

(** X7.  A filter block that is too short to hold its trailer is read as a
    filter that may match everything: every query is answered true.  A
    block whose trailer places the offset array beyond the block is read
    with no filters too, but its last byte is kept as the shift count: a
    query is answered true when that byte is below 64, and shifts by 64 or
    more, which is undefined, when it is not. *)
Theorem FilterBlockReader_malformed_block (policy : FilterPolicy) (contents : list byte)
    (block_offset : Z) (key : list byte) :
  0 <= block_offset ->
  (size contents < 5 \/
   exists last_word,
     DecodeFixed32 (slice_from (size contents - 5) contents) = Some last_word /\
     last_word > size contents - 5) ->
  exists r, Reader.new policy contents = Some r /\
    Reader.num_ r = 0 /\
    Reader.KeyMayMatch r block_offset key
    = match contents !! Z.to_nat (size contents - 1) with
      | Some b =>
          if (5 <=? size contents) && (64 <=? Z_of_byte b) then None else Some true
      | None => Some true
      end.
Proof.
  intros Ho H. unfold Reader.new.
  destruct (Z.ltb_spec (size contents) 5) as [Hlt|Hge].
  { eexists. split; [reflexivity|]. split; [reflexivity|].
    unfold Reader.KeyMayMatch. cbn [Reader.base_lg_ Reader.num_].
    destruct (Z.leb_spec 5 (size contents)); [lia|]. cbn [andb].
    assert (0 <= Z.shiftr block_offset 0) by (apply Z.shiftr_nonneg; lia).
    destruct (Z.leb_spec 64 0); [lia|].
    destruct (Z.ltb_spec (Z.shiftr block_offset 0) 0); [lia|].
    destruct (contents !! Z.to_nat (size contents - 1)); reflexivity. }
  destruct H as [Hshort|(last_word & Hw & Hgt)]; [lia|].
  destruct (contents !! Z.to_nat (size contents - 1)) as [b|] eqn:Hb.
  2:{ apply lookup_ge_None in Hb. unfold size in *. lia. }
  rewrite Hw. cbn [mbind option_bind].
  destruct (Z.gtb_spec last_word (size contents - 5)); [|lia].
  eexists. split; [reflexivity|]. split; [reflexivity|].
  unfold Reader.KeyMayMatch. cbn [Reader.base_lg_ Reader.num_].
  destruct (Z.leb_spec 5 (size contents)); [|lia]. cbn [andb].
  destruct (Z.leb_spec 64 (Z_of_byte b)); [reflexivity|].
  assert (0 <= Z.shiftr block_offset (Z_of_byte b)) by (apply Z.shiftr_nonneg; lia).
  destruct (Z.ltb_spec (Z.shiftr block_offset (Z_of_byte b)) 0); [lia|]. reflexivity.
Qed.

End FilterReaderFacts.

Lemma FilterBlockReader_malformed_block_witness :
  (exists r, FilterBlock.Reader.new FilterExamples.always_match [x01; x02; x03] = Some r /\
     FilterBlock.Reader.num_ r = 0 /\
     FilterBlock.Reader.KeyMayMatch r 4096 [x6b] = Some true) /\
  (exists r, FilterBlock.Reader.new FilterExamples.always_match
               [xff; xff; xff; xff; x0b] = Some r /\
     FilterBlock.Reader.num_ r = 0 /\
     FilterBlock.Reader.KeyMayMatch r 4096 [x6b] = Some true) /\
  (exists r, FilterBlock.Reader.new FilterExamples.always_match
               [xff; xff; xff; xff; x40] = Some r /\
     FilterBlock.Reader.num_ r = 0 /\
     FilterBlock.Reader.KeyMayMatch r 4096 [x6b] = None).
Proof.
  split; [|split].
  - apply (FilterBlockReader_malformed_block FilterExamples.always_match
             [x01; x02; x03] 4096 [x6b]).
    + lia.
    + left. unfold size. cbn [length]. lia.
  - apply (FilterBlockReader_malformed_block FilterExamples.always_match
             [xff; xff; xff; xff; x0b] 4096 [x6b]).
    + lia.
    + right. eexists. split; [vm_compute; reflexivity|]. vm_compute. reflexivity.
  - apply (FilterBlockReader_malformed_block FilterExamples.always_match
             [xff; xff; xff; xff; x40] 4096 [x6b]).
    + lia.
    + right. eexists. split; [vm_compute; reflexivity|]. vm_compute. reflexivity.
Defined.

(** ** table/filter_block: no key that was added is refused *)

Section FilterBuilderFacts.
Import Coding FilterBlock FilterBlockUse.

Lemma offsets_from_app (base : Z) (fs gs : list (list byte)) :
  offsets_from base (fs ++ gs)
  = offsets_from base fs ++ offsets_from (base + size (concat fs)) gs.
Proof.
  revert base. induction fs as [|f fs IH]; intros base; cbn [offsets_from app concat].
  - replace (base + size []) with base by (unfold size; cbn; lia). reflexivity.
  - rewrite IH. rewrite size_app. f_equal. f_equal. f_equal. lia.
Qed.

Lemma offsets_from_length (base : Z) (fs : list (list byte)) :
  length (offsets_from base fs) = length fs.
Proof. revert base. induction fs as [|f fs IH]; intros base; cbn; [|rewrite IH]; reflexivity. Qed.

Lemma concat_snoc (fs : list (list byte)) (f : list byte) :
  concat (fs ++ [f]) = concat fs ++ f.
Proof. rewrite concat_app. cbn. rewrite app_nil_r. reflexivity. Qed.

(** The flattened keys and their starting offsets give the keys back. *)
Lemma tmp_keys_spec (ks : list (list byte)) :
  forall pre : list byte,
    Builder.tmp_keys (pre ++ concat ks)
      (offsets_from (size pre) ks ++ [size pre + size (concat ks)])
    = ks.
Proof.
  induction ks as [|k ks IH]; intros pre; [reflexivity|].
  cbn [offsets_from concat app].
  assert (Hnext : exists tl,
    offsets_from (size pre + size k) ks ++ [size pre + size (k ++ concat ks)]
    = (size pre + size k) :: tl).
  { destruct ks as [|k' ks'].
    - cbn. rewrite app_nil_r. eexists. reflexivity.
    - cbn. eexists. reflexivity. }
  destruct Hnext as [tl Htl].
  cbn [Builder.tmp_keys]. rewrite Htl. rewrite <- Htl. f_equal.
  - replace (size pre + size k - size pre) with (size k) by lia.
    unfold slice_to, slice_from, size.
    rewrite !Nat2Z.id, drop_app_length, take_app_length. reflexivity.
  - specialize (IH (pre ++ k)). rewrite size_app in IH.
    rewrite <- app_assoc in IH. rewrite size_app.
    replace (size pre + (size k + size (concat ks)))
      with (size pre + size k + size (concat ks)) by lia.
    exact IH.
Qed.

Lemma laid_out_new (policy : FilterPolicy) : laid_out policy (Builder.new policy) [] [].
Proof. repeat split. Qed.

Lemma laid_out_AddKey (policy : FilterPolicy) (b : Builder.t)
    (fs pending : list (list byte)) (key : list byte) :
  laid_out policy b fs pending ->
  laid_out policy (Builder.AddKey b key) fs (pending ++ [key]).
Proof.
  intros (Hp & Hr & Ho & Hk & Hs). unfold laid_out, Builder.AddKey. cbn.
  split; [exact Hp|]. split; [exact Hr|]. split; [exact Ho|].
  rewrite Hk, Hs. split; [symmetry; apply concat_snoc|].
  rewrite offsets_from_app. cbn [offsets_from]. rewrite Z.add_0_l. reflexivity.
Qed.

Lemma laid_out_GenerateFilter (policy : FilterPolicy) (b : Builder.t)
    (fs pending : list (list byte)) :
  sound policy -> laid_out policy b fs pending ->
  exists f,
    laid_out policy (Builder.GenerateFilter b) (fs ++ [f]) [] /\
    forall k, k ∈ pending -> KeyMayMatch policy k f = true.
Proof.
  intros Hsound (Hp & Hr & Ho & Hk & Hs). unfold Builder.GenerateFilter.
  destruct pending as [|k0 pending].
  - exists []. rewrite bool_decide_eq_true_2 by exact Hs.
    split; [|intros k Hin; inversion Hin].
    unfold laid_out. cbn.
    split; [exact Hp|]. split; [rewrite Hr, concat_snoc, app_nil_r; reflexivity|].
    split; [|split; [exact Hk|exact Hs]].
    rewrite Ho, Hr, offsets_from_app, map_app. cbn. reflexivity.
  - rewrite bool_decide_eq_false_2 by (rewrite Hs; discriminate).
    rewrite Hs, Hk, Hr, Hp.
    pose proof (tmp_keys_spec (k0 :: pending) []) as Htmp.
    cbn [app] in Htmp. replace (size []) with 0 in Htmp by reflexivity.
    replace (0 + size (concat (k0 :: pending))) with (size (concat (k0 :: pending)))
      in Htmp by lia.
    rewrite Htmp.
    destruct (Hsound (k0 :: pending) (concat fs)) as (f & Hf & Hmatch).
    exists f. split; [|exact Hmatch].
    unfold laid_out. cbn [Builder.policy_ Builder.result_ Builder.filter_offsets_
                           Builder.keys_ Builder.start_].
    split; [reflexivity|]. split; [rewrite Hf, concat_snoc; reflexivity|].
    split; [|split; reflexivity].
    rewrite Ho, offsets_from_app, map_app. cbn. reflexivity.
Qed.

Lemma covered_AddKey (policy : FilterPolicy) (fs pending : list (list byte))
    (key : list byte) (i : nat) (k : list byte) :
  covered policy fs pending i k -> covered policy fs (pending ++ [key]) i k.
Proof.
  intros [[Hi Hin]|H]; [left|right; exact H].
  split; [exact Hi|]. apply elem_of_app. left. exact Hin.
Qed.

Lemma covered_GenerateFilter (policy : FilterPolicy) (fs pending : list (list byte))
    (f : list byte) (i : nat) (k : list byte) :
  (forall k, k ∈ pending -> KeyMayMatch policy k f = true) ->
  covered policy fs pending i k -> covered policy (fs ++ [f]) [] i k.
Proof.
  intros Hmatch [[Hi Hin]|(g & Hg & Hm)]; right.
  - exists f. split; [|exact (Hmatch k Hin)].
    subst i. rewrite lookup_app_r by lia. rewrite Nat.sub_diag. reflexivity.
  - exists g. split; [|exact Hm]. apply lookup_app_l_Some. exact Hg.
Qed.

Lemma laid_out_iter (policy : FilterPolicy) (n : nat) :
  sound policy ->
  forall (b : Builder.t) (fs pending : list (list byte)),
    laid_out policy b fs pending ->
    exists fs' pending',
      laid_out policy (Nat.iter n Builder.GenerateFilter b) fs' pending' /\
      length fs' = (length fs + n)%nat /\
      forall i k, covered policy fs pending i k -> covered policy fs' pending' i k.
Proof.
  intros Hsound. induction n as [|n IH]; intros b fs pending Hl.
  - exists fs, pending. split; [exact Hl|]. split; [lia|]. intros i k H; exact H.
  - destruct (IH b fs pending Hl) as (fs1 & pending1 & Hl1 & Hlen1 & Hc1).
    destruct (laid_out_GenerateFilter policy _ fs1 pending1 Hsound Hl1) as (f & Hl2 & Hm).
    exists (fs1 ++ [f]), []. cbn [Nat.iter]. split; [exact Hl2|].
    split; [rewrite length_app; cbn; lia|].
    intros i k H. apply (covered_GenerateFilter policy fs1 pending1 f i k Hm).
    apply Hc1. exact H.
Qed.

Lemma feed_covered (policy : FilterPolicy) (calls : list Call) :
  sound policy ->
  forall (b b' : Builder.t) (fs pending : list (list byte)) (cur : Z),
    laid_out policy b fs pending ->
    Z.of_nat (length fs) = cur / kFilterBase ->
    offsets_ok calls ->
    feed b calls = Some b' ->
    exists fs' pending',
      laid_out policy b' fs' pending' /\
      (forall i k, covered policy fs pending i k -> covered policy fs' pending' i k) /\
      forall o k, (o, k) ∈ keys_of cur calls ->
        0 <= o /\ covered policy fs' pending' (Z.to_nat (o / kFilterBase)) k.
Proof.
  intros Hsound. induction calls as [|call calls IH];
    intros b b' fs pending cur Hl Hcur Hok Hfeed.
  - injection Hfeed as <-. exists fs, pending. split; [exact Hl|].
    split; [intros i k H; exact H|]. intros o k Hin. inversion Hin.
  - destruct call as [block_offset|key].
    + cbn [feed] in Hfeed. cbn [offsets_ok] in Hok. destruct Hok as [Hoff Hok].
      destruct (Builder.StartBlock b block_offset) as [b1|] eqn:Hstart; [|discriminate].
      cbn [mbind option_bind] in Hfeed.
      unfold Builder.StartBlock in Hstart.
      destruct (Z.leb_spec (Z.of_nat (length (Builder.filter_offsets_ b)))
                  (block_offset / kFilterBase)) as [Hle|]; [|discriminate].
      cbn [negb] in Hstart. injection Hstart as <-.
      assert (Hhave : length (Builder.filter_offsets_ b) = length fs).
      { destruct Hl as (_ & _ & -> & _). rewrite length_map. apply offsets_from_length. }
      rewrite Hhave in *.
      destruct (laid_out_iter policy
                  (Z.to_nat (block_offset / kFilterBase - Z.of_nat (length fs)))
                  Hsound b fs pending Hl) as (fs1 & pending1 & Hl1 & Hlen1 & Hc1).
      destruct (IH _ b' fs1 pending1 block_offset Hl1 ltac:(lia) Hok Hfeed)
        as (fs' & pending' & Hl' & Hc' & Hkeys).
      exists fs', pending'. split; [exact Hl'|].
      split; [intros i k H; apply Hc', Hc1; exact H|].
      cbn [keys_of]. exact Hkeys.
    + cbn [feed] in Hfeed. cbn [offsets_ok] in Hok.
      pose proof (laid_out_AddKey policy b fs pending key Hl) as Hl1.
      destruct (IH _ b' fs (pending ++ [key]) cur Hl1 Hcur Hok Hfeed)
        as (fs' & pending' & Hl' & Hc' & Hkeys).
      exists fs', pending'. split; [exact Hl'|].
      split; [intros i k H; apply Hc', covered_AddKey; exact H|].
      cbn [keys_of]. intros o k Hin. apply elem_of_cons in Hin as [[= -> ->]|Hin].
      * assert (0 <= cur / kFilterBase) by lia.
        split; [|apply Hc'; left; split;
                 [lia|apply elem_of_app; right; apply list_elem_of_singleton; reflexivity]].
        destruct (Z.lt_ge_cases cur 0) as [Hneg|]; [|assumption].
        exfalso. assert (cur / kFilterBase < 0); [|lia].
        apply Z.div_lt_upper_bound; [reflexivity|lia].
      * apply Hkeys. exact Hin.
Qed.

Lemma DecodeFixed32_nth (l : list Z) (pre rest : list byte) (i : nat) (v : Z) :
  l !! i = Some v -> 0 <= v < 2 ^ 32 ->
  DecodeFixed32
    (slice_from (size pre + 4 * Z.of_nat i)
       (pre ++ concat (map EncodeFixed32 l) ++ rest))
  = Some v.
Proof.
  intros Hi Hv.
  rewrite <- (take_drop_middle l i v Hi).
  rewrite map_app, concat_app. cbn [map concat].
  replace (pre ++ (concat (map EncodeFixed32 (take i l))
                   ++ EncodeFixed32 v ++ concat (map EncodeFixed32 (drop (S i) l)))
               ++ rest)
    with ((pre ++ concat (map EncodeFixed32 (take i l)))
          ++ EncodeFixed32 v ++ (concat (map EncodeFixed32 (drop (S i) l)) ++ rest))
    by (rewrite <- !app_assoc; reflexivity).
  unfold slice_from. rewrite drop_app_length'.
  - apply DecodeFixed32_EncodeFixed32. exact Hv.
  - pose proof (size_restart_array (take i l)) as Hsz.
    rewrite length_take in Hsz. apply lookup_lt_Some in Hi.
    rewrite length_app. unfold size in *. lia.
Qed.

Lemma offsets_from_lookup (fs : list (list byte)) :
  forall (base : Z) (i : nat),
    (i <= length fs)%nat ->
    (offsets_from base fs ++ [base + size (concat fs)]) !! i
    = Some (base + size (concat (take i fs))).
Proof.
  induction fs as [|f fs IH]; intros base i Hi.
  - cbn in Hi. assert (i = 0%nat) by lia. subst i. reflexivity.
  - destruct i as [|i].
    + cbn. f_equal. unfold size. cbn. lia.
    + cbn [offsets_from app lookup list_lookup take concat]. cbn [length] in Hi.
      change ((offsets_from (base + size f) fs ++ [base + size (f ++ concat fs)]) !! i
              = Some (base + size (f ++ concat (take i fs)))).
      rewrite !size_app.
      replace (base + (size f + size (concat fs)))
        with (base + size f + size (concat fs)) by lia.
      rewrite IH by lia. f_equal. lia.
Qed.

Lemma size_concat_take_le (fs : list (list byte)) (i : nat) :
  0 <= size (concat (take i fs)) <= size (concat fs).
Proof.
  rewrite <- (take_drop i fs) at 3. rewrite concat_app, size_app.
  pose proof (size_nonneg (concat (take i fs))).
  pose proof (size_nonneg (concat (drop i fs))). lia.
Qed.

Lemma offsets_from_bounds (fs : list (list byte)) :
  forall (base x : Z),
    x ∈ offsets_from base fs -> base <= x <= base + size (concat fs).
Proof.
  induction fs as [|f fs IH]; intros base x Hin; [inversion Hin|].
  cbn [offsets_from concat] in *. rewrite size_app.
  pose proof (size_nonneg f). pose proof (size_nonneg (concat fs)).
  apply elem_of_cons in Hin as [->|Hin]; [lia|].
  apply IH in Hin. lia.
Qed.

Lemma map_wrap32_id (l : list Z) :
  (forall x, x ∈ l -> 0 <= x < 2 ^ 32) -> map wrap32 l = l.
Proof.
  induction l as [|x l IH]; intros H; [reflexivity|]. cbn [map].
  rewrite wrap32_small by (apply H; left).
  rewrite IH; [reflexivity|]. intros y Hy. apply H. right. exact Hy.
Qed.

(** The bytes of a finished filter block: the filters, where each of them
    starts, where the filters end, and the shift count. *)
Lemma Finish_layout (policy : FilterPolicy) (b : Builder.t)
    (fs pending : list (list byte)) :
  sound policy -> laid_out policy b fs pending ->
  exists fs',
    snd (Builder.Finish b)
    = concat fs'
      ++ concat (map EncodeFixed32
                   (map wrap32 (offsets_from 0 fs' ++ [size (concat fs')])))
      ++ [byte_of_Z kFilterBaseLg] /\
    forall i k, covered policy fs pending i k ->
      exists f, fs' !! i = Some f /\ KeyMayMatch policy k f = true.
Proof.
  intros Hsound Hl.
  assert (Hb1 : exists fs',
    laid_out policy
      (if bool_decide (Builder.start_ b = []) then b else Builder.GenerateFilter b)
      fs' [] /\
    forall i k, covered policy fs pending i k -> covered policy fs' [] i k).
  { destruct pending as [|k0 pending].
    - rewrite bool_decide_eq_true_2 by (destruct Hl as (_ & _ & _ & _ & ->); reflexivity).
      exists fs. split; [exact Hl|]. intros i k H; exact H.
    - rewrite bool_decide_eq_false_2
        by (destruct Hl as (_ & _ & _ & _ & ->); discriminate).
      destruct (laid_out_GenerateFilter policy b fs _ Hsound Hl) as (f & Hl1 & Hm).
      exists (fs ++ [f]). split; [exact Hl1|].
      intros i k H. apply (covered_GenerateFilter policy fs _ f i k Hm H). }
  destruct Hb1 as (fs' & (Hp & Hr & Ho & Hk & Hs) & Hc).
  exists fs'. split.
  - unfold Builder.Finish. cbn [snd]. rewrite Hr, Ho.
    rewrite put_restarts_app. unfold PutFixed32.
    rewrite map_app, map_app, concat_app. cbn [map concat].
    rewrite app_nil_r, <- !app_assoc. reflexivity.
  - intros i k H. destruct (Hc i k H) as [[_ Hin]|Hf]; [inversion Hin|exact Hf].
Qed.

(** Reading a block of this layout: the query for an offset in the bucket
    [i] is the policy's answer on the [i]-th filter. *)
Lemma Reader_of_layout (policy : FilterPolicy) (fs : list (list byte)) :
  let block :=
    concat fs
    ++ concat (map EncodeFixed32 (map wrap32 (offsets_from 0 fs ++ [size (concat fs)])))
    ++ [byte_of_Z kFilterBaseLg] in
  size block < 2 ^ 32 ->
  exists r, Reader.new policy block = Some r /\
    Reader.num_ r = Z.of_nat (length fs) /\
    forall (i : nat) (f key : list byte) (block_offset : Z),
      fs !! i = Some f -> 0 <= block_offset ->
      block_offset / kFilterBase = Z.of_nat i ->
      Reader.KeyMayMatch r block_offset key = Some (KeyMayMatch policy key f).
Proof.
  intros block Hsize.
  set (total := size (concat fs)) in *.
  set (offs := offsets_from 0 fs ++ [total]) in *.
  assert (Htotal : 0 <= total < 2 ^ 32).
  { split; [apply size_nonneg|]. unfold block in Hsize. rewrite size_app in Hsize.
    pose proof (size_nonneg
      (concat (map EncodeFixed32 (map wrap32 offs)) ++ [byte_of_Z kFilterBaseLg])).
    fold total in Hsize. lia. }
  assert (Hoffs : forall x, x ∈ offs -> 0 <= x < 2 ^ 32).
  { intros x Hx. unfold offs in Hx. apply elem_of_app in Hx as [Hx|Hx].
    - apply offsets_from_bounds in Hx. fold total in Hx. lia.
    - apply list_elem_of_singleton in Hx. subst x. exact Htotal. }
  assert (Hblock : block = concat fs ++ concat (map EncodeFixed32 offs)
                           ++ [byte_of_Z kFilterBaseLg]).
  { unfold block. rewrite (map_wrap32_id offs Hoffs). reflexivity. }
  clearbody block. subst block.
  assert (Hlen : length offs = S (length fs)).
  { unfold offs. rewrite length_app, offsets_from_length. cbn. lia. }
  assert (Hn : size (concat fs ++ concat (map EncodeFixed32 offs)
                     ++ [byte_of_Z kFilterBaseLg])
               = total + 4 * Z.of_nat (S (length fs)) + 1).
  { rewrite !size_app, size_restart_array, Hlen. fold total. unfold size. cbn. lia. }
  assert (Hlookup : forall (i : nat), (i <= length fs)%nat ->
            DecodeFixed32
              (slice_from (total + 4 * Z.of_nat i)
                 (concat fs ++ concat (map EncodeFixed32 offs)
                  ++ [byte_of_Z kFilterBaseLg]))
            = Some (size (concat (take i fs)))).
  { intros i Hi. apply DecodeFixed32_nth.
    - unfold offs, total. pose proof (offsets_from_lookup fs 0 i Hi) as H0.
      rewrite !Z.add_0_l in H0. exact H0.
    - pose proof (size_concat_take_le fs i). fold total in H. lia. }
  unfold Reader.new. rewrite Hn.
  destruct (Z.ltb_spec (total + 4 * Z.of_nat (S (length fs)) + 1) 5) as [|_]; [lia|].
  assert (Hlast : (concat fs ++ concat (map EncodeFixed32 offs)
                   ++ [byte_of_Z kFilterBaseLg])
                  !! Z.to_nat (total + 4 * Z.of_nat (S (length fs)) + 1 - 1)
                  = Some (byte_of_Z kFilterBaseLg)).
  { rewrite app_assoc. rewrite lookup_app_r.
    - replace (Z.to_nat _ - _)%nat with 0%nat; [reflexivity|].
      rewrite length_app. pose proof (size_restart_array offs) as Hs.
      rewrite Hlen in Hs. unfold total, size in *. lia.
    - rewrite length_app. pose proof (size_restart_array offs) as Hs.
      rewrite Hlen in Hs. unfold total, size in *. lia. }
  rewrite Hlast. cbn [mbind option_bind].
  replace (total + 4 * Z.of_nat (S (length fs)) + 1 - 5)
    with (total + 4 * Z.of_nat (length fs)) by lia.
  rewrite (Hlookup (length fs)) by lia.
  rewrite firstn_all. fold total. cbn [mbind option_bind].
  destruct (Z.gtb_spec total (total + 4 * Z.of_nat (length fs))) as [|_]; [lia|].
  eexists. split; [reflexivity|].
  cbn [Reader.num_].
  assert (Hnum : (total + 4 * Z.of_nat (length fs) - total) / 4 = Z.of_nat (length fs)).
  { replace (total + 4 * Z.of_nat (length fs) - total)
      with (Z.of_nat (length fs) * 4) by lia.
    apply Z.div_mul. lia. }
  split; [exact Hnum|].
  intros i f key block_offset Hi Ho Hidx.
  unfold Reader.KeyMayMatch.
  cbn [Reader.base_lg_ Reader.num_ Reader.data_ Reader.offset_ Reader.policy_].
  replace (Z_of_byte (byte_of_Z kFilterBaseLg)) with 11 by (vm_compute; reflexivity).
  change (64 <=? 11) with false. cbv iota.
  rewrite Z.shiftr_div_pow2 by lia.
  change (2 ^ 11) with kFilterBase. rewrite Hidx, Hnum.
  pose proof (lookup_lt_Some _ _ _ Hi) as Hilt.
  destruct (Z.ltb_spec (Z.of_nat i) (Z.of_nat (length fs))) as [_|]; [|lia].
  cbn [mbind option_bind].
  replace (total + Z.of_nat i * 4) with (total + 4 * Z.of_nat i) by lia.
  rewrite (Hlookup i) by lia. cbn [mbind option_bind].
  replace (total + 4 * Z.of_nat i + 4) with (total + 4 * Z.of_nat (S i)) by lia.
  rewrite (Hlookup (S i)) by lia. cbn [mbind option_bind].
  rewrite (take_S_r fs i f Hi), concat_snoc, size_app.
  pose proof (size_concat_take_le fs i) as Hle1.
  pose proof (size_concat_take_le fs (S i)) as Hle2.
  rewrite (take_S_r fs i f Hi), concat_snoc, size_app in Hle2. fold total in Hle1, Hle2.
  pose proof (size_nonneg f) as Hf.
  destruct (Z.leb_spec (size (concat (take i fs))) (size (concat (take i fs)) + size f))
    as [_|]; [|lia].
  destruct (Z.leb_spec (size (concat (take i fs)) + size f) total) as [_|]; [|lia].
  cbn [andb]. f_equal. f_equal.
  replace (size (concat (take i fs)) + size f - size (concat (take i fs)))
    with (size f) by lia.
  rewrite <- (take_drop_middle fs i f Hi) at 2.
  rewrite concat_app. cbn [concat]. rewrite <- !app_assoc.
  unfold slice_to, slice_from, size.
  rewrite !Nat2Z.id, drop_app_length, take_app_length. reflexivity.
Qed.

(** X8.  No false negative from end to end: let a filter block be built
    with a policy that keeps its contract, by any sequence of [StartBlock]
    and [AddKey] calls that the builder accepts, then [Finish]; if the block
    is shorter than [2^32] bytes, a reader of it answers true for every key
    that was added, when asked with the offset of the block the key was
    added for. *)
Theorem filter_block_no_false_negative (policy : FilterPolicy) (calls : list Call)
    (b : Builder.t) :
  sound policy -> offsets_ok calls ->
  feed (Builder.new policy) calls = Some b ->
  size (snd (Builder.Finish b)) < 2 ^ 32 ->
  exists r, Reader.new policy (snd (Builder.Finish b)) = Some r /\
    forall block_offset key,
      (block_offset, key) ∈ keys_of 0 calls ->
      Reader.KeyMayMatch r block_offset key = Some true.
Proof.
  intros Hsound Hok Hfeed Hsize.
  destruct (feed_covered policy calls Hsound (Builder.new policy) b [] [] 0
              (laid_out_new policy) eq_refl Hok Hfeed)
    as (fs & pending & Hl & _ & Hkeys).
  destruct (Finish_layout policy b fs pending Hsound Hl) as (fs' & Hblock & Hcov).
  rewrite Hblock in *.
  destruct (Reader_of_layout policy fs' Hsize) as (r & Hr & _ & Hmatch).
  exists r. split; [exact Hr|].
  intros block_offset key Hin.
  destruct (Hkeys _ _ Hin) as [Ho Hc].
  destruct (Hcov _ _ Hc) as (f & Hf & Hm).
  rewrite (Hmatch _ f key block_offset Hf Ho).
  - rewrite Hm. reflexivity.
  - assert (0 <= block_offset / kFilterBase) by (apply Z.div_pos; [lia|reflexivity]).
    lia.
Qed.

End FilterBuilderFacts.

Lemma always_match_sound : FilterBlockUse.sound FilterExamples.always_match.
Proof.
  intros keys dst. exists [x01]. split; [reflexivity|]. intros k _. reflexivity.
Qed.

Lemma filter_block_no_false_negative_witness :
  let calls := [FilterBlockUse.CallStartBlock 0; FilterBlockUse.CallAddKey [x6b; x31];
                FilterBlockUse.CallAddKey []; FilterBlockUse.CallStartBlock 5000;
                FilterBlockUse.CallAddKey [x6b; x32]] in
  exists b r,
    FilterBlockUse.feed (FilterBlock.Builder.new FilterExamples.always_match) calls
    = Some b /\
    FilterBlock.Reader.new FilterExamples.always_match
      (snd (FilterBlock.Builder.Finish b)) = Some r /\
    forall block_offset key,
      (block_offset, key) ∈ FilterBlockUse.keys_of 0 calls ->
      FilterBlock.Reader.KeyMayMatch r block_offset key = Some true.
Proof.
  intros calls.
  destruct (FilterBlockUse.feed (FilterBlock.Builder.new FilterExamples.always_match)
              calls) as [b|] eqn:E; [|vm_compute in E; discriminate E].
  exists b.
  destruct (filter_block_no_false_negative FilterExamples.always_match calls b
              always_match_sound) as (r & Hr & Hall).
  - unfold calls. cbn. repeat split; try lia; reflexivity.
  - exact E.
  - assert (E' := E). vm_compute in E'. injection E' as <-. vm_compute. reflexivity.
  - exists r. split; [reflexivity|]. split; [exact Hr|exact Hall].
Defined.

(** ** table/block_builder: size estimate, accepted input, restart array *)

Section BlockBuilderMore.
Import Coding BlockBuilder Block BlockOrder RestartOrder.

(** X9.  Before [Finish], [CurrentSizeEstimate] is exact: it is the length
    of the block that [Finish] returns (as a [size_t]). *)
Theorem CurrentSizeEstimate_exact (b : BlockBuilder.t) :
  CurrentSizeEstimate b = wrap64 (size (snd (Finish b))).
Proof.
  rewrite Finish_bytes. rewrite !size_app, size_restart_array, size_EncodeFixed32.
  unfold CurrentSizeEstimate. apply (f_equal wrap64). lia.
Qed.

Lemma size_EncodeVarint32 (v : Z) : 1 <= size (EncodeVarint32 v) <= 5.
Proof.
  unfold size, EncodeVarint32. pose proof (EncodeVarint_length 4 v). lia.
Qed.

Lemma Add_grows (b b' : BlockBuilder.t) (key value : list byte) :
  Add b key value = Some b' -> size (buffer_ b) + 3 <= size (buffer_ b').
Proof.
  intros H. pose proof (Add_inv b b' key value H) as Hinv. cbv zeta in Hinv.
  destruct Hinv as (_ & _ & Hb' & _). rewrite Hb'. cbn [buffer_].
  rewrite !size_app.
  pose proof (size_EncodeVarint32
    (wrap32 (if negb (counter_ b <? block_restart_interval (options_ b))
             then 0 else shared_prefix (last_key_ b) key))).
  pose proof (size_EncodeVarint32
    (wrap32 (size key -
             (if negb (counter_ b <? block_restart_interval (options_ b))
              then 0 else shared_prefix (last_key_ b) key)))).
  pose proof (size_EncodeVarint32 (wrap32 (size value))).
  pose proof (size_nonneg
    (slice_from (if negb (counter_ b <? block_restart_interval (options_ b))
                 then 0 else shared_prefix (last_key_ b) key) key)).
  pose proof (size_nonneg value). lia.
Qed.

Lemma Add_order (b b' : BlockBuilder.t) (key value : list byte) :
  Add b key value = Some b' ->
  (buffer_ b = [] \/ comparator (options_ b) key (last_key_ b) > 0) /\
  buffer_ b' <> [] /\ last_key_ b' = key /\ options_ b' = options_ b.
Proof.
  intros H. pose proof (Add_inv b b' key value H) as Hinv. cbv zeta in Hinv.
  destruct Hinv as (_ & _ & Hb' & _).
  split.
  - unfold Add in H.
    destruct (finished_ b); [discriminate|].
    destruct (negb (counter_ b <=? _)); [discriminate|].
    destruct (bool_decide (buffer_ b = [])) eqn:Hbuf.
    + left. apply bool_decide_eq_true in Hbuf. exact Hbuf.
    + cbn [orb] in H. right.
      destruct (Z.gtb_spec (comparator (options_ b) key (last_key_ b)) 0) as [Hgt|];
        [lia|discriminate].
  - split; [|rewrite Hb'; split; reflexivity].
    pose proof (Add_grows _ _ _ _ H) as Hg. pose proof (size_nonneg (buffer_ b)).
    intros Hnil. rewrite Hnil in Hg. unfold size at 2 in Hg. cbn in Hg. lia.
Qed.

Lemma AddAll_order (kvs : list (list byte * list byte)) :
  forall b bf : BlockBuilder.t,
    AddAll b kvs = Some bf ->
    (buffer_ b <> [] -> increasing_after (comparator (options_ b)) (last_key_ b) kvs) /\
    (buffer_ b = [] -> increasing (comparator (options_ b)) kvs).
Proof.
  induction kvs as [|[key value] kvs IH]; intros b bf H.
  - split; intros _; exact I.
  - cbn [AddAll] in H. destruct (Add b key value) as [b1|] eqn:HA; [|discriminate].
    cbn [mbind option_bind] in H.
    destruct (Add_order _ _ _ _ HA) as (Hord & Hne & Hlast & Hopt).
    destruct (IH b1 bf H) as [IH1 _]. specialize (IH1 Hne).
    rewrite Hlast, Hopt in IH1.
    split; intros Hb.
    + cbn [increasing_after]. split; [|exact IH1].
      destruct Hord as [Hnil|Hgt]; [contradiction|exact Hgt].
    + cbn [increasing]. exact IH1.
Qed.

(** X10.  [Add] accepts a sequence of pairs, from the first to the last,
    exactly when the restart interval is at least 1 and every key compares
    greater than the key before it: none of the other assertions of
    [BlockBuilder] can fail on the way. *)
Theorem build_accepts_increasing_keys (options : Options)
    (kvs : list (list byte * list byte)) :
  is_Some (build options kvs) <->
  1 <= block_restart_interval options /\ increasing (comparator options) kvs.
Proof.
  split.
  - intros [block H]. unfold build in H.
    destruct (new options) as [b|] eqn:Hnew; [|discriminate].
    cbn [mbind option_bind] in H.
    destruct (AddAll b kvs) as [bf|] eqn:HA; [|discriminate].
    unfold new in Hnew.
    destruct (Z.leb_spec 1 (block_restart_interval options)) as [Hr|]; [|discriminate].
    cbn [negb] in Hnew. injection Hnew as <-.
    split; [exact Hr|].
    destruct (AddAll_order _ _ _ HA) as [_ Hinc]. exact (Hinc eq_refl).
  - intros [Hr Hinc]. destruct (build_total options kvs Hr Hinc) as (b & bf & _ & _ & ->).
    eexists. reflexivity.
Qed.

Lemma AddAll_size_mono (kvs : list (list byte * list byte)) :
  forall b bf : BlockBuilder.t,
    AddAll b kvs = Some bf -> size (buffer_ b) <= size (buffer_ bf).
Proof.
  induction kvs as [|[key value] kvs IH]; intros b bf H.
  - injection H as <-. lia.
  - cbn [AddAll] in H. destruct (Add b key value) as [b1|] eqn:HA; [|discriminate].
    cbn [mbind option_bind] in H. specialize (IH b1 bf H).
    pose proof (Add_grows _ _ _ _ HA). lia.
Qed.

Lemma ascending_snoc (rs : list Z) (x : Z) :
  ascending rs -> (forall r, r ∈ rs -> r < x) -> ascending (rs ++ [x]).
Proof.
  intros Hasc Hlt i j ri rj Hi Hj Hij.
  pose proof (lookup_lt_Some _ _ _ Hj) as Hjlt. rewrite length_app in Hjlt.
  cbn [length] in Hjlt.
  assert (Hi' : rs !! i = Some ri) by (rewrite lookup_app_l in Hi by lia; exact Hi).
  destruct (decide (j = length rs)) as [->|Hne].
  - rewrite lookup_app_r in Hj by lia. rewrite Nat.sub_diag in Hj.
    injection Hj as <-. apply Hlt. eapply list_elem_of_lookup_2. exact Hi'.
  - rewrite lookup_app_l in Hj by lia. exact (Hasc i j ri rj Hi' Hj Hij).
Qed.

Lemma Add_restarts_in_order (b b' : BlockBuilder.t) (key value : list byte) :
  1 <= block_restart_interval (options_ b) ->
  size (buffer_ b) < 2 ^ 32 ->
  Add b key value = Some b' ->
  restarts_in_order b -> restarts_in_order b'.
Proof.
  intros Hr Hsmall HA HR.
  destruct (Add_order _ _ _ _ HA) as (_ & Hne & _ & _).
  pose proof (Add_inv b b' key value HA) as Hinv. cbv zeta in Hinv.
  destruct Hinv as (_ & _ & Hb' & _).
  assert (Hgrow : size (buffer_ b) < size (buffer_ b'))
    by (pose proof (Add_grows _ _ _ _ HA); lia).
  right. split; [exact Hne|].
  assert (Hrs : restarts_ b'
                = if negb (counter_ b <? block_restart_interval (options_ b))
                  then restarts_ b ++ [wrap32 (size (buffer_ b))] else restarts_ b)
    by (rewrite Hb'; reflexivity).
  destruct HR as [(Hnil & H0 & Hc)|(Hnn & Hhead & Hasc & Hin)].
  - rewrite Hc in Hrs.
    destruct (Z.ltb_spec 0 (block_restart_interval (options_ b))) as [_|]; [|lia].
    cbn [negb] in Hrs. rewrite Hrs, H0.
    split; [reflexivity|]. split.
    + intros i j ri rj Hi Hj Hij. destruct i, j; cbn in *; try lia; discriminate.
    + intros r Hin. apply list_elem_of_singleton in Hin. subst r.
      rewrite Hnil in Hgrow. unfold size at 1 in Hgrow. cbn in Hgrow. lia.
  - rewrite Hrs. pose proof (size_nonneg (buffer_ b)) as Hnn'.
    destruct (negb _).
    + rewrite wrap32_small by lia.
      split; [destruct (restarts_ b); [discriminate|exact Hhead]|].
      split; [apply ascending_snoc; [exact Hasc|intros r Hr'; apply Hin in Hr'; lia]|].
      intros r Hr'. apply elem_of_app in Hr' as [Hr'|Hr'].
      * apply Hin in Hr'. lia.
      * apply list_elem_of_singleton in Hr'. subst r. lia.
    + split; [exact Hhead|]. split; [exact Hasc|].
      intros r Hr'. apply Hin in Hr'. lia.
Qed.

Lemma AddAll_restarts_in_order (kvs : list (list byte * list byte)) :
  forall b bf : BlockBuilder.t,
    1 <= block_restart_interval (options_ b) ->
    AddAll b kvs = Some bf ->
    size (buffer_ bf) < 2 ^ 32 ->
    restarts_in_order b -> restarts_in_order bf.
Proof.
  induction kvs as [|[key value] kvs IH]; intros b bf Hr H Hsmall HR.
  - injection H as <-. exact HR.
  - cbn [AddAll] in H. destruct (Add b key value) as [b1|] eqn:HA; [|discriminate].
    cbn [mbind option_bind] in H.
    pose proof (AddAll_size_mono _ _ _ H) as Hmono1.
    assert (Hmono : size (buffer_ b) <= size (buffer_ b1)).
    { apply (AddAll_size_mono [(key, value)]). cbn. rewrite HA. reflexivity. }
    destruct (Add_order _ _ _ _ HA) as (_ & _ & _ & Hopt).
    apply (IH b1 bf); [rewrite Hopt; exact Hr|exact H|exact Hsmall|].
    apply (Add_restarts_in_order b b1 key value Hr); [lia|exact HA|exact HR].
Qed.

(** X11.  In a finished block shorter than [2^32] bytes the restart array
    starts with the offset 0 and is strictly increasing, and when the block
    has a record every restart offset lies inside the record area: the
    array can be searched by bisection. *)
Theorem restart_array_ascending (options : Options)
    (kvs : list (list byte * list byte)) (block : list byte) :
  build options kvs = Some block -> size block < 2 ^ 32 ->
  exists rs off,
    restarts block = Some rs /\ restart_offset block = Some off /\
    head rs = Some 0 /\ ascending rs /\
    (kvs <> [] -> forall r, r ∈ rs -> 0 <= r < off).
Proof.
  intros Hbuild Hsize. unfold build in Hbuild.
  destruct (new options) as [b|] eqn:Hnew; [|discriminate].
  cbn [mbind option_bind] in Hbuild.
  destruct (AddAll b kvs) as [bf|] eqn:HA; [|discriminate].
  cbn [mbind option_bind] in Hbuild.
  assert (Hblock : block = snd (Finish bf)) by congruence.
  rewrite Finish_bytes in Hblock. subst block. clear Hbuild.
  unfold new in Hnew.
  destruct (Z.leb_spec 1 (block_restart_interval options)) as [Hr|]; [|discriminate].
  cbn [negb] in Hnew. injection Hnew as <-.
  rewrite !size_app, size_restart_array, size_EncodeFixed32 in Hsize.
  pose proof (size_nonneg (buffer_ bf)) as Hnn.
  assert (HR : restarts_in_order bf).
  { refine (AddAll_restarts_in_order kvs _ bf _ HA _ _); [exact Hr|lia|].
    left. split; [reflexivity|]. split; reflexivity. }
  assert (Hrange : Forall (fun r => 0 <= r < 2 ^ 32) (restarts_ bf)).
  { apply Forall_forall. intros r Hin.
    destruct HR as [(_ & H0 & _)|(_ & _ & _ & Hall)].
    - rewrite H0 in Hin. apply list_elem_of_singleton in Hin. subst r.
      split; [lia|reflexivity].
    - apply Hall in Hin. lia. }
  assert (Hcount : Z.of_nat (length (restarts_ bf)) < 2 ^ 32) by lia.
  rewrite (wrap32_small (Z.of_nat (length (restarts_ bf)))) by lia.
  exists (restarts_ bf), (size (buffer_ bf)).
  split; [exact (trailer_restarts (buffer_ bf) (restarts_ bf) Hrange Hcount)|].
  split; [exact (trailer_restart_offset (buffer_ bf) (restarts_ bf) Hcount)|].
  destruct HR as [(Hnil & H0 & _)|(Hne & Hhead & Hasc & Hall)].
  - rewrite H0. split; [reflexivity|]. split.
    + intros i j ri rj Hi Hj Hij. destruct i, j; cbn in *; try lia; discriminate.
    + intros Hkvs. exfalso. destruct kvs as [|[key value] kvs]; [contradiction|].
      cbn [AddAll] in HA.
      destruct (Add _ key value) as [b1|] eqn:HA1; [|discriminate].
      cbn [mbind option_bind] in HA.
      destruct (Add_order _ _ _ _ HA1) as (_ & Hne1 & _ & _).
      pose proof (AddAll_size_mono _ _ _ HA) as Hmono.
      rewrite Hnil in Hmono. apply Hne1.
      destruct (buffer_ b1); [reflexivity|]. unfold size in Hmono. cbn in Hmono. lia.
  - split; [exact Hhead|]. split; [exact Hasc|]. intros _. exact Hall.
Qed.

End BlockBuilderMore.

Lemma build_abc_is_Some :
  BlockBuilder.build Stated.options_2 Stated.abc_abd_abe
  = Some (from_option id [] (BlockBuilder.build Stated.options_2 Stated.abc_abd_abe)) /\
  size (from_option id [] (BlockBuilder.build Stated.options_2 Stated.abc_abd_abe))
  < 2 ^ 32.
Proof. split; vm_compute; reflexivity. Qed.

Lemma restart_array_ascending_witness :
  exists rs off,
    Block.restarts
      (from_option id [] (BlockBuilder.build Stated.options_2 Stated.abc_abd_abe))
    = Some rs /\
    Block.restart_offset
      (from_option id [] (BlockBuilder.build Stated.options_2 Stated.abc_abd_abe))
    = Some off /\
    head rs = Some 0 /\ RestartOrder.ascending rs /\
    (Stated.abc_abd_abe <> [] -> forall r, r ∈ rs -> 0 <= r < off).
Proof.
  exact (restart_array_ascending Stated.options_2 Stated.abc_abd_abe _
           (proj1 build_abc_is_Some) (proj2 build_abc_is_Some)).
Defined.

(** ** db/dbformat: internal keys *)

Section InternalKeyFacts.
Import Coding DBFormat.

Lemma slice_to_app_size (a b : list byte) : slice_to (size a) (a ++ b) = a.
Proof. unfold slice_to, size. rewrite Nat2Z.id. apply take_app_length. Qed.

Lemma slice_from_app_size (a b : list byte) : slice_from (size a) (a ++ b) = b.
Proof. unfold slice_from, size. rewrite Nat2Z.id. apply drop_app_length. Qed.

Lemma size_EncodeFixed64 (v : Z) : size (EncodeFixed64 v) = 8.
Proof. unfold size. rewrite EncodeFixed64_length. reflexivity. Qed.

(** An internal key with a tag appended: its user key and its tag. *)
Lemma tagged_key (u : list byte) (tag : Z) :
  0 <= tag < 2 ^ 64 ->
  ExtractUserKey (u ++ EncodeFixed64 tag) = Some u /\
  tag_of (u ++ EncodeFixed64 tag) = Some tag /\
  size (u ++ EncodeFixed64 tag) = size u + 8.
Proof.
  intros Htag.
  assert (Hsz : size (u ++ EncodeFixed64 tag) = size u + 8)
    by (rewrite size_app, size_EncodeFixed64; reflexivity).
  pose proof (size_nonneg u) as Hu.
  split; [|split; [|exact Hsz]].
  - unfold ExtractUserKey. rewrite Hsz.
    destruct (Z.leb_spec 8 (size u + 8)) as [_|]; [|lia]. cbn [negb].
    replace (size u + 8 - 8) with (size u) by lia. rewrite slice_to_app_size. reflexivity.
  - unfold tag_of. rewrite Hsz. replace (size u + 8 - 8) with (size u) by lia.
    rewrite slice_from_app_size.
    rewrite <- (app_nil_r (EncodeFixed64 tag)).
    apply DecodeFixed64_EncodeFixed64. exact Htag.
Qed.

Lemma pack_fields (s t : Z) :
  0 <= s < 2 ^ 56 -> 0 <= t < 256 ->
  let tag := Z.lor (Z.shiftl s 8) t in
  0 <= tag < 2 ^ 64 /\ Z.shiftr tag 8 = s /\ Z.land tag 255 = t.
Proof.
  intros Hs Ht tag.
  assert (Htag : tag = s * 256 + t).
  { unfold tag. rewrite Z.lor_comm. rewrite Z.shiftl_mul_pow2 by lia.
    rewrite (lor_disjoint 8); [change (2 ^ 8) with 256; lia|lia|cbn; lia|].
    apply Z.mod_mul. lia. }
  rewrite Htag. split; [|split].
  - change (2 ^ 64) with (2 ^ 56 * 256). lia.
  - rewrite Z.shiftr_div_pow2 by lia. change (2 ^ 8) with 256.
    symmetry. apply Z.div_unique with t; lia.
  - rewrite land_255. symmetry. apply Z.mod_unique with s; lia.
Qed.

(** X12.  [AppendInternalKey] appends the user key and eight bytes, and the
    three fields are read back from the internal key so written: the user
    key by [ExtractUserKey], the sequence number and the type from the tag. *)
Theorem AppendInternalKey_round_trip (vt : ValueTypes) (result : list byte)
    (key : ParsedInternalKey) :
  0 <= sequence key <= kMaxSequenceNumber ->
  0 <= type key <= kValueTypeForSeek vt -> kValueTypeForSeek vt < 256 ->
  exists ikey,
    AppendInternalKey vt result key = Some (result ++ ikey) /\
    size ikey = size (user_key key) + 8 /\
    ExtractUserKey ikey = Some (user_key key) /\
    sequence_of ikey = Some (sequence key) /\
    type_of ikey = Some (type key).
Proof.
  intros Hs Ht Hseek.
  exists (user_key key ++ EncodeFixed64 (Z.lor (Z.shiftl (sequence key) 8) (type key))).
  change kMaxSequenceNumber with (2 ^ 56 - 1) in Hs.
  destruct (pack_fields (sequence key) (type key) ltac:(lia) ltac:(lia))
    as (Htag & Hseq & Hty).
  destruct (tagged_key (user_key key) _ Htag) as (Hu & Htagof & Hsz).
  split.
  - unfold AppendInternalKey.
    rewrite PackSequenceAndType_Some
      by (change kMaxSequenceNumber with (2 ^ 56 - 1); lia).
    cbn [mbind option_bind]. unfold PutFixed64. rewrite app_assoc. reflexivity.
  - split; [exact Hsz|]. split; [exact Hu|].
    unfold sequence_of, type_of. rewrite Htagof. cbn [mbind option_bind].
    rewrite Hseq, Hty. split; reflexivity.
Qed.

(** X13.  The lookup key fits the buffer that [LookupKey] sizes for it:
    what is written is at most [usize + 13] bytes, the conservative estimate
    of the constructor. *)
Theorem LookupKey_fits_estimate (vt : ValueTypes) (u : list byte) (s : Z)
    (bytes : list byte) :
  LookupKey vt u s = Some bytes ->
  size u + 9 <= size bytes <= size u + 13.
Proof.
  intros H. unfold LookupKey in H.
  destruct (PackSequenceAndType vt s (kValueTypeForSeek vt)) as [packed|];
    [|discriminate].
  cbn [mbind option_bind] in H. injection H as <-.
  rewrite !size_app, size_EncodeFixed64.
  pose proof (size_EncodeVarint32 (wrap32 (size u + 8))). lia.
Qed.

End InternalKeyFacts.

Lemma AppendInternalKey_round_trip_witness :
  exists ikey,
    DBFormat.AppendInternalKey DBFormat.leveldb_types [x2a]
      {| DBFormat.user_key := [x6b]; DBFormat.sequence := 5; DBFormat.type := 1 |}
    = Some ([x2a] ++ ikey) /\
    size ikey = size [x6b] + 8 /\
    DBFormat.ExtractUserKey ikey = Some [x6b] /\
    DBFormat.sequence_of ikey = Some 5 /\
    DBFormat.type_of ikey = Some 1.
Proof.
  apply (AppendInternalKey_round_trip DBFormat.leveldb_types [x2a]
           {| DBFormat.user_key := [x6b]; DBFormat.sequence := 5;
              DBFormat.type := 1 |});
    vm_compute; first [reflexivity | split; discriminate].
Defined.

Lemma LookupKey_fits_estimate_witness :
  size [x6b] + 9
  <= size (from_option id [] (DBFormat.LookupKey DBFormat.leveldb_types [x6b] 5))
  <= size [x6b] + 13.
Proof.
  apply (LookupKey_fits_estimate DBFormat.leveldb_types [x6b] 5). reflexivity.
Defined.

(** ** db/dbformat: the order of internal keys *)

Section InternalOrder.
Import Coding DBFormat InternalKeyComparator.

Variable cmp : list byte -> list byte -> Z.

(** What [Compare] computes on two internal keys, in terms of their user
    keys and tags. *)
Lemma Compare_eval (a b : list byte) :
  8 <= size a -> 8 <= size b ->
  exists ua ub ta tb,
    ExtractUserKey a = Some ua /\ ExtractUserKey b = Some ub /\
    tag_of a = Some ta /\ tag_of b = Some tb /\
    Compare cmp a b
    = Some (if cmp ua ub =? 0
            then (if ta >? tb then -1 else if ta <? tb then 1 else cmp ua ub)
            else cmp ua ub).
Proof.
  intros Ha Hb.
  destruct (tag_of_Some a Ha) as (ta & Hta & _).
  destruct (tag_of_Some b Hb) as (tb & Htb & _).
  exists (slice_to (size a - 8) a), (slice_to (size b - 8) b), ta, tb.
  unfold Compare, ExtractUserKey.
  destruct (Z.leb_spec 8 (size a)) as [_|]; [|lia].
  destruct (Z.leb_spec 8 (size b)) as [_|]; [|lia].
  cbn [negb mbind option_bind].
  split; [reflexivity|]. split; [reflexivity|].
  split; [exact Hta|]. split; [exact Htb|].
  unfold tag_of in Hta, Htb. rewrite Hta, Htb. cbn [mbind option_bind].
  destruct (cmp _ _ =? 0); [|reflexivity].
  destruct (ta >? tb); [reflexivity|]. destruct (ta <? tb); reflexivity.
Qed.

Hypothesis cmp_order : total_preorder cmp.

Lemma cmp_swap_le (x y : list byte) : cmp x y <= 0 <-> 0 <= cmp y x.
Proof. destruct cmp_order as [Hsw _]. specialize (Hsw x y). lia. Qed.

Lemma cmp_eq_trans (x y z : list byte) : cmp x y = 0 -> cmp y z = 0 -> cmp x z = 0.
Proof.
  intros H1 H2. destruct cmp_order as [Hsw Htr].
  assert (cmp x z <= 0) by (apply (Htr x y z); lia).
  assert (cmp z x <= 0).
  { apply (Htr z y x).
    - pose proof (Hsw y z). lia.
    - pose proof (Hsw x y). lia. }
  pose proof (Hsw x z). lia.
Qed.

Lemma cmp_lt_le_trans (x y z : list byte) : cmp x y < 0 -> cmp y z <= 0 -> cmp x z < 0.
Proof.
  intros H1 H2. destruct cmp_order as [Hsw Htr].
  destruct (Z.lt_ge_cases (cmp x z) 0) as [|Hge]; [assumption|exfalso].
  assert (cmp z x <= 0) by (pose proof (Hsw x z); lia).
  assert (cmp y x <= 0) by (apply (Htr y z x); assumption).
  pose proof (Hsw x y). lia.
Qed.

Lemma cmp_le_lt_trans (x y z : list byte) : cmp x y <= 0 -> cmp y z < 0 -> cmp x z < 0.
Proof.
  intros H1 H2. destruct cmp_order as [Hsw Htr].
  destruct (Z.lt_ge_cases (cmp x z) 0) as [|Hge]; [assumption|exfalso].
  assert (cmp z x <= 0) by (pose proof (Hsw x z); lia).
  assert (cmp z y <= 0) by (apply (Htr z x y); assumption).
  pose proof (Hsw y z). lia.
Qed.

(** X14.  When the user comparator orders the user keys, [Compare] orders
    the internal keys: swapping the arguments flips the sign of the answer,
    "not greater" is transitive, and the answer is zero only for two keys
    with equal user keys (under the user comparator) and the same tag. *)
Theorem Compare_total_preorder (a b c : list byte) :
  8 <= size a -> 8 <= size b -> 8 <= size c ->
  exists rab rba rbc rac ua ub,
    Compare cmp a b = Some rab /\ Compare cmp b a = Some rba /\
    Compare cmp b c = Some rbc /\ Compare cmp a c = Some rac /\
    ExtractUserKey a = Some ua /\ ExtractUserKey b = Some ub /\
    Z.sgn rba = - Z.sgn rab /\
    (rab <= 0 -> rbc <= 0 -> rac <= 0) /\
    (rab = 0 <-> cmp ua ub = 0 /\ tag_of a = tag_of b).
Proof.
  intros Ha Hb Hc.
  destruct (Compare_eval a b Ha Hb) as (ua & ub & ta & tb & Hua & Hub & Hta & Htb & Hab).
  destruct (Compare_eval b a Hb Ha) as (ub' & ua' & tb' & ta' & Hub' & Hua' & Htb' & Hta' & Hba).
  destruct (Compare_eval b c Hb Hc) as (ub2 & uc & tb2 & tc & Hub2 & Huc & Htb2 & Htc & Hbc).
  destruct (Compare_eval a c Ha Hc) as (ua2 & uc2 & ta2 & tc2 & Hua2 & Huc2 & Hta2 & Htc2 & Hac).
  assert (ub' = ub) by congruence. assert (ua' = ua) by congruence.
  assert (tb' = tb) by congruence. assert (ta' = ta) by congruence.
  assert (ub2 = ub) by congruence. assert (tb2 = tb) by congruence.
  assert (ua2 = ua) by congruence. assert (ta2 = ta) by congruence.
  assert (uc2 = uc) by congruence. assert (tc2 = tc) by congruence.
  subst. clear Hub' Hua' Htb' Hta' Hub2 Htb2 Hua2 Hta2 Huc2 Htc2.
  do 4 eexists. exists ua, ub.
  split; [exact Hab|]. split; [exact Hba|]. split; [exact Hbc|]. split; [exact Hac|].
  split; [exact Hua|]. split; [exact Hub|].
  destruct cmp_order as [Hsw Htr].
  pose proof (Hsw ua ub) as Hsab.
  split; [|split].
  - destruct (Z.eqb_spec (cmp ua ub) 0) as [E1|E1];
      destruct (Z.eqb_spec (cmp ub ua) 0) as [E2|E2]; try lia.
    destruct (Z.gtb_spec ta tb); destruct (Z.ltb_spec ta tb);
      destruct (Z.gtb_spec tb ta); destruct (Z.ltb_spec tb ta); cbn; lia.
  - intros H1 H2.
    destruct (Z.eqb_spec (cmp ua ub) 0) as [E1|E1].
    + destruct (Z.eqb_spec (cmp ub uc) 0) as [E2|E2].
      * rewrite (cmp_eq_trans ua ub uc E1 E2). cbn [Z.eqb].
        rewrite E1 in H1. rewrite E2 in H2.
        destruct (Z.gtb_spec ta tb); destruct (Z.ltb_spec ta tb); try lia;
          destruct (Z.gtb_spec tb tc); destruct (Z.ltb_spec tb tc); try lia;
          destruct (Z.gtb_spec ta tc); destruct (Z.ltb_spec ta tc); lia.
      * assert (Hlt : cmp ua uc < 0) by (apply (cmp_le_lt_trans ua ub uc); lia).
        destruct (Z.eqb_spec (cmp ua uc) 0); lia.
    + assert (Hlt : cmp ua uc < 0).
      { apply (cmp_lt_le_trans ua ub uc); [lia|].
        destruct (Z.eqb_spec (cmp ub uc) 0); lia. }
      destruct (Z.eqb_spec (cmp ua uc) 0); lia.
  - rewrite Hta, Htb.
    destruct (Z.eqb_spec (cmp ua ub) 0) as [E1|E1].
    + destruct (Z.gtb_spec ta tb); destruct (Z.ltb_spec ta tb); split;
        try (intros [_ [= ?]]); try intros ?; try (split; [assumption|f_equal]); lia.
    + split; [intros ?; contradiction|intros [? _]; contradiction].
Qed.

End InternalOrder.

(** The bytewise order is a total preorder. *)
Lemma BytewiseCompare_swap (x : list byte) :
  forall y, DBFormat.BytewiseCompare y x = - DBFormat.BytewiseCompare x y.
Proof.
  induction x as [|a x IH]; intros [|b y]; cbn [DBFormat.BytewiseCompare]; try reflexivity.
  destruct (Z.ltb_spec (Z_of_byte b) (Z_of_byte a));
    destruct (Z.ltb_spec (Z_of_byte a) (Z_of_byte b)); try lia; try reflexivity.
  apply IH.
Qed.

Lemma BytewiseCompare_range (x : list byte) :
  forall y, -1 <= DBFormat.BytewiseCompare x y <= 1.
Proof.
  induction x as [|a x IH]; intros [|b y]; cbn [DBFormat.BytewiseCompare]; try lia.
  destruct (Z_of_byte a <? Z_of_byte b); [lia|].
  destruct (Z_of_byte b <? Z_of_byte a); [lia|]. apply IH.
Qed.

Lemma BytewiseCompare_trans (x : list byte) :
  forall y z,
    DBFormat.BytewiseCompare x y <= 0 -> DBFormat.BytewiseCompare y z <= 0 ->
    DBFormat.BytewiseCompare x z <= 0.
Proof.
  induction x as [|a x IH]; intros [|b y] [|c z]; cbn [DBFormat.BytewiseCompare];
    try lia.
  destruct (Z.ltb_spec (Z_of_byte a) (Z_of_byte b));
    destruct (Z.ltb_spec (Z_of_byte b) (Z_of_byte a));
    destruct (Z.ltb_spec (Z_of_byte b) (Z_of_byte c));
    destruct (Z.ltb_spec (Z_of_byte c) (Z_of_byte b));
    destruct (Z.ltb_spec (Z_of_byte a) (Z_of_byte c));
    destruct (Z.ltb_spec (Z_of_byte c) (Z_of_byte a)); try lia.
  apply IH.
Qed.

Lemma BytewiseCompare_total_preorder :
  InternalKeyComparator.total_preorder DBFormat.BytewiseCompare.
Proof.
  split.
  - intros x y. rewrite BytewiseCompare_swap. apply Z.sgn_opp.
  - intros x y z. apply BytewiseCompare_trans.
Qed.

Lemma Compare_total_preorder_witness :
  exists rab rba rbc rac ua ub,
    DBFormat.Compare DBFormat.BytewiseCompare
      Stated.key_k_5_value Stated.key_k_5_deletion = Some rab /\
    DBFormat.Compare DBFormat.BytewiseCompare
      Stated.key_k_5_deletion Stated.key_k_5_value = Some rba /\
    DBFormat.Compare DBFormat.BytewiseCompare
      Stated.key_k_5_deletion ComparatorExamples.key_abzz_5 = Some rbc /\
    DBFormat.Compare DBFormat.BytewiseCompare
      Stated.key_k_5_value ComparatorExamples.key_abzz_5 = Some rac /\
    DBFormat.ExtractUserKey Stated.key_k_5_value = Some ua /\
    DBFormat.ExtractUserKey Stated.key_k_5_deletion = Some ub /\
    Z.sgn rba = - Z.sgn rab /\
    (rab <= 0 -> rbc <= 0 -> rac <= 0) /\
    (rab = 0 <-> DBFormat.BytewiseCompare ua ub = 0 /\
                 DBFormat.tag_of Stated.key_k_5_value
                 = DBFormat.tag_of Stated.key_k_5_deletion).
Proof.
  apply (Compare_total_preorder DBFormat.BytewiseCompare
           BytewiseCompare_total_preorder
           Stated.key_k_5_value Stated.key_k_5_deletion ComparatorExamples.key_abzz_5);
    vm_compute; discriminate.
Defined.

(** ** db/dbformat: separators and the filter policy on internal keys *)

Section SeparatorFacts.
Import Coding DBFormat InternalKeyComparator.

Variable vt : ValueTypes.
Variable uc : Comparator.

Lemma max_tag (Hvt : consistent vt) :
  let tag := Z.lor (Z.shiftl kMaxSequenceNumber 8) (kValueTypeForSeek vt) in
  PackSequenceAndType vt kMaxSequenceNumber (kValueTypeForSeek vt) = Some tag /\
  0 <= tag < 2 ^ 64 /\
  Z.shiftr tag 8 = kMaxSequenceNumber /\ Z.land tag 255 = kValueTypeForSeek vt.
Proof.
  destruct Hvt as (_ & _ & _ & Hk & _ & _). intros tag. split.
  - apply PackSequenceAndType_Some; [|lia].
    change kMaxSequenceNumber with (2 ^ 56 - 1). lia.
  - apply pack_fields; [|lia]. change kMaxSequenceNumber with (2 ^ 56 - 1). lia.
Qed.

(** A key compared with a key of another user key: the answer of the user
    comparator. *)
Lemma Compare_other_user_key (a b ua ub : list byte) :
  ExtractUserKey a = Some ua -> ExtractUserKey b = Some ub ->
  user_Compare uc ua ub <> 0 ->
  Compare (user_Compare uc) a b = Some (user_Compare uc ua ub).
Proof.
  intros Ha Hb Hne. unfold Compare. rewrite Ha, Hb. cbn [mbind option_bind].
  destruct (Z.eqb_spec (user_Compare uc ua ub) 0); [contradiction|reflexivity].
Qed.

Lemma ExtractUserKey_size (a ua : list byte) :
  ExtractUserKey a = Some ua -> 8 <= size a /\ size ua = size a - 8.
Proof.
  unfold ExtractUserKey. destruct (Z.leb_spec 8 (size a)) as [H|]; [|discriminate].
  cbn [negb]. intros [= <-]. split; [exact H|].
  unfold slice_to, size in *. rewrite length_take. lia.
Qed.

(** X15.  [FindShortSuccessor] never fails its assertion.  It leaves the
    key as it is, or replaces it by a shorter key that sorts after it: the
    successor found by the user comparator, tagged with the largest sequence
    number and the seek type. *)
Theorem FindShortSuccessor_result (key ukey : list byte) :
  consistent vt -> ExtractUserKey key = Some ukey ->
  exists r, FindShortSuccessor vt uc key = Some r /\
    (r = key \/
     (size r < size key /\
      (exists c, Compare (user_Compare uc) key r = Some c /\ c < 0) /\
      ExtractUserKey r = Some (user_FindShortSuccessor uc ukey) /\
      sequence_of r = Some kMaxSequenceNumber /\
      type_of r = Some (kValueTypeForSeek vt))).
Proof.
  intros Hvt Hkey. unfold FindShortSuccessor. rewrite Hkey. cbn [mbind option_bind].
  set (tmp := user_FindShortSuccessor uc ukey).
  destruct ((size tmp <? size ukey) && (user_Compare uc ukey tmp <? 0)) eqn:Hcond;
    [|exists key; split; [reflexivity|left; reflexivity]].
  apply andb_true_iff in Hcond as [Hshort Hlt].
  apply Z.ltb_lt in Hshort, Hlt.
  destruct (max_tag Hvt) as (Hpack & Htag & Hseq & Hty). cbv zeta in *.
  rewrite Hpack. cbn [mbind option_bind]. unfold PutFixed64.
  destruct (tagged_key tmp _ Htag) as (Hu & Htagof & Hsz).
  rewrite (Compare_other_user_key key _ ukey tmp Hkey Hu) by lia.
  cbn [mbind option_bind].
  destruct (Z.ltb_spec (user_Compare uc ukey tmp) 0) as [_|]; [|lia]. cbn [negb].
  eexists. split; [reflexivity|]. right.
  destruct (ExtractUserKey_size _ _ Hkey) as [_ Hsk].
  split; [lia|]. split; [exists (user_Compare uc ukey tmp); split; [|exact Hlt]|].
  - apply Compare_other_user_key; [exact Hkey|exact Hu|lia].
  - split; [exact Hu|]. unfold sequence_of, type_of. rewrite Htagof.
    cbn [mbind option_bind]. rewrite Hseq, Hty. split; reflexivity.
Qed.

(** X16.  [FindShortestSeparator] leaves [start] as it is unless the user
    comparator has found a shorter user key that sorts after the one of
    [start].  In that case its first assertion cannot fail: the tagged
    separator sorts after [start].  The call returns the separator exactly
    when the separator also sorts before [limit], which it does whenever its
    user key sorts before the one of [limit]; otherwise the second assertion
    fails. *)
Theorem FindShortestSeparator_result (start limit us ul : list byte) :
  consistent vt ->
  ExtractUserKey start = Some us -> ExtractUserKey limit = Some ul ->
  let t := user_FindShortestSeparator uc us ul in
  let sep := t ++ EncodeFixed64
                    (Z.lor (Z.shiftl kMaxSequenceNumber 8) (kValueTypeForSeek vt)) in
  if (size t <? size us) && (user_Compare uc us t <? 0) then
    size sep < size start /\
    (exists c1, Compare (user_Compare uc) start sep = Some c1 /\ c1 < 0) /\
    exists c2, Compare (user_Compare uc) sep limit = Some c2 /\
      FindShortestSeparator vt uc start limit
      = (if c2 <? 0 then Some sep else None) /\
      (user_Compare uc t ul < 0 -> c2 < 0)
  else FindShortestSeparator vt uc start limit = Some start.
Proof.
  intros Hvt Hs Hl t sep. unfold FindShortestSeparator.
  rewrite Hs, Hl. cbn [mbind option_bind]. fold t.
  destruct ((size t <? size us) && (user_Compare uc us t <? 0)) eqn:Hcond;
    [|reflexivity].
  apply andb_true_iff in Hcond as [Hshort Hlt].
  apply Z.ltb_lt in Hshort, Hlt.
  destruct (max_tag Hvt) as (Hpack & Htag & Hseq & Hty). cbv zeta in *.
  rewrite Hpack. cbn [mbind option_bind]. unfold PutFixed64. fold sep.
  destruct (tagged_key t _ Htag) as (Hu & Htagof & Hsz). fold sep in Hu, Htagof, Hsz.
  destruct (ExtractUserKey_size _ _ Hs) as [_ Hss].
  destruct (ExtractUserKey_size _ _ Hl) as [Hl8 _].
  pose proof (size_nonneg t) as Hnt.
  assert (Hc1 : Compare (user_Compare uc) start sep = Some (user_Compare uc us t))
    by (apply Compare_other_user_key; [exact Hs|exact Hu|lia]).
  split; [lia|]. split; [exists (user_Compare uc us t); split; [exact Hc1|exact Hlt]|].
  rewrite Hc1. cbn [mbind option_bind].
  destruct (Z.ltb_spec (user_Compare uc us t) 0) as [_|]; [|lia]. cbn [negb].
  destruct (Compare_eval (user_Compare uc) sep limit ltac:(lia) Hl8)
    as (ua & ub & ta & tb & Hua & Hub & _ & _ & Hc2).
  assert (ua = t) by congruence. assert (ub = ul) by congruence. subst ua ub.
  rewrite Hc2. cbn [mbind option_bind].
  eexists. split; [reflexivity|]. split.
  - destruct (_ <? 0); reflexivity.
  - intros Hlt2. destruct (Z.eqb_spec (user_Compare uc t ul) 0); lia.
Qed.

End SeparatorFacts.

Lemma FindShortSuccessor_result_witness :
  exists r,
    InternalKeyComparator.FindShortSuccessor DBFormat.leveldb_types
      ComparatorExamples.toy_comparator ComparatorExamples.key_abcd_5 = Some r /\
    (r = ComparatorExamples.key_abcd_5 \/
     (size r < size ComparatorExamples.key_abcd_5 /\
      (exists c, DBFormat.Compare DBFormat.BytewiseCompare
                   ComparatorExamples.key_abcd_5 r = Some c /\ c < 0) /\
      DBFormat.ExtractUserKey r = Some [x62] /\
      DBFormat.sequence_of r = Some DBFormat.kMaxSequenceNumber /\
      DBFormat.type_of r = Some 1)).
Proof.
  apply (FindShortSuccessor_result DBFormat.leveldb_types
           ComparatorExamples.toy_comparator ComparatorExamples.key_abcd_5
           [x61; x62; x63; x64] leveldb_types_consistent).
  reflexivity.
Defined.

Lemma FindShortestSeparator_result_witness :
  let sep := [x61; x62; x64]
             ++ Coding.EncodeFixed64 (Z.lor (Z.shiftl DBFormat.kMaxSequenceNumber 8) 1) in
  size sep < size ComparatorExamples.key_abcd_5 /\
  (exists c1, DBFormat.Compare DBFormat.BytewiseCompare
                ComparatorExamples.key_abcd_5 sep = Some c1 /\ c1 < 0) /\
  exists c2, DBFormat.Compare DBFormat.BytewiseCompare sep
               ComparatorExamples.key_abzz_5 = Some c2 /\
    InternalKeyComparator.FindShortestSeparator DBFormat.leveldb_types
      ComparatorExamples.toy_comparator ComparatorExamples.key_abcd_5
      ComparatorExamples.key_abzz_5
    = (if c2 <? 0 then Some sep else None) /\
    (DBFormat.BytewiseCompare [x61; x62; x64] [x61; x62; x7a; x7a] < 0 -> c2 < 0).
Proof.
  exact (FindShortestSeparator_result DBFormat.leveldb_types
           ComparatorExamples.toy_comparator ComparatorExamples.key_abcd_5
           ComparatorExamples.key_abzz_5 [x61; x62; x63; x64] [x61; x62; x7a; x7a]
           leveldb_types_consistent eq_refl eq_refl).
Defined.

Section InternalPolicyFacts.
Import DBFormat FilterBlock FilterBlockUse.

Lemma mapM_ExtractUserKey (keys : list (list byte)) :
  (forall k, k ∈ keys -> 8 <= size k) ->
  exists mkey, mapM ExtractUserKey keys = Some mkey /\
    forall k u, k ∈ keys -> ExtractUserKey k = Some u -> u ∈ mkey.
Proof.
  induction keys as [|k0 keys IH]; intros Hall.
  - exists []. split; [reflexivity|]. intros k u Hin. inversion Hin.
  - destruct IH as (mkey & Hm & Hin); [intros k Hk; apply Hall; right; exact Hk|].
    assert (H0 : 8 <= size k0) by (apply Hall; left).
    assert (Hu0 : ExtractUserKey k0 = Some (slice_to (size k0 - 8) k0)).
    { unfold ExtractUserKey. destruct (Z.leb_spec 8 (size k0)) as [_|]; [|lia].
      reflexivity. }
    exists (slice_to (size k0 - 8) k0 :: mkey). split.
    + apply mapM_Some. constructor; [exact Hu0|]. apply mapM_Some. exact Hm.
    + intros k u Hk Hu. apply elem_of_cons in Hk as [->|Hk].
      * rewrite Hu0 in Hu. injection Hu as <-. left.
      * right. exact (Hin k u Hk Hu).
Qed.

(** X17.  The policy on internal keys makes its filter from the user keys
    alone: when the user policy keeps its contract, the filter made from a
    set of internal keys matches every internal key that has the user key of
    one of them, whatever its sequence number and type. *)
Theorem InternalFilterPolicy_no_false_negative (user_policy : FilterPolicy)
    (keys : list (list byte)) (dst : list byte) :
  sound user_policy ->
  (forall k, k ∈ keys -> 8 <= size k) ->
  exists mkey f,
    InternalFilterPolicy.CreateFilter user_policy keys dst = Some (mkey, dst ++ f) /\
    mapM ExtractUserKey keys = Some mkey /\
    forall key key' u,
      key ∈ keys -> ExtractUserKey key = Some u -> ExtractUserKey key' = Some u ->
      InternalFilterPolicy.KeyMayMatch user_policy key' f = Some true.
Proof.
  intros Hsound Hall.
  destruct (mapM_ExtractUserKey keys Hall) as (mkey & Hm & Hin).
  destruct (Hsound mkey dst) as (f & Hf & Hmatch).
  exists mkey, f. unfold InternalFilterPolicy.CreateFilter.
  rewrite Hm. cbn [mbind option_bind]. rewrite Hf.
  split; [reflexivity|]. split; [reflexivity|].
  intros key key' u Hk Hu Hu'. unfold InternalFilterPolicy.KeyMayMatch.
  rewrite Hu'. cbn [mbind option_bind]. f_equal.
  apply Hmatch. exact (Hin key u Hk Hu).
Qed.

End InternalPolicyFacts.

Lemma InternalFilterPolicy_no_false_negative_witness :
  exists mkey f,
    InternalFilterPolicy.CreateFilter FilterExamples.always_match
      [Stated.key_k_5_value; ComparatorExamples.key_abcd_5] [x2a]
    = Some (mkey, [x2a] ++ f) /\
    mapM DBFormat.ExtractUserKey [Stated.key_k_5_value; ComparatorExamples.key_abcd_5]
    = Some mkey /\
    forall key key' u,
      key ∈ [Stated.key_k_5_value; ComparatorExamples.key_abcd_5] ->
      DBFormat.ExtractUserKey key = Some u -> DBFormat.ExtractUserKey key' = Some u ->
      InternalFilterPolicy.KeyMayMatch FilterExamples.always_match key' f = Some true.
Proof.
  apply (InternalFilterPolicy_no_false_negative FilterExamples.always_match
           [Stated.key_k_5_value; ComparatorExamples.key_abcd_5] [x2a]
           always_match_sound).
  intros k Hk. apply elem_of_cons in Hk as [->|Hk].
  - vm_compute. discriminate.
  - apply list_elem_of_singleton in Hk. subst k. vm_compute. discriminate.
Defined.

(** ** util/cache: [Lookup] and [Erase] on a well-formed shard *)

Section ShardCalls.
Import Cache Cache.LRUCache CacheInv.

Lemma set_table_same (c : LRUCache.t) : set_table c (table_ c) = c.
Proof. destruct c; reflexivity. Qed.

Lemma NoDup_move_last (l : list ptr) (e : ptr) :
  NoDup l -> NoDup (filter (fun x => x <> e) l ++ [e]).
Proof.
  intros Hnd. apply NoDup_app. split; [apply NoDup_filter; exact Hnd|].
  split; [|apply NoDup_singleton].
  intros x Hx Hx'. apply list_elem_of_singleton in Hx'. subst x.
  apply list_elem_of_filter in Hx as [Hne _]. exact (Hne eq_refl).
Qed.

Lemma elem_of_move_last (l : list ptr) (e p : ptr) :
  e ∈ l -> (p ∈ filter (fun x => x <> e) l ++ [e] <-> p ∈ l).
Proof.
  intros He. rewrite elem_of_app, list_elem_of_filter, list_elem_of_singleton.
  split.
  - intros [[_ H]| ->]; assumption.
  - intros H. destruct (decide (p = e)) as [->|Hne]; [right; reflexivity|left; tauto].
Qed.

(** [Lookup] on a well-formed shard: a miss leaves the shard as it is; a hit
    takes one more reference on the entry with this key and makes it the
    newest of the list. *)
Lemma Lookup_shard (c : LRUCache.t) (key : list byte) (hash0 : Z) :
  WF c ->
  (forall p h, p ∈ lru_ c -> heap c !! p = Some h -> refs h + 1 < 2 ^ 32) ->
  exists c' r, Lookup c key hash0 = Some (c', r) /\ WF c' /\
    match r with
    | None => c' = c /\ forall p, p ∈ lru_ c -> ~ matches (heap c) key hash0 p
    | Some e =>
        exists h, heap c !! e = Some h /\ hash h = hash0 /\ key_data h = key /\
          e ∈ lru_ c /\
          c' = {| capacity_ := capacity_ c; usage_ := usage_ c;
                  lru_ := filter (fun x => x <> e) (lru_ c) ++ [e];
                  table_ := table_ c;
                  heap := <[e := set_refs h (refs h + 1)]> (heap c);
                  next_free := next_free c; deleted := deleted c |}
    end.
Proof.
  intros Hwf Hbound. unfold Lookup.
  destruct (Lookup_spec (heap c) (table_ c) key hash0 (wf_table _ Hwf)) as (r & Hr & Hres).
  rewrite Hr. cbn [mbind option_bind].
  destruct r as [e|].
  - destruct Hres as (Hin & h & Hh & Hhash & Hkey).
    apply (wf_lru_table _ Hwf) in Hin.
    rewrite Hh. cbn [mbind option_bind].
    rewrite (LRU_Remove_Some (set_heap c _) e) by exact Hin.
    cbn [mbind option_bind].
    destruct (wf_refs _ Hwf e Hin) as (h' & Hh' & Hrefs).
    assert (h' = h) by congruence. subst h'.
    pose proof (Hbound e h Hin Hh) as Hb.
    rewrite wrap32_small by lia.
    eexists _, (Some e). split; [reflexivity|].
    assert (Hlog : forall call, call ∈ deleted c -> call_entry call <> e).
    { intros call Hc Heq. destruct (wf_deleted _ Hwf call Hc) as [Hn _].
      rewrite Heq, Hh in Hn. discriminate. }
    split.
    + unfold LRU_Append, set_lru, set_heap.
      constructor; cbn [lru_ table_ heap next_free deleted capacity_ usage_].
      * apply NoDup_move_last. apply (wf_lru_nodup _ Hwf).
      * intros p. rewrite (elem_of_move_last _ e p Hin). apply (wf_lru_table _ Hwf).
      * apply (table_wf_heap (heap c)); [apply (wf_table _ Hwf)|].
        intros p hp Hp Hhp. destruct (decide (p = e)) as [->|Hne].
        -- rewrite Hh in Hhp. injection Hhp as <-. eexists.
           split; [apply lookup_insert_eq|]. split; reflexivity.
        -- exists hp. split; [|split; reflexivity].
           rewrite lookup_insert_ne by congruence. exact Hhp.
      * intros p Hp. apply (elem_of_move_last _ e p Hin) in Hp.
        destruct (wf_refs _ Hwf p Hp) as (hp & Hhp & Hrp).
        destruct (decide (p = e)) as [->|Hne].
        -- eexists. split; [apply lookup_insert_eq|]. cbn [set_refs refs]. lia.
        -- exists hp. split; [|exact Hrp].
           rewrite lookup_insert_ne by congruence. exact Hhp.
      * intros p hp Hp. destruct (decide (p = e)) as [->|Hne].
        -- apply (wf_alloc _ Hwf e h Hh).
        -- rewrite lookup_insert_ne in Hp by congruence. apply (wf_alloc _ Hwf p hp Hp).
      * intros call Hc. destruct (wf_deleted _ Hwf call Hc) as [Hn Hlt].
        split; [|exact Hlt].
        rewrite lookup_insert_ne; [exact Hn|]. intros Heq. apply (Hlog call Hc).
        symmetry. exact Heq.
      * apply (wf_deleted_nodup _ Hwf).
    + exists h. split; [exact Hh|]. split; [exact Hhash|]. split; [exact Hkey|].
      split; [exact Hin|]. reflexivity.
  - eexists _, None. split; [reflexivity|]. split; [exact Hwf|].
    split; [reflexivity|]. intros p Hp. apply Hres. apply (wf_lru_table _ Hwf). exact Hp.
Qed.

(** [Erase] on a well-formed shard: a miss leaves the shard as it is; a hit
    unlinks the entry with this key and drops the reference of the cache. *)
Lemma Erase_shard (c : LRUCache.t) (key : list byte) (hash0 : Z) :
  WF c ->
  exists c', Erase c key hash0 = Some c' /\ WF c' /\
    capacity_ c' = capacity_ c /\ next_free c' = next_free c /\
    (forall p, p ∈ lru_ c' -> ~ matches (heap c') key hash0 p) /\
    ((c' = c /\ forall p, p ∈ lru_ c -> ~ matches (heap c) key hash0 p) \/
     exists e h, heap c !! e = Some h /\ hash h = hash0 /\ key_data h = key /\
       e ∈ lru_ c /\ 1 <= refs h /\
       lru_ c' = filter (fun x => x <> e) (lru_ c) /\
       if refs h =? 1
       then heap c' = delete e (heap c) /\ deleted c' = deleted c ++ [call_of e h] /\
            usage_ c' = wrap64 (usage_ c - charge h)
       else heap c' = <[e := set_refs h (refs h - 1)]> (heap c) /\
            deleted c' = deleted c /\ usage_ c' = usage_ c).
Proof.
  intros Hwf. unfold Erase.
  destruct (Remove_spec (heap c) (table_ c) key hash0 (wf_table _ Hwf))
    as (tb' & r & HR & Hwf' & Hres).
  rewrite HR. cbn [mbind option_bind].
  destruct r as [e|].
  - destruct Hres as ((h & Hh & Hhash & Hkey) & Hperm).
    assert (Hin : e ∈ lru_ c).
    { apply (wf_lru_table _ Hwf). rewrite Hperm. left. }
    destruct (unlink_WF c e h Hwf Hin Hh) as (tb2 & HR2 & Hwf2 & Hnot & Hperm2).
    rewrite Hhash, Hkey in HR2. rewrite HR in HR2. injection HR2 as <-.
    rewrite (LRU_Remove_Some (set_table c tb') e) by exact Hin.
    cbn [mbind option_bind].
    destruct (wf_refs _ Hwf e Hin) as (h' & Hh' & Hrefs).
    assert (h' = h) by congruence. subst h'.
    set (c1 := set_lru (set_table c tb')
                 (filter (fun x => x <> e) (lru_ (set_table c tb')))).
    assert (Hwf1 : WF c1) by exact Hwf2.
    destruct (Unref_WF c1 e h Hwf1 Hh Hrefs) as (c' & HU & Hwfc').
    { intros Hin'. exfalso. exact (Hnot Hin'). }
    rewrite HU. exists c'. split; [reflexivity|]. split; [exact Hwfc'|].
    rewrite (Unref_spec c1 e h Hh Hrefs) in HU. injection HU as HU.
    assert (Hgone : forall p, p ∈ lru_ c' -> ~ matches (heap c') key hash0 p).
    { intros p Hp (hp & Hhp & Hhashp & Hkeyp).
      assert (Hp1 : p ∈ filter (fun x => x <> e) (lru_ c))
        by (rewrite <- HU in Hp; destruct (refs h =? 1); exact Hp).
      apply list_elem_of_filter in Hp1 as [Hne Hp1].
      assert (Hhp0 : heap c !! p = Some hp).
      { rewrite <- HU in Hhp. destruct (refs h =? 1); cbn in Hhp.
        - rewrite lookup_delete_ne in Hhp by congruence. exact Hhp.
        - rewrite lookup_insert_ne in Hhp by congruence. exact Hhp. }
      apply Hne.
      apply (wf_keys _ _ (wf_table _ Hwf) p e hp h); try assumption.
      - apply (wf_lru_table _ Hwf). exact Hp1.
      - apply (wf_lru_table _ Hwf). exact Hin.
      - congruence.
      - congruence. }
    split; [rewrite <- HU; destruct (refs h =? 1); reflexivity|].
    split; [rewrite <- HU; destruct (refs h =? 1); reflexivity|].
    split; [exact Hgone|]. right.
    exists e, h. split; [exact Hh|]. split; [exact Hhash|]. split; [exact Hkey|].
    split; [exact Hin|]. split; [exact Hrefs|].
    split; [rewrite <- HU; destruct (refs h =? 1); reflexivity|].
    rewrite <- HU. destruct (refs h =? 1); cbn; repeat split.
  - destruct Hres as (-> & Hno). rewrite set_table_same.
    exists c. split; [reflexivity|]. split; [exact Hwf|].
    split; [reflexivity|]. split; [reflexivity|].
    assert (Hno' : forall p, p ∈ lru_ c -> ~ matches (heap c) key hash0 p).
    { intros p Hp. apply Hno. apply (wf_lru_table _ Hwf). exact Hp. }
    split; [exact Hno'|]. left. split; [reflexivity|exact Hno'].
Qed.

End ShardCalls.

(** ** util/cache: reference counts against the handles a client holds *)

Section ClientFacts.
Import Cache Cache.LRUCache CacheInv CacheClient.

Lemma holds_nonneg (p : ptr) (held : list ptr) : 0 <= holds p held.
Proof. induction held as [|q held IH]; cbn; [lia|]. destruct (bool_decide _); lia. Qed.

Lemma holds_le_length (p : ptr) (held : list ptr) :
  holds p held <= Z.of_nat (length held).
Proof.
  induction held as [|q held IH]; cbn [holds length]; [lia|].
  destruct (bool_decide _); lia.
Qed.

Lemma holds_pos (p : ptr) (held : list ptr) : 0 < holds p held <-> p ∈ held.
Proof.
  induction held as [|q held IH]; cbn [holds].
  - split; [lia|intros H; inversion H].
  - rewrite elem_of_cons. pose proof (holds_nonneg p held).
    destruct (decide (q = p)) as [->|Hne].
    + rewrite bool_decide_eq_true_2 by reflexivity. split; [intros _; left; reflexivity|lia].
    + rewrite bool_decide_eq_false_2 by exact Hne. split.
      * intros H0. right. apply IH. lia.
      * intros [->|Hin]; [contradiction|]. apply IH in Hin. lia.
Qed.

Lemma holds_give_back (p q : ptr) (held : list ptr) :
  p ∈ held ->
  holds q (give_back p held) = holds q held - (if bool_decide (p = q) then 1 else 0).
Proof.
  induction held as [|x held IH]; intros Hin; [inversion Hin|].
  cbn [give_back holds].
  destruct (decide (x = p)) as [->|Hne].
  - rewrite bool_decide_eq_true_2 by reflexivity. lia.
  - rewrite (bool_decide_eq_false_2 (x = p)) by exact Hne. cbn [holds].
    apply elem_of_cons in Hin as [->|Hin]; [contradiction|].
    rewrite (IH Hin). lia.
Qed.

Lemma elem_of_give_back (p q : ptr) (held : list ptr) :
  q ∈ give_back p held -> q ∈ held.
Proof.
  induction held as [|x held IH]; cbn [give_back]; [intros H; exact H|].
  destruct (bool_decide (x = p)).
  - intros H. right. exact H.
  - intros H. apply elem_of_cons in H as [->|H]; [left|right; exact (IH H)].
Qed.

(** The new shard. *)
Lemma accounted_new (capacity : Z) (c : LRUCache.t) :
  LRUCache.new capacity = Some c -> WF c /\ accounted c [].
Proof.
  intros Hnew. destruct (new_WF capacity) as (c0 & Hc0 & Hwf & Hlru & _).
  assert (c0 = c) by congruence. subst c0. split; [exact Hwf|].
  unfold LRUCache.new in Hnew.
  destruct HandleTable.new as [tb|]; [|discriminate].
  cbn [mbind option_bind] in Hnew. injection Hnew as <-.
  constructor; cbn [heap lru_ next_free deleted].
  - intros p h Hp. rewrite lookup_empty in Hp. discriminate.
  - intros p Hp. inversion Hp.
  - intros p Hp. lia.
  - lia.
Qed.

(** The client gives a handle back. *)
Lemma accounted_Release (c : LRUCache.t) (held : list ptr) (handle : ptr) :
  WF c -> accounted c held -> handle ∈ held ->
  exists c', Release c handle = Some c' /\ WF c' /\ accounted c' (give_back handle held).
Proof.
  intros Hwf [Hrefs Hheld Hfreed Hnext] Hin.
  destruct (Hheld handle Hin) as [h Hh].
  destruct (Hrefs handle h Hh) as [Hacc Hone].
  assert (Hpos : 0 < holds handle held) by (apply holds_pos; exact Hin).
  unfold Release.
  assert (Hlinked : handle ∈ lru_ c -> 2 <= refs h).
  { intros Hl. rewrite bool_decide_eq_true_2 in Hacc by exact Hl. lia. }
  destruct (Unref_WF c handle h Hwf Hh Hone Hlinked) as (c' & HU & Hwf').
  exists c'. split; [exact HU|]. split; [exact Hwf'|].
  rewrite (Unref_spec c handle h Hh Hone) in HU. injection HU as HU.
  destruct (Z.eqb_spec (refs h) 1) as [H1|H1]; subst c'.
  - assert (Hnl : handle ∉ lru_ c) by (intros Hl; apply Hlinked in Hl; lia).
    constructor; cbn [heap lru_ next_free deleted].
    + intros p hp Hp. apply lookup_delete_Some in Hp as [Hne Hp].
      destruct (Hrefs p hp Hp) as [Hacc' Hone'].
      rewrite (holds_give_back handle p held Hin).
      rewrite (bool_decide_eq_false_2 (handle = p)) by exact Hne.
      split; [lia|exact Hone'].
    + intros p Hp. pose proof (proj2 (holds_pos p _) Hp) as Hp'.
      rewrite (holds_give_back handle p held Hin) in Hp'.
      destruct (decide (handle = p)) as [<-|Hne].
      * rewrite (bool_decide_eq_true_2 (handle = handle)) in Hp' by reflexivity.
        rewrite (bool_decide_eq_false_2 (handle ∈ lru_ c)) in Hacc by exact Hnl. lia.
      * rewrite lookup_delete_ne by exact Hne. apply Hheld.
        eapply elem_of_give_back. exact Hp.
    + intros p Hp. destruct (decide (p = handle)) as [->|Hne].
      * right. rewrite map_app. apply elem_of_app. right. cbn. left.
      * destruct (Hfreed p Hp) as [Hl|Hd].
        -- left. rewrite lookup_delete_ne by congruence. exact Hl.
        -- right. rewrite map_app. apply elem_of_app. left. exact Hd.
    + exact Hnext.
  - constructor; cbn [set_heap heap lru_ next_free deleted].
    + intros p hp Hp. rewrite (holds_give_back handle p held Hin).
      destruct (decide (handle = p)) as [<-|Hne].
      * rewrite lookup_insert_eq in Hp. injection Hp as <-.
        rewrite (bool_decide_eq_true_2 (handle = handle)) by reflexivity. cbn [set_refs refs].
        split; [|lia]. rewrite Hacc. destruct (bool_decide (handle ∈ lru_ c)); lia.
      * rewrite lookup_insert_ne in Hp by exact Hne.
        rewrite (bool_decide_eq_false_2 (handle = p)) by exact Hne.
        destruct (Hrefs p hp Hp) as [Hacc' Hone']. split; [lia|exact Hone'].
    + intros p Hp. apply elem_of_give_back in Hp.
      destruct (decide (handle = p)) as [<-|Hne].
      * rewrite lookup_insert_eq. eexists; reflexivity.
      * rewrite lookup_insert_ne by exact Hne. apply Hheld. exact Hp.
    + intros p Hp. destruct (Hfreed p Hp) as [Hl|Hd]; [left|right; exact Hd].
      destruct (decide (handle = p)) as [<-|Hne].
      * rewrite lookup_insert_eq. eexists; reflexivity.
      * rewrite lookup_insert_ne by exact Hne. exact Hl.
    + exact Hnext.
Qed.

(** The cache drops its reference on the linked entries [gone] and unlinks
    them: the bookkeeping is kept. *)
Lemma accounted_drop (c c' : LRUCache.t) (held gone : list ptr) :
  accounted c held ->
  (forall p, p ∈ gone -> p ∈ lru_ c /\ is_Some (heap c !! p)) ->
  (forall p, p ∈ lru_ c' <-> p ∈ lru_ c /\ p ∉ gone) ->
  (forall p h, p ∈ gone -> heap c !! p = Some h ->
     heap c' !! p = if refs h =? 1 then None else Some (set_refs h (refs h - 1))) ->
  (forall p, p ∉ gone -> heap c' !! p = heap c !! p) ->
  (forall p h, p ∈ gone -> heap c !! p = Some h -> refs h = 1 ->
     p ∈ map call_entry (deleted c')) ->
  (forall p, p ∈ map call_entry (deleted c) -> p ∈ map call_entry (deleted c')) ->
  next_free c' = next_free c ->
  accounted c' held.
Proof.
  intros [Hrefs Hheld Hfreed Hnext] Hgone Hlru Hin Hout Hdel Hkeep Hnf.
  constructor.
  - intros p h' Hp. destruct (decide (p ∈ gone)) as [Hg|Hg].
    + destruct (Hgone p Hg) as [Hl [h Hh]].
      rewrite (Hin p h Hg Hh) in Hp.
      destruct (Hrefs p h Hh) as [Hacc Hone].
      rewrite (bool_decide_eq_true_2 _ Hl) in Hacc.
      destruct (Z.eqb_spec (refs h) 1); [discriminate|]. injection Hp as <-.
      rewrite bool_decide_eq_false_2 by (rewrite Hlru; tauto).
      cbn [set_refs refs]. lia.
    + rewrite (Hout p Hg) in Hp. destruct (Hrefs p h' Hp) as [Hacc Hone].
      split; [|exact Hone]. rewrite Hacc. f_equal.
      rewrite (bool_decide_ext (p ∈ lru_ c') (p ∈ lru_ c)); [reflexivity|].
      rewrite Hlru. tauto.
  - intros p Hp. destruct (Hheld p Hp) as [h Hh].
    destruct (decide (p ∈ gone)) as [Hg|Hg].
    + destruct (Hgone p Hg) as [Hl _]. rewrite (Hin p h Hg Hh).
      destruct (Hrefs p h Hh) as [Hacc Hone].
      rewrite (bool_decide_eq_true_2 _ Hl) in Hacc.
      apply holds_pos in Hp.
      destruct (Z.eqb_spec (refs h) 1); [lia|]. eexists; reflexivity.
    + rewrite (Hout p Hg), Hh. eexists; reflexivity.
  - intros p Hp. rewrite Hnf in Hp. destruct (Hfreed p Hp) as [[h Hh]|Hd].
    + destruct (decide (p ∈ gone)) as [Hg|Hg].
      * rewrite (Hin p h Hg Hh). destruct (Z.eqb_spec (refs h) 1) as [H1|H1].
        -- right. exact (Hdel p h Hg Hh H1).
        -- left. eexists; reflexivity.
      * left. rewrite (Hout p Hg), Hh. eexists; reflexivity.
    + right. apply Hkeep. exact Hd.
  - rewrite Hnf. exact Hnext.
Qed.

(** [Erase] keeps the bookkeeping and never fails. *)
Lemma accounted_Erase (c : LRUCache.t) (held : list ptr) (key : list byte) (hash0 : Z) :
  WF c -> accounted c held ->
  exists c', Erase c key hash0 = Some c' /\ WF c' /\ accounted c' held.
Proof.
  intros Hwf Hacc.
  destruct (Erase_shard c key hash0 Hwf)
    as (c' & HE & Hwf' & _ & Hnf & _ & [[-> _]|(e & h & Hh & _ & _ & He & Hone & Hlru & Hcase)]).
  - exists c. split; [exact HE|]. split; assumption.
  - exists c'. split; [exact HE|]. split; [exact Hwf'|].
    apply (accounted_drop c c' held [e] Hacc).
    + intros p Hp. apply list_elem_of_singleton in Hp. subst p.
      split; [exact He|]. eexists; exact Hh.
    + intros p. rewrite Hlru, list_elem_of_filter, list_elem_of_singleton. tauto.
    + intros p h' Hp Hp'. apply list_elem_of_singleton in Hp. subst p.
      assert (h' = h) by congruence. subst h'.
      destruct (Z.eqb_spec (refs h) 1); destruct Hcase as (-> & _).
      * apply lookup_delete_eq.
      * apply lookup_insert_eq.
    + intros p Hp. rewrite list_elem_of_singleton in Hp.
      destruct (Z.eqb_spec (refs h) 1); destruct Hcase as (-> & _).
      * apply lookup_delete_ne. congruence.
      * apply lookup_insert_ne. congruence.
    + intros p h' Hp Hp' H1. apply list_elem_of_singleton in Hp. subst p.
      assert (h' = h) by congruence. subst h'.
      rewrite H1 in Hcase. cbn in Hcase. destruct Hcase as (_ & -> & _).
      rewrite map_app. apply elem_of_app. right. cbn. left.
    + intros p Hp. destruct (Z.eqb_spec (refs h) 1); destruct Hcase as (_ & -> & _).
      * rewrite map_app. apply elem_of_app. left. exact Hp.
      * exact Hp.
    + exact Hnf.
Qed.

(** [Lookup] keeps the bookkeeping when the client keeps the handle of a
    hit, and never fails. *)
Lemma accounted_Lookup (c : LRUCache.t) (held : list ptr) (key : list byte) (hash0 : Z) :
  WF c -> accounted c held -> Z.of_nat (length held) + 2 < 2 ^ 32 ->
  exists c' r, Lookup c key hash0 = Some (c', r) /\ WF c' /\
    accounted c' (match r with Some e => e :: held | None => held end).
Proof.
  intros Hwf Hacc Hsmall.
  assert (Hbound : forall p h, p ∈ lru_ c -> heap c !! p = Some h -> refs h + 1 < 2 ^ 32).
  { intros p h Hp Hh. destruct (acc_refs _ _ Hacc p h Hh) as [Hr _].
    pose proof (holds_le_length p held). destruct (bool_decide _); lia. }
  destruct (Lookup_shard c key hash0 Hwf Hbound) as (c' & r & HL & Hwf' & Hcase).
  exists c', r. split; [exact HL|]. split; [exact Hwf'|].
  destruct r as [e|]; [|destruct Hcase as [-> _]; exact Hacc].
  destruct Hcase as (h & Hh & _ & _ & He & ->).
  destruct Hacc as [Hrefs Hheld Hfreed Hnext].
  constructor; cbn [heap lru_ next_free deleted].
  - intros p hp Hp. cbn [holds]. destruct (decide (e = p)) as [<-|Hne].
    + rewrite lookup_insert_eq in Hp. injection Hp as <-. cbn [set_refs refs].
      rewrite (bool_decide_eq_true_2 (e = e)) by reflexivity.
      destruct (Hrefs e h Hh) as [Hr Hone].
      rewrite (bool_decide_eq_true_2 _ He) in Hr.
      rewrite bool_decide_eq_true_2 by (apply elem_of_move_last; assumption).
      lia.
    + rewrite lookup_insert_ne in Hp by exact Hne.
      rewrite (bool_decide_eq_false_2 (e = p)) by exact Hne.
      destruct (Hrefs p hp Hp) as [Hr Hone]. split; [|exact Hone].
      rewrite Hr, Z.add_0_l. f_equal.
      rewrite (bool_decide_ext (p ∈ filter (fun x => x <> e) (lru_ c) ++ [e]) (p ∈ lru_ c));
        [reflexivity|].
      apply elem_of_move_last. exact He.
  - intros p Hp. destruct (decide (e = p)) as [<-|Hne].
    + rewrite lookup_insert_eq. eexists; reflexivity.
    + rewrite lookup_insert_ne by exact Hne. apply Hheld.
      apply elem_of_cons in Hp as [->|Hp]; [contradiction|exact Hp].
  - intros p Hp. destruct (Hfreed p Hp) as [Hl|Hd]; [left|right; exact Hd].
    destruct (decide (e = p)) as [<-|Hne].
    + rewrite lookup_insert_eq. eexists; reflexivity.
    + rewrite lookup_insert_ne by exact Hne. exact Hl.
  - exact Hnext.
Qed.

(** [Insert] allocates the entry with the two references of the cache and of
    the caller. *)
Lemma accounted_alloc (c : LRUCache.t) (held : list ptr) (he : LRUHandle) :
  WF c -> accounted c held -> refs he = 2 ->
  accounted {| capacity_ := capacity_ c; usage_ := usage_ c;
               lru_ := lru_ c ++ [next_free c]; table_ := table_ c;
               heap := <[next_free c := he]> (heap c);
               next_free := S (next_free c); deleted := deleted c |}
            (next_free c :: held).
Proof.
  intros Hwf [Hrefs Hheld Hfreed Hnext] H2.
  pose proof (WF_fresh c Hwf) as Hfresh.
  set (e := next_free c) in *.
  assert (Hnh : e ∉ held).
  { intros Hin. destruct (Hheld e Hin) as [h Hh]. congruence. }
  assert (Hnl : e ∉ lru_ c).
  { intros Hin. destruct (wf_refs _ Hwf e Hin) as (h & Hh & _). congruence. }
  constructor; cbn [heap lru_ next_free deleted holds].
  - intros p hp Hp. destruct (decide (e = p)) as [<-|Hne].
    + rewrite lookup_insert_eq in Hp. injection Hp as <-.
      rewrite (bool_decide_eq_true_2 (e = e)) by reflexivity.
      rewrite bool_decide_eq_true_2 by (apply elem_of_app; right; left).
      pose proof (holds_nonneg e held) as Hn.
      destruct (decide (0 < holds e held)) as [Hpos|Hz];
        [apply holds_pos in Hpos; contradiction|lia].
    + rewrite lookup_insert_ne in Hp by exact Hne.
      rewrite (bool_decide_eq_false_2 (e = p)) by exact Hne.
      destruct (Hrefs p hp Hp) as [Hr Hone]. split; [|exact Hone].
      rewrite Hr, Z.add_0_l. f_equal.
      rewrite (bool_decide_ext (p ∈ lru_ c ++ [e]) (p ∈ lru_ c)); [reflexivity|].
      rewrite elem_of_app, list_elem_of_singleton. split; [|tauto].
      intros [H|H]; [exact H|congruence].
  - intros p Hp. destruct (decide (e = p)) as [<-|Hne].
    + rewrite lookup_insert_eq. eexists; reflexivity.
    + rewrite lookup_insert_ne by exact Hne. apply Hheld.
      apply elem_of_cons in Hp as [->|Hp]; [contradiction|exact Hp].
  - intros p Hp. destruct (decide (e = p)) as [<-|Hne].
    + left. rewrite lookup_insert_eq. eexists; reflexivity.
    + rewrite lookup_insert_ne by exact Hne. apply Hfreed. lia.
  - lia.
Qed.

(** [Insert] keeps the bookkeeping when the client keeps the handle, and
    never fails. *)
Lemma accounted_Insert (c : LRUCache.t) (held : list ptr) (key : list byte)
    (hash0 value0 charge0 deleter0 : Z) :
  WF c -> accounted c held -> Z.of_nat (length (lru_ c)) < 2 ^ 31 ->
  exists c', Insert c key hash0 value0 charge0 deleter0 = Some (c', next_free c) /\
    WF c' /\ accounted c' (next_free c :: held).
Proof.
  intros Hwf Hacc Hsmall.
  destruct (Insert_entry_spec c key hash0 value0 charge0 deleter0 Hwf Hsmall)
    as (c1 & old & HI & Hwf1 & _ & Hnf1 & _ & Hold).
  set (e := next_free c) in *.
  set (he := {| value := value0; deleter := deleter0; charge := charge0;
                key_data := key; refs := 2; hash := hash0 |}) in *.
  pose proof (accounted_alloc c held he Hwf Hacc eq_refl) as Hacc0. fold e in Hacc0.
  pose proof (WF_fresh c Hwf) as Hfresh. fold e in Hfresh.
  assert (Hacc1 : accounted c1 (e :: held)).
  { destruct old as [o|].
    - destruct Hold as (ho & Hho & _ & _ & Ho & Hone & Hlru & _ & Hcase).
      assert (Hoe : o <> e) by congruence.
      refine (accounted_drop _ c1 (e :: held) [o] Hacc0 _ _ _ _ _ _ _);
        cbn [heap lru_ next_free deleted].
      + intros p Hp. apply list_elem_of_singleton in Hp. subst p.
        split; [apply elem_of_app; left; exact Ho|].
        rewrite lookup_insert_ne by congruence. eexists; exact Hho.
      + intros p. rewrite Hlru, !elem_of_app, list_elem_of_filter, !list_elem_of_singleton.
        split; [intros [H|H]; [tauto|split; [tauto|congruence]]|tauto].
      + intros p h' Hp Hp'. apply list_elem_of_singleton in Hp. subst p.
        rewrite lookup_insert_ne in Hp' by congruence.
        assert (h' = ho) by congruence. subst h'.
        destruct (Z.eqb_spec (refs ho) 1); destruct Hcase as (-> & _).
        * apply lookup_delete_eq.
        * apply lookup_insert_eq.
      + intros p Hp. rewrite list_elem_of_singleton in Hp.
        destruct (Z.eqb_spec (refs ho) 1); destruct Hcase as (-> & _).
        * apply lookup_delete_ne. congruence.
        * apply lookup_insert_ne. congruence.
      + intros p h' Hp Hp' H1. apply list_elem_of_singleton in Hp. subst p.
        rewrite lookup_insert_ne in Hp' by congruence.
        assert (h' = ho) by congruence. subst h'.
        rewrite H1 in Hcase. cbn in Hcase. destruct Hcase as (_ & -> & _).
        rewrite map_app. apply elem_of_app. right. cbn. left.
      + intros p Hp. destruct (Z.eqb_spec (refs ho) 1); destruct Hcase as (_ & -> & _).
        * rewrite map_app. apply elem_of_app. left. exact Hp.
        * exact Hp.
      + exact Hnf1.
    - destruct Hold as (_ & Hlru & Hheap & Hdel & _).
      refine (accounted_drop _ c1 (e :: held) [] Hacc0 _ _ _ _ _ _ _);
        cbn [heap lru_ next_free deleted].
      + intros p Hp. inversion Hp.
      + intros p. rewrite Hlru. split; [intros H; split; [exact H|]|tauto].
        intros Hp. inversion Hp.
      + intros p h' Hp. inversion Hp.
      + intros p _. rewrite Hheap. reflexivity.
      + intros p h' Hp. inversion Hp.
      + intros p Hp. rewrite Hdel. exact Hp.
      + exact Hnf1. }
  destruct (evict_spec (length (lru_ c1)) c1 Hwf1 ltac:(lia))
    as (n & c' & HE & _ & Hwf' & _ & Hdrop & _ & _ & Hin & Hout & Hdel & _ & Hnf').
  exists c'. split.
  { unfold Insert. rewrite HI. cbn [mbind option_bind]. rewrite HE. reflexivity. }
  split; [exact Hwf'|].
  pose proof (wf_lru_nodup _ Hwf1) as Hnd. rewrite <- (take_drop n (lru_ c1)) in Hnd.
  apply NoDup_app in Hnd as (_ & Hdisj & _).
  apply (accounted_drop c1 c' (e :: held) (take n (lru_ c1)) Hacc1).
  - intros p Hp. assert (Hl : p ∈ lru_ c1).
    { rewrite <- (take_drop n (lru_ c1)). apply elem_of_app. left. exact Hp. }
    split; [exact Hl|]. destruct (wf_refs _ Hwf1 p Hl) as (h & Hh & _).
    eexists; exact Hh.
  - intros p. rewrite Hdrop. split.
    + intros Hp. split.
      * rewrite <- (take_drop n (lru_ c1)). apply elem_of_app. right. exact Hp.
      * intros Ht. exact (Hdisj p Ht Hp).
    + intros [Hl Hnt]. rewrite <- (take_drop n (lru_ c1)) in Hl.
      apply elem_of_app in Hl as [Hl|Hl]; [contradiction|exact Hl].
  - exact Hin.
  - exact Hout.
  - intros p h Hp Hh H1. rewrite Hdel, map_app. apply elem_of_app. right.
    apply list_elem_of_fmap. exists (call_of p h). split; [reflexivity|].
    apply list_elem_of_omap. exists p. split; [exact Hp|].
    rewrite Hh. cbn [mbind option_bind]. rewrite H1. reflexivity.
  - intros p Hp. rewrite Hdel, map_app. apply elem_of_app. left. exact Hp.
  - exact Hnf'.
Qed.

(** Every state a client that keeps to the contract can reach is well
    formed and has its references accounted for. *)
Lemma reachable_accounted (c : LRUCache.t) (held : list ptr) :
  reachable c held -> WF c /\ accounted c held.
Proof.
  induction 1 as [capacity c Hnew
                 |c held key hash0 value0 charge0 deleter0 c' e _ [Hwf Hacc] Hsmall HI
                 |c held key hash0 c' r _ [Hwf Hacc] Hsmall HL
                 |c held handle c' _ [Hwf Hacc] Hin HR
                 |c held key hash0 c' _ [Hwf Hacc] HE].
  - exact (accounted_new capacity c Hnew).
  - destruct (accounted_Insert c held key hash0 value0 charge0 deleter0 Hwf Hacc Hsmall)
      as (c2 & HI2 & Hwf2 & Hacc2).
    rewrite HI in HI2. injection HI2 as Ec Ee. subst c' e. split; assumption.
  - destruct (accounted_Lookup c held key hash0 Hwf Hacc Hsmall)
      as (c2 & r2 & HL2 & Hwf2 & Hacc2).
    rewrite HL in HL2. injection HL2 as Ec Er. subst c' r. split; assumption.
  - destruct (accounted_Release c held handle Hwf Hacc Hin) as (c2 & HR2 & Hwf2 & Hacc2).
    rewrite HR in HR2. injection HR2 as <-. split; assumption.
  - destruct (accounted_Erase c held key hash0 Hwf Hacc) as (c2 & HE2 & Hwf2 & Hacc2).
    rewrite HE in HE2. injection HE2 as <-. split; assumption.
Qed.

(** With the references accounted for, an entry is live exactly when it is
    linked or held. *)
Lemma references_accounted_live (c : LRUCache.t) (held : list ptr) (p : ptr) :
  WF c -> accounted c held ->
  (is_Some (heap c !! p) <-> p ∈ lru_ c \/ p ∈ held).
Proof.
  intros Hwf Hacc. split.
  - intros [h Hh]. destruct (acc_refs _ _ Hacc p h Hh) as [Hr Hone].
    destruct (decide (p ∈ lru_ c)) as [Hl|Hl]; [left; exact Hl|right].
    rewrite (bool_decide_eq_false_2 _ Hl) in Hr. apply holds_pos. lia.
  - intros [Hl|Hin].
    + destruct (wf_refs _ Hwf p Hl) as (h & Hh & _). eexists; exact Hh.
    + exact (acc_held _ _ Hacc p Hin).
Qed.

End ClientFacts.

(** ** util/cache: the LRU list is in the order of last use *)

Section OrderOfUse.
Import Cache Cache.LRUCache CacheInv CacheClient CacheUse.

Lemma by_last_use_app (last_use : ptr -> nat) (l1 l2 : list ptr) :
  by_last_use last_use (l1 ++ l2) <->
  by_last_use last_use l1 /\ by_last_use last_use l2 /\
  forall p q, p ∈ l1 -> q ∈ l2 -> (last_use p < last_use q)%nat.
Proof.
  induction l1 as [|x l1 IH]; cbn [app by_last_use].
  - split; [intros H; split; [exact I|split; [exact H|]]|tauto].
    intros p q Hp. inversion Hp.
  - rewrite IH, Forall_app, !Forall_forall. split.
    + intros [[H1 H2] (H3 & H4 & H5)]. split; [tauto|]. split; [exact H4|].
      intros p q Hp Hq. apply elem_of_cons in Hp as [->|Hp]; [exact (H2 q Hq)|].
      exact (H5 p q Hp Hq).
    + intros [[H1 H3] (H4 & H5)]. split; [split; [exact H1|]|].
      * intros q Hq. apply H5; [left|exact Hq].
      * split; [exact H3|]. split; [exact H4|].
        intros p q Hp Hq. apply H5; [right; exact Hp|exact Hq].
Qed.

Lemma by_last_use_sublist (last_use : ptr -> nat) (l' l : list ptr) :
  l' `sublist_of` l -> by_last_use last_use l -> by_last_use last_use l'.
Proof.
  induction 1 as [|x l1 l2 Hsub IH|x l1 l2 Hsub IH]; cbn [by_last_use].
  - tauto.
  - rewrite !Forall_forall. intros [H1 H2]. split; [|exact (IH H2)].
    intros q Hq. apply H1. exact (elem_of_sublist _ _ _ Hq Hsub).
  - intros [_ H2]. exact (IH H2).
Qed.

Lemma by_last_use_ext (last_use last_use' : ptr -> nat) (l : list ptr) :
  (forall p, p ∈ l -> last_use' p = last_use p) ->
  by_last_use last_use l -> by_last_use last_use' l.
Proof.
  induction l as [|x l IH]; cbn [by_last_use]; [tauto|].
  rewrite !Forall_forall. intros Heq [H1 H2]. split.
  - intros q Hq. rewrite (Heq x), (Heq q); [exact (H1 q Hq)|right; exact Hq|left].
  - apply IH; [|exact H2]. intros p Hp. apply Heq. right. exact Hp.
Qed.

(** The entry [e] is used at the time [S t] and becomes the last of the
    list, after some of the other entries have left it. *)
Lemma by_last_use_touch (last_use : ptr -> nat) (t : nat) (l l' : list ptr) (e : ptr) :
  by_last_use last_use l -> (forall p, p ∈ l -> (last_use p <= t)%nat) ->
  l' `sublist_of` l -> e ∉ l' ->
  by_last_use (stamp e (S t) last_use) (l' ++ [e]) /\
  forall p, p ∈ l' ++ [e] -> (stamp e (S t) last_use p <= S t)%nat.
Proof.
  intros Hs Hb Hsub He.
  assert (Hsame : forall p, p ∈ l' -> stamp e (S t) last_use p = last_use p).
  { intros p Hp. unfold stamp. rewrite bool_decide_eq_false_2; [reflexivity|].
    intros ->. exact (He Hp). }
  assert (He' : stamp e (S t) last_use e = S t).
  { unfold stamp. rewrite bool_decide_eq_true_2; reflexivity. }
  split.
  - apply by_last_use_app. split; [|split].
    + apply (by_last_use_ext last_use); [exact Hsame|].
      exact (by_last_use_sublist _ _ _ Hsub Hs).
    + cbn. split; [constructor|exact I].
    + intros p q Hp Hq. apply list_elem_of_singleton in Hq. subst q.
      rewrite He', (Hsame p Hp).
      pose proof (Hb p (elem_of_sublist _ _ _ Hp Hsub)). lia.
  - intros p Hp. apply elem_of_app in Hp as [Hp|Hp].
    + rewrite (Hsame p Hp). pose proof (Hb p (elem_of_sublist _ _ _ Hp Hsub)). lia.
    + apply list_elem_of_singleton in Hp. subst p. rewrite He'. lia.
Qed.

Lemma used_reachable (c : LRUCache.t) (held : list ptr) (t : nat) (last_use : ptr -> nat) :
  used c held t last_use -> reachable c held.
Proof.
  induction 1 as [capacity c Hnew
                 |c held t last_use key hash0 value0 charge0 deleter0 c' e _ IH Hsmall HI
                 |c held t last_use key hash0 c' r _ IH Hsmall HL
                 |c held t last_use handle c' _ IH Hin HR
                 |c held t last_use key hash0 c' _ IH HE].
  - exact (reach_new capacity c Hnew).
  - exact (reach_Insert c held key hash0 value0 charge0 deleter0 c' e IH Hsmall HI).
  - exact (reach_Lookup c held key hash0 c' r IH Hsmall HL).
  - exact (reach_Release c held handle c' IH Hin HR).
  - exact (reach_Erase c held key hash0 c' IH HE).
Qed.

(** After [m] rounds of the eviction loop the [m] first entries of the list
    are gone. *)
Lemma evict_n_drop (m : nat) :
  forall c cm, WF c -> evict_n m c = Some cm -> lru_ cm = drop m (lru_ c) /\ WF cm.
Proof.
  induction m as [|m IH]; intros c cm Hwf HE.
  - cbn in HE. injection HE as <-. rewrite drop_0. split; [reflexivity|exact Hwf].
  - cbn [evict_n] in HE. destruct (lru_ c) as [|old rest] eqn:Hlru.
    + unfold evict_one in HE. rewrite Hlru in HE. discriminate.
    + destruct (evict_one_spec c old rest Hwf Hlru)
        as (h & tb' & c1 & _ & _ & HE1 & Hwf1 & Hrest & _).
      rewrite HE1 in HE. cbn [mbind option_bind] in HE.
      destruct (IH c1 cm Hwf1 HE) as [Hd Hwfm]. rewrite Hd, Hrest.
      split; [reflexivity|exact Hwfm].
Qed.

(** The list an [Insert] leaves for its eviction loop: the entries linked
    before, in their order, without the entry of the same key, and then the
    new entry. *)
Lemma Insert_entry_list (c : LRUCache.t) (key : list byte)
    (hash0 value0 charge0 deleter0 : Z) :
  WF c -> Z.of_nat (length (lru_ c)) < 2 ^ 31 ->
  exists c1 l',
    Insert_entry c key hash0 value0 charge0 deleter0 = Some (c1, next_free c) /\
    WF c1 /\ lru_ c1 = l' ++ [next_free c] /\
    l' `sublist_of` lru_ c /\ (next_free c ∉ l') /\
    forall p, p ∈ l' <-> p ∈ lru_ c /\ ~ matches (heap c) key hash0 p.
Proof.
  intros Hwf Hsmall.
  destruct (Insert_entry_spec c key hash0 value0 charge0 deleter0 Hwf Hsmall)
    as (c1 & old & HI & Hwf1 & _ & _ & _ & Hold).
  assert (Hfresh : next_free c ∉ lru_ c).
  { intros Hin. destruct (wf_refs _ Hwf _ Hin) as (h & Hh & _).
    rewrite (WF_fresh c Hwf) in Hh. discriminate. }
  destruct old as [o|].
  - destruct Hold as (ho & Hho & Hhash & Hkey & Ho & _ & Hlru & _).
    exists c1, (filter (fun x => x <> o) (lru_ c)).
    split; [exact HI|]. split; [exact Hwf1|]. split; [exact Hlru|].
    split; [apply sublist_filter|]. split.
    { intros Hin. apply list_elem_of_filter in Hin as [_ Hin]. exact (Hfresh Hin). }
    intros p. rewrite list_elem_of_filter. split.
    + intros [Hne Hp]. split; [exact Hp|]. intros (hp & Hhp & Hph & Hpk).
      apply Hne. apply (wf_keys _ _ (wf_table _ Hwf) p o hp ho).
      * apply (wf_lru_table _ Hwf). exact Hp.
      * apply (wf_lru_table _ Hwf). exact Ho.
      * exact Hhp.
      * exact Hho.
      * congruence.
      * congruence.
    + intros [Hp Hno]. split; [|exact Hp]. intros ->. apply Hno.
      exists ho. split; [exact Hho|]. split; assumption.
  - destruct Hold as (Hno & Hlru & _).
    exists c1, (lru_ c). split; [exact HI|]. split; [exact Hwf1|].
    split; [exact Hlru|]. split; [reflexivity|]. split; [exact Hfresh|].
    intros p. split; [intros Hp; split; [exact Hp|exact (Hno p Hp)]|tauto].
Qed.

(** In every state a client reaches the LRU list is in the order of last
    use: [Insert] appends the new entry, a [Lookup] that finds an entry
    moves it to the end, and nothing else changes the order. *)
Lemma used_by_last_use (c : LRUCache.t) (held : list ptr) (t : nat)
    (last_use : ptr -> nat) :
  used c held t last_use ->
  by_last_use last_use (lru_ c) /\ forall p, p ∈ lru_ c -> (last_use p <= t)%nat.
Proof.
  induction 1 as [capacity c Hnew
                 |c held t last_use key hash0 value0 charge0 deleter0 c' e Hu [Hs Hb] Hsmall HI
                 |c held t last_use key hash0 c' r Hu [Hs Hb] Hsmall HL
                 |c held t last_use handle c' Hu [Hs Hb] Hin HR
                 |c held t last_use key hash0 c' Hu [Hs Hb] HE].
  - destruct (new_WF capacity) as (c0 & Hc0 & _ & Hlru & _).
    assert (c0 = c) by congruence. subst c0. rewrite Hlru.
    split; [exact I|]. intros p Hp. inversion Hp.
  - destruct (reachable_accounted c held (used_reachable _ _ _ _ Hu)) as [Hwf _].
    destruct (Insert_entry_list c key hash0 value0 charge0 deleter0 Hwf Hsmall)
      as (c1 & l' & HI1 & Hwf1 & Hl1 & Hsub & Hfresh & _).
    destruct (evict_spec (length (lru_ c1)) c1 Hwf1 ltac:(lia))
      as (n & c2 & HE & _ & _ & _ & Hdrop & _).
    assert (HI2 : Insert c key hash0 value0 charge0 deleter0 = Some (c2, next_free c)).
    { unfold Insert. rewrite HI1. cbn [mbind option_bind]. rewrite HE. reflexivity. }
    rewrite HI in HI2. injection HI2 as Ec Ee. subst c2 e.
    destruct (by_last_use_touch last_use t (lru_ c) l' (next_free c) Hs Hb Hsub Hfresh)
      as [Hs1 Hb1].
    rewrite Hdrop, Hl1. split.
    + exact (by_last_use_sublist _ _ _ (sublist_drop _ n) Hs1).
    + intros p Hp. apply Hb1. exact (elem_of_sublist _ _ _ Hp (sublist_drop _ n)).
  - destruct (reachable_accounted c held (used_reachable _ _ _ _ Hu)) as [Hwf Hacc].
    assert (Hbound : forall p h, p ∈ lru_ c -> heap c !! p = Some h -> refs h + 1 < 2 ^ 32).
    { intros p h Hp Hh. destruct (acc_refs _ _ Hacc p h Hh) as [Hr _].
      pose proof (holds_le_length p held). destruct (bool_decide _); lia. }
    destruct (Lookup_shard c key hash0 Hwf Hbound) as (c2 & r2 & HL2 & _ & Hcase).
    rewrite HL in HL2. injection HL2 as Ec Er. subst c2 r2.
    destruct r as [e|].
    + destruct Hcase as (h & _ & _ & _ & He & ->). cbn [lru_].
      apply (by_last_use_touch last_use t (lru_ c)); [exact Hs|exact Hb| |].
      * apply sublist_filter.
      * intros Hin. apply list_elem_of_filter in Hin as [Hne _]. exact (Hne eq_refl).
    + destruct Hcase as [-> _]. split; [exact Hs|].
      intros p Hp. pose proof (Hb p Hp). lia.
  - destruct (reachable_accounted c held (used_reachable _ _ _ _ Hu)) as [Hwf Hacc].
    destruct (acc_held _ _ Hacc handle Hin) as [h Hh].
    destruct (acc_refs _ _ Hacc handle h Hh) as [_ Hone].
    unfold Release in HR. rewrite (Unref_spec c handle h Hh Hone) in HR.
    injection HR as <-.
    assert (Hl : lru_ (if refs h =? 1
                       then {| capacity_ := capacity_ c;
                               usage_ := wrap64 (usage_ c - charge h);
                               lru_ := lru_ c; table_ := table_ c;
                               heap := delete handle (heap c);
                               next_free := next_free c;
                               deleted := deleted c ++ [call_of handle h] |}
                       else set_heap c (<[handle := set_refs h (refs h - 1)]> (heap c)))
                 = lru_ c) by (destruct (refs h =? 1); reflexivity).
    rewrite Hl. split; [exact Hs|]. intros p Hp. pose proof (Hb p Hp). lia.
  - destruct (reachable_accounted c held (used_reachable _ _ _ _ Hu)) as [Hwf _].
    destruct (Erase_shard c key hash0 Hwf)
      as (c2 & HE2 & _ & _ & _ & _ & [[-> _]|(e & h & _ & _ & _ & _ & _ & Hlru & _)]).
    + assert (c = c') by congruence. subst c'. split; [exact Hs|].
      intros p Hp. pose proof (Hb p Hp). lia.
    + assert (c2 = c') by congruence. subst c2. rewrite Hlru. split.
      * exact (by_last_use_sublist _ _ _ (sublist_filter _ _) Hs).
      * intros p Hp. apply list_elem_of_filter in Hp as [_ Hp].
        pose proof (Hb p Hp). lia.
Qed.

(** The shard on which [k2] is the least recently used entry, and what the
    insertion of [k3] makes of it. *)
Lemma shard_k2_k1_used :
  exists c, shard_k2_k1 = Some c /\
    used c [] 6 (stamp 1 5 (stamp 2 3 (stamp 1 1 (fun _ => O)))) /\
    lru_ c = [2; 1]%nat /\
    exists c', Insert c key_k3 19 300 1 7 = Some (c', 3%nat) /\ lru_ c' = [1; 3]%nat.
Proof.
  assert (H : exists c0 c1 c2 c3 c4 c5 c6 c7,
    LRUCache.new 2 = Some c0 /\
    Insert c0 Stated.key_k1 17 100 1 7 = Some (c1, 1%nat) /\
    Release c1 1%nat = Some c2 /\
    Insert c2 Stated.key_k2 18 200 1 7 = Some (c3, 2%nat) /\
    Release c3 2%nat = Some c4 /\
    Lookup c4 Stated.key_k1 17 = Some (c5, Some 1%nat) /\
    Release c5 1%nat = Some c6 /\
    shard_k2_k1 = Some c6 /\
    Insert c6 key_k3 19 300 1 7 = Some (c7, 3%nat) /\
    lru_ c0 = [] /\ lru_ c2 = [1%nat] /\ lru_ c6 = [2; 1]%nat /\ lru_ c7 = [1; 3]%nat).
  { eexists _, _, _, _, _, _, _, _.
    split; [vm_compute; reflexivity|]. split; [vm_compute; reflexivity|].
    split; [vm_compute; reflexivity|]. split; [vm_compute; reflexivity|].
    split; [vm_compute; reflexivity|]. split; [vm_compute; reflexivity|].
    split; [vm_compute; reflexivity|]. split; [vm_compute; reflexivity|].
    split; [vm_compute; reflexivity|]. split; [reflexivity|].
    split; [reflexivity|]. split; reflexivity. }
  destruct H as (c0 & c1 & c2 & c3 & c4 & c5 & c6 & c7 & H0 & H1 & H2 & H3 & H4 & H5
                 & H6 & Hs & H7 & L0 & L2 & L6 & L7).
  pose proof (used_new 2 c0 H0) as U0.
  assert (S0 : Z.of_nat (length (lru_ c0)) < 2 ^ 31) by (rewrite L0; cbn; lia).
  pose proof (used_Insert c0 [] 0 _ _ _ _ _ _ c1 1%nat U0 S0 H1) as U1.
  pose proof (used_Release c1 [1%nat] 1 _ 1%nat c2 U1 ltac:(left) H2) as U2.
  assert (S2 : Z.of_nat (length (lru_ c2)) < 2 ^ 31) by (rewrite L2; cbn; lia).
  pose proof (used_Insert c2 [] 2 _ _ _ _ _ _ c3 2%nat U2 S2 H3) as U3.
  pose proof (used_Release c3 [2%nat] 3 _ 2%nat c4 U3 ltac:(left) H4) as U4.
  assert (S4 : Z.of_nat (length (@nil ptr)) + 2 < 2 ^ 32) by (cbn; lia).
  pose proof (used_Lookup c4 [] 4 _ _ _ c5 (Some 1%nat) U4 S4 H5) as U5.
  pose proof (used_Release c5 [1%nat] 5 _ 1%nat c6 U5 ltac:(left) H6) as U6.
  exists c6. split; [exact Hs|]. split; [exact U6|]. split; [exact L6|].
  exists c7. split; [exact H7|exact L7].
Qed.

(** C3 (as amended).  In every state a client reaches (with fewer than
    [2^31] entries linked) the LRU list is in the order of last use, the
    entry whose last [Insert] or successful [Lookup] is the oldest first,
    and [Insert] returns.  It links the new entry as the most recently used
    one, in place of an entry of the same key, and its loop then unlinks the
    [n] least recently used entries, one per round and oldest first, for the
    [n] at which the usage is within the capacity or the list is empty;
    every round is entered with the usage above the capacity, and every
    entry unlinked was last used before every entry kept.  The loop does so
    whether or not a caller holds a reference: each of the [n] entries
    leaves the index and the list and loses the reference of the cache; one
    that had only that reference is freed and its deleter called, in this
    order; one with a caller's reference stays allocated, unchanged but for
    the count.  The other entries are untouched and stay linked in their
    order. *)
Theorem Insert_evicts_least_recently_used (c : LRUCache.t) (held : list ptr) (t : nat)
    (last_use : ptr -> nat) (key : list byte) (hash0 value0 charge0 deleter0 : Z) :
  used c held t last_use ->
  Z.of_nat (length (lru_ c)) < 2 ^ 31 ->
  exists c1 c' n,
    Insert_entry c key hash0 value0 charge0 deleter0 = Some (c1, next_free c) /\
    Insert c key hash0 value0 charge0 deleter0 = Some (c', next_free c) /\
    used c' (next_free c :: held) (S t) (stamp (next_free c) (S t) last_use) /\
    by_last_use last_use (lru_ c) /\
    by_last_use (stamp (next_free c) (S t) last_use) (lru_ c1) /\
    (forall p, p ∈ lru_ c1 <->
       p = next_free c \/ (p ∈ lru_ c /\ ~ matches (heap c) key hash0 p)) /\
    evict_n n c1 = Some c' /\
    (forall m cm, evict_n m c1 = Some cm -> lru_ cm = drop m (lru_ c1)) /\
    (forall m cm, (m < n)%nat -> evict_n m c1 = Some cm ->
       usage_ cm > capacity_ cm /\ lru_ cm <> []) /\
    (usage_ c' <= capacity_ c' \/ lru_ c' = []) /\
    lru_ c' = drop n (lru_ c1) /\
    (forall p q, p ∈ take n (lru_ c1) -> q ∈ lru_ c' ->
       (stamp (next_free c) (S t) last_use p
        < stamp (next_free c) (S t) last_use q)%nat) /\
    (forall p, p ∈ entries (table_ c') <-> p ∈ lru_ c') /\
    (forall p h, p ∈ take n (lru_ c1) -> heap c1 !! p = Some h ->
       heap c' !! p = if refs h =? 1 then None
                      else Some (set_refs h (refs h - 1))) /\
    (forall p, p ∉ take n (lru_ c1) -> heap c' !! p = heap c1 !! p) /\
    deleted c' = deleted c1 ++
      omap (fun p => h ← heap c1 !! p;
                     if refs h =? 1 then Some (call_of p h) else None)
           (take n (lru_ c1)).
Proof.
  intros Hu Hsmall.
  destruct (reachable_accounted c held (used_reachable _ _ _ _ Hu)) as [Hwf _].
  destruct (used_by_last_use c held t last_use Hu) as [Hs Hb].
  destruct (Insert_entry_list c key hash0 value0 charge0 deleter0 Hwf Hsmall)
    as (c1 & l' & HI1 & Hwf1 & Hl1 & Hsub & Hfresh & Hl').
  destruct (Insert_evicts_oldest_first c key hash0 value0 charge0 deleter0 Hwf Hsmall)
    as (c1' & c' & n & HI1' & HI & _ & Hwf' & HEn & Hmin & Hstop & Hdrop & Hent
        & Hev & Hkept & Hdel).
  assert (c1' = c1) by congruence. subst c1'.
  destruct (by_last_use_touch last_use t (lru_ c) l' (next_free c) Hs Hb Hsub Hfresh)
    as [Hs1 _].
  rewrite <- Hl1 in Hs1.
  exists c1, c', n. split; [exact HI1|]. split; [exact HI|]. split.
  { exact (used_Insert c held t last_use key hash0 value0 charge0 deleter0 c' _
             Hu Hsmall HI). }
  split; [exact Hs|]. split; [exact Hs1|]. split.
  { intros p. rewrite Hl1, elem_of_app, list_elem_of_singleton, Hl'. tauto. }
  split; [exact HEn|]. split.
  { intros m cm Hm. exact (proj1 (evict_n_drop m c1 cm Hwf1 Hm)). }
  split; [exact Hmin|]. split; [exact Hstop|]. split; [exact Hdrop|]. split.
  { intros p q Hp Hq. rewrite Hdrop in Hq.
    rewrite <- (take_drop n (lru_ c1)) in Hs1.
    apply by_last_use_app in Hs1 as (_ & _ & Hlt). exact (Hlt p q Hp Hq). }
  split; [intros p; rewrite Hdrop; exact (Hent p)|].
  split; [exact Hev|]. split; [exact Hkept|exact Hdel].
Qed.

Lemma Insert_evicts_least_recently_used_witness :
  exists c, shard_k2_k1 = Some c /\
    used c [] 6 (stamp 1 5 (stamp 2 3 (stamp 1 1 (fun _ => O)))) /\
    lru_ c = [2; 1]%nat /\
    (exists c', Insert c key_k3 19 300 1 7 = Some (c', 3%nat) /\ lru_ c' = [1; 3]%nat) /\
    exists c1 c' n,
      Insert_entry c key_k3 19 300 1 7 = Some (c1, next_free c) /\
      Insert c key_k3 19 300 1 7 = Some (c', next_free c) /\
      used c' (next_free c :: []) 7
           (stamp (next_free c) 7 (stamp 1 5 (stamp 2 3 (stamp 1 1 (fun _ => O))))) /\
      by_last_use (stamp 1 5 (stamp 2 3 (stamp 1 1 (fun _ => O)))) (lru_ c) /\
      by_last_use (stamp (next_free c) 7 (stamp 1 5 (stamp 2 3 (stamp 1 1 (fun _ => O)))))
                  (lru_ c1) /\
      (forall p, p ∈ lru_ c1 <->
         p = next_free c \/ (p ∈ lru_ c /\ ~ matches (heap c) key_k3 19 p)) /\
      evict_n n c1 = Some c' /\
      (forall m cm, evict_n m c1 = Some cm -> lru_ cm = drop m (lru_ c1)) /\
      (forall m cm, (m < n)%nat -> evict_n m c1 = Some cm ->
         usage_ cm > capacity_ cm /\ lru_ cm <> []) /\
      (usage_ c' <= capacity_ c' \/ lru_ c' = []) /\
      lru_ c' = drop n (lru_ c1) /\
      (forall p q, p ∈ take n (lru_ c1) -> q ∈ lru_ c' ->
         (stamp (next_free c) 7 (stamp 1 5 (stamp 2 3 (stamp 1 1 (fun _ => O)))) p
          < stamp (next_free c) 7 (stamp 1 5 (stamp 2 3 (stamp 1 1 (fun _ => O)))) q)%nat) /\
      (forall p, p ∈ entries (table_ c') <-> p ∈ lru_ c') /\
      (forall p h, p ∈ take n (lru_ c1) -> heap c1 !! p = Some h ->
         heap c' !! p = if refs h =? 1 then None
                        else Some (set_refs h (refs h - 1))) /\
      (forall p, p ∉ take n (lru_ c1) -> heap c' !! p = heap c1 !! p) /\
      deleted c' = deleted c1 ++
        omap (fun p => h ← heap c1 !! p;
                       if refs h =? 1 then Some (call_of p h) else None)
             (take n (lru_ c1)).
Proof.
  destruct shard_k2_k1_used as (c & Hc & Hu & Hl & Hex).
  exists c. split; [exact Hc|]. split; [exact Hu|]. split; [exact Hl|].
  split; [exact Hex|].
  apply (Insert_evicts_least_recently_used c [] 6 _ key_k3 19 300 1 7 Hu).
  rewrite Hl. cbn. lia.
Defined.

End OrderOfUse.

(** ** util/cache: what a client of a shard can rely on *)

Section ClientTheorems.
Import Cache Cache.LRUCache CacheInv CacheClient.

Lemma calls_length (l : list Call) (p : ptr) :
  NoDup (map call_entry l) ->
  length (filter (fun call => call_entry call = p) l)
  = if bool_decide (p ∈ map call_entry l) then 1%nat else 0%nat.
Proof.
  induction l as [|x l IH]; intros Hnd.
  - cbn. rewrite bool_decide_eq_false_2; [reflexivity|]. intros H; inversion H.
  - cbn [map] in *. apply NoDup_cons in Hnd as [Hx Hnd]. rewrite filter_cons.
    destruct (decide (call_entry x = p)) as [<-|Hne].
    + cbn [length]. rewrite (IH Hnd).
      rewrite (bool_decide_eq_false_2 _ Hx).
      rewrite bool_decide_eq_true_2 by left. reflexivity.
    + rewrite (IH Hnd).
      rewrite (bool_decide_ext (p ∈ call_entry x :: map call_entry l)
                 (p ∈ map call_entry l)); [reflexivity|].
      rewrite elem_of_cons. split; [|tauto].
      intros [H|H]; [congruence|exact H].
Qed.

(** The shard of capacity 1 holding [k1] is one a client reaches by an
    [Insert] of which it keeps the handle. *)
Lemma shard_with_k1_reachable :
  exists c e, Stated.shard_with_k1 = Some c /\ reachable c [e] /\
    Z.of_nat (length (lru_ c)) < 2 ^ 31 /\ (1 <= e < next_free c)%nat.
Proof.
  destruct (new_WF 1) as (c0 & Hnew & Hwf0 & Hlru0 & _).
  assert (Hs0 : Z.of_nat (length (lru_ c0)) < 2 ^ 31) by (rewrite Hlru0; cbn; lia).
  destruct (Insert_WF c0 Stated.key_k1 17 100 1 7 Hwf0 Hs0) as (c & HI & Hwf & Hlen).
  exists c, (next_free c0). unfold Stated.shard_with_k1. rewrite Hnew.
  cbn [mbind option_bind]. rewrite HI.
  assert (Hreach : reachable c [next_free c0]).
  { apply (reach_Insert c0 [] Stated.key_k1 17 100 1 7 c (next_free c0)).
    - exact (reach_new 1 c0 Hnew).
    - exact Hs0.
    - exact HI. }
  split; [reflexivity|]. split; [exact Hreach|]. split.
  - rewrite Hlru0 in Hlen. cbn [length] in Hlen.
    assert (2 <= 2 ^ 31) by (apply (Z.pow_le_mono_r 2 1 31); lia). lia.
  - destruct (accounted_new 1 c0 Hnew) as [_ Hacc0].
    destruct (reachable_accounted c _ Hreach) as [_ Hacc].
    destruct (acc_held _ _ Hacc (next_free c0)) as [h Hh]; [left|].
    pose proof (wf_alloc _ Hwf _ _ Hh). pose proof (acc_next _ _ Hacc0). lia.
Qed.

(** X18. For a client that keeps to the contract no call on the shard fails:
    [Insert], [Lookup] and [Erase] return for every key, and [Value] and
    [Release] return for every handle the client holds; no assertion of
    [Unref] fails and no freed entry is touched.  The states after the calls
    are again states of such a client. *)
Theorem client_calls_return (c : LRUCache.t) (held : list ptr) :
  reachable c held ->
  Z.of_nat (length held) + 2 < 2 ^ 32 ->
  Z.of_nat (length (lru_ c)) < 2 ^ 31 ->
  (forall key hash0 value0 charge0 deleter0,
     exists c' e, Insert c key hash0 value0 charge0 deleter0 = Some (c', e) /\
       reachable c' (e :: held)) /\
  (forall key hash0,
     exists c' r, Lookup c key hash0 = Some (c', r) /\
       reachable c' (match r with Some e => e :: held | None => held end)) /\
  (forall handle, handle ∈ held ->
     exists v c', Value c handle = Some v /\ Release c handle = Some c' /\
       reachable c' (give_back handle held)) /\
  (forall key hash0, exists c', Erase c key hash0 = Some c' /\ reachable c' held).
Proof.
  intros Hreach Hheld Hlru.
  destruct (reachable_accounted c held Hreach) as [Hwf Hacc].
  split; [|split; [|split]].
  - intros key hash0 value0 charge0 deleter0.
    destruct (accounted_Insert c held key hash0 value0 charge0 deleter0 Hwf Hacc Hlru)
      as (c' & HI & _).
    exists c', (next_free c). split; [exact HI|].
    exact (reach_Insert c held key hash0 value0 charge0 deleter0 c' _ Hreach Hlru HI).
  - intros key hash0.
    destruct (accounted_Lookup c held key hash0 Hwf Hacc Hheld) as (c' & r & HL & _).
    exists c', r. split; [exact HL|].
    exact (reach_Lookup c held key hash0 c' r Hreach Hheld HL).
  - intros handle Hin.
    destruct (acc_held _ _ Hacc handle Hin) as [h Hh].
    destruct (accounted_Release c held handle Hwf Hacc Hin) as (c' & HR & _).
    exists (value h), c'. split; [unfold Value; rewrite Hh; reflexivity|].
    split; [exact HR|].
    exact (reach_Release c held handle c' Hreach Hin HR).
  - intros key hash0.
    destruct (accounted_Erase c held key hash0 Hwf Hacc) as (c' & HE & _).
    exists c'. split; [exact HE|].
    exact (reach_Erase c held key hash0 c' Hreach HE).
Qed.

Lemma client_calls_return_witness :
  exists c e, Stated.shard_with_k1 = Some c /\
    (forall key hash0 value0 charge0 deleter0,
       exists c' e', Insert c key hash0 value0 charge0 deleter0 = Some (c', e') /\
         reachable c' (e' :: [e])) /\
    (forall key hash0,
       exists c' r, Lookup c key hash0 = Some (c', r) /\
         reachable c' (match r with Some e' => e' :: [e] | None => [e] end)) /\
    (forall handle, handle ∈ [e] ->
       exists v c', Value c handle = Some v /\ Release c handle = Some c' /\
         reachable c' (give_back handle [e])) /\
    (forall key hash0, exists c', Erase c key hash0 = Some c' /\ reachable c' [e]).
Proof.
  destruct shard_with_k1_reachable as (c & e & Hc & Hreach & Hsmall & _).
  exists c, e. split; [exact Hc|].
  apply (client_calls_return c [e] Hreach); [cbn; lia|exact Hsmall].
Defined.

(** X19. In every state such a client reaches, the reference count of a
    live entry is one for the cache, if the entry is in the LRU list, plus
    the number of handles the client holds on it; and an entry is live
    exactly when it is in the list or the client holds a handle on it. *)
Theorem references_accounted (c : LRUCache.t) (held : list ptr) (p : ptr) :
  reachable c held ->
  match heap c !! p with
  | Some h =>
      refs h = (if bool_decide (p ∈ lru_ c) then 1 else 0) + holds p held /\
      (p ∈ lru_ c \/ p ∈ held)
  | None => (p ∉ lru_ c) /\ (p ∉ held)
  end.
Proof.
  intros Hreach. destruct (reachable_accounted c held Hreach) as [Hwf Hacc].
  destruct (heap c !! p) as [h|] eqn:Hh.
  - destruct (acc_refs _ _ Hacc p h Hh) as [Hr Hone]. split; [exact Hr|].
    destruct (decide (p ∈ lru_ c)) as [Hl|Hl]; [left; exact Hl|right].
    rewrite (bool_decide_eq_false_2 _ Hl) in Hr. apply holds_pos. lia.
  - split.
    + intros Hl. destruct (wf_refs _ Hwf p Hl) as (h & Hh' & _). congruence.
    + intros Hin. destruct (acc_held _ _ Hacc p Hin) as [h Hh']. congruence.
Qed.

Lemma references_accounted_witness :
  exists c e, Stated.shard_with_k1 = Some c /\
    match heap c !! e with
    | Some h =>
        refs h = (if bool_decide (e ∈ lru_ c) then 1 else 0) + holds e [e] /\
        (e ∈ lru_ c \/ e ∈ [e])
    | None => (e ∉ lru_ c) /\ (e ∉ [e])
    end.
Proof.
  destruct shard_with_k1_reachable as (c & e & Hc & Hreach & _).
  exists c, e. split; [exact Hc|].
  exact (references_accounted c [e] e Hreach).
Defined.

(** X20. In every state such a client reaches, the deleter has been called
    exactly once for every entry allocated so far that is neither in the LRU
    list nor held by the client, and not at all for the others. *)
Theorem deleter_called_once_when_unreferenced (c : LRUCache.t) (held : list ptr) (p : ptr) :
  reachable c held ->
  (1 <= p < next_free c)%nat ->
  length (calls_for p c)
  = if bool_decide (p ∈ lru_ c \/ p ∈ held) then 0%nat else 1%nat.
Proof.
  intros Hreach Hp. destruct (reachable_accounted c held Hreach) as [Hwf Hacc].
  unfold calls_for. rewrite (calls_length _ p (wf_deleted_nodup _ Hwf)).
  pose proof (references_accounted_live c held p Hwf Hacc) as Hlive.
  destruct (heap c !! p) as [h|] eqn:Hh.
  - rewrite bool_decide_eq_false_2.
    + rewrite bool_decide_eq_true_2; [reflexivity|]. apply Hlive. eexists; reflexivity.
    + intros Hd. apply list_elem_of_fmap in Hd as (call & -> & Hcall).
      destruct (wf_deleted _ Hwf call Hcall) as [Hnone _]. congruence.
  - rewrite bool_decide_eq_true_2.
    + rewrite bool_decide_eq_false_2; [reflexivity|].
      intros Hx. apply Hlive in Hx as [h Hx]. congruence.
    + destruct (acc_freed _ _ Hacc p Hp) as [[h Hx]|Hd]; [congruence|exact Hd].
Qed.

Lemma deleter_called_once_when_unreferenced_witness :
  exists c e, Stated.shard_with_k1 = Some c /\
    (1 <= e < next_free c)%nat /\
    length (calls_for e c)
    = if bool_decide (e ∈ lru_ c \/ e ∈ [e]) then 0%nat else 1%nat.
Proof.
  destruct shard_with_k1_reachable as (c & e & Hc & Hreach & _ & He).
  exists c, e. split; [exact Hc|]. split; [exact He|].
  exact (deleter_called_once_when_unreferenced c [e] e Hreach He).
Defined.

(** A key that no linked entry has is not found, and the shard stays as it
    is. *)
Lemma Lookup_miss (c : LRUCache.t) (key : list byte) (hash0 : Z) :
  WF c -> (forall p, p ∈ lru_ c -> ~ matches (heap c) key hash0 p) ->
  Lookup c key hash0 = Some (c, None).
Proof.
  intros Hwf Hno. unfold Lookup.
  destruct (Lookup_spec (heap c) (table_ c) key hash0 (wf_table _ Hwf)) as (r & Hr & Hres).
  rewrite Hr. cbn [mbind option_bind]. destruct r as [e|]; [|reflexivity].
  destruct Hres as (Hin & h & Hh & Hhash & Hkey).
  apply (wf_lru_table _ Hwf) in Hin. exfalso. apply (Hno e Hin).
  exists h. split; [exact Hh|]. split; assumption.
Qed.

Lemma newest_in_drop (l : list ptr) (e : ptr) (n : nat) :
  drop n (l ++ [e]) <> [] -> e ∈ drop n (l ++ [e]).
Proof.
  intros Hne. destruct (decide (n <= length l)%nat) as [Hle|Hgt].
  - rewrite drop_app_le by exact Hle. apply elem_of_app. right. left.
  - exfalso. apply Hne. apply drop_ge. rewrite length_app. cbn [length]. lia.
Qed.

(** X21. After [Erase] a [Lookup] of the same key misses and leaves the
    shard as it is, whether or not the client still holds handles on the
    erased entry. *)
Theorem Erase_then_Lookup_misses (c : LRUCache.t) (held : list ptr)
    (key : list byte) (hash0 : Z) (c' : LRUCache.t) :
  reachable c held ->
  Erase c key hash0 = Some c' ->
  Lookup c' key hash0 = Some (c', None).
Proof.
  intros Hreach HE. destruct (reachable_accounted c held Hreach) as [Hwf _].
  destruct (Erase_shard c key hash0 Hwf) as (c2 & HE2 & Hwf2 & _ & _ & Hno & _).
  assert (c2 = c') by congruence. subst c2.
  exact (Lookup_miss c' key hash0 Hwf2 Hno).
Qed.

Lemma Erase_then_Lookup_misses_witness :
  exists c c', Stated.shard_with_k1 = Some c /\
    Erase c Stated.key_k1 17 = Some c' /\
    Lookup c' Stated.key_k1 17 = Some (c', None).
Proof.
  destruct shard_with_k1_reachable as (c & e & Hc & Hreach & _).
  destruct (reachable_accounted c [e] Hreach) as [Hwf _].
  destruct (Erase_shard c Stated.key_k1 17 Hwf) as (c' & HE & _).
  exists c, c'. split; [exact Hc|]. split; [exact HE|].
  exact (Erase_then_Lookup_misses c [e] Stated.key_k1 17 c' Hreach HE).
Defined.

(** X22. After [Insert] a [Lookup] of the same key returns the entry just
    inserted, unless the eviction loop of [Insert] has emptied the whole LRU
    list, in which case it misses; either way the handle [Insert] returned
    still reads the value inserted. *)
Theorem Insert_then_Lookup (c : LRUCache.t) (held : list ptr) (key : list byte)
    (hash0 value0 charge0 deleter0 : Z) (c' : LRUCache.t) (e : ptr) :
  reachable c held ->
  Z.of_nat (length held) + 3 < 2 ^ 32 ->
  Z.of_nat (length (lru_ c)) < 2 ^ 31 ->
  Insert c key hash0 value0 charge0 deleter0 = Some (c', e) ->
  exists c'',
    Lookup c' key hash0
    = Some (c'', if bool_decide (lru_ c' = []) then None else Some e) /\
    Value c'' e = Some value0.
Proof.
  intros Hreach Hheld Hsmall HI.
  destruct (reachable_accounted c held Hreach) as [Hwf Hacc].
  pose proof (reach_Insert c held key hash0 value0 charge0 deleter0 c' e Hreach Hsmall HI)
    as Hreach'.
  destruct (reachable_accounted c' _ Hreach') as [Hwf' Hacc'].
  destruct (Insert_entry_spec c key hash0 value0 charge0 deleter0 Hwf Hsmall)
    as (c1 & old & HI1 & Hwf1 & _ & _ & Hhe & Hold).
  set (he := {| value := value0; deleter := deleter0; charge := charge0;
                key_data := key; refs := 2; hash := hash0 |}) in *.
  assert (Hlast : exists l, lru_ c1 = l ++ [next_free c]).
  { destruct old as [o|].
    - destruct Hold as (ho & _ & _ & _ & _ & _ & Hlru & _). eexists; exact Hlru.
    - destruct Hold as (_ & Hlru & _). eexists; exact Hlru. }
  destruct Hlast as [l Hl].
  destruct (evict_spec (length (lru_ c1)) c1 Hwf1 ltac:(lia))
    as (n & c2 & HE & _ & _ & _ & Hdrop & _ & _ & Hin & Hout & _).
  assert (HI2 : Insert c key hash0 value0 charge0 deleter0 = Some (c2, next_free c)).
  { unfold Insert. rewrite HI1. cbn [mbind option_bind]. rewrite HE. reflexivity. }
  rewrite HI in HI2. injection HI2 as Ec Ee. subst c2 e.
  set (e := next_free c) in *.
  destruct (decide (lru_ c' = [])) as [Hnil|Hnn].
  - rewrite (bool_decide_eq_true_2 _ Hnil). exists c'. split.
    + apply (Lookup_miss c' key hash0 Hwf'). intros p Hp. rewrite Hnil in Hp. inversion Hp.
    + destruct (acc_held _ _ Hacc' e) as [h Hh]; [left|].
      unfold Value. rewrite Hh. cbn [mbind option_bind]. f_equal.
      destruct (decide (e ∈ take n (lru_ c1))) as [Ht|Ht].
      * rewrite (Hin e he Ht Hhe) in Hh. cbn in Hh. injection Hh as <-. reflexivity.
      * rewrite (Hout e Ht), Hhe in Hh. injection Hh as <-. reflexivity.
  - rewrite (bool_decide_eq_false_2 _ Hnn).
    assert (He : e ∈ lru_ c').
    { rewrite Hdrop, Hl. apply newest_in_drop. rewrite <- Hl, <- Hdrop. exact Hnn. }
    assert (Ht : e ∉ take n (lru_ c1)).
    { pose proof (wf_lru_nodup _ Hwf1) as Hnd.
      rewrite <- (take_drop n (lru_ c1)) in Hnd.
      apply NoDup_app in Hnd as (_ & Hdisj & _).
      intros Hx. apply (Hdisj e Hx). rewrite <- Hdrop. exact He. }
    assert (Hh : heap c' !! e = Some he) by (rewrite (Hout e Ht); exact Hhe).
    assert (Hbound : forall p h, p ∈ lru_ c' -> heap c' !! p = Some h -> refs h + 1 < 2 ^ 32).
    { intros p h Hp Hph. destruct (acc_refs _ _ Hacc' p h Hph) as [Hr _].
      pose proof (holds_le_length p (e :: held)) as Hle. cbn [length] in Hle.
      destruct (bool_decide _); lia. }
    destruct (Lookup_shard c' key hash0 Hwf' Hbound) as (c'' & r & HL & _ & Hcase).
    exists c''. destruct r as [e2|].
    + destruct Hcase as (h2 & Hh2 & Hhash & Hkey & He2 & ->).
      assert (e2 = e).
      { apply (wf_keys _ _ (wf_table _ Hwf') e2 e h2 he).
        - apply (wf_lru_table _ Hwf'). exact He2.
        - apply (wf_lru_table _ Hwf'). exact He.
        - exact Hh2.
        - exact Hh.
        - rewrite Hhash. reflexivity.
        - rewrite Hkey. reflexivity. }
      subst e2. split; [exact HL|].
      unfold Value. cbn [heap]. rewrite lookup_insert_eq. cbn [mbind option_bind].
      assert (h2 = he) by congruence. subst h2. reflexivity.
    + exfalso. destruct Hcase as [_ Hno]. apply (Hno e He).
      exists he. split; [exact Hh|]. split; reflexivity.
Qed.

(** An empty shard of capacity 10 takes [k1] with charge 1 and keeps it. *)
Lemma Insert_k1_fits :
  exists c c', LRUCache.new 10 = Some c /\
    Insert c Stated.key_k1 17 100 1 7 = Some (c', 1%nat) /\
    lru_ c = [] /\ lru_ c' = [1%nat].
Proof.
  eexists _, _. split; [vm_compute; reflexivity|].
  split; [vm_compute; reflexivity|]. split; reflexivity.
Qed.

Lemma Insert_then_Lookup_witness :
  (exists c c' c'', LRUCache.new 10 = Some c /\
     Insert c Stated.key_k1 17 100 1 7 = Some (c', 1%nat) /\
     lru_ c' = [1%nat] /\
     Lookup c' Stated.key_k1 17 = Some (c'', Some 1%nat) /\
     Value c'' 1%nat = Some 100) /\
  (exists c c' e c'', Stated.shard_with_k1 = Some c /\
     Insert c Stated.key_k2 18 200 1 7 = Some (c', e) /\
     Lookup c' Stated.key_k2 18
     = Some (c'', if bool_decide (lru_ c' = []) then None else Some e) /\
     Value c'' e = Some 200).
Proof.
  split.
  - destruct Insert_k1_fits as (c & c' & Hnew & HI & Hl & Hl').
    assert (Hheld : Z.of_nat (length (@nil ptr)) + 3 < 2 ^ 32) by (cbn; lia).
    assert (Hsmall : Z.of_nat (length (lru_ c)) < 2 ^ 31) by (rewrite Hl; cbn; lia).
    destruct (Insert_then_Lookup c [] Stated.key_k1 17 100 1 7 c' 1%nat
                (reach_new 10 c Hnew) Hheld Hsmall HI) as (c'' & HL & HV).
    rewrite bool_decide_eq_false_2 in HL by (rewrite Hl'; discriminate).
    exists c, c', c''. split; [exact Hnew|]. split; [exact HI|].
    split; [exact Hl'|]. split; [exact HL|exact HV].
  - destruct shard_with_k1_reachable as (c & e0 & Hc & Hreach & Hsmall & _).
    destruct (reachable_accounted c [e0] Hreach) as [Hwf _].
    destruct (Insert_WF c Stated.key_k2 18 200 1 7 Hwf Hsmall) as (c' & HI & _).
    assert (Hheld : Z.of_nat (length [e0]) + 3 < 2 ^ 32) by (cbn; lia).
    destruct (Insert_then_Lookup c [e0] Stated.key_k2 18 200 1 7 c' _ Hreach Hheld Hsmall HI)
      as (c'' & HL & HV).
    exists c, c', (next_free c), c''. split; [exact Hc|]. split; [exact HI|].
    split; [exact HL|exact HV].
Defined.

End ClientTheorems.

(** ** util/cache: [usage_] against the charges of the live entries *)

Section Usage.
Import Cache Cache.LRUCache CacheInv CacheClient.

Lemma total_charge_insert (m : Heap) (e : ptr) (h : LRUHandle) :
  m !! e = None -> total_charge (<[e := h]> m) = charge h + total_charge m.
Proof.
  intros Hnone. unfold total_charge.
  rewrite map_fold_insert_L; [reflexivity| |exact Hnone].
  intros j1 j2 z1 z2 y _ _ _. lia.
Qed.

Lemma total_charge_delete (m : Heap) (e : ptr) (h : LRUHandle) :
  m !! e = Some h -> total_charge (delete e m) = total_charge m - charge h.
Proof.
  intros Hsome. rewrite <- (insert_delete_id m e h Hsome) at 2.
  rewrite total_charge_insert by apply lookup_delete_eq. lia.
Qed.

Lemma total_charge_update (m : Heap) (e : ptr) (h h' : LRUHandle) :
  m !! e = Some h -> charge h' = charge h ->
  total_charge (<[e := h']> m) = total_charge m.
Proof.
  intros Hsome Hc. rewrite <- (insert_delete_eq m e h').
  rewrite total_charge_insert by apply lookup_delete_eq.
  rewrite (total_charge_delete m e h Hsome). lia.
Qed.

Lemma wrap64_add_l (a b : Z) : wrap64 (wrap64 a + b) = wrap64 (a + b).
Proof. unfold wrap64. apply Zplus_mod_idemp_l. Qed.

Lemma wrap64_sub_l (a b : Z) : wrap64 (wrap64 a - b) = wrap64 (a - b).
Proof. unfold wrap64. apply Zminus_mod_idemp_l. Qed.

Lemma wrap64_add_sub (a b d : Z) :
  wrap64 (wrap64 (wrap64 a + b) - d) = wrap64 (b + a - d).
Proof.
  rewrite wrap64_sub_l. replace (wrap64 a + b - d) with (wrap64 a + (b - d)) by lia.
  rewrite wrap64_add_l. f_equal. lia.
Qed.

Lemma usage_exact_evict_n (n : nat) :
  forall c c', WF c -> usage_exact c -> evict_n n c = Some c' -> usage_exact c'.
Proof.
  induction n as [|n IH]; intros c c' Hwf Hu HE.
  - cbn in HE. injection HE as <-. exact Hu.
  - cbn [evict_n] in HE. destruct (lru_ c) as [|old rest] eqn:Hlru.
    + unfold evict_one in HE. rewrite Hlru in HE. discriminate.
    + destruct (evict_one_spec c old rest Hwf Hlru)
        as (h & tb' & c1 & Hh & Hone & HE1 & Hwf1 & _ & _ & _ & _ & _ & Hcase).
      rewrite HE1 in HE. cbn [mbind option_bind] in HE.
      apply (IH c1 c' Hwf1); [|exact HE].
      unfold usage_exact in *.
      destruct (Z.eqb_spec (refs h) 1).
      * destruct Hcase as (-> & _ & ->).
        rewrite (total_charge_delete _ _ _ Hh), Hu. apply wrap64_sub_l.
      * destruct Hcase as (-> & _ & ->).
        rewrite (total_charge_update _ _ h) by (exact Hh || reflexivity). exact Hu.
Qed.

Lemma usage_exact_Unref (c c' : LRUCache.t) (e : ptr) (h : LRUHandle) :
  usage_exact c -> heap c !! e = Some h -> 1 <= refs h -> Unref c e = Some c' ->
  usage_exact c'.
Proof.
  intros Hu Hh Hone HU. rewrite (Unref_spec c e h Hh Hone) in HU. injection HU as <-.
  unfold usage_exact in *. destruct (Z.eqb_spec (refs h) 1); cbn [usage_ heap set_heap].
  - rewrite (total_charge_delete _ _ _ Hh), Hu. apply wrap64_sub_l.
  - rewrite (total_charge_update _ _ h) by (exact Hh || reflexivity). exact Hu.
Qed.

Lemma usage_exact_Insert (c c' : LRUCache.t) (key : list byte)
    (hash0 value0 charge0 deleter0 : Z) (e : ptr) :
  WF c -> usage_exact c -> Z.of_nat (length (lru_ c)) < 2 ^ 31 ->
  Insert c key hash0 value0 charge0 deleter0 = Some (c', e) -> usage_exact c'.
Proof.
  intros Hwf Hu Hsmall HI.
  destruct (Insert_entry_spec c key hash0 value0 charge0 deleter0 Hwf Hsmall)
    as (c1 & old & HI1 & Hwf1 & _ & _ & _ & Hold).
  set (he := {| value := value0; deleter := deleter0; charge := charge0;
                key_data := key; refs := 2; hash := hash0 |}) in *.
  pose proof (WF_fresh c Hwf) as Hfresh.
  assert (Hu1 : usage_exact c1).
  { unfold usage_exact in *. destruct old as [o|].
    - destruct Hold as (ho & Hho & _ & _ & _ & _ & _ & _ & Hcase).
      assert (Hoe : o <> next_free c) by congruence.
      assert (Hho' : <[next_free c := he]> (heap c) !! o = Some ho)
        by (rewrite lookup_insert_ne by congruence; exact Hho).
      destruct (Z.eqb_spec (refs ho) 1); destruct Hcase as (-> & _ & ->).
      + rewrite (total_charge_delete _ _ _ Hho'), (total_charge_insert _ _ _ Hfresh), Hu.
        cbn [charge he]. apply wrap64_add_sub.
      + rewrite (total_charge_update _ _ ho) by (exact Hho' || reflexivity).
        rewrite (total_charge_insert _ _ _ Hfresh), Hu, wrap64_add_l.
        cbn [charge he]. f_equal. lia.
    - destruct Hold as (_ & _ & -> & _ & ->).
      rewrite (total_charge_insert _ _ _ Hfresh), Hu, wrap64_add_l.
      cbn [charge he]. f_equal. lia. }
  destruct (evict_spec (length (lru_ c1)) c1 Hwf1 ltac:(lia))
    as (n & c2 & HE & HEn & _).
  assert (HI2 : Insert c key hash0 value0 charge0 deleter0 = Some (c2, next_free c)).
  { unfold Insert. rewrite HI1. cbn [mbind option_bind]. rewrite HE. reflexivity. }
  assert (c2 = c') by congruence. subst c2.
  exact (usage_exact_evict_n n c1 c' Hwf1 Hu1 HEn).
Qed.

(** X23. In every state a client that keeps to the contract reaches,
    [usage_] is the sum, as a [size_t], of the charges of all entries not
    yet freed: those in the LRU list and those that are only held by the
    client after an eviction, a replacement or an [Erase]. *)
Theorem usage_counts_live_entries (c : LRUCache.t) (held : list ptr) :
  reachable c held -> usage_ c = wrap64 (total_charge (heap c)).
Proof.
  change (reachable c held -> usage_exact c).
  induction 1 as [capacity c Hnew
                 |c held key hash0 value0 charge0 deleter0 c' e Hreach Hu Hsmall HI
                 |c held key hash0 c' r Hreach Hu Hsmall HL
                 |c held handle c' Hreach Hu Hin HR
                 |c held key hash0 c' Hreach Hu HE].
  - unfold LRUCache.new in Hnew. destruct HandleTable.new as [tb|]; [|discriminate].
    cbn [mbind option_bind] in Hnew. injection Hnew as <-. reflexivity.
  - destruct (reachable_accounted c held Hreach) as [Hwf _].
    exact (usage_exact_Insert c c' key hash0 value0 charge0 deleter0 e Hwf Hu Hsmall HI).
  - destruct (reachable_accounted c held Hreach) as [Hwf Hacc].
    assert (Hbound : forall p h, p ∈ lru_ c -> heap c !! p = Some h -> refs h + 1 < 2 ^ 32).
    { intros p h Hp Hh. destruct (acc_refs _ _ Hacc p h Hh) as [Hr _].
      pose proof (holds_le_length p held). destruct (bool_decide _); lia. }
    destruct (Lookup_shard c key hash0 Hwf Hbound) as (c2 & r2 & HL2 & _ & Hcase).
    rewrite HL in HL2. injection HL2 as Ec Er. subst c2 r2.
    destruct r as [e|].
    + destruct Hcase as (h & Hh & _ & _ & _ & ->). unfold usage_exact in *.
      cbn [usage_ heap].
      rewrite (total_charge_update _ _ h) by (exact Hh || reflexivity). exact Hu.
    + destruct Hcase as [-> _]. exact Hu.
  - destruct (reachable_accounted c held Hreach) as [Hwf Hacc].
    destruct (acc_held _ _ Hacc handle Hin) as [h Hh].
    destruct (acc_refs _ _ Hacc handle h Hh) as [_ Hone].
    exact (usage_exact_Unref c c' handle h Hu Hh Hone HR).
  - destruct (reachable_accounted c held Hreach) as [Hwf _].
    destruct (Erase_shard c key hash0 Hwf)
      as (c2 & HE2 & _ & _ & _ & _ & [[-> _]|(e & h & Hh & _ & _ & _ & _ & _ & Hcase)]).
    + assert (c = c') by congruence. subst c'. exact Hu.
    + assert (c2 = c') by congruence. subst c2. unfold usage_exact in *.
      destruct (Z.eqb_spec (refs h) 1).
      * destruct Hcase as (-> & _ & ->).
        rewrite (total_charge_delete _ _ _ Hh), Hu. apply wrap64_sub_l.
      * destruct Hcase as (-> & _ & ->).
        rewrite (total_charge_update _ _ h) by (exact Hh || reflexivity). exact Hu.
Qed.

Lemma usage_counts_live_entries_witness :
  exists c, Stated.shard_with_k1 = Some c /\
    usage_ c = wrap64 (total_charge (heap c)).
Proof.
  destruct shard_with_k1_reachable as (c & e & Hc & Hreach & _).
  exists c. split; [exact Hc|].
  exact (usage_counts_live_entries c [e] Hreach).
Defined.

End Usage.

(** ** util/random.h: the generator *)

Section RandomFacts.
Import Random.

Lemma lehmer_nonzero (seed_ : Z) :
  1 <= seed_ < 2147483647 -> (seed_ * 16807) mod 2147483647 <> 0.
Proof.
  intros Hs Hz. apply Z.mod_divide in Hz; [|lia].
  rewrite Z.mul_comm in Hz.
  apply Z.gauss in Hz; [|vm_compute; reflexivity].
  apply Z.divide_pos_le in Hz; lia.
Qed.

(** [Next] on a seed in [1, M-1]: the product does not wrap, and the two
    halves of the product add up to its residue modulo [M = 2^31-1]. *)
Lemma Next_spec (seed_ : Z) :
  1 <= seed_ < 2147483647 ->
  Next seed_ = ((seed_ * 16807) mod 2147483647, (seed_ * 16807) mod 2147483647) /\
  1 <= (seed_ * 16807) mod 2147483647 < 2147483647.
Proof.
  intros Hs. pose proof (lehmer_nonzero seed_ Hs) as Hnz.
  assert (Hrange : 0 <= (seed_ * 16807) mod 2147483647 < 2147483647)
    by (apply Z.mod_pos_bound; lia).
  split; [|lia]. unfold Next. cbv zeta.
  set (P := seed_ * 16807) in *.
  assert (HP : 0 <= P < 70368744177664) by (subst P; lia).
  rewrite (wrap64_small P) by (change (2 ^ 64) with 18446744073709551616; lia).
  rewrite Z.shiftr_div_pow2 by lia.
  replace (Z.land P 2147483647) with (P mod 2 ^ 31)
    by (symmetry; apply (Z.land_ones P 31); lia).
  change (2 ^ 31) with 2147483648.
  pose proof (Z.div_mod P 2147483648 ltac:(lia)) as Hdm.
  pose proof (Z.mod_pos_bound P 2147483648 ltac:(lia)) as Hr.
  assert (Hq : 0 <= P / 2147483648 < 16807).
  { split; [apply Z.div_pos; lia|apply Z.div_lt_upper_bound; lia]. }
  set (q := P / 2147483648) in *. set (r := P mod 2147483648) in *.
  rewrite (wrap64_small (q + r)) by (change (2 ^ 64) with 18446744073709551616; lia).
  rewrite (wrap32_small (q + r)) by (change (2 ^ 32) with 4294967296; lia).
  assert (Hmod : P mod 2147483647 = (q + r) mod 2147483647).
  { replace P with (q + r + q * 2147483647) by lia. apply Z.mod_add. lia. }
  destruct (Z.gtb_spec (q + r) 2147483647) as [Hgt|Hle].
  - rewrite (wrap32_small (q + r - 2147483647)) by (change (2 ^ 32) with 4294967296; lia).
    assert (Hm : (q + r) mod 2147483647 = q + r - 2147483647).
    { symmetry. apply (Z.mod_unique _ _ 1); lia. }
    rewrite Hmod, Hm. reflexivity.
  - assert (Hne : q + r <> 2147483647).
    { intros Heq. apply Hnz. rewrite Hmod, Heq. reflexivity. }
    rewrite Hmod, (Z.mod_small (q + r)) by lia. reflexivity.
Qed.

Lemma new_range (s : Z) : 1 <= new s < 2147483647.
Proof.
  unfold new.
  assert (H : 0 <= Z.land s 2147483647 < 2147483648).
  { change 2147483647 with (Z.ones 31). rewrite Z.land_ones by lia.
    change (2 ^ 31) with 2147483648. apply Z.mod_pos_bound. lia. }
  destruct (Z.eqb_spec (Z.land s 2147483647) 0); cbn [orb]; [lia|].
  destruct (Z.eqb_spec (Z.land s 2147483647) 2147483647); lia.
Qed.

(** X24. On a seed between 1 and [M - 1], for [M = 2^31 - 1], [Next]
    returns [seed * 16807 mod M], computed without a division, and stores it
    as the new seed; the number is again between 1 and [M - 1]. *)
Theorem Next_is_multiplication_mod_M (seed_ : Z) :
  1 <= seed_ < 2147483647 ->
  Next seed_ = ((seed_ * 16807) mod (2 ^ 31 - 1), (seed_ * 16807) mod (2 ^ 31 - 1)) /\
  1 <= snd (Next seed_) <= 2 ^ 31 - 2.
Proof.
  intros Hs. change (2 ^ 31 - 1) with 2147483647. change (2 ^ 31 - 2) with 2147483646.
  destruct (Next_spec seed_ Hs) as [-> Hr]. cbn [snd]. split; [reflexivity|lia].
Qed.

Lemma Next_is_multiplication_mod_M_witness :
  Next 2147483646 = ((2147483646 * 16807) mod (2 ^ 31 - 1),
                     (2147483646 * 16807) mod (2 ^ 31 - 1)) /\
  1 <= snd (Next 2147483646) <= 2 ^ 31 - 2.
Proof. apply (Next_is_multiplication_mod_M 2147483646). lia. Defined.

(** X25. Whatever the constructor is given, the seed is never 0 and never
    [2^31 - 1], the two values on which the generator would get stuck, after
    any number of calls of [Next]; so no call of [Next] ever returns 0. *)
Theorem seed_never_stuck (s : Z) (n : nat) :
  1 <= seed_after n (new s) <= 2 ^ 31 - 2 /\
  snd (Next (seed_after n (new s))) <> 0.
Proof.
  change (2 ^ 31 - 2) with 2147483646.
  assert (H : forall seed_, 1 <= seed_ < 2147483647 ->
                1 <= seed_after n seed_ < 2147483647).
  { induction n as [|n IH]; intros seed_ Hs; cbn [seed_after]; [exact Hs|].
    apply IH. destruct (Next_spec seed_ Hs) as [-> Hr]. exact Hr. }
  pose proof (H (new s) (new_range s)) as Hn. split; [lia|].
  destruct (Next_spec _ Hn) as [-> Hr]. cbn [snd]. lia.
Qed.

(** [Uniform] and [OneIn] for [n] from 0 to [2^31 - 1]: the remainder is
    below [n]; for [n = 0] both divide by zero. *)
Lemma Uniform_spec (seed_ n : Z) :
  0 <= n < 2 ^ 31 ->
  match Uniform seed_ n with
  | Some (seed', r) =>
      0 < n /\ 0 <= r < n /\ seed' = fst (Next seed_) /\
      OneIn seed_ n = Some (seed', r =? 0)
  | None => n = 0 /\ OneIn seed_ n = None
  end.
Proof.
  intros Hn. unfold Uniform, OneIn. destruct (Next seed_) as [seed' r]. cbn [fst].
  rewrite (wrap32_small n)
    by (change (2 ^ 31) with 2147483648 in Hn; change (2 ^ 32) with 4294967296; lia).
  destruct (Z.eqb_spec n 0) as [->|Hne]; [split; reflexivity|].
  split; [lia|]. split; [apply Z.mod_pos_bound; lia|]. split; reflexivity.
Qed.

(** X26. For [max_log] from 0 to 30, [Skewed(max_log)] draws twice and
    returns a number below [2^max_log]. *)
Theorem Skewed_range (seed_ max_log : Z) :
  0 <= max_log <= 30 ->
  exists seed' r, Skewed seed_ max_log = Some (seed', r) /\
    0 <= r < 2 ^ max_log /\
    seed' = fst (Next (fst (Next seed_))).
Proof.
  intros Hm. unfold Skewed.
  destruct (Z.leb_spec (2 ^ 31) (max_log + 1)) as [Hbig|_].
  { change (2 ^ 31) with 2147483648 in Hbig. lia. }
  pose proof (Uniform_spec seed_ (max_log + 1)) as HU.
  destruct (Uniform seed_ (max_log + 1)) as [[s1 base]|].
  2:{ destruct HU as [H0 _]; [change (2 ^ 31) with 2147483648|]; lia. }
  destruct HU as (_ & Hb & -> & _); [change (2 ^ 31) with 2147483648; lia|].
  cbn [mbind option_bind].
  destruct (Z.leb_spec 31 base) as [|_]; [lia|].
  rewrite Z.shiftl_1_l.
  assert (Hpow : 0 < 2 ^ base <= 2 ^ max_log).
  { split; [apply Z.pow_pos_nonneg; lia|apply Z.pow_le_mono_r; lia]. }
  assert (Hpow' : 2 ^ max_log <= 2 ^ 30) by (apply Z.pow_le_mono_r; lia).
  pose proof (Uniform_spec (fst (Next seed_)) (2 ^ base)) as HU.
  destruct (Uniform (fst (Next seed_)) (2 ^ base)) as [[s2 r]|].
  2:{ destruct HU as [H0 _]; [|lia].
      change (2 ^ 30) with 1073741824 in Hpow'. change (2 ^ 31) with 2147483648. lia. }
  destruct HU as (_ & Hr & -> & _).
  { change (2 ^ 30) with 1073741824 in Hpow'. change (2 ^ 31) with 2147483648. lia. }
  exists (fst (Next (fst (Next seed_)))), r. split; [reflexivity|]. split; [lia|reflexivity].
Qed.

Lemma Skewed_range_witness :
  exists seed' r, Skewed 1 10 = Some (seed', r) /\
    0 <= r < 2 ^ 10 /\
    seed' = fst (Next (fst (Next 1))).
Proof. apply (Skewed_range 1 10). lia. Defined.

End RandomFacts.

(** ** util/cache: the shards of a [ShardedLRUCache] *)

Section Sharded.
Import Cache CacheInv ShardedLRUCache.

Lemma Shard_range (hash0 : Z) :
  0 <= hash0 < 2 ^ 32 -> 0 <= Shard hash0 < 16 /\ Shard hash0 = hash0 / 2 ^ 28.
Proof.
  intros Hh. unfold Shard, kNumShardBits. change (32 - 4) with 28.
  rewrite Z.shiftr_div_pow2 by lia. split; [|reflexivity].
  change (2 ^ 32) with (16 * 2 ^ 28) in Hh.
  split; [apply Z.div_pos; lia|apply Z.div_lt_upper_bound; lia].
Qed.

(** X27. The constructor makes 16 empty shards, and the top four bits of a
    32-bit hash always select one of them.  Every shard gets the capacity
    [(capacity + 15) / 16]: the shards together hold at least [capacity]
    and less than [capacity + 16], unless [capacity + 15] does not fit in a
    [size_t], in which case every shard gets the capacity 0. *)
Theorem ShardedLRUCache_new_shards (capacity : Z) :
  0 <= capacity < 2 ^ 64 ->
  exists c, ShardedLRUCache.new capacity = Some c /\
    length (shard_ c) = 16%nat /\
    (forall hash0, 0 <= hash0 < 2 ^ 32 ->
       exists s, shard_ c !! Z.to_nat (Shard hash0) = Some s /\
         LRUCache.capacity_ s = per_shard capacity /\
         LRUCache.lru_ s = [] /\ WF s) /\
    if capacity + 15 <? 2 ^ 64
    then capacity <= 16 * per_shard capacity < capacity + 16
    else per_shard capacity = 0.
Proof.
  intros Hc.
  destruct (new_WF (per_shard capacity)) as (s & Hs & Hwf & Hlru & Hcap).
  exists {| shard_ := replicate 16 s; last_id_ := 0 |}.
  split; [|split; [|split]].
  - unfold ShardedLRUCache.new.
    assert (HM : mapM (fun _ : nat => LRUCache.new (per_shard capacity))
                   (seq 0 (Z.to_nat kNumShards)) = Some (replicate 16 s)).
    { apply mapM_Some. change (Z.to_nat kNumShards) with 16%nat.
      cbn [seq replicate]. repeat constructor; exact Hs. }
    rewrite HM. reflexivity.
  - cbn [shard_]. apply length_replicate.
  - intros hash0 Hh. destruct (Shard_range hash0 Hh) as [Hr _].
    exists s. cbn [shard_]. split; [apply lookup_replicate_2; lia|].
    split; [exact Hcap|]. split; [exact Hlru|exact Hwf].
  - unfold per_shard. change (kNumShards - 1) with 15. change kNumShards with 16.
    change (2 ^ 64) with 18446744073709551616 in *.
    destruct (Z.ltb_spec (capacity + 15) 18446744073709551616) as [Hfit|Hwrap].
    + rewrite wrap64_small by (change (2 ^ 64) with 18446744073709551616; lia).
      pose proof (Z.div_mod (capacity + 15) 16 ltac:(lia)) as Hdm.
      pose proof (Z.mod_pos_bound (capacity + 15) 16 ltac:(lia)) as Hm. lia.
    + unfold wrap64. change (2 ^ 64) with 18446744073709551616.
      assert (Hm : (capacity + 15) mod 18446744073709551616
                   = capacity + 15 - 18446744073709551616).
      { symmetry. apply (Z.mod_unique _ _ 1); lia. }
      rewrite Hm. apply Z.div_small. lia.
Qed.

Lemma ShardedLRUCache_new_shards_witness :
  exists c, ShardedLRUCache.new 100 = Some c /\
    length (shard_ c) = 16%nat /\
    (forall hash0, 0 <= hash0 < 2 ^ 32 ->
       exists s, shard_ c !! Z.to_nat (Shard hash0) = Some s /\
         LRUCache.capacity_ s = per_shard 100 /\
         LRUCache.lru_ s = [] /\ WF s) /\
    if 100 + 15 <? 2 ^ 64
    then 100 <= 16 * per_shard 100 < 100 + 16
    else per_shard 100 = 0.
Proof. apply (ShardedLRUCache_new_shards 100). split; [lia|reflexivity]. Defined.

End Sharded.

(** ** db/memtable: the entries of the table *)

Section MemTableFacts.
Import Coding DBFormat MemTable.

Lemma VarintLength_from_length (m : nat) :
  forall (n : nat) (v : Z),
    (m <= n)%nat -> 0 <= v < 2 ^ (7 * (Z.of_nat m + 1)) ->
    VarintLength_from n v = Z.of_nat (length (EncodeVarint m v)).
Proof.
  induction m as [|m IH]; intros n v Hn Hv.
  - change (2 ^ (7 * (Z.of_nat 0 + 1))) with 128 in Hv. cbn [EncodeVarint length].
    destruct n as [|n]; cbn [VarintLength_from]; [reflexivity|].
    destruct (Z.leb_spec 128 v); [lia|reflexivity].
  - destruct n as [|n]; [lia|]. cbn [VarintLength_from EncodeVarint].
    destruct (Z.ltb_spec v 128) as [Hlt|Hge].
    + destruct (Z.leb_spec 128 v); [lia|reflexivity].
    + destruct (Z.leb_spec 128 v); [|lia]. cbn [length].
      rewrite (IH n (Z.shiftr v 7)); [lia|lia|].
      rewrite Z.shiftr_div_pow2 by lia. change (2 ^ 7) with 128.
      split; [apply Z.div_pos; lia|]. apply Z.div_lt_upper_bound; [lia|].
      replace (7 * (Z.of_nat (S m) + 1)) with (7 + 7 * (Z.of_nat m + 1)) in Hv by lia.
      rewrite Z.pow_add_r in Hv by lia. change (2 ^ 7) with 128 in Hv. lia.
Qed.

Lemma VarintLength_32 (v : Z) :
  0 <= v < 2 ^ 32 -> VarintLength v = size (EncodeVarint32 v).
Proof.
  intros Hv. unfold VarintLength, EncodeVarint32, size.
  apply VarintLength_from_length; [lia|].
  change (2 ^ (7 * (Z.of_nat 4 + 1))) with (2 ^ 32 * 8). lia.
Qed.

(** A varint32 length followed by that many bytes is read back. *)
Lemma GetLengthPrefixedSlice_prefixed (a rest : list byte) :
  size a < 2 ^ 32 ->
  GetVarint32 (EncodeVarint32 (size a) ++ a ++ rest) = Some (size a, a ++ rest) /\
  GetLengthPrefixedSlice (EncodeVarint32 (size a) ++ a ++ rest) = Some a.
Proof.
  intros Ha. assert (H0 : 0 <= size a) by (unfold size; lia).
  assert (HG : GetVarint32 (EncodeVarint32 (size a) ++ a ++ rest) = Some (size a, a ++ rest))
    by (apply GetVarint32_EncodeVarint32; lia).
  split; [exact HG|]. unfold GetLengthPrefixedSlice. rewrite HG.
  cbn [mbind option_bind]. rewrite size_app.
  destruct (Z.ltb_spec (size a + size rest) (size a)) as [Hlt|_].
  { unfold size in Hlt. lia. }
  rewrite slice_to_app_size. reflexivity.
Qed.

(** The sequence number shifted into the tag, a [uint64_t]: its 56 low bits
    are kept. *)
Lemma wrap64_shiftl_8 (s : Z) : wrap64 (Z.shiftl s 8) = Z.shiftl (s mod 2 ^ 56) 8.
Proof.
  unfold wrap64. rewrite !Z.shiftl_mul_pow2 by lia.
  change (2 ^ 64) with (2 ^ 56 * 2 ^ 8). apply Z.mul_mod_distr_r; lia.
Qed.

(** The entry [Add] builds when the two lengths fit their [uint32_t]
    fields: the allocation is filled exactly. *)
Lemma Add_entry_layout (s t : Z) (key value : list byte) :
  size key + 8 < 2 ^ 32 -> size value < 2 ^ 32 ->
  let ikey := key ++ EncodeFixed64 (Z.lor (wrap64 (Z.shiftl s 8)) t) in
  size ikey = size key + 8 /\
  Add_entry s t key value
  = Some (EncodeVarint32 (size ikey) ++ ikey ++ EncodeVarint32 (size value) ++ value ++ []).
Proof.
  intros Hk Hv ikey.
  assert (Hik : size ikey = size key + 8).
  { unfold ikey. rewrite size_app, size_EncodeFixed64. reflexivity. }
  split; [exact Hik|].
  assert (H0 : 0 <= size key) by (unfold size; lia).
  assert (H1 : 0 <= size value) by (unfold size; lia).
  change (2 ^ 32) with 4294967296 in *.
  unfold Add_entry.
  rewrite (wrap64_small (size key + 8))
    by (change (2 ^ 64) with 18446744073709551616; lia).
  rewrite (wrap32_small (size key + 8)) by (change (2 ^ 32) with 4294967296; lia).
  rewrite (wrap32_small (size value)) by (change (2 ^ 32) with 4294967296; lia).
  rewrite (VarintLength_32 (size key + 8)) by (change (2 ^ 32) with 4294967296; lia).
  rewrite (VarintLength_32 (size value)) by (change (2 ^ 32) with 4294967296; lia).
  pose proof (size_EncodeVarint32 (size key + 8)) as Hl1.
  pose proof (size_EncodeVarint32 (size value)) as Hl2.
  rewrite (wrap64_small (size (EncodeVarint32 (size key + 8)) + (size key + 8)
                         + size (EncodeVarint32 (size value)) + size value))
    by (change (2 ^ 64) with 18446744073709551616; lia).
  rewrite !size_app, size_EncodeFixed64.
  destruct (Z.eqb_spec
    (size (EncodeVarint32 (size key + 8))
     + (size key + (8 + (size (EncodeVarint32 (size value)) + size value))))
    (size (EncodeVarint32 (size key + 8)) + (size key + 8)
     + size (EncodeVarint32 (size value)) + size value)) as [_|Hne]; [|lia].
  cbn [negb]. rewrite Hik. unfold ikey. rewrite app_nil_r, <- !app_assoc. reflexivity.
Qed.

(** X28. For a key of fewer than [2^32 - 8] bytes, a value of fewer than
    [2^32] bytes and a one-byte type, the entry [MemTable::Add] builds fills
    its allocation exactly (the assertion holds), and the iterator reads
    the internal key and the value back from it.  The internal key decodes
    to the user key and the type that were added and to the 56 low bits of
    the sequence number: [Add] shifts the sequence number into the tag
    without checking it. *)
Theorem Add_entry_round_trip (s t : Z) (key value : list byte) :
  size key + 8 < 2 ^ 32 -> size value < 2 ^ 32 -> 0 <= t < 256 ->
  exists entry ikey,
    Add_entry s t key value = Some entry /\
    MemTable.key entry = Some ikey /\
    MemTable.value entry = Some value /\
    ExtractUserKey ikey = Some key /\
    sequence_of ikey = Some (s mod 2 ^ 56) /\ type_of ikey = Some t.
Proof.
  intros Hk Hv Ht.
  destruct (Add_entry_layout s t key value Hk Hv) as [Hik HA].
  rewrite wrap64_shiftl_8 in Hik, HA.
  set (ikey := key ++ EncodeFixed64 (Z.lor (Z.shiftl (s mod 2 ^ 56) 8) t)) in *.
  assert (Hik32 : size ikey < 2 ^ 32) by lia.
  destruct (GetLengthPrefixedSlice_prefixed ikey
              (EncodeVarint32 (size value) ++ value ++ []) Hik32) as [HG HK].
  destruct (GetLengthPrefixedSlice_prefixed value [] Hv) as [_ HV].
  assert (Hs : 0 <= s mod 2 ^ 56 < 2 ^ 56) by (apply Z.mod_pos_bound; lia).
  destruct (pack_fields (s mod 2 ^ 56) t Hs Ht) as (Htag & Hseq & Hty).
  destruct (tagged_key key _ Htag) as (Hu & Htg & _). fold ikey in Hu, Htg.
  eexists _, ikey. split; [exact HA|]. split; [exact HK|]. split.
  - unfold MemTable.value. rewrite HG. cbn [mbind option_bind].
    rewrite size_app.
    destruct (Z.ltb_spec (size ikey + size (EncodeVarint32 (size value) ++ value ++ []))
                (size ikey)) as [Hlt|_].
    { unfold size in Hlt. lia. }
    rewrite slice_from_app_size. exact HV.
  - split; [exact Hu|]. unfold sequence_of, type_of. rewrite Htg.
    cbn [mbind option_bind]. rewrite Hseq, Hty. split; reflexivity.
Qed.

Lemma Add_entry_round_trip_witness :
  (exists entry ikey,
     Add_entry 5 1 [x6b] [x76] = Some entry /\
     MemTable.key entry = Some ikey /\
     MemTable.value entry = Some [x76] /\
     ExtractUserKey ikey = Some [x6b] /\
     sequence_of ikey = Some (5 mod 2 ^ 56) /\ type_of ikey = Some 1) /\
  (exists entry ikey,
     Add_entry (2 ^ 56 + 5) 1 [x6b] [x76] = Some entry /\
     MemTable.key entry = Some ikey /\
     MemTable.value entry = Some [x76] /\
     ExtractUserKey ikey = Some [x6b] /\
     sequence_of ikey = Some ((2 ^ 56 + 5) mod 2 ^ 56) /\ type_of ikey = Some 1).
Proof.
  split.
  - apply (Add_entry_round_trip 5 1 [x6b] [x76]).
    + unfold size; cbn [length]. split.
    + unfold size; cbn [length]. split.
    + lia.
  - apply (Add_entry_round_trip (2 ^ 56 + 5) 1 [x6b] [x76]).
    + unfold size; cbn [length]. split.
    + unfold size; cbn [length]. split.
    + lia.
Defined.

(** X29. [MemTable::Get] on an entry that [Add] has built from a key of
    fewer than [2^32 - 8] bytes, a value of fewer than [2^32] bytes and a
    one-byte type, whatever the sequence number: if the user comparator
    finds the user key of the entry equal to the one looked up, the answer
    is the value added for the type [kTypeValue] and the status [NotFound]
    for [kTypeDeletion]; if it finds them different, [Get] returns
    [false]. *)
Theorem Get_entry_of_Add (vt : ValueTypes) (user_comparator : list byte -> list byte -> Z)
    (s t : Z) (key value user_key : list byte) (entry : list byte) :
  size key + 8 < 2 ^ 32 -> size value < 2 ^ 32 -> 0 <= t < 256 ->
  Add_entry s t key value = Some entry ->
  Get_entry vt user_comparator entry user_key
  = Some (if user_comparator key user_key =? 0
          then if t =? kTypeValue vt then Found value
               else if t =? kTypeDeletion vt then Deleted
               else Missing
          else Missing).
Proof.
  intros Hk Hv Ht HA.
  destruct (Add_entry_layout s t key value Hk Hv) as [Hik HA'].
  rewrite wrap64_shiftl_8 in Hik, HA'.
  set (tag := Z.lor (Z.shiftl (s mod 2 ^ 56) 8) t) in *.
  set (ikey := key ++ EncodeFixed64 tag) in *.
  rewrite HA in HA'. injection HA' as ->.
  assert (Hik32 : size ikey < 2 ^ 32) by lia.
  destruct (GetLengthPrefixedSlice_prefixed ikey
              (EncodeVarint32 (size value) ++ value ++ []) Hik32) as [HG _].
  destruct (GetLengthPrefixedSlice_prefixed value [] Hv) as [_ HV].
  assert (Hs : 0 <= s mod 2 ^ 56 < 2 ^ 56) by (apply Z.mod_pos_bound; lia).
  destruct (pack_fields (s mod 2 ^ 56) t Hs Ht) as (Htag & _ & Hty).
  fold tag in Htag, Hty.
  assert (H0 : 0 <= size key) by (unfold size; lia).
  set (R := EncodeVarint32 (size value) ++ value ++ []) in *.
  assert (F1 : slice_to (size key) (ikey ++ R) = key).
  { unfold ikey. rewrite <- app_assoc. apply slice_to_app_size. }
  assert (F2 : slice_from (size key) (ikey ++ R) = EncodeFixed64 tag ++ R).
  { unfold ikey. rewrite <- app_assoc. apply slice_from_app_size. }
  assert (F3 : slice_from (size key + 8) (ikey ++ R) = R).
  { rewrite <- Hik. apply slice_from_app_size. }
  unfold Get_entry. rewrite HG. cbn [mbind option_bind]. rewrite Hik.
  replace (size key + 8 - 8) with (size key) by lia.
  rewrite (wrap32_small (size key)) by lia.
  rewrite size_app.
  destruct (Z.ltb_spec (size ikey + size R) (size key)) as [Hlt|_].
  { unfold size in *. lia. }
  rewrite F1, F2, F3.
  destruct (user_comparator key user_key =? 0); [|reflexivity].
  destruct (Z.ltb_spec (size key + 8) 8) as [Hlt|_]; [lia|].
  rewrite DecodeFixed64_EncodeFixed64 by exact Htag.
  cbn [mbind option_bind]. rewrite Hty.
  destruct (t =? kTypeValue vt).
  - rewrite HV. reflexivity.
  - destruct (t =? kTypeDeletion vt); reflexivity.
Qed.

Lemma Get_entry_of_Add_witness :
  exists entry,
    Add_entry (2 ^ 56 + 5) 1 [x6b] [x76] = Some entry /\
    Get_entry leveldb_types BytewiseCompare entry [x6b]
    = Some (if BytewiseCompare [x6b] [x6b] =? 0
            then if 1 =? kTypeValue leveldb_types then Found [x76]
                 else if 1 =? kTypeDeletion leveldb_types then Deleted
                 else Missing
            else Missing).
Proof.
  eexists. split; [vm_compute; reflexivity|].
  apply (Get_entry_of_Add leveldb_types BytewiseCompare (2 ^ 56 + 5) 1 [x6b] [x76] [x6b]).
  - unfold size; cbn [length]. split.
  - unfold size; cbn [length]. split.
  - lia.
  - vm_compute. reflexivity.
Defined.

(** X30. For a user key of fewer than [2^32 - 8] bytes and a sequence number
    up to [kMaxSequenceNumber], the memtable key of a [LookupKey] is the
    internal key of the user key, the sequence number and the seek type,
    with its length in front as [EncodeKey] writes it; so [KeyComparator],
    which [Seek] uses, compares it with an entry that [Add] has built from
    a key of fewer than [2^32 - 8] bytes and a value of fewer than [2^32]
    bytes as the internal key comparator compares the two internal keys. *)
Theorem LookupKey_against_entry (vt : ValueTypes)
    (user_comparator : list byte -> list byte -> Z)
    (u : list byte) (s : Z) (key value : list byte) (s' t : Z) (entry : list byte) :
  size u + 8 < 2 ^ 32 -> 0 <= s <= kMaxSequenceNumber ->
  size key + 8 < 2 ^ 32 -> size value < 2 ^ 32 ->
  Add_entry s' t key value = Some entry ->
  exists ikey,
    AppendInternalKey vt [] {| user_key := u; sequence := s;
                               type := kValueTypeForSeek vt |} = Some ikey /\
    LookupKey vt u s = Some (EncodeKey ikey) /\
    KeyComparator user_comparator (EncodeKey ikey) entry
    = Compare user_comparator ikey
        (key ++ EncodeFixed64 (Z.lor (wrap64 (Z.shiftl s' 8)) t)).
Proof.
  intros Hu Hs Hk Hv HA.
  destruct (Add_entry_layout s' t key value Hk Hv) as [Hik HA'].
  set (ekey := key ++ EncodeFixed64 (Z.lor (wrap64 (Z.shiftl s' 8)) t)) in *.
  rewrite HA in HA'. injection HA' as ->.
  set (ikey := u ++ EncodeFixed64 (Z.lor (Z.shiftl s 8) (kValueTypeForSeek vt))).
  assert (Hsz : size ikey = size u + 8).
  { unfold ikey. rewrite size_app, size_EncodeFixed64. reflexivity. }
  assert (Hpack : PackSequenceAndType vt s (kValueTypeForSeek vt)
                  = Some (Z.lor (Z.shiftl s 8) (kValueTypeForSeek vt))).
  { apply PackSequenceAndType_Some; lia. }
  assert (H0 : 0 <= size u) by (unfold size; lia).
  exists ikey. split; [|split].
  - unfold AppendInternalKey. cbn [user_key sequence type]. rewrite Hpack. reflexivity.
  - unfold LookupKey. rewrite Hpack. cbn [mbind option_bind].
    unfold EncodeKey, PutVarint32. cbn [app]. rewrite Hsz.
    unfold ikey. rewrite <- app_assoc. reflexivity.
  - unfold KeyComparator, EncodeKey, PutVarint32. cbn [app].
    rewrite (wrap32_small (size ikey)) by lia.
    pose proof (GetLengthPrefixedSlice_prefixed ikey [] ltac:(lia)) as [_ HL].
    rewrite app_nil_r in HL. rewrite HL. cbn [mbind option_bind].
    destruct (GetLengthPrefixedSlice_prefixed ekey
                (EncodeVarint32 (size value) ++ value ++ []) ltac:(lia)) as [_ HE].
    rewrite HE. reflexivity.
Qed.

Lemma LookupKey_against_entry_witness :
  exists entry ikey,
    Add_entry 5 1 [x6b] [x76] = Some entry /\
    AppendInternalKey leveldb_types [] {| user_key := [x6b]; sequence := 9;
                                          type := kValueTypeForSeek leveldb_types |}
    = Some ikey /\
    LookupKey leveldb_types [x6b] 9 = Some (EncodeKey ikey) /\
    KeyComparator BytewiseCompare (EncodeKey ikey) entry
    = Compare BytewiseCompare ikey
        ([x6b] ++ EncodeFixed64 (Z.lor (wrap64 (Z.shiftl 5 8)) 1)).
Proof.
  assert (HA : Add_entry 5 1 [x6b] [x76]
               = Some [x09; x6b; x01; x05; x00; x00; x00; x00; x00; x00; x01; x76])
    by (vm_compute; reflexivity).
  destruct (LookupKey_against_entry leveldb_types BytewiseCompare [x6b] 9 [x6b] [x76] 5 1
              [x09; x6b; x01; x05; x00; x00; x00; x00; x00; x00; x01; x76])
    as (ikey & H1 & H2 & H3).
  - unfold size; cbn [length]. split.
  - vm_compute. split; discriminate.
  - unfold size; cbn [length]. split.
  - unfold size; cbn [length]. split.
  - exact HA.
  - eexists _, ikey. split; [exact HA|]. split; [exact H1|]. split; [exact H2|exact H3].
Defined.

End MemTableFacts.
